(** * A shallow embedding of the CDCL primitives of [sat_api.c]

    The C library keeps one mutable [SatState] that every primitive reads and
    writes through pointers.  The embedding below models

    - pointers as handles ([VarRef], [LitRef], [ClauseRef]) into the state,
      a null pointer as [None];
    - the [ARRAY(type)] structs as lists (the list holds [item[0..count)])
      together with their allocated [size] where the code iterates up to
      [ARRAY_S_END] or relies on the capacity;
    - the [sys/queue.h] lists as lists whose head is [lh_first];
    - every primitive as a function in a state-and-fault monad: a null
      dereference, an out-of-bounds access or a read of a slot that was never
      written is the outcome [Fault]; the [dominator] walk, whose termination
      depends on the data, takes fuel and may answer [OutOfFuel]. *)

From Stdlib Require Import ZArith NArith Lia Bool.
From stdpp Require Import base tactics decidable option list relations.

Set Default Proof Using "Type".
#[global] Set Warnings "-clear-no-such-hyp".

(** ** Machine integers *)

(** [c2dSize] is [unsigned long]: a value is a natural number below [2^64]
    and arithmetic wraps modulo [2^64]. *)
Definition c2dSize_wrap (n : N) : N := (n mod 2 ^ 64)%N.
Definition c2dSize_succ (n : N) : N := c2dSize_wrap (n + 1).
Definition c2dSize_pred (n : N) : N := c2dSize_wrap (n + (2 ^ 64 - 1)).
Definition c2dSize_sub (a b : N) : N :=
  c2dSize_wrap (a + (2 ^ 64 - c2dSize_wrap b)).

(** [abs] takes an [int]: a [c2dLiteral] argument is first converted to 32
    bits (two's complement). *)
Definition int_of_long (z : Z) : Z := ((z + 2 ^ 31) mod 2 ^ 32 - 2 ^ 31)%Z.
Definition c_abs (z : Z) : Z := Z.abs (int_of_long z).

(** ** Handles *)

(** [Var*]: the address of [sat_state->contradiction] or of
    [sat_state->vars.item[index]]. *)
Inductive VarRef : Type :=
  | Contradiction
  | VarAt (index : nat).

(** [Lit*]: the address of [var->lit[side]]; [pos = true], [neg = false]. *)
Record LitRef : Type := mkLitRef { lit_var : VarRef; lit_side : bool }.

(** [Clause*]: the address of [sat_state->false_clause], or of a clause
    object.  Handles below [clauses.size] are the slots of the
    [sat_state->clauses] array, the others are the clauses that
    [sat_build_asserting_clause] obtained from [malloc]. *)
Inductive ClauseRef : Type :=
  | FalseClause
  | ClauseAt (handle : nat).

#[global] Instance VarRef_eq_dec : EqDecision VarRef.
Proof. solve_decision. Defined.
#[global] Instance LitRef_eq_dec : EqDecision LitRef.
Proof. solve_decision. Defined.
#[global] Instance ClauseRef_eq_dec : EqDecision ClauseRef.
Proof. solve_decision. Defined.

(** ** Structures of [sat_api.h] *)

(** [struct literal].  [appears_in] is an [ARRAY(Clause* )]: [appears_size]
    is its [size], the list its written slots.  The [var] back pointer is the
    [lit_var] of the handle (see [lit_owner]). *)
Record Lit : Type := mkLit {
  lit_id : Z;
  appears_size : nat;
  appears_in : list ClauseRef;
  watch_list : list ClauseRef;
  learned_list : list ClauseRef
}.

Record Decision : Type := mkDecision {
  d_value : bool;
  d_level : N;
  d_order : nat;
  d_implied_by : option ClauseRef;
  d_dominator : option VarRef
}.

(** [struct var]; [var_neg] is [lit[neg]], [var_pos] is [lit[pos]]. *)
Record Var : Type := mkVar {
  var_id : N;
  var_neg : Lit;
  var_pos : Lit;
  decision : Decision;
  var_mark : bool
}.

(** [struct clause]; [lits_size] is [lits.size], the list [lits] holds
    [lits.item[0..count)]. *)
Record Clause : Type := mkClause {
  clause_id : N;
  assertion_level : N;
  lits_size : nat;
  lits : list LitRef;
  watch_a : option LitRef;
  watch_b : option LitRef;
  is_subsumed : bool;
  clause_mark : bool
}.

(** [struct sat_state_t].  [heap] holds the clause objects: the original
    clauses first, in file order, then the learned ones in allocation order.
    [decided_literals] is the trail, oldest entry first, as in the array. *)
Record SatState : Type := mkSatState {
  level : N;
  contradiction : Var;
  false_clause : Clause;
  marks : list bool;
  vars : list Var;
  clauses_size : nat;
  heap : list Clause;
  decided_literals : list LitRef;
  propagate_literals : list LitRef;
  learned_clauses : list ClauseRef;
  subsumed_clauses : list (option ClauseRef)
}.

(** *** Field updates *)

Definition lit_with_appears_size (n : nat) (l : Lit) : Lit :=
  mkLit (lit_id l) n (appears_in l) (watch_list l) (learned_list l).
Definition lit_with_appears_in (a : list ClauseRef) (l : Lit) : Lit :=
  mkLit (lit_id l) (appears_size l) a (watch_list l) (learned_list l).
Definition lit_with_watch_list (w : list ClauseRef) (l : Lit) : Lit :=
  mkLit (lit_id l) (appears_size l) (appears_in l) w (learned_list l).
Definition lit_with_learned_list (w : list ClauseRef) (l : Lit) : Lit :=
  mkLit (lit_id l) (appears_size l) (appears_in l) (watch_list l) w.

Definition var_with_decision (d : Decision) (v : Var) : Var :=
  mkVar (var_id v) (var_neg v) (var_pos v) d (var_mark v).
Definition var_with_mark (b : bool) (v : Var) : Var :=
  mkVar (var_id v) (var_neg v) (var_pos v) (decision v) b.
Definition var_lit (side : bool) (v : Var) : Lit :=
  if side then var_pos v else var_neg v.
Definition var_with_lit (side : bool) (l : Lit) (v : Var) : Var :=
  if side then mkVar (var_id v) (var_neg v) l (decision v) (var_mark v)
  else mkVar (var_id v) l (var_pos v) (decision v) (var_mark v).

Definition clause_with_watch_a (w : option LitRef) (c : Clause) : Clause :=
  mkClause (clause_id c) (assertion_level c) (lits_size c) (lits c)
           w (watch_b c) (is_subsumed c) (clause_mark c).
Definition clause_with_watch_b (w : option LitRef) (c : Clause) : Clause :=
  mkClause (clause_id c) (assertion_level c) (lits_size c) (lits c)
           (watch_a c) w (is_subsumed c) (clause_mark c).
Definition clause_with_subsumed (b : bool) (c : Clause) : Clause :=
  mkClause (clause_id c) (assertion_level c) (lits_size c) (lits c)
           (watch_a c) (watch_b c) b (clause_mark c).
Definition clause_with_mark (b : bool) (c : Clause) : Clause :=
  mkClause (clause_id c) (assertion_level c) (lits_size c) (lits c)
           (watch_a c) (watch_b c) (is_subsumed c) b.
Definition clause_with_assertion_level (al : N) (c : Clause) : Clause :=
  mkClause (clause_id c) al (lits_size c) (lits c)
           (watch_a c) (watch_b c) (is_subsumed c) (clause_mark c).
Definition clause_with_lits (ls : list LitRef) (c : Clause) : Clause :=
  mkClause (clause_id c) (assertion_level c) (lits_size c) ls
           (watch_a c) (watch_b c) (is_subsumed c) (clause_mark c).

Definition st_with_level (z : N) (s : SatState) : SatState :=
  mkSatState z (contradiction s) (false_clause s) (marks s) (vars s)
    (clauses_size s) (heap s) (decided_literals s) (propagate_literals s)
    (learned_clauses s) (subsumed_clauses s).
Definition st_with_contradiction (v : Var) (s : SatState) : SatState :=
  mkSatState (level s) v (false_clause s) (marks s) (vars s)
    (clauses_size s) (heap s) (decided_literals s) (propagate_literals s)
    (learned_clauses s) (subsumed_clauses s).
Definition st_with_false_clause (c : Clause) (s : SatState) : SatState :=
  mkSatState (level s) (contradiction s) c (marks s) (vars s)
    (clauses_size s) (heap s) (decided_literals s) (propagate_literals s)
    (learned_clauses s) (subsumed_clauses s).
Definition st_with_marks (m : list bool) (s : SatState) : SatState :=
  mkSatState (level s) (contradiction s) (false_clause s) m (vars s)
    (clauses_size s) (heap s) (decided_literals s) (propagate_literals s)
    (learned_clauses s) (subsumed_clauses s).
Definition st_with_vars (vs : list Var) (s : SatState) : SatState :=
  mkSatState (level s) (contradiction s) (false_clause s) (marks s) vs
    (clauses_size s) (heap s) (decided_literals s) (propagate_literals s)
    (learned_clauses s) (subsumed_clauses s).
Definition st_with_heap (h : list Clause) (s : SatState) : SatState :=
  mkSatState (level s) (contradiction s) (false_clause s) (marks s) (vars s)
    (clauses_size s) h (decided_literals s) (propagate_literals s)
    (learned_clauses s) (subsumed_clauses s).
Definition st_with_decided (t : list LitRef) (s : SatState) : SatState :=
  mkSatState (level s) (contradiction s) (false_clause s) (marks s) (vars s)
    (clauses_size s) (heap s) t (propagate_literals s)
    (learned_clauses s) (subsumed_clauses s).
Definition st_with_propagate (q : list LitRef) (s : SatState) : SatState :=
  mkSatState (level s) (contradiction s) (false_clause s) (marks s) (vars s)
    (clauses_size s) (heap s) (decided_literals s) q
    (learned_clauses s) (subsumed_clauses s).
Definition st_with_learned (l : list ClauseRef) (s : SatState) : SatState :=
  mkSatState (level s) (contradiction s) (false_clause s) (marks s) (vars s)
    (clauses_size s) (heap s) (decided_literals s) (propagate_literals s)
    l (subsumed_clauses s).
Definition st_with_subsumed (l : list (option ClauseRef)) (s : SatState)
  : SatState :=
  mkSatState (level s) (contradiction s) (false_clause s) (marks s) (vars s)
    (clauses_size s) (heap s) (decided_literals s) (propagate_literals s)
    (learned_clauses s) l.

(** ** The state-and-fault monad *)

Inductive Res (A : Type) : Type :=
  | Ok (a : A)
  | Fault
  | OutOfFuel.
Arguments Ok {A} a.
Arguments Fault {A}.
Arguments OutOfFuel {A}.

Definition M (A : Type) : Type := SatState -> Res (A * SatState).

Definition ret {A} (a : A) : M A := fun st => Ok (a, st).
Definition bind {A B} (m : M A) (k : A -> M B) : M B :=
  fun st =>
    match m st with
    | Ok (a, st') => k a st'
    | Fault => Fault
    | OutOfFuel => OutOfFuel
    end.
Definition fault {A} : M A := fun _ => Fault.
Definition out_of_fuel {A} : M A := fun _ => OutOfFuel.
Definition gets {A} (f : SatState -> A) : M A := fun st => Ok (f st, st).
Definition modify (f : SatState -> SatState) : M unit :=
  fun st => Ok (tt, f st).
Definition lift_opt {A} (o : option A) : M A :=
  match o with Some a => ret a | None => fault end.

Declare Scope sat_scope.
Delimit Scope sat_scope with sat.
Notation "'do' x <- m ; k" := (bind m (fun x => k))
  (at level 10, x name, m at level 100, k at level 200) : sat_scope.
Notation "'run' m ; k" := (bind m (fun _ => k))
  (at level 10, m at level 100, k at level 200) : sat_scope.
Local Open Scope sat_scope.

(** A [for] loop over the elements of a list. *)
Fixpoint for_each {A} (f : A -> M unit) (l : list A) : M unit :=
  match l with
  | [] => ret tt
  | x :: l' => run f x; for_each f l'
  end.

(** ** Memory accesses *)

Definition get_var (st : SatState) (r : VarRef) : option Var :=
  match r with
  | Contradiction => Some (contradiction st)
  | VarAt i => vars st !! i
  end.

Definition set_var (r : VarRef) (v : Var) (st : SatState) : SatState :=
  mkSatState (level st)
    (match r with Contradiction => v | VarAt _ => contradiction st end)
    (false_clause st) (marks st)
    (match r with Contradiction => vars st | VarAt i => <[i := v]> (vars st) end)
    (clauses_size st) (heap st) (decided_literals st) (propagate_literals st)
    (learned_clauses st) (subsumed_clauses st).

Definition read_var (r : VarRef) : M Var :=
  fun st =>
    match get_var st r with Some v => Ok (v, st) | None => Fault end.

Definition update_var (r : VarRef) (f : Var -> Var) : M unit :=
  fun st =>
    match get_var st r with
    | Some v => Ok (tt, set_var r (f v) st)
    | None => Fault
    end.

Definition read_lit (l : LitRef) : M Lit :=
  do v <- read_var (lit_var l); ret (var_lit (lit_side l) v).

Definition update_lit (l : LitRef) (f : Lit -> Lit) : M unit :=
  update_var (lit_var l)
    (fun v => var_with_lit (lit_side l) (f (var_lit (lit_side l) v)) v).

(** [lit->var].  [init_Var] and [sat_state_new] set the back pointer of every
    literal except [contradiction.lit[neg]], which is never initialised:
    following that pointer is a fault. *)
Definition lit_owner (l : LitRef) : M VarRef :=
  match l with
  | mkLitRef Contradiction false => fault
  | mkLitRef r _ => ret r
  end.

Definition get_clause (st : SatState) (c : ClauseRef) : option Clause :=
  match c with
  | FalseClause => Some (false_clause st)
  | ClauseAt h => heap st !! h
  end.

Definition set_clause (c : ClauseRef) (cl : Clause) (st : SatState)
  : SatState :=
  mkSatState (level st) (contradiction st)
    (match c with FalseClause => cl | ClauseAt _ => false_clause st end)
    (marks st) (vars st) (clauses_size st)
    (match c with FalseClause => heap st | ClauseAt h => <[h := cl]> (heap st) end)
    (decided_literals st) (propagate_literals st)
    (learned_clauses st) (subsumed_clauses st).

Definition read_clause_at (c : ClauseRef) : M Clause :=
  fun st =>
    match get_clause st c with Some cl => Ok (cl, st) | None => Fault end.

Definition update_clause (c : ClauseRef) (f : Clause -> Clause) : M unit :=
  fun st =>
    match get_clause st c with
    | Some cl => Ok (tt, set_clause c (f cl) st)
    | None => Fault
    end.

(** The slots [item[0..size)] of an array whose first [count] slots were
    written: a slot that was never written holds no pointer. *)
Definition slots {A} (size : nat) (written : list A) : list (option A) :=
  take size ((Some <$> written) ++ replicate (size - length written) None).

(** [sat_state->decided_literals.item[count++] = lit]; the array was
    allocated with [vars.size + 1] slots. *)
Definition push_decided (l : LitRef) : M unit :=
  fun st =>
    if length (decided_literals st) <? S (length (vars st))
    then Ok (tt, st_with_decided (decided_literals st ++ [l]) st)
    else Fault.

(** [sat_state->propagate_literals.item[count++] = lit]; the array was
    allocated with [vars.size] slots. *)
Definition push_propagate (l : LitRef) : M unit :=
  fun st =>
    if length (propagate_literals st) <? length (vars st)
    then Ok (tt, st_with_propagate (propagate_literals st ++ [l]) st)
    else Fault.

(** ** Variables *)

Definition decided_var (lvl : N) (value : bool) (implier : option ClauseRef)
    (v : Var) : Var :=
  var_with_decision
    (mkDecision value lvl (d_order (decision v)) implier
                (d_dominator (decision v))) v.

Definition undecided_var (v : Var) : Var :=
  var_with_decision
    (mkDecision (d_value (decision v)) 0 (d_order (decision v))
                (d_implied_by (decision v)) (d_dominator (decision v))) v.

Definition set_Var_Decision (var : VarRef) (lvl : N) (value : bool)
    (implier : option ClauseRef) : M unit :=
  update_var var (decided_var lvl value implier).

Definition unset_Var_Decision (var : VarRef) : M unit :=
  update_var var undecided_var.

Definition sat_instantiated_var (v : Var) : bool :=
  (0 <? d_level (decision v))%N.

(** ** Clauses *)

Definition sat_subsumed_clause (c : ClauseRef) : M bool :=
  do cl <- read_clause_at c; ret (is_subsumed cl).

(** [sat_subsume_clause(clause, sat_state)]; the argument may be a null
    pointer, which the function dereferences. *)
Definition sat_subsume_clause (clause : option ClauseRef) : M unit :=
  do c <- lift_opt clause;
  do cl <- read_clause_at c;
  if is_subsumed cl then ret tt
  else
    run update_clause c (clause_with_subsumed true);
    modify (fun st => st_with_subsumed (Some c :: subsumed_clauses st) st).

Fixpoint all_subsumed (l : list (option ClauseRef)) : M bool :=
  match l with
  | [] => ret true
  | s :: l' =>
      do c <- lift_opt s;
      do b <- sat_subsumed_clause c;
      if b then all_subsumed l' else ret false
  end.

(** [sat_irrelevant_var]: both loops run up to [ARRAY_S_END]. *)
Definition sat_irrelevant_var (var : VarRef) : M bool :=
  do v <- read_var var;
  do p <- all_subsumed (slots (appears_size (var_pos v)) (appears_in (var_pos v)));
  if p then
    all_subsumed (slots (appears_size (var_neg v)) (appears_in (var_neg v)))
  else ret false.

(** ** Literals *)

(** [sat_instantiated_var(lit->var) && (lit->id < 0 ^ lit->var->decision.value)]
    on the variable [v] that owns the literal. *)
Definition implied_in (side : bool) (v : Var) : bool :=
  sat_instantiated_var v
  && xorb (lit_id (var_lit side v) <? 0)%Z (d_value (decision v)).

Definition sat_implied_literal (lit : LitRef) : M bool :=
  do owner <- lit_owner lit;
  do v <- read_var owner;
  ret (implied_in (lit_side lit) v).

Definition sat_contradiction (implier : option ClauseRef) : M bool :=
  do lvl <- gets level;
  run set_Var_Decision Contradiction lvl true implier;
  run push_decided (mkLitRef Contradiction true);
  ret false.

Definition set_Lit_Decision (lit : LitRef) (implier : option ClauseRef)
  : M bool :=
  do owner <- lit_owner lit;
  do v <- read_var owner;
  if negb (sat_instantiated_var v) then
    do l <- read_lit lit;
    do lvl <- gets level;
    run set_Var_Decision owner lvl (0 <? lit_id l)%Z implier;
    run push_decided lit;
    ret true
  else
    do implied <- sat_implied_literal lit;
    if negb implied then sat_contradiction implier
    else run sat_subsume_clause implier; ret true.

(** [sat_unwatched_literal]: the scan of [clause->lits] from [ARRAY_BEGIN] to
    [ARRAY_S_END]; the argument list holds the slots still to visit. *)
Fixpoint unwatched_scan (clause : ClauseRef) (todo : list (option LitRef))
  : M (option LitRef) :=
  match todo with
  | [] => ret None
  | slot :: todo' =>
      do l <- lift_opt slot;
      do owner <- lit_owner l;
      do v <- read_var owner;
      if sat_instantiated_var v then
        do implied <- sat_implied_literal l;
        if implied then run sat_subsume_clause (Some clause); ret None
        else unwatched_scan clause todo'
      else
        do cl <- read_clause_at clause;
        if bool_decide (Some l = watch_a cl) || bool_decide (Some l = watch_b cl)
        then unwatched_scan clause todo'
        else ret (Some l)
  end.

Definition sat_unwatched_literal (clause : ClauseRef) : M (option LitRef) :=
  do cl <- read_clause_at clause;
  unwatched_scan clause (slots (lits_size cl) (lits cl)).

(** The [else] branch of the watch loop of [propagate_lit_decision]: no
    replacement watch was found.  The result tells whether the loop goes on
    ([true]) or [propagate_lit_decision] returns [false]. *)
Definition propagate_unit (clit : LitRef) (clause : ClauseRef) : M bool :=
  do cl <- read_clause_at clause;
  let other_lit :=
    if bool_decide (Some clit = watch_a cl) then watch_b cl else watch_a cl in
  match other_lit with
  | None => sat_contradiction (Some clause)
  | Some other =>
      do owner <- lit_owner other;
      do ov <- read_var owner;
      if sat_instantiated_var ov then
        do implied <- sat_implied_literal other;
        if implied then run sat_subsume_clause (Some clause); ret true
        else sat_contradiction (Some clause)
      else
        do ok <- set_Lit_Decision other (Some clause);
        if negb ok then ret false
        else run push_propagate other; ret true
  end.

(** The [if(l)] branch: [l] replaces [clit] as a watch of the clause, and the
    list node (at position [i] of [clit]'s watch list) moves to the head of
    [l]'s watch list. *)
Definition replace_watch (clit : LitRef) (clause : ClauseRef) (i : nat)
    (l : LitRef) : M unit :=
  do cl <- read_clause_at clause;
  run (if bool_decide (Some clit = watch_a cl)
       then update_clause clause (clause_with_watch_a (Some l))
       else update_clause clause (clause_with_watch_b (Some l)));
  run update_lit clit (fun x => lit_with_watch_list (delete i (watch_list x)) x);
  update_lit l (fun x => lit_with_watch_list (clause :: watch_list x) x).

(** The watch loop of [propagate_lit_decision].  [todo] holds the clauses of
    the nodes from [cln] on; [i] is the position of [cln] in the watch list of
    [clit] as it stands in the state. *)
Fixpoint watch_loop (clit : LitRef) (todo : list ClauseRef) (i : nat)
  : M bool :=
  match todo with
  | [] => ret true
  | clause :: todo' =>
      do sub <- sat_subsumed_clause clause;
      if sub then watch_loop clit todo' (S i)
      else
        do l <- sat_unwatched_literal clause;
        do sub' <- sat_subsumed_clause clause;
        if sub' then watch_loop clit todo' (S i)
        else
          match l with
          | Some l =>
              run replace_watch clit clause i l;
              watch_loop clit todo' (if bool_decide (l = clit) then S i else i)
          | None =>
              do go_on <- propagate_unit clit clause;
              if go_on then watch_loop clit todo' (S i) else ret false
          end
  end.

Definition propagate_lit_decision (lit : LitRef) : M bool :=
  do var <- lit_owner lit;
  do l <- read_lit lit;
  run for_each (fun slot => do c <- lift_opt slot; sat_subsume_clause (Some c))
        (slots (appears_size l) (appears_in l));
  run for_each (fun c => sat_subsume_clause (Some c)) (learned_list l);
  let clit := mkLitRef var (lit_id l <? 0)%Z in
  do cl <- read_lit clit;
  watch_loop clit (watch_list cl) 0.

(** ** Unit resolution *)

(** The loop of [sat_unit_resolution]; [i] is the position of [unit] in the
    queue and [k] bounds the slots of the queue that are left. *)
Fixpoint drain (k i : nat) : M bool :=
  do q <- gets propagate_literals;
  match q !! i with
  | None => run modify (st_with_propagate []); ret true
  | Some unit =>
      match k with
      | O => fault
      | S k' =>
          do ok <- propagate_lit_decision unit;
          if ok then drain k' (S i) else ret false
      end
  end.

Definition sat_unit_resolution : M bool :=
  do vs <- gets vars; drain (length vs) 0.

Fixpoint undo_trail (k : nat) : M unit :=
  match k with
  | O => ret tt
  | S k' =>
      do tr <- gets decided_literals;
      match last tr with
      | None => ret tt
      | Some lit =>
          do owner <- lit_owner lit;
          do v <- read_var owner;
          do lvl <- gets level;
          if (d_level (decision v) =? lvl)%N then
            run modify (st_with_decided (removelast tr));
            run unset_Var_Decision owner;
            undo_trail k'
          else ret tt
      end
  end.

Fixpoint undo_subsumed (k : nat) : M unit :=
  match k with
  | O => ret tt
  | S k' =>
      do log <- gets subsumed_clauses;
      match log with
      | [] => ret tt
      | node :: log' =>
          run modify (st_with_subsumed log');
          match node with
          | None => ret tt
          | Some c =>
              run update_clause c (clause_with_subsumed false);
              undo_subsumed k'
          end
      end
  end.

Definition sat_undo_unit_resolution : M unit :=
  do tr <- gets decided_literals;
  run undo_trail (length tr);
  do log <- gets subsumed_clauses;
  run undo_subsumed (length log);
  modify (st_with_propagate []).

Definition sat_undo_decide_literal : M unit :=
  run sat_undo_unit_resolution;
  modify (fun st => st_with_level (c2dSize_pred (level st)) st).

Definition sat_at_assertion_level (clause : ClauseRef) : M bool :=
  do cl <- read_clause_at clause;
  do lvl <- gets level;
  ret (assertion_level cl =? lvl)%N.

Definition sat_learned_clause_count : M N :=
  do learned <- gets learned_clauses;
  match learned with
  | [] => ret 0%N
  | c :: _ =>
      do cl <- read_clause_at c;
      do n <- gets clauses_size;
      ret (c2dSize_sub (clause_id cl) (N.of_nat n))
  end.

(** ** Conflict analysis *)

Definition read_order (var : option VarRef) : M nat :=
  do r <- lift_opt var; do v <- read_var r; ret (d_order (decision v)).

Definition read_dominator (var : option VarRef) : M (option VarRef) :=
  do r <- lift_opt var; do v <- read_var r; ret (d_dominator (decision v)).

(** [while(fixed->decision.order < moving->decision.order)
      moving = moving->decision.dominator;] *)
Fixpoint climb (fuel : nat) (fixed moving : option VarRef)
  : M (option VarRef) :=
  match fuel with
  | O => out_of_fuel
  | S fuel' =>
      do o_fixed <- read_order fixed;
      do o_moving <- read_order moving;
      if o_fixed <? o_moving then
        do up <- read_dominator moving; climb fuel' fixed up
      else ret moving
  end.

(** [dominator(var1, var2)]: both arguments may be null pointers. *)
Fixpoint dominator (fuel : nat) (var1 var2 : option VarRef)
  : M (option VarRef) :=
  match fuel with
  | O => out_of_fuel
  | S fuel' =>
      if bool_decide (var1 = var2) then ret var1
      else
        do var2' <- climb fuel' var1 var2;
        do var1' <- climb fuel' var2' var1;
        dominator fuel' var1' var2'
  end.

Definition var_with_order_dominator (order : nat) (dom : option VarRef)
    (v : Var) : Var :=
  var_with_decision
    (mkDecision (d_value (decision v)) (d_level (decision v)) order
                (d_implied_by (decision v)) dom) v.

Definition set_order_dominator (var : VarRef) (order : nat)
    (dom : option VarRef) : M unit :=
  update_var var (var_with_order_dominator order dom).

Definition set_dominator (var : VarRef) (dom : option VarRef) : M unit :=
  update_var var (fun v => var_with_order_dominator (d_order (decision v)) dom v).

(** First loop of [sat_compute_UIP]: walks the trail down from
    [last_decision] while the entry has an implier; returns the index it
    stops at.  Decrementing index 0 wraps around and leaves the array. *)
Fixpoint uip_reset (last_decision : nat) : M nat :=
  do tr <- gets decided_literals;
  do lit <- lift_opt (tr !! last_decision);
  do owner <- lit_owner lit;
  do v <- read_var owner;
  match d_implied_by (decision v) with
  | None => ret last_decision
  | Some _ =>
      run set_order_dominator owner last_decision None;
      match last_decision with
      | O => fault
      | S below => uip_reset below
      end
  end.

(** Inner loop of [sat_compute_UIP] over the literals [pred] of the implier
    of [lit]. *)
Fixpoint uip_preds (fuel : nat) (lit : LitRef) (todo : list (option LitRef))
  : M unit :=
  match todo with
  | [] => ret tt
  | slot :: todo' =>
      do pred <- lift_opt slot;
      do powner <- lit_owner pred;
      do pv <- read_var powner;
      do lvl <- gets level;
      if negb (d_level (decision pv) =? lvl)%N || bool_decide (pred = lit)
      then uip_preds fuel lit todo'
      else
        do owner <- lit_owner lit;
        do v <- read_var owner;
        run match d_dominator (decision v) with
            | None => set_dominator owner (Some powner)
            | Some d =>
                do d' <- dominator fuel (Some powner) (Some d);
                set_dominator owner d'
            end;
        uip_preds fuel lit todo'
  end.

(** Outer loop of [sat_compute_UIP] over the trail entries above the
    decision. *)
Fixpoint uip_forward (fuel : nat) (todo : list LitRef) : M unit :=
  match todo with
  | [] => ret tt
  | lit :: todo' =>
      do owner <- lit_owner lit;
      do v <- read_var owner;
      do implier <- lift_opt (d_implied_by (decision v));
      do cl <- read_clause_at implier;
      run uip_preds fuel lit (slots (lits_size cl) (lits cl));
      uip_forward fuel todo'
  end.

Definition sat_compute_UIP (fuel : nat) : M (option VarRef) :=
  do tr <- gets decided_literals;
  do last_decision <- uip_reset (length tr - 1);
  do lit <- lift_opt (tr !! last_decision);
  do owner <- lit_owner lit;
  run set_order_dominator owner last_decision (Some owner);
  run uip_forward fuel (drop (S last_decision) tr);
  do c <- read_var Contradiction;
  ret (d_dominator (decision c)).

Definition read_mark (id : N) : M bool :=
  fun st =>
    match marks st !! N.to_nat id with
    | Some b => Ok (b, st)
    | None => Fault
    end.

Definition write_mark (id : N) (b : bool) : M unit :=
  fun st =>
    if N.to_nat id <? length (marks st)
    then Ok (tt, st_with_marks (<[N.to_nat id := b]> (marks st)) st)
    else Fault.

(** Inner loop of the backward sweep of [sat_build_asserting_clause]; the
    result is the updated [clause_size]. *)
Fixpoint mark_reasons (todo : list (option LitRef)) (clause_size : nat)
  : M nat :=
  match todo with
  | [] => ret clause_size
  | slot :: todo' =>
      do lit <- lift_opt slot;
      do owner <- lit_owner lit;
      do v <- read_var owner;
      do lvl <- gets level;
      if (d_level (decision v) <? lvl)%N then
        do m <- read_mark (var_id v);
        if m then mark_reasons todo' clause_size
        else run write_mark (var_id v) true; mark_reasons todo' (S clause_size)
      else mark_reasons todo' clause_size
  end.

(** Backward sweep: from [post_uip] down to the entry of [uip]. *)
Fixpoint backward_sweep (fuel : nat) (uip : option VarRef) (post_uip : nat)
    (clause_size : nat) : M nat :=
  do tr <- gets decided_literals;
  do dlit <- lift_opt (tr !! post_uip);
  do owner <- lit_owner dlit;
  if bool_decide (Some owner = uip) then ret clause_size
  else
    do dv <- read_var owner;
    do d <- dominator fuel uip (d_dominator (decision dv));
    do clause_size' <-
      (if bool_decide (d = uip) then
         do implier <- lift_opt (d_implied_by (decision dv));
         do cl <- read_clause_at implier;
         mark_reasons (slots (lits_size cl) (lits cl)) clause_size
       else ret clause_size);
    match post_uip with
    | O => fault
    | S below => backward_sweep fuel uip below clause_size'
    end.

Definition init_Clause (mem : Clause) (id : N) (lit_count : nat) : Clause :=
  mkClause id (assertion_level mem) lit_count [] None None false false.

(** [clause->lits.item[clause->lits.count++] = lit] on a clause that is not
    yet part of the state. *)
Definition push_lit (lit : LitRef) (cl : Clause) : M Clause :=
  if length (lits cl) <? lits_size cl
  then ret (clause_with_lits (lits cl ++ [lit]) cl)
  else fault.

(** Forward sweep: over the trail from its first entry while the entry's
    level is below the current one.  Slots at or after [count] hold stale or
    unwritten pointers: reaching them is a fault. *)
Fixpoint forward_sweep (todo : list LitRef) (cl : Clause) : M Clause :=
  match todo with
  | [] => fault
  | lit :: todo' =>
      do owner <- lit_owner lit;
      do v <- read_var owner;
      do lvl <- gets level;
      if (d_level (decision v) <? lvl)%N then
        do m <- read_mark (var_id v);
        if m then
          run write_mark (var_id v) false;
          do cl' <- push_lit (mkLitRef owner (negb (d_value (decision v)))) cl;
          forward_sweep todo'
            (clause_with_assertion_level
               (if (assertion_level cl' <? d_level (decision v))%N
                then d_level (decision v) else assertion_level cl') cl')
        else forward_sweep todo' cl
      else ret cl
  end.

(** [malloc(sizeof(Clause))] followed by the writes that fill the object. *)
Definition alloc_clause (cl : Clause) : M ClauseRef :=
  fun st => Ok (ClauseAt (length (heap st)), st_with_heap (heap st ++ [cl]) st).

Definition blank_clause : Clause := mkClause 0 0 0 [] None None false false.

Definition sat_build_asserting_clause (fuel : nat) : M ClauseRef :=
  do uip <- sat_compute_UIP fuel;
  do tr <- gets decided_literals;
  do clause_size <- backward_sweep fuel uip (length tr - 1) 1;
  do learned <- gets learned_clauses;
  do last_id <-
    match learned with
    | c :: _ => do cl <- read_clause_at c; ret (clause_id cl)
    | [] => do n <- gets clauses_size; ret (N.of_nat n)
    end;
  let clause :=
    clause_with_assertion_level 1
      (init_Clause blank_clause (c2dSize_succ last_id) clause_size) in
  do u <- lift_opt uip;
  do uv <- read_var u;
  do clause' <- push_lit (mkLitRef u (negb (d_value (decision uv)))) clause;
  do clause'' <-
    (if 1 <? clause_size then forward_sweep tr clause' else ret clause');
  alloc_clause clause''.

(** ** Decisions and learned clauses *)

(** [sat_decide_literal] up to the test of [passed]. *)
Definition decide_propagate (lit : LitRef) : M bool :=
  run modify (fun st => st_with_level (c2dSize_succ (level st)) st);
  run modify (fun st => st_with_subsumed (None :: subsumed_clauses st) st);
  do passed <- set_Lit_Decision lit None;
  if passed then run push_propagate lit; sat_unit_resolution
  else ret false.

Definition sat_decide_literal (fuel : nat) (lit : LitRef)
  : M (option ClauseRef) :=
  do passed <- decide_propagate lit;
  if negb passed then
    do c <- sat_build_asserting_clause fuel; ret (Some c)
  else ret None.

(** [sat_assert_clause] up to the writes of the two watches; the result is
    the pair [(clause->watch_a, clause->watch_b)]. *)
Definition assert_watch (clause : ClauseRef) : M (LitRef * LitRef) :=
  run modify (fun st => st_with_learned (clause :: learned_clauses st) st);
  do cl <- read_clause_at clause;
  run for_each
        (fun slot =>
           do lit <- lift_opt slot;
           update_lit lit
             (fun x => lit_with_learned_list (clause :: learned_list x) x))
        (slots (lits_size cl) (lits cl));
  do first <- lift_opt (mjoin (slots (lits_size cl) (lits cl) !! 0));
  do final <-
    (match lits_size cl with
     | O => fault
     | S n => lift_opt (mjoin (slots (lits_size cl) (lits cl) !! n))
     end);
  run update_clause clause
        (fun c => clause_with_watch_b (Some final)
                    (clause_with_watch_a (Some first) c));
  ret (first, final).

(** [sat_assert_clause] up to the test of [passed]. *)
Definition assert_propagate (clause : ClauseRef) : M bool :=
  do w <- assert_watch clause;
  do passed <- set_Lit_Decision (fst w) (Some clause);
  if passed then
    run push_propagate (fst w);
    run update_lit (fst w)
          (fun x => lit_with_watch_list (clause :: watch_list x) x);
    run update_lit (snd w)
          (fun x => lit_with_watch_list (clause :: watch_list x) x);
    sat_unit_resolution
  else ret false.

Definition sat_assert_clause (fuel : nat) (clause : ClauseRef)
  : M (option ClauseRef) :=
  do passed <- assert_propagate clause;
  if negb passed then
    do lvl <- gets level;
    if (1 <? lvl)%N then
      do c <- sat_build_asserting_clause fuel; ret (Some c)
    else ret (Some FalseClause)
  else ret None.

(** ** Construction *)

(** A DIMACS file once [skip_comments], [fscanf] and [strtok]/[strtol] have
    split it: the two numbers of the [p cnf] line and the numbers that
    follow, each clause ending with its [0]. *)
Record Cnf : Type := mkCnf {
  cnf_vars : nat;
  cnf_clauses : nat;
  cnf_tokens : list Z
}.

Definition init_Lit (id : Z) : Lit := mkLit id 0 [] [] [].

(** [init_Var] writes [id], [mark], [decision.level] and the two literals;
    the other fields of [decision] keep what the memory held. *)
Definition init_Var (mem : Var) (id : N) : Var :=
  mkVar id (init_Lit (- Z.of_N id)) (init_Lit (Z.of_N id))
    (mkDecision (d_value (decision mem)) 0 (d_order (decision mem))
                (d_implied_by (decision mem)) (d_dominator (decision mem)))
    false.

(** The token loop of [read_clause]; returns the tokens after the [0]. *)
Fixpoint read_tokens (tokens : list Z) : M (list Z) :=
  match tokens with
  | [] => fault
  | val :: rest =>
      if (val =? 0)%Z then ret rest
      else if (c_abs val <? 1)%Z then fault
      else
        let lit := mkLitRef (VarAt (Z.to_nat (c_abs val - 1))) (0 <? val)%Z in
        run update_lit lit
              (fun x => lit_with_appears_size (S (appears_size x)) x);
        run push_decided lit;
        read_tokens rest
  end.

(** [read_clause] fills the next slot of [sat_state->clauses]; returns its
    handle and the tokens that are left. *)
Definition read_clause (mem : Clause) (tokens : list Z)
  : M (ClauseRef * list Z) :=
  do rest <- read_tokens tokens;
  do buffer <- gets decided_literals;
  do count <- gets (fun st => length (heap st));
  let cl :=
    clause_with_lits buffer
      (init_Clause mem (N.of_nat (S count)) (length buffer)) in
  do c <- alloc_clause cl;
  run modify (st_with_decided []);
  ret (c, rest).

(** First clause loop of [read_sat_cnf]. *)
Fixpoint read_clauses (mem : Clause) (m : nat) (tokens : list Z) : M unit :=
  match m with
  | O => ret tt
  | S m' =>
      do r <- read_clause mem tokens;
      let clause := fst r in
      do cl <- read_clause_at clause;
      do first <- lift_opt (lits cl !! 0);
      run update_clause clause (clause_with_watch_a (Some first));
      run update_lit first
            (fun x => lit_with_watch_list (clause :: watch_list x) x);
      run (if length (lits cl) =? 1 then
             update_clause clause (clause_with_watch_b None)
           else
             do second <- lift_opt (lits cl !! 1);
             run update_clause clause (clause_with_watch_b (Some second));
             update_lit second
               (fun x => lit_with_watch_list (clause :: watch_list x) x));
      read_clauses mem m' (snd r)
  end.

(** [lit->appears_in.item[lit->appears_in.count++] = clause] *)
Definition push_appears (clause : ClauseRef) (lit : LitRef) : M unit :=
  do l <- read_lit lit;
  if length (appears_in l) <? appears_size l then
    update_lit lit (fun x => lit_with_appears_in (appears_in x ++ [clause]) x)
  else fault.

(** Second clause loop of [read_sat_cnf]; the result is [passed]. *)
Fixpoint seed_units (todo : list ClauseRef) (passed : bool) : M bool :=
  match todo with
  | [] => ret passed
  | clause :: todo' =>
      do cl <- read_clause_at clause;
      if (1 <? length (lits cl)) || negb passed then
        run for_each
              (fun slot => do lit <- lift_opt slot; push_appears clause lit)
              (slots (lits_size cl) (lits cl));
        seed_units todo' passed
      else
        do wa <- lift_opt (watch_a cl);
        run push_appears clause wa;
        do passed' <- set_Lit_Decision wa (Some clause);
        run (if negb passed' then
               run modify (fun st =>
                     st_with_decided (removelast (decided_literals st)) st);
               update_clause clause (clause_with_subsumed false)
             else ret tt);
        run push_propagate wa;
        seed_units todo' passed'
  end.

Definition read_sat_cnf (mem_var : Var) (mem_clause : Clause) (cnf : Cnf)
  : M unit :=
  run modify (st_with_vars
        ((fun i => init_Var mem_var (N.of_nat (S i))) <$> seq 0 (cnf_vars cnf)));
  run modify (st_with_learned []);
  run modify (st_with_subsumed []);
  run modify (st_with_propagate []);
  run modify (st_with_decided []);
  run modify (fun st =>
        mkSatState (level st) (contradiction st) (false_clause st) (marks st)
          (vars st) (cnf_clauses cnf) [] (decided_literals st)
          (propagate_literals st) (learned_clauses st) (subsumed_clauses st));
  run read_clauses mem_clause (cnf_clauses cnf) (cnf_tokens cnf);
  do passed <- seed_units (ClauseAt <$> seq 0 (cnf_clauses cnf)) true;
  ret tt.

(** The object [malloc(sizeof(SatState))] returns, after the four writes
    that precede [read_sat_cnf]. *)
Definition fresh_state (mem_var : Var) (mem_clause : Clause) : SatState :=
  mkSatState 1
    (var_with_lit true (init_Lit 0) mem_var)
    (clause_with_assertion_level 0 (init_Clause mem_clause 0 0))
    [] [] 0 [] [] [] [] [].

(** [sat_state_new].  [mem_var] and [mem_clause] stand for what the freshly
    allocated memory holds in the fields the constructors do not write. *)
Definition sat_state_new (mem_var : Var) (mem_clause : Clause) (cnf : Cnf)
  : Res SatState :=
  match read_sat_cnf mem_var mem_clause cnf (fresh_state mem_var mem_clause) with
  | Ok (_, st) =>
      Ok (st_with_marks (replicate (S (length (vars st))) false) st)
  | Fault => Fault
  | OutOfFuel => OutOfFuel
  end.

(** ** The mark bits of the client *)

Definition sat_marked_var (var : VarRef) : M bool :=
  do v <- read_var var; ret (var_mark v).
Definition sat_mark_var (var : VarRef) : M unit :=
  update_var var (var_with_mark true).
Definition sat_unmark_var (var : VarRef) : M unit :=
  update_var var (var_with_mark false).
Definition sat_marked_clause (clause : ClauseRef) : M bool :=
  do cl <- read_clause_at clause; ret (clause_mark cl).
Definition sat_mark_clause (clause : ClauseRef) : M unit :=
  update_clause clause (clause_with_mark true).
Definition sat_unmark_clause (clause : ClauseRef) : M unit :=
  update_clause clause (clause_with_mark false).

(** ** The scenarios of the specification, run on the model *)

Definition mem_var0 : Var :=
  mkVar 0 (init_Lit 0) (init_Lit 0) (mkDecision false 0 0 None None) false.
Definition mem_clause0 : Clause := blank_clause.

Definition pos_lit (i : nat) : LitRef := mkLitRef (VarAt (i - 1)) true.
Definition neg_lit (i : nat) : LitRef := mkLitRef (VarAt (i - 1)) false.

Definition state_of (r : Res SatState) : SatState :=
  match r with Ok st => st | _ => fresh_state mem_var0 mem_clause0 end.
Definition exec {A} (m : M A) (st : SatState) : SatState :=
  match m st with Ok (_, st') => st' | _ => st end.

Definition cnf_S1 : Cnf := mkCnf 1 1 [1; 0]%Z.
Definition cnf_S3 : Cnf := mkCnf 3 2 [-1; 2; 0; -2; 3; 0]%Z.
Definition cnf_S4 : Cnf := mkCnf 3 3 [1; 2; 0; -1; 2; 0; -2; 3; 0]%Z.
Definition cnf_S5 : Cnf :=
  mkCnf 4 4 [-1; 2; 0; -1; 3; 0; -2; -3; 4; 0; -4; 0]%Z.

(** * Specification vocabulary *)

(** ** The effects of propagation

    Everything [sat_unit_resolution] does to the state is a sequence of the
    following atomic effects, closed by at most one [conflict_effect]. *)

Definition contradiction_neg : LitRef := mkLitRef Contradiction false.
Definition contradiction_pos : LitRef := mkLitRef Contradiction true.

(** The value [set_Lit_Decision] gives to the variable of a literal. *)
Definition lit_sign (side : bool) (v : Var) : bool :=
  (0 <? lit_id (var_lit side v))%Z.

Definition with_watch_list (f : list ClauseRef -> list ClauseRef) (side : bool)
    (v : Var) : Var :=
  var_with_lit side
    (lit_with_watch_list (f (watch_list (var_lit side v))) (var_lit side v)) v.

(** The state after [set_Lit_Decision] on a literal whose variable [v] is
    not instantiated. *)
Definition assigned_state (lit : LitRef) (implier : option ClauseRef) (v : Var)
    (st : SatState) : SatState :=
  st_with_decided (decided_literals st ++ [lit])
    (set_var (lit_var lit)
       (decided_var (level st) (lit_sign (lit_side lit) v) implier v) st).

(** The state after [sat_subsume_clause] on a clause [cl] that was not
    subsumed. *)
Definition subsumed_state (c : ClauseRef) (cl : Clause) (st : SatState)
  : SatState :=
  st_with_subsumed (Some c :: subsumed_clauses st)
    (set_clause c (clause_with_subsumed true cl) st).

Inductive effect (st : SatState) : SatState -> Prop :=
  | eff_imply lit v c cl :
      lit <> contradiction_neg ->
      get_var st (lit_var lit) = Some v ->
      d_level (decision v) = 0%N ->
      get_clause st c = Some cl ->
      Some lit = watch_a cl \/ Some lit = watch_b cl ->
      effect st (assigned_state lit (Some c) v st)
  | eff_subsume c cl :
      get_clause st c = Some cl ->
      is_subsumed cl = false ->
      effect st (subsumed_state c cl st)
  | eff_watch_a c cl l :
      get_clause st c = Some cl ->
      l ∈ lits cl -> Some l <> watch_a cl -> Some l <> watch_b cl ->
      effect st (set_clause c (clause_with_watch_a (Some l) cl) st)
  | eff_watch_b c cl l :
      get_clause st c = Some cl ->
      l ∈ lits cl -> Some l <> watch_a cl -> Some l <> watch_b cl ->
      effect st (set_clause c (clause_with_watch_b (Some l) cl) st)
  | eff_watch_list l v f :
      get_var st (lit_var l) = Some v ->
      effect st (set_var (lit_var l) (with_watch_list f (lit_side l) v) st)
  | eff_queue q :
      effect st (st_with_propagate q st).

(** [sat_contradiction(implier, sat_state)]. *)
Definition conflict_state (implier : option ClauseRef) (st : SatState)
  : SatState :=
  st_with_decided (decided_literals st ++ [contradiction_pos])
    (set_var Contradiction
       (decided_var (level st) true implier (contradiction st)) st).

Definition quiet : relation SatState := rtc effect.

(** What a propagation primitive that answers [passed] has done. *)
Definition outcome (passed : bool) (st st' : SatState) : Prop :=
  if passed then quiet st st'
  else exists s c, quiet st s /\ st' = conflict_state (Some c) s.

(** ** What no primitive changes

    After construction the identities, the literals of the clauses and the
    appearance indexes stay as they are; clause objects are only added. *)

Definition same_clause_shape (cl cl' : Clause) : Prop :=
  clause_id cl' = clause_id cl /\
  assertion_level cl' = assertion_level cl /\
  lits_size cl' = lits_size cl /\
  lits cl' = lits cl.

Definition same_lit_shape (l l' : Lit) : Prop :=
  lit_id l' = lit_id l /\
  appears_size l' = appears_size l /\
  appears_in l' = appears_in l.

Definition same_var_shape (v v' : Var) : Prop :=
  var_id v' = var_id v /\
  same_lit_shape (var_pos v) (var_pos v') /\
  same_lit_shape (var_neg v) (var_neg v').

Record stable (st st' : SatState) : Prop := mkStable {
  stable_clauses_size : clauses_size st' = clauses_size st;
  stable_vars_length : length (vars st') = length (vars st);
  stable_marks_length : length (marks st') = length (marks st);
  stable_heap_length : length (heap st) <= length (heap st');
  stable_clause : forall c cl,
    get_clause st c = Some cl ->
    exists cl', get_clause st' c = Some cl' /\ same_clause_shape cl cl';
  stable_var : forall r v,
    get_var st r = Some v ->
    exists v', get_var st' r = Some v' /\ same_var_shape v v'
}.

(** The fields propagation leaves alone. *)
Definition kept (st st' : SatState) : Prop :=
  level st' = level st /\
  marks st' = marks st /\
  learned_clauses st' = learned_clauses st /\
  length (heap st') = length (heap st).

(** ** The effects of conflict analysis *)

Inductive analysis_effect (st : SatState) : SatState -> Prop :=
  | ae_order r v order dom :
      get_var st r = Some v ->
      analysis_effect st (set_var r (var_with_order_dominator order dom v) st)
  | ae_mark i b :
      i < length (marks st) ->
      analysis_effect st (st_with_marks (<[i := b]> (marks st)) st).

Definition analysis : relation SatState := rtc analysis_effect.

(** A variable with the two fields conflict analysis writes blanked out. *)
Definition forget_analysis (v : Var) : Var := var_with_order_dominator 0 None v.

(** What conflict analysis leaves alone: everything but [marks] and the
    [order] and [dominator] fields of the variables. *)
Definition analysis_frame (st st' : SatState) : Prop :=
  level st' = level st /\
  false_clause st' = false_clause st /\
  heap st' = heap st /\
  decided_literals st' = decided_literals st /\
  propagate_literals st' = propagate_literals st /\
  learned_clauses st' = learned_clauses st /\
  subsumed_clauses st' = subsumed_clauses st /\
  clauses_size st' = clauses_size st /\
  length (marks st') = length (marks st) /\
  length (vars st') = length (vars st) /\
  forall r, forget_analysis <$> get_var st' r = forget_analysis <$> get_var st r.

(** ** Concrete states used as witnesses *)

Definition cnf_one_of_two : Cnf := mkCnf 2 1 [1; 0]%Z.
Definition st_one_of_two : SatState :=
  state_of (sat_state_new mem_var0 mem_clause0 cnf_one_of_two).
Definition st_S1 : SatState :=
  state_of (sat_state_new mem_var0 mem_clause0 cnf_S1).
Definition var_of (st : SatState) (r : VarRef) : Var :=
  default mem_var0 (get_var st r).
Definition clause_of (st : SatState) (c : ClauseRef) : Clause :=
  default mem_clause0 (get_clause st c).

(** ** The assign routine on an instantiated variable *)

Definition assign_on_instantiated (st : SatState) (lit : LitRef) (v : Var)
  : Prop :=
  (implied_in (lit_side lit) v = true ->
   forall c cl, get_clause st c = Some cl ->
     let st' := if is_subsumed cl then st else subsumed_state c cl st in
     set_Lit_Decision lit (Some c) st = Ok (true, st') /\
     decided_literals st' = decided_literals st /\
     (exists cl', get_clause st' c = Some cl' /\ is_subsumed cl' = true)) /\
  (implied_in (lit_side lit) v = false ->
   forall implier,
     length (decided_literals st) < S (length (vars st)) ->
     let st' := conflict_state implier st in
     set_Lit_Decision lit implier st = Ok (false, st') /\
     d_implied_by (decision (contradiction st')) = implier /\
     decided_literals st' = decided_literals st ++ [contradiction_pos]).

(** ** Undoing a level *)

Definition var_level (st : SatState) (r : VarRef) : option N :=
  (fun v => d_level (decision v)) <$> get_var st r.

Definition clause_flag (st : SatState) (c : ClauseRef) : option bool :=
  is_subsumed <$> get_clause st c.

(** A literal of a variable of the CNF, as opposed to the two literals of
    the synthetic contradiction variable. *)
Definition real_lit (l : LitRef) : Prop := lit_var l <> Contradiction.

Definition clauses_real (st : SatState) : Prop :=
  forall c cl, get_clause st c = Some cl ->
    Forall real_lit (lits cl) /\
    (forall l, watch_a cl = Some l -> real_lit l) /\
    (forall l, watch_b cl = Some l -> real_lit l).

(** [st'] differs from [s] in the trail and in the decision levels only. *)
Definition levels_apart (s st' : SatState) : Prop :=
  level st' = level s /\
  false_clause st' = false_clause s /\
  heap st' = heap s /\
  marks st' = marks s /\
  propagate_literals st' = propagate_literals s /\
  learned_clauses st' = learned_clauses s /\
  subsumed_clauses st' = subsumed_clauses s /\
  clauses_size st' = clauses_size s /\
  length (vars st') = length (vars s) /\
  forall r, undecided_var <$> get_var st' r = undecided_var <$> get_var s r.

(** [st'] differs from [s] in the subsumption log and in the [is_subsumed]
    flags only. *)
Definition flags_apart (s st' : SatState) : Prop :=
  level st' = level s /\
  contradiction st' = contradiction s /\
  vars st' = vars s /\
  marks st' = marks s /\
  decided_literals st' = decided_literals s /\
  propagate_literals st' = propagate_literals s /\
  learned_clauses st' = learned_clauses s /\
  clauses_size st' = clauses_size s /\
  length (heap st') = length (heap s) /\
  forall c, clause_with_subsumed false <$> get_clause st' c =
            clause_with_subsumed false <$> get_clause s c.

(** [st'] was reached from [base] by assignments ([new], on top of the
    trail) and subsumptions ([news], on top of the log) of the level of
    [base]. *)
Record undoable (base st' : SatState) (new : list LitRef)
    (news : list ClauseRef) : Prop := mkUndoable {
  ud_level : level st' = level base;
  ud_trail : decided_literals st' = decided_literals base ++ new;
  ud_log : subsumed_clauses st' = (Some <$> news) ++ subsumed_clauses base;
  ud_nodup : NoDup (lit_var <$> new);
  ud_lits : Forall (fun l => l <> contradiction_neg) new;
  ud_new_level : forall r,
    r ∈ lit_var <$> new -> var_level st' r = Some (level base);
  ud_old_level : forall r,
    r ∉ lit_var <$> new -> var_level st' r = var_level base r;
  ud_was_free : forall r,
    r ∈ lit_var <$> new -> r <> Contradiction -> var_level base r = Some 0%N;
  ud_new_flag : forall c,
    c ∈ news -> clause_flag st' c = Some true /\ clause_flag base c = Some false;
  ud_old_flag : forall c, c ∉ news -> clause_flag st' c = clause_flag base c;
  ud_heap : length (heap st') = length (heap base)
}.

(** The state after the first two statements of [sat_decide_literal]. *)
Definition next_level (st : SatState) : SatState :=
  st_with_subsumed (None :: subsumed_clauses st)
    (st_with_level (c2dSize_succ (level st)) st).

(** The trail entry below which [sat_undo_unit_resolution] stops. *)
Definition trail_floor (st : SatState) (lvl : N) : Prop :=
  match last (decided_literals st) with
  | None => True
  | Some l0 =>
      l0 <> contradiction_neg /\
      exists v, get_var st (lit_var l0) = Some v /\ d_level (decision v) <> lvl
  end.

(** A state and a literal on which [sat_decide_literal] may be called: the
    literal belongs to a variable of the CNF that is not instantiated, the
    clauses mention variables of the CNF only, the trail holds variables
    instantiated at the current level or below, and the level counter does
    not wrap. *)
Definition decide_ready (st : SatState) (lit : LitRef) : Prop :=
  (level st + 1 < 2 ^ 64)%N /\
  real_lit lit /\
  (exists v, get_var st (lit_var lit) = Some v /\ d_level (decision v) = 0%N) /\
  clauses_real st /\
  Forall (fun l =>
            l <> contradiction_neg /\
            exists v, get_var st (lit_var l) = Some v /\
              (d_level (decision v) <= level st)%N)
         (decided_literals st).

(** What [sat_undo_decide_literal] restores of the state [st] in which the
    decision was made. *)
Definition restored (st st'' : SatState) : Prop :=
  level st'' = level st /\
  decided_literals st'' = decided_literals st /\
  subsumed_clauses st'' = subsumed_clauses st /\
  propagate_literals st'' = [] /\
  (forall i, var_level st'' (VarAt i) = var_level st (VarAt i)) /\
  (forall c, is_Some (get_clause st c) -> clause_flag st'' c = clause_flag st c).

Definition st_S3 : SatState :=
  exec sat_unit_resolution
    (state_of (sat_state_new mem_var0 mem_clause0 cnf_S3)).
(** [st_S3] after [decide(1); undo_decide()]. *)
Definition st_S3_undone : SatState :=
  exec sat_undo_decide_literal (exec (sat_decide_literal 8 (pos_lit 1)) st_S3).
(** [st_S3_undone] after [decide(-1); undo_decide()]. *)
Definition st_S3_undone_twice : SatState :=
  exec sat_undo_decide_literal
    (exec (sat_decide_literal 8 (neg_lit 1)) st_S3_undone).

(** Executable versions of the side conditions, for concrete states. *)
Definition real_litb (l : LitRef) : bool :=
  match lit_var l with Contradiction => false | VarAt _ => true end.

Definition clause_realb (cl : Clause) : bool :=
  forallb real_litb (lits cl)
  && from_option real_litb true (watch_a cl)
  && from_option real_litb true (watch_b cl).

Definition clauses_realb (st : SatState) : bool :=
  clause_realb (false_clause st) && forallb clause_realb (heap st).

Definition decide_readyb (st : SatState) (lit : LitRef) : bool :=
  (level st + 1 <? 2 ^ 64)%N
  && real_litb lit
  && match get_var st (lit_var lit) with
     | Some v => (d_level (decision v) =? 0)%N
     | None => false
     end
  && clauses_realb st
  && forallb
       (fun l =>
          negb (bool_decide (l = contradiction_neg))
          && match get_var st (lit_var l) with
             | Some v => (d_level (decision v) <=? level st)%N
             | None => false
             end)
       (decided_literals st).

Definition st_S4 : SatState :=
  exec sat_unit_resolution
    (state_of (sat_state_new mem_var0 mem_clause0 cnf_S4)).
(** [st_S4] after [decide(-3)], which meets a conflict. *)
Definition st_S4_conflict : SatState :=
  exec (sat_decide_literal 8 (neg_lit 3)) st_S4.

(** [st_S4_conflict] after [undo_decide()], and then after the assertion of
    the clause learned from the conflict. *)
Definition st_S4_undone : SatState :=
  exec sat_undo_decide_literal st_S4_conflict.
Definition st_S4_asserted : SatState :=
  exec (sat_assert_clause 8 (ClauseAt 3)) st_S4_undone.

(** ** Construction *)

(** The watches of an original clause. *)
Definition watch_shape_ok (cl : Clause) : Prop :=
  (length (lits cl) = 1 -> watch_b cl = None /\ watch_a cl = head (lits cl)) /\
  (length (lits cl) <> 1 -> watch_b cl <> None).

Definition built_ok (cl : Clause) : Prop :=
  lits cl <> [] /\ lits_size cl = length (lits cl) /\ watch_shape_ok cl.

(** [s] differs from [st] in the variables and the trail only. *)
Definition vars_apart (st s : SatState) : Prop :=
  level s = level st /\
  false_clause s = false_clause st /\
  heap s = heap st /\
  marks s = marks st /\
  propagate_literals s = propagate_literals st /\
  learned_clauses s = learned_clauses st /\
  subsumed_clauses s = subsumed_clauses st /\
  clauses_size s = clauses_size st /\
  length (vars s) = length (vars st).

(** What the second loop of [read_sat_cnf] leaves alone: the clauses up to
    their [is_subsumed] flag; the queue only grows. *)
Definition seeded (st s : SatState) : Prop :=
  level s = level st /\
  marks s = marks st /\
  learned_clauses s = learned_clauses st /\
  clauses_size s = clauses_size st /\
  length (vars s) = length (vars st) /\
  length (heap s) = length (heap st) /\
  (forall c, clause_with_subsumed false <$> get_clause s c =
             clause_with_subsumed false <$> get_clause st c) /\
  exists extra, propagate_literals s = propagate_literals st ++ extra.

(** What the specification's scenario S1, [p cnf 1 1 / 1 0], looks like when
    [sat_state_new] returns [st]. *)
Definition S1_constructed (st : SatState) : Prop :=
  (sat_instantiated_var <$> get_var st (VarAt 0)) = Some true /\
  (d_level ∘ decision <$> get_var st (VarAt 0)) = Some 1%N /\
  (d_value ∘ decision <$> get_var st (VarAt 0)) = Some true /\
  (d_implied_by ∘ decision <$> get_var st (VarAt 0)) = Some (Some (ClauseAt 0)) /\
  sat_learned_clause_count st = Ok (0%N, st) /\
  sat_subsumed_clause (ClauseAt 0) st = Ok (false, st) /\
  propagate_literals st = [mkLitRef (VarAt 0) true] /\
  exists st',
    sat_unit_resolution st = Ok (true, st') /\
    sat_subsumed_clause (ClauseAt 0) st' = Ok (true, st') /\
    propagate_literals st' = [].

(** ** The states a client can reach

    One call of a function of [sat_api.h] that writes to the state.
    [sat_assert_clause] is called on learned clauses, as its comment in the
    header asks. *)
Inductive api_step (st : SatState) : SatState -> Prop :=
  | api_decide fuel lit r st' :
      sat_decide_literal fuel lit st = Ok (r, st') -> api_step st st'
  | api_undo_decide st' :
      sat_undo_decide_literal st = Ok (tt, st') -> api_step st st'
  | api_unit b st' :
      sat_unit_resolution st = Ok (b, st') -> api_step st st'
  | api_undo_unit st' :
      sat_undo_unit_resolution st = Ok (tt, st') -> api_step st st'
  | api_subsume c st' :
      sat_subsume_clause (Some c) st = Ok (tt, st') -> api_step st st'
  | api_build fuel c st' :
      sat_build_asserting_clause fuel st = Ok (c, st') -> api_step st st'
  | api_assert fuel h r st' :
      clauses_size st <= h ->
      sat_assert_clause fuel (ClauseAt h) st = Ok (r, st') -> api_step st st'
  | api_mark_var var (b : bool) st' :
      (if b then sat_mark_var var else sat_unmark_var var) st = Ok (tt, st') ->
      api_step st st'
  | api_mark_clause c (b : bool) st' :
      (if b then sat_mark_clause c else sat_unmark_clause c) st = Ok (tt, st') ->
      api_step st st'.

Definition reachable (mem_var : Var) (mem_clause : Clause) (cnf : Cnf)
    (st : SatState) : Prop :=
  exists st0,
    sat_state_new mem_var mem_clause cnf = Ok st0 /\ rtc api_step st0 st.

(** ** Watches

    What the primitives do to a clause object once it is part of the state:
    they flip its two flags and move a watch to a literal of the clause that
    is not watched. *)
Inductive rewatch_step (cl : Clause) : Clause -> Prop :=
  | rw_flag b : rewatch_step cl (clause_with_subsumed b cl)
  | rw_mark b : rewatch_step cl (clause_with_mark b cl)
  | rw_a l :
      l ∈ lits cl -> Some l <> watch_a cl -> Some l <> watch_b cl ->
      rewatch_step cl (clause_with_watch_a (Some l) cl)
  | rw_b l :
      l ∈ lits cl -> Some l <> watch_a cl -> Some l <> watch_b cl ->
      rewatch_step cl (clause_with_watch_b (Some l) cl).

Definition rewatch : relation Clause := rtc rewatch_step.

(** A clause object that [sat_build_asserting_clause] added. *)
Definition learned_shape (cl : Clause) : Prop :=
  (1 <= assertion_level cl)%N /\ 1 <= lits_size cl.

Definition fresh_clauses (st s : SatState) : Prop :=
  forall h cl', get_clause s (ClauseAt h) = Some cl' ->
    get_clause st (ClauseAt h) = None -> learned_shape cl'.

(** Every clause of [st] is still there in [s], rewatched, and the clauses
    that are new in [s] are learned ones. *)
Definition clauses_rewatched (st s : SatState) : Prop :=
  clauses_size s = clauses_size st /\
  (forall c cl, get_clause st c = Some cl ->
     exists cl', get_clause s c = Some cl' /\ rewatch cl cl') /\
  fresh_clauses st s.

(** The same when learned clauses may have been given new watches. *)
Definition original (n : nat) (c : ClauseRef) : Prop :=
  match c with FalseClause => True | ClauseAt h => h < n end.

Definition clauses_kept (st s : SatState) : Prop :=
  clauses_size s = clauses_size st /\
  (forall c cl, get_clause st c = Some cl ->
     exists cl', get_clause s c = Some cl' /\ same_clause_shape cl cl' /\
       (original (clauses_size st) c -> rewatch cl cl')) /\
  fresh_clauses st s.

(** What holds of the clauses in every state a client can reach. *)
Record api_inv (st : SatState) : Prop := mkApiInv {
  inv_sentinel :
    assertion_level (false_clause st) = 0%N /\ lits_size (false_clause st) = 0;
  inv_originals : forall h, h < clauses_size st ->
    exists cl, get_clause st (ClauseAt h) = Some cl /\ built_ok cl;
  inv_learned : forall h cl, clauses_size st <= h ->
    get_clause st (ClauseAt h) = Some cl -> learned_shape cl
}.

(** Both watches of a clause are literals of the clause. *)
Definition watched_in (cl : Clause) : Prop :=
  (exists l, watch_a cl = Some l /\ l ∈ lits cl) /\
  (exists l, watch_b cl = Some l /\ l ∈ lits cl).

(** ** Conflicts met by [sat_assert_clause]

    [p cnf 2 4 / 1 2 0 / 1 -2 0 / -1 2 0 / -1 -2 0] is unsatisfiable:
    [decide(1)] learns the clause [-1], whose assertion at level 1 meets a
    conflict. *)
Definition cnf_U : Cnf :=
  mkCnf 2 4 [1; 2; 0; 1; -2; 0; -1; 2; 0; -1; -2; 0]%Z.
Definition st_U : SatState :=
  exec sat_unit_resolution (state_of (sat_state_new mem_var0 mem_clause0 cnf_U)).
Definition st_U_undone : SatState :=
  exec sat_undo_decide_literal (exec (sat_decide_literal 8 (pos_lit 1)) st_U).
Definition st_U_failed : SatState :=
  exec (assert_propagate (ClauseAt 4)) st_U_undone.

(** On [p cnf 4 4 / -1 -2 3 0 / -1 -2 -3 0 / -1 2 4 0 / -1 2 -4 0],
    [decide(1); decide(2)] learns [-2 -1] at level 3; its assertion at
    level 2 meets a conflict. *)
Definition cnf_V : Cnf :=
  mkCnf 4 4 [-1; -2; 3; 0; -1; -2; -3; 0; -1; 2; 4; 0; -1; 2; -4; 0]%Z.
Definition st_V : SatState :=
  exec sat_unit_resolution (state_of (sat_state_new mem_var0 mem_clause0 cnf_V)).
Definition st_V_undone : SatState :=
  exec sat_undo_decide_literal
    (exec (sat_decide_literal 8 (pos_lit 2))
       (exec (sat_decide_literal 8 (pos_lit 1)) st_V)).
Definition st_V_failed : SatState :=
  exec (assert_propagate (ClauseAt 4)) st_V_undone.

(** ** The watch loop

    How a literal stands in a state. *)
Definition lit_falsified (st : SatState) (l : LitRef) : Prop :=
  l <> contradiction_neg /\
  exists v, get_var st (lit_var l) = Some v /\
    sat_instantiated_var v = true /\ implied_in (lit_side l) v = false.

Definition lit_implied (st : SatState) (l : LitRef) : Prop :=
  l <> contradiction_neg /\
  exists v, get_var st (lit_var l) = Some v /\
    sat_instantiated_var v = true /\ implied_in (lit_side l) v = true.

Definition lit_free (st : SatState) (l : LitRef) : Prop :=
  l <> contradiction_neg /\
  exists v, get_var st (lit_var l) = Some v /\ sat_instantiated_var v = false.

Definition watched (cl : Clause) (l : LitRef) : Prop :=
  Some l = watch_a cl \/ Some l = watch_b cl.

(** The literals the scan of [sat_unwatched_literal] passes over, and the
    ones it stops at. *)
Definition scan_skips (st : SatState) (cl : Clause) (l : LitRef) : Prop :=
  lit_falsified st l \/ (lit_free st l /\ watched cl l).

Definition replacement (st : SatState) (cl : Clause) (m : LitRef) : Prop :=
  lit_free st m /\ ~ watched cl m.

Definition other_watch (clit : LitRef) (cl : Clause) : option LitRef :=
  if bool_decide (Some clit = watch_a cl) then watch_b cl else watch_a cl.

Definition rewatch_to (clit m : LitRef) (cl : Clause) : Clause :=
  if bool_decide (Some clit = watch_a cl)
  then clause_with_watch_a (Some m) cl
  else clause_with_watch_b (Some m) cl.

(** The state after [other] was assigned with implier [c] and enqueued. *)
Definition implied_state (other : LitRef) (c : ClauseRef) (ov : Var)
    (st : SatState) : SatState :=
  st_with_propagate (propagate_literals st ++ [other])
    (assigned_state other (Some c) ov st).

(** [st_V] after [set_Lit_Decision(1, NULL)] at level 2, before the literal
    is propagated: in the clause [-1 -2 3] the watches are [-1] and [-2]. *)
Definition st_V_assigned : SatState :=
  exec (set_Lit_Decision (pos_lit 1) None)
    (st_with_level 2 st_V).

(** ** The state in which a conflict is analysed

    The trail is [low ++ dec :: high]: [low] holds the entries of the levels
    below the current one, [dec] is the entry the current level started
    with, [high] the entries implied since, the last of which is the
    positive literal of the contradiction variable (when the conflict comes
    from the decision itself, [dec] is that literal and [high] is empty).
    Every variable of the current level is on the trail. *)
Record conflict_trail (st : SatState) (low : list LitRef) (dec : LitRef)
    (high : list LitRef) : Prop := mkConflictTrail {
  ct_trail : decided_literals st = low ++ dec :: high;
  ct_top : last (dec :: high) = Some contradiction_pos;
  ct_low : Forall (fun l =>
      l <> contradiction_neg /\
      exists v, get_var st (lit_var l) = Some v /\
        (0 < d_level (decision v) < level st)%N) low;
  ct_dec :
    dec <> contradiction_neg /\
    exists v, get_var st (lit_var dec) = Some v /\
      d_level (decision v) = level st /\ d_implied_by (decision v) = None;
  ct_high : Forall (fun l =>
      l <> contradiction_neg /\
      exists v, get_var st (lit_var l) = Some v /\
        d_level (decision v) = level st /\
        d_implied_by (decision v) <> None) high;
  ct_current : forall r v,
    get_var st r = Some v -> d_level (decision v) = level st ->
    r ∈ lit_var <$> (dec :: high)
}.

(** The literals of lower levels in the reasons of the entries of [high]
    belong to variables of [low], where the forward sweep finds them. *)
Definition reasons_traced (st : SatState) (low high : list LitRef) : Prop :=
  forall l v c cl p pv,
    l ∈ high -> get_var st (lit_var l) = Some v ->
    d_implied_by (decision v) = Some c -> get_clause st c = Some cl ->
    p ∈ lits cl -> get_var st (lit_var p) = Some pv ->
    (d_level (decision pv) < level st)%N ->
    exists e ev, e ∈ low /\ get_var st (lit_var e) = Some ev /\
      var_id ev = var_id pv.

(** The variables of the entries of the current level. *)
Definition current_vars (dec : LitRef) (high : list LitRef) : list VarRef :=
  lit_var <$> (dec :: high).

(** The dominator fields of the variables of [S] stay in [S]. *)
Definition domset (st : SatState) (S : list VarRef) : Prop :=
  forall r v, r ∈ S -> get_var st r = Some v ->
    d_dominator (decision v) = None \/
    exists d, d_dominator (decision v) = Some d /\ d ∈ S.

Definition levels_of (st : SatState) (ls : list LitRef) : list N :=
  (fun l => d_level (decision (var_of st (lit_var l)))) <$> ls.

(** ** What undoing leaves behind

    [st''] holds every variable of [st'] with the [value], [implied_by],
    [order] and [dominator] it has in [st']: of a decision record,
    [unset_Var_Decision] writes the level only. *)
Definition stale_kept (st' st'' : SatState) : Prop :=
  forall r v', get_var st' r = Some v' ->
    exists v'', get_var st'' r = Some v'' /\
      d_value (decision v'') = d_value (decision v') /\
      d_implied_by (decision v'') = d_implied_by (decision v') /\
      d_order (decision v'') = d_order (decision v') /\
      d_dominator (decision v'') = d_dominator (decision v').

(** ** A propagation, turn by turn

    The state after [replace_watch]: in the clause [c] the literal [m] takes
    the place of the watch [clit]; the node at position [i] of the watch
    list of [clit] is unlinked, and [c] is put at the head of the watch list
    of [m]. *)
Definition rewatched_state (clit : LitRef) (c : ClauseRef) (cl : Clause)
    (i : nat) (m : LitRef) (st : SatState) : SatState :=
  let s1 := set_clause c (rewatch_to clit m cl) st in
  let s2 := set_var (lit_var clit)
              (with_watch_list (delete i) (lit_side clit)
                 (var_of s1 (lit_var clit))) s1 in
  set_var (lit_var m)
    (with_watch_list (cons c) (lit_side m) (var_of s2 (lit_var m))) s2.

(** [watch_turns clit todo i st b s]: the watch loop of
    [propagate_lit_decision], started in [st] on the clauses [todo] that are
    left of the watch list of [clit], the first of them at position [i],
    ends in [s] with the answer [b].  There is one rule for each way a turn
    can go. *)
Inductive watch_turns (clit : LitRef)
  : list ClauseRef -> nat -> SatState -> bool -> SatState -> Prop :=
  | turns_done i st :
      watch_turns clit [] i st true st
  | turns_skip c cl todo i st b s :
      get_clause st c = Some cl -> is_subsumed cl = true ->
      watch_turns clit todo (S i) st b s ->
      watch_turns clit (c :: todo) i st b s
  | turns_replace c cl todo i st pre m post b s :
      get_clause st c = Some cl -> is_subsumed cl = false ->
      slots (lits_size cl) (lits cl) = (Some <$> pre) ++ Some m :: post ->
      Forall (scan_skips st cl) pre -> replacement st cl m ->
      is_Some (get_var st (lit_var clit)) ->
      watch_turns clit todo (if bool_decide (m = clit) then S i else i)
        (rewatched_state clit c cl i m st) b s ->
      watch_turns clit (c :: todo) i st b s
  | turns_implied c cl todo i st pre m post b s :
      get_clause st c = Some cl -> is_subsumed cl = false ->
      slots (lits_size cl) (lits cl) = (Some <$> pre) ++ Some m :: post ->
      Forall (scan_skips st cl) pre -> lit_implied st m ->
      watch_turns clit todo (S i) (subsumed_state c cl st) b s ->
      watch_turns clit (c :: todo) i st b s
  | turns_conflict c cl todo i st ls :
      get_clause st c = Some cl -> is_subsumed cl = false ->
      slots (lits_size cl) (lits cl) = Some <$> ls ->
      Forall (scan_skips st cl) ls ->
      match other_watch clit cl with
      | None => True
      | Some other => lit_falsified st other
      end ->
      length (decided_literals st) < S (length (vars st)) ->
      watch_turns clit (c :: todo) i st false (conflict_state (Some c) st)
  | turns_subsume c cl todo i st ls other b s :
      get_clause st c = Some cl -> is_subsumed cl = false ->
      slots (lits_size cl) (lits cl) = Some <$> ls ->
      Forall (scan_skips st cl) ls ->
      other_watch clit cl = Some other -> lit_implied st other ->
      watch_turns clit todo (S i) (subsumed_state c cl st) b s ->
      watch_turns clit (c :: todo) i st b s
  | turns_imply c cl todo i st ls other ov b s :
      get_clause st c = Some cl -> is_subsumed cl = false ->
      slots (lits_size cl) (lits cl) = Some <$> ls ->
      Forall (scan_skips st cl) ls ->
      other_watch clit cl = Some other -> other <> contradiction_neg ->
      get_var st (lit_var other) = Some ov ->
      sat_instantiated_var ov = false ->
      length (decided_literals st) < S (length (vars st)) ->
      length (propagate_literals st) < length (vars st) ->
      watch_turns clit todo (S i) (implied_state other c ov st) b s ->
      watch_turns clit (c :: todo) i st b s.

(** [subsumes cs st s]: [sat_subsume_clause] on each clause of [cs] in turn
    leads from [st] to [s]. *)
Inductive subsumes : list ClauseRef -> SatState -> SatState -> Prop :=
  | subsumes_nil st : subsumes [] st st
  | subsumes_old c cl cs st s :
      get_clause st c = Some cl -> is_subsumed cl = true ->
      subsumes cs st s -> subsumes (c :: cs) st s
  | subsumes_new c cl cs st s :
      get_clause st c = Some cl -> is_subsumed cl = false ->
      subsumes cs (subsumed_state c cl st) s -> subsumes (c :: cs) st s.

(** [propagation lit st b s]: what [propagate_lit_decision] does on [lit].
    The clauses in which [lit] appears, original and learned, are subsumed;
    then the watch loop runs over the watch list of [clit], the literal of
    the other sign of the same variable. *)
Definition propagation (lit : LitRef) (st : SatState) (b : bool)
    (s : SatState) : Prop :=
  lit <> contradiction_neg /\
  exists v cs s1 s2 v2,
    get_var st (lit_var lit) = Some v /\
    slots (appears_size (var_lit (lit_side lit) v))
          (appears_in (var_lit (lit_side lit) v)) = Some <$> cs /\
    subsumes cs st s1 /\
    subsumes (learned_list (var_lit (lit_side lit) v)) s1 s2 /\
    get_var s2 (lit_var lit) = Some v2 /\
    let clit :=
      mkLitRef (lit_var lit) (lit_id (var_lit (lit_side lit) v) <? 0)%Z in
    watch_turns clit (watch_list (var_lit (lit_side clit) v2)) 0 s2 b s.

(** ** The watches of an asserted clause

    [watching c wa wb st]: in [st] the watches of the clause [c] are [wa]
    and [wb]; [settled] adds that the clause is subsumed. *)
Definition watching (c : ClauseRef) (wa wb : option LitRef) (st : SatState)
  : Prop :=
  exists cl, get_clause st c = Some cl /\ watch_a cl = wa /\ watch_b cl = wb.

Definition settled (c : ClauseRef) (wa wb : option LitRef) (st : SatState)
  : Prop :=
  exists cl, get_clause st c = Some cl /\ is_subsumed cl = true /\
    watch_a cl = wa /\ watch_b cl = wb.

(** The clause [c] is in the list of learned clauses of the literal [l]. *)
Definition learned_at (c : ClauseRef) (l : LitRef) (st : SatState) : Prop :=
  exists v, get_var st (lit_var l) = Some v /\
    c ∈ learned_list (var_lit (lit_side l) v).

(** [st_V_assigned] after the propagation of 1. *)
Definition st_V_propagated : SatState :=
  exec (propagate_lit_decision (pos_lit 1)) st_V_assigned.

(** [st_V] after [decide(1)], then the first steps of [decide(2)]: the
    level is 3 and 2 is assigned and enqueued, not yet propagated. *)
Definition st_V_second : SatState :=
  exec (push_propagate (pos_lit 2))
    (exec (set_Lit_Decision (pos_lit 2) None)
       (exec (modify (fun st => st_with_subsumed (None :: subsumed_clauses st) st))
          (exec (modify (fun st => st_with_level (c2dSize_succ (level st)) st))
             (exec (sat_decide_literal 8 (pos_lit 1)) st_V)))).

Definition st_V_implied : SatState :=
  exec (propagate_lit_decision (pos_lit 2)) st_V_second.

(** ** Conflict analysis *)

(** [o] points to a variable of [S]. *)
Definition in_set (S : list VarRef) (o : option VarRef) : Prop :=
  exists m, o = Some m /\ m ∈ S.

(** The marks after the forward sweep has passed the entries [low]: the mark
    of each of their variables is cleared. *)
Definition clear_marks (st : SatState) (low : list LitRef) (ms : list bool)
  : list bool :=
  foldl (fun ms l => <[N.to_nat (var_id (var_of st (lit_var l))) := false]> ms)
        ms low.

Definition count_true (ms : list bool) : nat := length (filter (eq true) ms).

(** A literal the forward sweep adds: the literal that is false under the
    value of the variable of an entry of [low], a variable of a level below
    the current one. *)
Definition lower_literal (st : SatState) (low : list LitRef) (l : LitRef)
  : Prop :=
  exists e v,
    e ∈ low /\ lit_var l = lit_var e /\ get_var st (lit_var l) = Some v /\
    lit_side l = negb (d_value (decision v)) /\
    (0 < d_level (decision v) < level st)%N.

(** [sat_compute_UIP] has returned [u] and the backward sweep, started from
    the last entry of the trail with size 1, has counted [n] and left the
    state [s2]. *)
Definition backward_sweep_result (fuel : nat) (st s2 : SatState) (n : nat)
    (u : VarRef) : Prop :=
  exists s1,
    sat_compute_UIP fuel st = Ok (Some u, s1) /\
    backward_sweep fuel (Some u) (length (decided_literals s1) - 1) 1 s1
      = Ok (n, s2).

(** [i] is the mark index of a literal of a lower level in the reason of an
    entry of [high]. *)
Definition reason_id (st : SatState) (high : list LitRef) (i : nat) : Prop :=
  exists l v c cl p pv,
    l ∈ high /\ get_var st (lit_var l) = Some v /\
    d_implied_by (decision v) = Some c /\ get_clause st c = Some cl /\
    p ∈ lits cl /\ get_var st (lit_var p) = Some pv /\
    (d_level (decision pv) < level st)%N /\ i = N.to_nat (var_id pv).

(** Scenario S5 of the specification, [p cnf 4 4 / -1 2 0 / -1 3 0 /
    -2 -3 4 0 / -4 0], after [sat_unit_resolution], and then after the
    statements of [sat_decide_literal(1)] up to the test of [passed]: unit
    resolution has met a conflict at level 2. *)
Definition st_S5 : SatState :=
  exec sat_unit_resolution
    (state_of (sat_state_new mem_var0 mem_clause0 cnf_S5)).
Definition st_S5_failed : SatState := exec (decide_propagate (pos_lit 1)) st_S5.

(** ** A conflict that can be analysed

    The conditions under which [sat_build_asserting_clause] is run: the
    trail and the reasons of the entries of the current level are those a
    propagation leaves.  They are stated over lists, so that they can be
    checked by computation on a given state. *)
Definition level_of (st : SatState) (l : LitRef) : N :=
  d_level (decision (var_of st (lit_var l))).

(** The index of the variable of [l] in [sat_state->marks]. *)
Definition mark_index (st : SatState) (l : LitRef) : nat :=
  N.to_nat (var_id (var_of st (lit_var l))).

Definition known (st : SatState) (l : LitRef) : Prop :=
  l <> contradiction_neg /\ is_Some (get_var st (lit_var l)).

(** The clause [decision.implied_by] of the variable of [l]. *)
Definition reason_of (st : SatState) (l : LitRef) : option Clause :=
  match d_implied_by (decision (var_of st (lit_var l))) with
  | Some c => get_clause st c
  | None => None
  end.

(** [p] is a literal of the reason of the entry [l]: if its variable is of
    the current level, it is one of [seen], the variables of the entries
    before [l]; if it is of a lower level, it has a mark and it is the
    variable of an entry of [low]. *)
Definition reason_literal (st : SatState) (low : list LitRef)
    (seen : list VarRef) (l p : LitRef) : Prop :=
  known st p /\
  (level_of st p = level st -> p <> l -> lit_var p ∈ seen) /\
  ((level_of st p < level st)%N ->
     mark_index st p < length (marks st) /\
     Exists (fun e => mark_index st e = mark_index st p) low).

(** Each entry of [todo] has a reason, an array with no unwritten slot,
    whose literals are as above, one of them of the current level. *)
Fixpoint reasons_ordered (st : SatState) (low : list LitRef)
    (seen : list VarRef) (todo : list LitRef) : Prop :=
  match todo with
  | [] => True
  | l :: todo' =>
      match reason_of st l with
      | Some cl =>
          lits_size cl = length (lits cl) /\
          Forall (reason_literal st low seen l) (lits cl) /\
          Exists (fun p => level_of st p = level st /\ p <> l) (lits cl)
      | None => False
      end /\
      reasons_ordered st low (seen ++ [lit_var l]) todo'
  end.

(** The conditions of the analysis can be checked by computation. *)
#[global] Instance known_dec st l : base.Decision (known st l).
Proof. unfold known. apply _. Defined.

#[global] Instance reason_literal_dec st low seen l p :
  base.Decision (reason_literal st low seen l p).
Proof. unfold reason_literal. apply _. Defined.

#[global] Instance reasons_ordered_dec st low todo :
  forall seen, base.Decision (reasons_ordered st low seen todo).
Proof.
  induction todo as [|l todo IH]; intros seen; cbn [reasons_ordered];
    [apply _|].
  destruct (reason_of st l); apply _.
Defined.

(** The trail is [low ++ dec :: high]: the entries of the levels below the
    current one, each with a mark; the entry [dec] the current level started
    with, which has no reason; the entries implied since, the last of which
    is the positive literal of the contradiction variable.  The variables of
    the current level are those of [dec :: high], each once.  No mark is
    set, and the clause learned last, if any, is a clause of the state. *)
Record analysis_ready (st : SatState) (low : list LitRef) (dec : LitRef)
    (high : list LitRef) : Prop := mkAnalysisReady {
  ar_trail : decided_literals st = low ++ dec :: high;
  ar_top : last (dec :: high) = Some contradiction_pos;
  ar_low : Forall (fun l =>
      known st l /\ (0 < level_of st l < level st)%N /\
      mark_index st l < length (marks st)) low;
  ar_dec :
    known st dec /\ level_of st dec = level st /\
    d_implied_by (decision (var_of st (lit_var dec))) = None;
  ar_high : Forall (fun l => known st l /\ level_of st l = level st) high;
  ar_nodup : NoDup (lit_var <$> dec :: high);
  ar_current : Forall (fun r =>
      d_level (decision (var_of st r)) = level st ->
      r ∈ lit_var <$> dec :: high)
    (Contradiction :: (VarAt <$> seq 0 (length (vars st))));
  ar_reasons : reasons_ordered st low [lit_var dec] high;
  ar_marks : Forall (eq false) (marks st);
  ar_learned :
    match learned_clauses st with
    | c :: _ => is_Some (get_clause st c)
    | [] => True
    end
}.

(** The fuel that is enough for the analysis of a trail. *)
Definition analysis_fuel (st : SatState) : nat :=
  3 * length (decided_literals st) + 3.

(** The dominators of the first entries of the current level: the variable
    at position [i] has order [k + i], and its dominator is the variable at
    an earlier position (at position 0, itself). *)
Definition dominated (st : SatState) (k : nat) (cv : list VarRef) (m : nat)
  : Prop :=
  forall i r, i <= m -> cv !! i = Some r ->
    exists v j d, get_var st r = Some v /\
      d_order (decision v) = k + i /\
      d_dominator (decision v) = Some d /\
      cv !! j = Some d /\ j <= i /\ (0 < i -> j < i).

(** The entries after position [m] have their order and no dominator. *)
Definition undominated (st : SatState) (k : nat) (cv : list VarRef) (m : nat)
  : Prop :=
  forall i r, m < i -> cv !! i = Some r ->
    exists v, get_var st r = Some v /\
      d_order (decision v) = k + i /\ d_dominator (decision v) = None.

(** ** The operations other than conflict analysis

    A call of a function of the interface that does not analyse a conflict,
    or the part of [sat_decide_literal] and of [sat_assert_clause] that
    comes before the call of [sat_build_asserting_clause]. *)
Inductive core_step (st : SatState) : SatState -> Prop :=
  | core_decide lit b st' :
      decide_propagate lit st = Ok (b, st') -> core_step st st'
  | core_assert c b st' :
      assert_propagate c st = Ok (b, st') -> core_step st st'
  | core_undo_decide st' :
      sat_undo_decide_literal st = Ok (tt, st') -> core_step st st'
  | core_unit b st' :
      sat_unit_resolution st = Ok (b, st') -> core_step st st'
  | core_undo_unit st' :
      sat_undo_unit_resolution st = Ok (tt, st') -> core_step st st'
  | core_subsume c st' :
      sat_subsume_clause c st = Ok (tt, st') -> core_step st st'
  | core_mark_var var (b : bool) st' :
      (if b then sat_mark_var var else sat_unmark_var var) st = Ok (tt, st') ->
      core_step st st'
  | core_mark_clause c (b : bool) st' :
      (if b then sat_mark_clause c else sat_unmark_clause c) st = Ok (tt, st') ->
      core_step st st'.

(** ** A clause asserted after its level was undone

    On [cnf_V], [decide(1); decide(2)] learns the clause [-2 -1], with
    assertion level 2.  After [undo_decide()] twice the level is 1 and
    variable 1 is free; [decide(2)] brings the level to 2, the assertion
    level of the clause. *)
Definition st_V_learned : SatState :=
  exec (sat_decide_literal 8 (pos_lit 2))
    (exec (sat_decide_literal 8 (pos_lit 1)) st_V).
Definition st_V_stale : SatState :=
  exec (sat_decide_literal 8 (pos_lit 2))
    (exec sat_undo_decide_literal (exec sat_undo_decide_literal st_V_learned)).
Definition st_V_stale_failed : SatState :=
  exec (assert_propagate (ClauseAt 4)) st_V_stale.
Definition st_V_stale_built : SatState :=
  exec (sat_build_asserting_clause 8) st_V_stale_failed.

(** ** The clause that is learned

    [cl] is an asserting clause of the state [s], whose trail is
    [low ++ dec :: high]: its first literal is the literal that is false
    under the value of [u], a variable of the current level; each literal
    after it is the literal that is false under the value of the variable
    of an entry of [low], whose level is below the current one; no slot of
    the array is unwritten; the assertion level is the highest of the
    levels of those literals, and 1 when there is none. *)
Definition asserting_clause (s : SatState) (low : list LitRef) (dec : LitRef)
    (high : list LitRef) (u : VarRef) (cl : Clause) : Prop :=
  exists uv others,
    u ∈ current_vars dec high /\
    get_var s u = Some uv /\ d_level (decision uv) = level s /\
    lits cl = mkLitRef u (negb (d_value (decision uv))) :: others /\
    lits_size cl = length (lits cl) /\
    Forall (lower_literal s low) others /\
    assertion_level cl = foldr N.max 1%N (levels_of s others).

(** The two ways [sat_assert_clause] ends when [passed] is false in the
    state [st1]. *)
Definition assert_conflict_result (fuel : nat) (c : ClauseRef)
    (st st1 : SatState) : Prop :=
  ((level st <= 1)%N ->
     sat_assert_clause fuel c st = Ok (Some FalseClause, st1) /\
     assertion_level (false_clause st1) = 0%N /\
     lits_size (false_clause st1) = 0 /\
     (forall h cl, get_clause st1 (ClauseAt h) = Some cl -> 1 <= lits_size cl)) /\
  ((1 < level st)%N ->
     sat_assert_clause fuel c st =
       (do c' <- sat_build_asserting_clause fuel; ret (Some c')) st1 /\
     (forall r st', sat_assert_clause fuel c st = Ok (r, st') ->
        exists h cl, r = Some (ClauseAt h) /\
          get_clause st1 (ClauseAt h) = None /\
          get_clause st' (ClauseAt h) = Some cl /\ learned_shape cl) /\
     (forall low dec high,
        analysis_ready st1 low dec high -> analysis_fuel st1 <= fuel ->
        exists h st' cl u,
          sat_assert_clause fuel c st = Ok (Some (ClauseAt h), st') /\
          get_clause st1 (ClauseAt h) = None /\
          get_clause st' (ClauseAt h) = Some cl /\
          asserting_clause st' low dec high u cl)).

(** * Proofs *)

(** ** Inversion of monadic computations *)

Lemma bind_Ok {A B} (m : M A) (k : A -> M B) st r :
  bind m k st = Ok r <-> exists a s, m st = Ok (a, s) /\ k a s = Ok r.
Proof.
  unfold bind. split.
  - destruct (m st) as [[a s]| |]; [eauto | discriminate | discriminate].
  - intros (a & s & -> & H). exact H.
Qed.

Lemma ret_Ok {A} (a : A) st r : ret a st = Ok r <-> r = (a, st).
Proof. unfold ret. split; [intros [= <-] | intros ->]; reflexivity. Qed.

Lemma gets_Ok {A} (f : SatState -> A) st r : gets f st = Ok r <-> r = (f st, st).
Proof. unfold gets. split; [intros [= <-] | intros ->]; reflexivity. Qed.

Lemma modify_Ok f st r : modify f st = Ok r <-> r = (tt, f st).
Proof. unfold modify. split; [intros [= <-] | intros ->]; reflexivity. Qed.

Lemma lift_opt_Ok {A} (o : option A) st a s :
  lift_opt o st = Ok (a, s) <-> o = Some a /\ s = st.
Proof.
  destruct o as [x|]; cbn; unfold ret, fault.
  - split; [intros [= -> ->] | intros [[= ->] ->]]; auto.
  - split; [discriminate | intros [? _]; discriminate].
Qed.

Lemma fault_Ok {A} st (r : A * SatState) : fault st = Ok r <-> False.
Proof. unfold fault. split; [discriminate | tauto]. Qed.

Lemma out_of_fuel_Ok {A} st (r : A * SatState) : out_of_fuel st = Ok r <-> False.
Proof. unfold out_of_fuel. split; [discriminate | tauto]. Qed.

Lemma read_var_Ok r st v s :
  read_var r st = Ok (v, s) <-> get_var st r = Some v /\ s = st.
Proof.
  unfold read_var. destruct (get_var st r) as [x|].
  - split; [intros [= -> ->] | intros [[= ->] ->]]; auto.
  - split; [discriminate | intros [? _]; discriminate].
Qed.

Lemma update_var_Ok r f st u s :
  update_var r f st = Ok (u, s) <->
  exists v, get_var st r = Some v /\ s = set_var r (f v) st.
Proof.
  unfold update_var. destruct (get_var st r) as [x|].
  - split; [intros [= <-]; eauto | intros (v & [= ->] & ->)]. by destruct u.
  - split; [discriminate | intros (? & ? & _); discriminate].
Qed.

Lemma lit_owner_Ok l st r s :
  lit_owner l st = Ok (r, s) <->
  r = lit_var l /\ s = st /\ l <> contradiction_neg.
Proof.
  destruct l as [[|i] [|]]; cbn; unfold ret, fault, contradiction_neg;
    (split; [intros [= <- <-] || discriminate | intros (-> & -> & H)]);
    try done.
Qed.

Lemma read_lit_Ok l st x s :
  read_lit l st = Ok (x, s) <->
  exists v, get_var st (lit_var l) = Some v /\ x = var_lit (lit_side l) v /\ s = st.
Proof.
  unfold read_lit. rewrite bind_Ok. split.
  - intros (v & s1 & E & H). apply read_var_Ok in E as [E ->].
    apply ret_Ok in H. simplify_eq. eauto.
  - intros (v & E & -> & ->). exists v, st. rewrite read_var_Ok, ret_Ok. auto.
Qed.

Lemma update_lit_Ok l f st u s :
  update_lit l f st = Ok (u, s) <->
  exists v, get_var st (lit_var l) = Some v /\
    s = set_var (lit_var l)
          (var_with_lit (lit_side l) (f (var_lit (lit_side l) v)) v) st.
Proof. unfold update_lit. apply update_var_Ok. Qed.

Lemma read_clause_at_Ok c st cl s :
  read_clause_at c st = Ok (cl, s) <-> get_clause st c = Some cl /\ s = st.
Proof.
  unfold read_clause_at. destruct (get_clause st c) as [x|].
  - split; [intros [= -> ->] | intros [[= ->] ->]]; auto.
  - split; [discriminate | intros [? _]; discriminate].
Qed.

Lemma update_clause_Ok c f st u s :
  update_clause c f st = Ok (u, s) <->
  exists cl, get_clause st c = Some cl /\ s = set_clause c (f cl) st.
Proof.
  unfold update_clause. destruct (get_clause st c) as [x|].
  - split; [intros [= <-]; eauto | intros (v & [= ->] & ->)]. by destruct u.
  - split; [discriminate | intros (? & ? & _); discriminate].
Qed.

Lemma push_decided_Ok l st u s :
  push_decided l st = Ok (u, s) <->
  length (decided_literals st) < S (length (vars st)) /\
  s = st_with_decided (decided_literals st ++ [l]) st.
Proof.
  unfold push_decided.
  destruct (Nat.ltb_spec (length (decided_literals st)) (S (length (vars st)))).
  - split; [intros [= <-]; auto | intros [_ ->]]. by destruct u.
  - split; [discriminate | intros [? _]; lia].
Qed.

Lemma push_propagate_Ok l st u s :
  push_propagate l st = Ok (u, s) <->
  length (propagate_literals st) < length (vars st) /\
  s = st_with_propagate (propagate_literals st ++ [l]) st.
Proof.
  unfold push_propagate.
  destruct (Nat.ltb_spec (length (propagate_literals st)) (length (vars st))).
  - split; [intros [= <-]; auto | intros [_ ->]]. by destruct u.
  - split; [discriminate | intros [? _]; lia].
Qed.

Lemma sat_subsumed_clause_Ok c st b s :
  sat_subsumed_clause c st = Ok (b, s) <->
  exists cl, get_clause st c = Some cl /\ b = is_subsumed cl /\ s = st.
Proof.
  unfold sat_subsumed_clause. rewrite bind_Ok. split.
  - intros (cl & s1 & E & H). apply read_clause_at_Ok in E as [E ->].
    apply ret_Ok in H. simplify_eq. eauto.
  - intros (cl & E & -> & ->). exists cl, st.
    rewrite read_clause_at_Ok, ret_Ok. auto.
Qed.

Lemma sat_implied_literal_Ok l st b s :
  sat_implied_literal l st = Ok (b, s) <->
  exists v, get_var st (lit_var l) = Some v /\ l <> contradiction_neg /\
    b = implied_in (lit_side l) v /\ s = st.
Proof.
  unfold sat_implied_literal. rewrite bind_Ok. split.
  - intros (r & s1 & E & H). apply lit_owner_Ok in E as (-> & -> & Hn).
    apply bind_Ok in H as (v & s2 & E & H). apply read_var_Ok in E as [E ->].
    apply ret_Ok in H. simplify_eq. eauto.
  - intros (v & E & Hn & -> & ->). exists (lit_var l), st.
    rewrite lit_owner_Ok, bind_Ok. split; [done|]. exists v, st.
    rewrite read_var_Ok, ret_Ok. auto.
Qed.

(** ** Projections of a written state *)

Create Rewrite HintDb st.
Lemma level_set_var r v st : level (set_var r v st) = level st.
Proof. reflexivity. Qed.
Lemma level_set_clause c cl st : level (set_clause c cl st) = level st.
Proof. reflexivity. Qed.
Lemma contradiction_set_clause c cl st : contradiction (set_clause c cl st) = contradiction st.
Proof. reflexivity. Qed.
Lemma false_clause_set_var r v st : false_clause (set_var r v st) = false_clause st.
Proof. reflexivity. Qed.
Lemma marks_set_var r v st : marks (set_var r v st) = marks st.
Proof. reflexivity. Qed.
Lemma marks_set_clause c cl st : marks (set_clause c cl st) = marks st.
Proof. reflexivity. Qed.
Lemma vars_set_clause c cl st : vars (set_clause c cl st) = vars st.
Proof. reflexivity. Qed.
Lemma clauses_size_set_var r v st : clauses_size (set_var r v st) = clauses_size st.
Proof. reflexivity. Qed.
Lemma clauses_size_set_clause c cl st : clauses_size (set_clause c cl st) = clauses_size st.
Proof. reflexivity. Qed.
Lemma heap_set_var r v st : heap (set_var r v st) = heap st.
Proof. reflexivity. Qed.
Lemma decided_literals_set_var r v st : decided_literals (set_var r v st) = decided_literals st.
Proof. reflexivity. Qed.
Lemma decided_literals_set_clause c cl st : decided_literals (set_clause c cl st) = decided_literals st.
Proof. reflexivity. Qed.
Lemma propagate_literals_set_var r v st : propagate_literals (set_var r v st) = propagate_literals st.
Proof. reflexivity. Qed.
Lemma propagate_literals_set_clause c cl st : propagate_literals (set_clause c cl st) = propagate_literals st.
Proof. reflexivity. Qed.
Lemma learned_clauses_set_var r v st : learned_clauses (set_var r v st) = learned_clauses st.
Proof. reflexivity. Qed.
Lemma learned_clauses_set_clause c cl st : learned_clauses (set_clause c cl st) = learned_clauses st.
Proof. reflexivity. Qed.
Lemma subsumed_clauses_set_var r v st : subsumed_clauses (set_var r v st) = subsumed_clauses st.
Proof. reflexivity. Qed.
Lemma subsumed_clauses_set_clause c cl st : subsumed_clauses (set_clause c cl st) = subsumed_clauses st.
Proof. reflexivity. Qed.
Lemma length_vars_set_var r v st :
  length (vars (set_var r v st)) = length (vars st).
Proof. destruct r; cbn; [done|]. apply length_insert. Qed.

Lemma length_heap_set_clause c cl st :
  length (heap (set_clause c cl st)) = length (heap st).
Proof. destruct c; cbn; [done|]. apply length_insert. Qed.

Lemma get_var_set_clause c cl st r :
  get_var (set_clause c cl st) r = get_var st r.
Proof. by destruct r. Qed.

Lemma get_clause_set_var r v st c :
  get_clause (set_var r v st) c = get_clause st c.
Proof. by destruct c. Qed.

Lemma get_var_frame st st' r :
  contradiction st' = contradiction st -> vars st' = vars st ->
  get_var st' r = get_var st r.
Proof. intros H1 H2. destruct r; cbn; congruence. Qed.

Lemma get_clause_frame st st' c :
  false_clause st' = false_clause st -> heap st' = heap st ->
  get_clause st' c = get_clause st c.
Proof. intros H1 H2. destruct c; cbn; congruence. Qed.
#[global] Hint Rewrite level_set_var level_set_clause contradiction_set_clause false_clause_set_var marks_set_var marks_set_clause vars_set_clause clauses_size_set_var clauses_size_set_clause heap_set_var decided_literals_set_var decided_literals_set_clause propagate_literals_set_var propagate_literals_set_clause learned_clauses_set_var learned_clauses_set_clause subsumed_clauses_set_var subsumed_clauses_set_clause length_vars_set_var length_heap_set_clause get_var_set_clause get_clause_set_var : st.

Ltac st_simpl :=
  repeat (progress
    (cbn [level contradiction false_clause marks vars clauses_size heap
          decided_literals propagate_literals learned_clauses subsumed_clauses
          st_with_level st_with_contradiction st_with_false_clause
          st_with_marks st_with_vars st_with_heap st_with_decided
          st_with_propagate st_with_learned st_with_subsumed
          fst snd] in *;
     autorewrite with st in * )).

Lemma read_order_Ok var st o s :
  read_order var st = Ok (o, s) <->
  exists r v, var = Some r /\ get_var st r = Some v /\
    o = d_order (decision v) /\ s = st.
Proof.
  unfold read_order. rewrite bind_Ok. split.
  - intros (r & s1 & E & H). apply lift_opt_Ok in E as [-> ->].
    apply bind_Ok in H as (v & s2 & E & H). apply read_var_Ok in E as [E ->].
    apply ret_Ok in H. simplify_eq. eauto 10.
  - intros (r & v & -> & E & -> & ->). exists r, st. split; [done|].
    apply bind_Ok. exists v, st. rewrite read_var_Ok, ret_Ok. auto.
Qed.

Lemma read_dominator_Ok var st d s :
  read_dominator var st = Ok (d, s) <->
  exists r v, var = Some r /\ get_var st r = Some v /\
    d = d_dominator (decision v) /\ s = st.
Proof.
  unfold read_dominator. rewrite bind_Ok. split.
  - intros (r & s1 & E & H). apply lift_opt_Ok in E as [-> ->].
    apply bind_Ok in H as (v & s2 & E & H). apply read_var_Ok in E as [E ->].
    apply ret_Ok in H. simplify_eq. eauto 10.
  - intros (r & v & -> & E & -> & ->). exists r, st. split; [done|].
    apply bind_Ok. exists v, st. rewrite read_var_Ok, ret_Ok. auto.
Qed.

(** [minv H] takes a successful monadic computation apart, one bind after
    the other, and rewrites the primitive steps into facts about the state.
    [minv_more] is extended as further primitives get their inversion
    lemma. *)
Ltac minv_more H := idtac.

Ltac minv_prim H :=
  lazymatch type of H with
  | ret _ _ = Ok _ => apply ret_Ok in H; simplify_eq
  | gets _ _ = Ok _ => apply gets_Ok in H; simplify_eq
  | modify _ _ = Ok _ => apply modify_Ok in H; simplify_eq
  | fault _ = Ok _ => apply fault_Ok in H; destruct H
  | out_of_fuel _ = Ok _ => apply out_of_fuel_Ok in H; destruct H
  | lift_opt _ _ = Ok _ =>
      apply lift_opt_Ok in H as [H ->];
      try (injection H as <-)
  | read_var _ _ = Ok _ => apply read_var_Ok in H as [H ->]
  | lit_owner _ _ = Ok _ =>
      let Hn := fresh "Hn" in apply lit_owner_Ok in H as (-> & -> & Hn)
  | read_lit _ _ = Ok _ =>
      let v := fresh "v" in apply read_lit_Ok in H as (v & H & -> & ->)
  | read_clause_at _ _ = Ok _ => apply read_clause_at_Ok in H as [H ->]
  | sat_subsumed_clause _ _ = Ok _ =>
      let cl := fresh "cl" in
      apply sat_subsumed_clause_Ok in H as (cl & H & -> & ->)
  | read_order _ _ = Ok _ =>
      let r := fresh "r" in let v := fresh "v" in
      let Hr := fresh "Hr" in
      apply read_order_Ok in H as (r & v & Hr & H & -> & ->);
      first [injection Hr as <- | subst]
  | read_dominator _ _ = Ok _ =>
      let r := fresh "r" in let v := fresh "v" in
      let Hr := fresh "Hr" in
      apply read_dominator_Ok in H as (r & v & Hr & H & -> & ->);
      first [injection Hr as <- | subst]
  | sat_implied_literal _ _ = Ok _ =>
      let v := fresh "v" in let Hn := fresh "Hn" in
      apply sat_implied_literal_Ok in H as (v & H & Hn & -> & ->)
  | update_var _ _ _ = Ok _ =>
      let v := fresh "v" in apply update_var_Ok in H as (v & H & ->)
  | set_Var_Decision _ _ _ _ _ = Ok _ =>
      let v := fresh "v" in apply update_var_Ok in H as (v & H & ->)
  | unset_Var_Decision _ _ = Ok _ =>
      let v := fresh "v" in apply update_var_Ok in H as (v & H & ->)
  | set_order_dominator _ _ _ _ = Ok _ =>
      let v := fresh "v" in apply update_var_Ok in H as (v & H & ->)
  | set_dominator _ _ _ = Ok _ =>
      let v := fresh "v" in apply update_var_Ok in H as (v & H & ->)
  | update_lit _ _ _ = Ok _ =>
      let v := fresh "v" in apply update_lit_Ok in H as (v & H & ->)
  | update_clause _ _ _ = Ok _ =>
      let cl := fresh "cl" in apply update_clause_Ok in H as (cl & H & ->)
  | push_decided _ _ = Ok _ =>
      let Hc := fresh "Hcap" in apply push_decided_Ok in H as (Hc & ->)
  | push_propagate _ _ = Ok _ =>
      let Hc := fresh "Hcap" in apply push_propagate_Ok in H as (Hc & ->)
  | _ => minv_more H
  end.

Ltac minv H :=
  lazymatch type of H with
  | bind _ _ _ = Ok _ =>
      let a := fresh "a" in
      let s := fresh "s" in
      let E := fresh "E" in
      apply bind_Ok in H; destruct H as (a & s & E & H);
      cbn beta in H; minv E; minv H
  | _ => minv_prim H; st_simpl
  end.

(** ** Reading the state after a write *)

Lemma get_set_var_eq st r v v' :
  get_var st r = Some v -> get_var (set_var r v' st) r = Some v'.
Proof.
  destruct r as [|i]; cbn; [done|]. intros H.
  apply list_lookup_insert_eq. by eapply lookup_lt_Some.
Qed.

Lemma get_set_var_ne st r r' v' :
  r <> r' -> get_var (set_var r v' st) r' = get_var st r'.
Proof.
  destruct r as [|i], r' as [|j]; cbn; try done.
  intros H. apply list_lookup_insert_ne. congruence.
Qed.

Lemma get_var_with_decided st t r :
  get_var (st_with_decided t st) r = get_var st r.
Proof. by destruct r. Qed.
Lemma get_var_with_subsumed st t r :
  get_var (st_with_subsumed t st) r = get_var st r.
Proof. by destruct r. Qed.
Lemma get_var_with_propagate st t r :
  get_var (st_with_propagate t st) r = get_var st r.
Proof. by destruct r. Qed.
Lemma get_var_with_level st t r :
  get_var (st_with_level t st) r = get_var st r.
Proof. by destruct r. Qed.
Lemma get_var_with_learned st t r :
  get_var (st_with_learned t st) r = get_var st r.
Proof. by destruct r. Qed.
Lemma get_var_with_marks st t r :
  get_var (st_with_marks t st) r = get_var st r.
Proof. by destruct r. Qed.
Lemma get_var_with_heap st t r :
  get_var (st_with_heap t st) r = get_var st r.
Proof. by destruct r. Qed.
Lemma get_clause_with_decided st t c :
  get_clause (st_with_decided t st) c = get_clause st c.
Proof. by destruct c. Qed.
Lemma get_clause_with_subsumed st t c :
  get_clause (st_with_subsumed t st) c = get_clause st c.
Proof. by destruct c. Qed.
Lemma get_clause_with_propagate st t c :
  get_clause (st_with_propagate t st) c = get_clause st c.
Proof. by destruct c. Qed.
Lemma get_clause_with_level st t c :
  get_clause (st_with_level t st) c = get_clause st c.
Proof. by destruct c. Qed.
Lemma get_clause_with_learned st t c :
  get_clause (st_with_learned t st) c = get_clause st c.
Proof. by destruct c. Qed.
Lemma get_clause_with_marks st t c :
  get_clause (st_with_marks t st) c = get_clause st c.
Proof. by destruct c. Qed.
#[global] Hint Rewrite get_var_with_decided get_var_with_subsumed
  get_var_with_propagate get_var_with_level get_var_with_learned
  get_var_with_marks get_var_with_heap get_clause_with_decided
  get_clause_with_subsumed get_clause_with_propagate get_clause_with_level
  get_clause_with_learned get_clause_with_marks : st.

Lemma get_set_var st r r' v v' :
  get_var st r = Some v ->
  get_var (set_var r v' st) r' = if decide (r = r') then Some v' else get_var st r'.
Proof.
  intros H. destruct (decide (r = r')) as [<-|Hne].
  - by eapply get_set_var_eq.
  - by apply get_set_var_ne.
Qed.

Lemma get_set_clause_eq st c cl cl' :
  get_clause st c = Some cl -> get_clause (set_clause c cl' st) c = Some cl'.
Proof.
  destruct c as [|h]; cbn; [done|]. intros H.
  apply list_lookup_insert_eq. by eapply lookup_lt_Some.
Qed.

Lemma get_set_clause_ne st c c' cl' :
  c <> c' -> get_clause (set_clause c cl' st) c' = get_clause st c'.
Proof.
  destruct c as [|h], c' as [|j]; cbn; try done.
  intros H. apply list_lookup_insert_ne. congruence.
Qed.

Lemma get_set_clause st c c' cl cl' :
  get_clause st c = Some cl ->
  get_clause (set_clause c cl' st) c' =
    if decide (c = c') then Some cl' else get_clause st c'.
Proof.
  intros H. destruct (decide (c = c')) as [<-|Hne].
  - by eapply get_set_clause_eq.
  - by apply get_set_clause_ne.
Qed.

(** [mcases H] is [minv H] followed by a case analysis on every conditional
    the computation goes through. *)
Ltac mcases H :=
  minv H;
  try (lazymatch type of H with
       | (if negb ?b then _ else _) _ = Ok _ =>
           let Hb := fresh "Hb" in destruct b eqn:Hb; cbn [negb] in H; mcases H
       | (if ?b then _ else _) _ = Ok _ =>
           let Hb := fresh "Hb" in destruct b eqn:Hb; cbn [negb] in H; mcases H
       | (match ?x with _ => _ end) _ = Ok _ =>
           let Hx := fresh "Hx" in destruct x eqn:Hx; mcases H
       end).

(** ** The footprint of propagation *)

Lemma not_instantiated_level v :
  sat_instantiated_var v = false <-> d_level (decision v) = 0%N.
Proof. unfold sat_instantiated_var. rewrite N.ltb_ge. lia. Qed.

Lemma instantiated_level v :
  sat_instantiated_var v = true <-> (0 < d_level (decision v))%N.
Proof. unfold sat_instantiated_var. apply N.ltb_lt. Qed.

Lemma quiet_step st st' : effect st st' -> quiet st st'.
Proof. apply rtc_once. Qed.

Lemma quiet_trans st1 st2 st3 : quiet st1 st2 -> quiet st2 st3 -> quiet st1 st3.
Proof. apply rtc_trans. Qed.

Lemma outcome_after st s b st' : quiet st s -> outcome b s st' -> outcome b st st'.
Proof.
  intros Hq. destruct b; cbn.
  - by apply quiet_trans.
  - intros (s1 & c & H1 & ->). exists s1, c. split; [|done].
    by eapply quiet_trans.
Qed.

Lemma elem_of_slots {A} (size : nat) (l : list A) x :
  Some x ∈ slots size l -> x ∈ l.
Proof.
  unfold slots. intros H. apply elem_of_take in H as (i & H & _).
  apply list_elem_of_lookup_2 in H. apply elem_of_app in H as [H|H].
  - apply list_elem_of_fmap in H as (y & [= ->] & Hy). exact Hy.
  - apply elem_of_replicate in H as [H _]. discriminate.
Qed.

Lemma sat_subsume_clause_Ok clause st u s :
  sat_subsume_clause clause st = Ok (u, s) <->
  exists c cl, clause = Some c /\ get_clause st c = Some cl /\
    s = if is_subsumed cl then st else subsumed_state c cl st.
Proof.
  unfold sat_subsume_clause. split.
  - intros H. minv H. exists a, a0. split; [done|]. split; [done|].
    destruct (is_subsumed a0) eqn:Hs; minv H; done.
  - intros (c & cl & -> & Hc & ->). destruct u.
    apply bind_Ok. exists c, st. split; [done|].
    apply bind_Ok. exists cl, st. rewrite read_clause_at_Ok. split; [done|].
    destruct (is_subsumed cl); [done|].
    apply bind_Ok. exists tt, (set_clause c (clause_with_subsumed true cl) st).
    rewrite update_clause_Ok. split; [eauto|done].
Qed.

Lemma sat_subsume_clause_quiet clause st u s :
  sat_subsume_clause clause st = Ok (u, s) -> quiet st s.
Proof.
  intros H. apply sat_subsume_clause_Ok in H as (c & cl & -> & Hc & ->).
  destruct (is_subsumed cl) eqn:Hs; [done|].
  apply quiet_step. by eapply eff_subsume.
Qed.

Lemma sat_contradiction_Ok implier st b s :
  sat_contradiction implier st = Ok (b, s) <->
  b = false /\ length (decided_literals st) < S (length (vars st)) /\
  s = conflict_state implier st.
Proof.
  unfold sat_contradiction. split.
  - intros H. minv H. cbn in E. by simplify_eq.
  - intros (-> & Hcap & ->).
    apply bind_Ok. exists (level st), st. split; [done|].
    apply bind_Ok. eexists tt, _. split.
    { apply update_var_Ok. eexists. split; [|reflexivity]. done. }
    apply bind_Ok. eexists tt, _. split; [|reflexivity].
    apply push_decided_Ok. split; [|reflexivity]. exact Hcap.
Qed.

Lemma set_Lit_Decision_Ok lit implier st b s :
  set_Lit_Decision lit implier st = Ok (b, s) ->
  exists v, get_var st (lit_var lit) = Some v /\ lit <> contradiction_neg /\
    ((d_level (decision v) = 0%N /\ b = true /\
      length (decided_literals st) < S (length (vars st)) /\
      s = assigned_state lit implier v st)
     \/ (sat_instantiated_var v = true /\ implied_in (lit_side lit) v = false /\
         b = false /\
         length (decided_literals st) < S (length (vars st)) /\
         s = conflict_state implier st)
     \/ (sat_instantiated_var v = true /\ implied_in (lit_side lit) v = true /\
         b = true /\ sat_subsume_clause implier st = Ok (tt, s))).
Proof.
  unfold set_Lit_Decision. intros H. minv H. rename a into v. exists v.
  split; [done|]. split; [done|].
  destruct (sat_instantiated_var v) eqn:Hi; cbn [negb] in H.
  - right. minv H. simplify_eq.
    destruct (implied_in (lit_side lit) v) eqn:Himp; cbn [negb] in H.
    + right. minv H. by destruct a.
    + left. apply sat_contradiction_Ok in H as (-> & Hcap & ->). done.
  - left. apply not_instantiated_level in Hi. minv H. simplify_eq.
    split_and!; done.
Qed.

Lemma set_Lit_Decision_outcome lit c cl st b s :
  get_clause st c = Some cl ->
  Some lit = watch_a cl \/ Some lit = watch_b cl ->
  set_Lit_Decision lit (Some c) st = Ok (b, s) -> outcome b st s.
Proof.
  intros Hc Hw H. apply set_Lit_Decision_Ok in H as (v & Hv & Hn & H).
  destruct H as [(Hl & -> & _ & ->)|[(Hi & Him & -> & _ & ->)|(Hi & Him & -> & H)]].
  - apply quiet_step. by eapply eff_imply.
  - exists st, c. split; [apply rtc_refl | done].
  - by eapply sat_subsume_clause_quiet.
Qed.

Lemma unwatched_scan_Some clause todo st m s :
  unwatched_scan clause todo st = Ok (Some m, s) ->
  s = st /\ Some m ∈ todo /\
  (exists v, get_var st (lit_var m) = Some v /\ d_level (decision v) = 0%N) /\
  (exists cl, get_clause st clause = Some cl /\
     Some m <> watch_a cl /\ Some m <> watch_b cl).
Proof.
  induction todo as [|slot todo IH]; cbn [unwatched_scan]; intros H; mcases H.
  all: try (apply IH in H as (-> & Hin & Hv & Hcl); split_and!; try done;
            by apply list_elem_of_further).
  apply orb_false_iff in Hb0 as [Ha Hb'].
  apply bool_decide_eq_false in Ha, Hb'. apply not_instantiated_level in Hb.
  split_and!; [done | apply list_elem_of_here | eauto | eauto].
Qed.

Lemma unwatched_scan_None clause todo st s :
  unwatched_scan clause todo st = Ok (None, s) -> quiet st s.
Proof.
  induction todo as [|slot todo IH]; cbn [unwatched_scan]; intros H; mcases H.
  all: try (by apply IH). 
  - apply rtc_refl.
  - by eapply sat_subsume_clause_quiet.
Qed.

Lemma sat_unwatched_literal_Some clause st m s :
  sat_unwatched_literal clause st = Ok (Some m, s) ->
  s = st /\
  (exists v, get_var st (lit_var m) = Some v /\ d_level (decision v) = 0%N) /\
  (exists cl, get_clause st clause = Some cl /\ m ∈ lits cl /\
     Some m <> watch_a cl /\ Some m <> watch_b cl).
Proof.
  unfold sat_unwatched_literal. intros H. minv H.
  apply unwatched_scan_Some in H as (-> & Hin & Hv & cl & Hcl & Ha & Hb).
  simplify_eq. apply elem_of_slots in Hin.
  split_and!; eauto 10.
Qed.

Lemma sat_unwatched_literal_None clause st s :
  sat_unwatched_literal clause st = Ok (None, s) -> quiet st s.
Proof.
  unfold sat_unwatched_literal. intros H. minv H.
  by eapply unwatched_scan_None.
Qed.

Lemma replace_watch_quiet clit clause i l st u s :
  (exists cl, get_clause st clause = Some cl /\ l ∈ lits cl /\
     Some l <> watch_a cl /\ Some l <> watch_b cl) ->
  replace_watch clit clause i l st = Ok (u, s) -> quiet st s.
Proof.
  intros (cl & Hcl & Hin & Ha & Hb). unfold replace_watch. intros H.
  apply bind_Ok in H as (cl' & s1 & E & H). minv E. simplify_eq.
  apply bind_Ok in H as (u1 & s1 & E1 & H).
  apply bind_Ok in H as (u2 & s2 & E2 & H).
  apply update_lit_Ok in E2 as (v2 & Hv2 & ->).
  apply update_lit_Ok in H as (v3 & Hv3 & ->).
  assert (effect st s1) as Hs1.
  { destruct (bool_decide (Some clit = watch_a cl)); minv E1; simplify_eq.
    - by apply eff_watch_a.
    - by apply eff_watch_b. }
  eapply rtc_l; [exact Hs1|]. eapply rtc_l; [|apply rtc_once].
  - apply (eff_watch_list _ clit v2 (fun ws => delete i ws)). exact Hv2.
  - apply (eff_watch_list _ l v3 (fun ws => clause :: ws)). exact Hv3.
Qed.

Lemma propagate_unit_outcome clit clause st b s :
  propagate_unit clit clause st = Ok (b, s) -> outcome b st s.
Proof.
  unfold propagate_unit. intros H. mcases H.
  all: try (apply sat_contradiction_Ok in H as (-> & _ & ->);
            exists st, clause; split; [apply rtc_refl | done]).
  - by eapply sat_subsume_clause_quiet.
  - eapply set_Lit_Decision_outcome in E1; [|done|].
    + cbn in E1. eapply quiet_trans; [exact E1|].
      apply quiet_step. apply eff_queue.
    + rewrite <- Hx. destruct (bool_decide _); auto.
  - eapply set_Lit_Decision_outcome in E1; [done|done|].
    rewrite <- Hx. destruct (bool_decide _); auto.
Qed.

Lemma watch_loop_outcome clit todo i st b s :
  watch_loop clit todo i st = Ok (b, s) -> outcome b st s.
Proof.
  revert i st. induction todo as [|clause todo IH]; intros i st;
    cbn [watch_loop]; intros H.
  - minv H. apply rtc_refl.
  - minv H. destruct (is_subsumed cl); [by eapply IH|].
    apply bind_Ok in H as (l & s1 & E0 & H).
    assert (quiet st s1 /\ (forall m : LitRef, l = Some m ->
              exists c0 : Clause, get_clause s1 clause = Some c0 /\
                m ∈ lits c0 /\
                Some m <> watch_a c0 /\ Some m <> watch_b c0)) as [Hq Hm].
    { destruct l as [m|].
      - apply sat_unwatched_literal_Some in E0 as (-> & _ & Hcl).
        split; [apply rtc_refl|]. intros ? [= <-]. exact Hcl.
      - apply sat_unwatched_literal_None in E0. split; [done|]. discriminate. }
    eapply outcome_after; [exact Hq|]. clear E0 Hq.
    minv H. destruct (is_subsumed cl0); [by eapply IH|].
    destruct l as [m|].
    + apply bind_Ok in H as (u & s2 & E1 & H).
      eapply replace_watch_quiet in E1; [|by apply Hm].
      eapply outcome_after; [exact E1|]. by eapply IH.
    + apply bind_Ok in H as (go & s2 & E1 & H).
      apply propagate_unit_outcome in E1. destruct go.
      * eapply outcome_after; [exact E1|]. by eapply IH.
      * minv H. exact E1.
Qed.

Lemma for_each_quiet {A} (f : A -> M unit) l st u s :
  (forall x st u s, f x st = Ok (u, s) -> quiet st s) ->
  for_each f l st = Ok (u, s) -> quiet st s.
Proof.
  intros Hf. revert st. induction l as [|x l IH]; intros st; cbn; intros H.
  - minv H. apply rtc_refl.
  - apply bind_Ok in H as (u1 & s1 & E & H).
    eapply quiet_trans; [by eapply Hf | by eapply IH].
Qed.

Lemma propagate_lit_decision_outcome lit st b s :
  propagate_lit_decision lit st = Ok (b, s) -> outcome b st s.
Proof.
  unfold propagate_lit_decision. intros H.
  apply bind_Ok in H as (r & s0 & E & H). minv E.
  apply bind_Ok in H as (l & s0 & E & H). minv E.
  apply bind_Ok in H as (u1 & s1 & E1 & H).
  apply bind_Ok in H as (u2 & s2 & E2 & H).
  apply for_each_quiet in E1.
  2:{ intros x st1 u3 s3 Hx. minv Hx. by eapply sat_subsume_clause_quiet. }
  apply for_each_quiet in E2.
  2:{ intros x st1 u3 s3 Hx. by eapply sat_subsume_clause_quiet. }
  eapply outcome_after; [exact E1|]. eapply outcome_after; [exact E2|].
  minv H. by eapply watch_loop_outcome.
Qed.

Lemma drain_outcome k i st b s :
  drain k i st = Ok (b, s) -> outcome b st s.
Proof.
  revert i st. induction k as [|k IH]; intros i st; cbn [drain]; intros H.
  - minv H. destruct (propagate_literals st !! i); minv H.
    apply quiet_step. apply eff_queue.
  - minv H. destruct (propagate_literals st !! i).
    + apply bind_Ok in H as (ok & s1 & E & H).
      apply propagate_lit_decision_outcome in E. destruct ok.
      * eapply outcome_after; [exact E|]. by eapply IH.
      * minv H. exact E.
    + minv H. apply quiet_step. apply eff_queue.
Qed.

Lemma sat_unit_resolution_outcome st b s :
  sat_unit_resolution st = Ok (b, s) -> outcome b st s.
Proof.
  unfold sat_unit_resolution. intros H. minv H. by eapply drain_outcome.
Qed.

(** ** Stability *)

Lemma same_clause_shape_refl cl : same_clause_shape cl cl.
Proof. by repeat split. Qed.

Lemma same_clause_shape_trans c1 c2 c3 :
  same_clause_shape c1 c2 -> same_clause_shape c2 c3 -> same_clause_shape c1 c3.
Proof. unfold same_clause_shape. intuition congruence. Qed.

Lemma same_var_shape_refl v : same_var_shape v v.
Proof. by repeat split. Qed.

Lemma same_var_shape_trans v1 v2 v3 :
  same_var_shape v1 v2 -> same_var_shape v2 v3 -> same_var_shape v1 v3.
Proof. unfold same_var_shape, same_lit_shape. intuition congruence. Qed.

Lemma same_var_shape_decision d v : same_var_shape v (var_with_decision d v).
Proof. by repeat split. Qed.

Lemma same_var_shape_watch_list f side v :
  same_var_shape v (with_watch_list f side v).
Proof. destruct side; by repeat split. Qed.

Lemma same_var_shape_lit side f v :
  same_lit_shape (var_lit side v) (f (var_lit side v)) ->
  same_var_shape v (var_with_lit side (f (var_lit side v)) v).
Proof. destruct side; cbn; intros H; by repeat split; try apply H. Qed.

#[global] Instance stable_preorder : PreOrder stable.
Proof.
  split.
  - intros st. split; eauto using same_clause_shape_refl, same_var_shape_refl.
  - intros s1 s2 s3 [A1 A2 A3 A4 A5 A6] [B1 B2 B3 B4 B5 B6].
    split; try congruence; try lia.
    + intros c cl H. apply A5 in H as (cl2 & H & Hs).
      apply B5 in H as (cl3 & H & Hs'). exists cl3. split; [done|].
      by eapply same_clause_shape_trans.
    + intros r v H. apply A6 in H as (v2 & H & Hs).
      apply B6 in H as (v3 & H & Hs'). exists v3. split; [done|].
      by eapply same_var_shape_trans.
Qed.

(** A write that touches no variable and no clause object. *)
Lemma stable_frame st st' :
  clauses_size st' = clauses_size st ->
  length (marks st') = length (marks st) ->
  contradiction st' = contradiction st -> vars st' = vars st ->
  false_clause st' = false_clause st -> heap st' = heap st ->
  stable st st'.
Proof.
  intros H1 H2 H3 H4 H5 H6. split; try congruence.
  - by rewrite H6.
  - intros c cl H. exists cl. split; [|apply same_clause_shape_refl].
    by rewrite (get_clause_frame st st').
  - intros r v H. exists v. split; [|apply same_var_shape_refl].
    by rewrite (get_var_frame st st').
Qed.

Lemma stable_set_var st r v v' :
  get_var st r = Some v -> same_var_shape v v' -> stable st (set_var r v' st).
Proof.
  intros Hv Hs. split; st_simpl; try done.
  - intros c cl H. exists cl. split; [done | apply same_clause_shape_refl].
  - intros r' w H. rewrite (get_set_var _ _ _ _ _ Hv).
    destruct (decide (r = r')) as [<-|Hne].
    + simplify_eq. eauto.
    + eauto using same_var_shape_refl.
Qed.

Lemma stable_set_clause st c cl cl' :
  get_clause st c = Some cl -> same_clause_shape cl cl' ->
  stable st (set_clause c cl' st).
Proof.
  intros Hc Hs. split; st_simpl; try done.
  - intros c' w H. rewrite (get_set_clause _ _ _ _ _ Hc).
    destruct (decide (c = c')) as [<-|Hne].
    + simplify_eq. eauto.
    + eauto using same_clause_shape_refl.
  - intros r v H. exists v. split; [done | apply same_var_shape_refl].
Qed.

Lemma effect_stable st st' : effect st st' -> stable st st'.
Proof.
  destruct 1 as [lit v c cl0 Hn Hv Hl _ _|c cl Hc Hs|c cl l Hc _ _ _
                 |c cl l Hc _ _ _|l v f Hv|q].
  - unfold assigned_state.
    etrans; [eapply stable_set_var; [exact Hv|apply same_var_shape_decision]|].
    by apply stable_frame.
  - unfold subsumed_state.
    etrans; [apply (stable_set_clause st c cl (clause_with_subsumed true cl));
             [exact Hc|by repeat split]|].
    by apply stable_frame.
  - apply (stable_set_clause st c cl); [exact Hc|by repeat split].
  - apply (stable_set_clause st c cl); [exact Hc|by repeat split].
  - eapply stable_set_var; [exact Hv|apply same_var_shape_watch_list].
  - by apply stable_frame.
Qed.

Lemma effect_kept st st' : effect st st' -> kept st st'.
Proof.
  destruct 1; unfold kept, assigned_state, subsumed_state; st_simpl;
    by rewrite ?length_heap_set_clause.
Qed.

Lemma kept_refl st : kept st st.
Proof. by repeat split. Qed.

Lemma kept_trans s1 s2 s3 : kept s1 s2 -> kept s2 s3 -> kept s1 s3.
Proof. unfold kept. intuition congruence. Qed.

Lemma quiet_stable st st' : quiet st st' -> stable st st'.
Proof.
  induction 1 as [|s1 s2 s3 H _ IH]; [reflexivity|].
  etrans; [by apply effect_stable | exact IH].
Qed.

Lemma quiet_kept st st' : quiet st st' -> kept st st'.
Proof.
  induction 1 as [|s1 s2 s3 H _ IH]; [apply kept_refl|].
  eapply kept_trans; [by apply effect_kept | exact IH].
Qed.

Lemma conflict_state_stable implier st : stable st (conflict_state implier st).
Proof.
  unfold conflict_state.
  etrans; [eapply (stable_set_var st Contradiction); [reflexivity|]|].
  - apply same_var_shape_decision.
  - by apply stable_frame.
Qed.

Lemma conflict_state_kept implier st : kept st (conflict_state implier st).
Proof. by repeat split. Qed.

Lemma outcome_stable b st st' : outcome b st st' -> stable st st'.
Proof.
  destruct b; cbn.
  - apply quiet_stable.
  - intros (s & c & Hq & ->). etrans; [by apply quiet_stable|].
    apply conflict_state_stable.
Qed.

Lemma outcome_kept b st st' : outcome b st st' -> kept st st'.
Proof.
  destruct b; cbn.
  - apply quiet_kept.
  - intros (s & c & Hq & ->). eapply kept_trans; [by apply quiet_kept|].
    apply conflict_state_kept.
Qed.

(** ** Running a computation forward *)

Lemma bind_run {A B} (m : M A) (k : A -> M B) st a s :
  m st = Ok (a, s) -> bind m k st = k a s.
Proof. unfold bind. by intros ->. Qed.

Lemma lit_owner_run l st :
  l <> contradiction_neg -> lit_owner l st = Ok (lit_var l, st).
Proof. intros H. by apply lit_owner_Ok. Qed.

Lemma read_var_run r st v : get_var st r = Some v -> read_var r st = Ok (v, st).
Proof. intros H. by apply read_var_Ok. Qed.

Lemma read_lit_run l st v :
  get_var st (lit_var l) = Some v ->
  read_lit l st = Ok (var_lit (lit_side l) v, st).
Proof. intros H. apply read_lit_Ok. eauto. Qed.

Lemma read_clause_at_run c st cl :
  get_clause st c = Some cl -> read_clause_at c st = Ok (cl, st).
Proof. intros H. by apply read_clause_at_Ok. Qed.

Lemma sat_subsumed_clause_run c st cl :
  get_clause st c = Some cl -> sat_subsumed_clause c st = Ok (is_subsumed cl, st).
Proof. intros H. apply sat_subsumed_clause_Ok. eauto. Qed.

Lemma sat_implied_literal_run l st v :
  get_var st (lit_var l) = Some v -> l <> contradiction_neg ->
  sat_implied_literal l st = Ok (implied_in (lit_side l) v, st).
Proof. intros H Hn. apply sat_implied_literal_Ok. eauto. Qed.

Lemma update_var_run r f st v :
  get_var st r = Some v -> update_var r f st = Ok (tt, set_var r (f v) st).
Proof. intros H. apply update_var_Ok. eauto. Qed.

Lemma update_clause_run c f st cl :
  get_clause st c = Some cl ->
  update_clause c f st = Ok (tt, set_clause c (f cl) st).
Proof. intros H. apply update_clause_Ok. eauto. Qed.

Lemma push_decided_run l st :
  length (decided_literals st) < S (length (vars st)) ->
  push_decided l st = Ok (tt, st_with_decided (decided_literals st ++ [l]) st).
Proof. intros H. by apply push_decided_Ok. Qed.

Lemma push_propagate_run l st :
  length (propagate_literals st) < length (vars st) ->
  push_propagate l st =
    Ok (tt, st_with_propagate (propagate_literals st ++ [l]) st).
Proof. intros H. by apply push_propagate_Ok. Qed.

Lemma sat_subsume_clause_run c st cl :
  get_clause st c = Some cl ->
  sat_subsume_clause (Some c) st =
    Ok (tt, if is_subsumed cl then st else subsumed_state c cl st).
Proof. intros H. apply sat_subsume_clause_Ok. eauto. Qed.

Lemma sat_contradiction_run implier st :
  length (decided_literals st) < S (length (vars st)) ->
  sat_contradiction implier st = Ok (false, conflict_state implier st).
Proof. intros H. by apply sat_contradiction_Ok. Qed.

Create HintDb forward.
#[global] Hint Resolve lit_owner_run read_var_run read_lit_run
  read_clause_at_run sat_subsumed_clause_run sat_implied_literal_run
  update_var_run update_clause_run push_decided_run push_propagate_run
  sat_subsume_clause_run sat_contradiction_run : forward.

(** [mrun] executes the first step of the computation in the goal, finding
    its result from the facts at hand. *)
Ltac mrun :=
  lazymatch goal with
  | |- bind (gets _) _ _ = _ => unfold bind at 1, gets at 1
  | |- bind (modify _) _ _ = _ => unfold bind at 1, modify at 1
  | |- bind (ret _) _ _ = _ => unfold bind at 1, ret at 1
  | |- bind (lift_opt (Some _)) _ _ = _ =>
      unfold bind at 1, lift_opt at 1, ret at 1
  | |- bind _ _ _ = _ => erewrite bind_run by (eauto with forward)
  end; cbn beta iota.

(** The assign routine, case by case. *)
Lemma set_Lit_Decision_free lit implier st v :
  get_var st (lit_var lit) = Some v -> lit <> contradiction_neg ->
  d_level (decision v) = 0%N ->
  length (decided_literals st) < S (length (vars st)) ->
  set_Lit_Decision lit implier st = Ok (true, assigned_state lit implier v st).
Proof.
  intros Hv Hn Hl Hcap. apply not_instantiated_level in Hl.
  unfold set_Lit_Decision. do 2 mrun. rewrite Hl. cbn [negb].
  do 2 mrun. unfold set_Var_Decision. mrun.
  erewrite (bind_run _ _ _ tt); [reflexivity|]. apply push_decided_Ok.
  st_simpl. done.
Qed.

Lemma set_Lit_Decision_implied lit c st v cl :
  get_var st (lit_var lit) = Some v -> lit <> contradiction_neg ->
  sat_instantiated_var v = true -> implied_in (lit_side lit) v = true ->
  get_clause st c = Some cl ->
  set_Lit_Decision lit (Some c) st =
    Ok (true, if is_subsumed cl then st else subsumed_state c cl st).
Proof.
  intros Hv Hn Hi Himp Hc.
  unfold set_Lit_Decision. do 2 mrun. rewrite Hi. cbn [negb].
  mrun. rewrite Himp. cbn [negb]. by mrun.
Qed.

Lemma set_Lit_Decision_falsified lit implier st v :
  get_var st (lit_var lit) = Some v -> lit <> contradiction_neg ->
  sat_instantiated_var v = true -> implied_in (lit_side lit) v = false ->
  length (decided_literals st) < S (length (vars st)) ->
  set_Lit_Decision lit implier st = Ok (false, conflict_state implier st).
Proof.
  intros Hv Hn Hi Himp Hcap.
  unfold set_Lit_Decision. do 2 mrun. rewrite Hi. cbn [negb].
  mrun. rewrite Himp. cbn [negb]. by apply sat_contradiction_run.
Qed.

(** ** The footprint of conflict analysis *)

Lemma climb_Ok fuel fixed moving st r s :
  climb fuel fixed moving st = Ok (r, s) -> s = st.
Proof.
  revert moving st. induction fuel as [|fuel IH]; intros moving st; cbn [climb];
    intros H; mcases H; eauto.
Qed.

Ltac minv_more H ::=
  lazymatch type of H with
  | climb _ _ _ _ = Ok _ =>
      let Hs := fresh "Hs" in pose proof (climb_Ok _ _ _ _ _ _ H) as Hs; subst
  | _ => idtac
  end.

Lemma dominator_Ok fuel v1 v2 st r s :
  dominator fuel v1 v2 st = Ok (r, s) -> s = st.
Proof.
  revert v1 v2 st. induction fuel as [|fuel IH]; intros v1 v2 st;
    cbn [dominator]; intros H; mcases H; eauto.
Qed.

Lemma read_mark_Ok id st b s :
  read_mark id st = Ok (b, s) <-> marks st !! N.to_nat id = Some b /\ s = st.
Proof.
  unfold read_mark. destruct (marks st !! N.to_nat id).
  - split; [intros [= -> ->] | intros [[= ->] ->]]; auto.
  - split; [discriminate | intros [? _]; discriminate].
Qed.

Lemma write_mark_Ok id b st u s :
  write_mark id b st = Ok (u, s) <->
  N.to_nat id < length (marks st) /\
  s = st_with_marks (<[N.to_nat id := b]> (marks st)) st.
Proof.
  unfold write_mark. destruct (Nat.ltb_spec (N.to_nat id) (length (marks st))).
  - split; [intros [= <-]; auto | intros [_ ->]]. by destruct u.
  - split; [discriminate | intros [? _]; lia].
Qed.

Lemma push_lit_Ok lit cl st r s :
  push_lit lit cl st = Ok (r, s) <->
  length (lits cl) < lits_size cl /\
  r = clause_with_lits (lits cl ++ [lit]) cl /\ s = st.
Proof.
  unfold push_lit. destruct (Nat.ltb_spec (length (lits cl)) (lits_size cl)).
  - rewrite ret_Ok. split; [intros [= -> ->] | intros (_ & -> & ->)]; auto.
  - rewrite fault_Ok. split; [done | intros [? _]; lia].
Qed.

Lemma alloc_clause_Ok cl st c s :
  alloc_clause cl st = Ok (c, s) <->
  c = ClauseAt (length (heap st)) /\ s = st_with_heap (heap st ++ [cl]) st.
Proof.
  unfold alloc_clause. split; [intros [= <- <-] | intros [-> ->]]; auto.
Qed.

Ltac minv_more H ::=
  lazymatch type of H with
  | climb _ _ _ _ = Ok _ =>
      let Hs := fresh "Hs" in pose proof (climb_Ok _ _ _ _ _ _ H) as Hs; subst
  | dominator _ _ _ _ = Ok _ =>
      let Hs := fresh "Hs" in
      pose proof (dominator_Ok _ _ _ _ _ _ H) as Hs; subst
  | read_mark _ _ = Ok _ => apply read_mark_Ok in H as [H ->]
  | write_mark _ _ _ = Ok _ =>
      let Hm := fresh "Hm" in apply write_mark_Ok in H as [Hm ->]
  | push_lit _ _ _ = Ok _ =>
      let Hc := fresh "Hcap" in apply push_lit_Ok in H as (Hc & -> & ->)
  | alloc_clause _ _ = Ok _ => apply alloc_clause_Ok in H as [-> ->]
  | _ => idtac
  end.

Lemma uip_reset_analysis i st r s :
  uip_reset i st = Ok (r, s) -> analysis st s.
Proof.
  revert st. induction i as [|i IH]; intros st; cbn [uip_reset]; intros H;
    mcases H; try apply rtc_refl.
  eapply rtc_l; [|by eapply IH]. by apply ae_order.
Qed.

Lemma set_dominator_step r d st u s :
  set_dominator r d st = Ok (u, s) -> analysis_effect st s.
Proof. intros H. minv H. by apply ae_order. Qed.

Lemma uip_preds_analysis fuel lit todo st u s :
  uip_preds fuel lit todo st = Ok (u, s) -> analysis st s.
Proof.
  revert st. induction todo as [|slot todo IH]; intros st; cbn [uip_preds];
    intros H; mcases H; try apply rtc_refl; eauto.
  eapply rtc_l; [|by eapply IH].
  repeat match goal with
         | E : match ?x with _ => _ end _ = Ok _ |- _ => destruct x; minv E
         end; by apply ae_order.
Qed.

Lemma uip_forward_analysis fuel todo st u s :
  uip_forward fuel todo st = Ok (u, s) -> analysis st s.
Proof.
  revert st. induction todo as [|lit todo IH]; intros st; cbn [uip_forward];
    intros H; mcases H; try apply rtc_refl.
  eapply rtc_trans; [by eapply uip_preds_analysis | by eapply IH].
Qed.

Lemma sat_compute_UIP_analysis fuel st r s :
  sat_compute_UIP fuel st = Ok (r, s) -> analysis st s.
Proof.
  unfold sat_compute_UIP. intros H. mcases H.
  eapply rtc_trans; [by eapply uip_reset_analysis|].
  eapply rtc_l; [by apply ae_order|]. eapply rtc_trans; [|apply rtc_refl].
  by eapply uip_forward_analysis.
Qed.

Lemma mark_reasons_analysis todo n st r s :
  mark_reasons todo n st = Ok (r, s) -> analysis st s.
Proof.
  revert n st. induction todo as [|slot todo IH]; intros n st;
    cbn [mark_reasons]; intros H; mcases H; try apply rtc_refl; eauto.
  eapply rtc_l; [by apply ae_mark | by eapply IH].
Qed.

Lemma backward_sweep_analysis fuel uip p n st r s :
  backward_sweep fuel uip p n st = Ok (r, s) -> analysis st s.
Proof.
  revert n st. induction p as [|p IH]; intros n st; cbn [backward_sweep];
    intros H; mcases H; try apply rtc_refl.
  all: repeat match goal with
         | E : (if ?x then _ else _) _ = Ok _ |- _ => destruct x; minv E
         end; eauto.
  all: eapply rtc_trans; [by eapply mark_reasons_analysis | by eapply IH].
Qed.

Lemma forward_sweep_analysis todo cl st r s :
  forward_sweep todo cl st = Ok (r, s) -> analysis st s.
Proof.
  revert cl st. induction todo as [|lit todo IH]; intros cl st;
    cbn [forward_sweep]; intros H; mcases H; try apply rtc_refl; eauto.
  eapply rtc_l; [by apply ae_mark | by eapply IH].
Qed.

Lemma mark_reasons_ge todo n st r s :
  mark_reasons todo n st = Ok (r, s) -> n <= r.
Proof.
  revert n st. induction todo as [|slot todo IH]; intros n st;
    cbn [mark_reasons]; intros H; mcases H; eauto.
  apply IH in H. lia.
Qed.

Lemma backward_sweep_ge fuel uip p n st r s :
  backward_sweep fuel uip p n st = Ok (r, s) -> n <= r.
Proof.
  revert n st. induction p as [|p IH]; intros n st; cbn [backward_sweep];
    intros H; mcases H; try done.
  all: repeat match goal with
         | E : (if ?x then _ else _) _ = Ok _ |- _ => destruct x; minv E
         end; eauto.
  all: try match goal with
         | E : mark_reasons _ _ _ = Ok _ |- _ => apply mark_reasons_ge in E
         end.
  all: try (apply IH in H; lia).
Qed.

Lemma forward_sweep_grows todo cl st r s :
  forward_sweep todo cl st = Ok (r, s) ->
  (assertion_level cl <= assertion_level r)%N /\
  lits_size r = lits_size cl /\
  exists extra, lits r = lits cl ++ extra.
Proof.
  revert cl st. induction todo as [|lit todo IH]; intros cl st;
    cbn [forward_sweep]; intros H; mcases H; eauto.
  - apply IH in H as (Hal & Hsz & extra & Hl). cbn in *.
    split_and!; [|done|].
    + match type of Hal with
      | ((if (?x <? ?y)%N then _ else _) <= _)%N =>
          destruct (N.ltb_spec x y); lia
      end.
    + eexists. rewrite Hl, <- app_assoc. reflexivity.
  - split_and!; [lia|done|]. exists []. by rewrite app_nil_r.
Qed.

(** What [sat_build_asserting_clause] does to the state: analysis effects,
    then one allocation. *)
Lemma sat_build_asserting_clause_Ok fuel st c s :
  sat_build_asserting_clause fuel st = Ok (c, s) ->
  exists s1 cl,
    analysis st s1 /\ c = ClauseAt (length (heap s1)) /\
    s = st_with_heap (heap s1 ++ [cl]) s1 /\
    (1 <= assertion_level cl)%N /\ 1 <= lits_size cl /\ lits cl <> [].
Proof.
  unfold sat_build_asserting_clause. intros H.
  apply bind_Ok in H as (uip & s1 & E1 & H).
  apply sat_compute_UIP_analysis in E1.
  apply bind_Ok in H as (tr & s2 & E2 & H). minv E2.
  apply bind_Ok in H as (n & s2 & E2 & H).
  pose proof (backward_sweep_ge _ _ _ _ _ _ _ E2) as Hn.
  apply backward_sweep_analysis in E2.
  apply bind_Ok in H as (learned & s3 & E3 & H). minv E3.
  apply bind_Ok in H as (last_id & s3 & E3 & H).
  assert (s3 = s2) as ->.
  { destruct (learned_clauses s2); by minv E3. }
  clear E3. minv H.
  match goal with
  | E : (if ?x then _ else _) _ = Ok _ |- _ => destruct x eqn:Hx; minv E
  end.
  - match goal with
    | E : forward_sweep _ _ _ = Ok _ |- _ =>
        pose proof (forward_sweep_grows _ _ _ _ _ E) as (Hal & Hsz & extra & Hl);
        apply forward_sweep_analysis in E
    end.
    eexists _, _. split_and!; [|reflexivity|reflexivity| | |].
    + eapply rtc_trans; [exact E1|]. eapply rtc_trans; [exact E2|]. done.
    + cbn in Hal. lia.
    + cbn in Hsz. lia.
    + rewrite Hl. cbn. by destruct extra.
  - eexists _, _. split_and!; [|reflexivity|reflexivity| | |]; cbn.
    + eapply rtc_trans; [exact E1|]. exact E2.
    + lia.
    + lia.
    + done.
Qed.
Lemma analysis_effect_frame st st' : analysis_effect st st' -> analysis_frame st st'.
Proof.
  destruct 1 as [r v o d Hv|i b Hi]; unfold analysis_frame; st_simpl;
    split_and!; try done.
  - intros r'. rewrite (get_set_var _ _ _ _ _ Hv).
    destruct (decide (r = r')) as [<-|]; [|done]. by rewrite Hv.
  - by rewrite length_insert.
Qed.

Lemma analysis_frame_refl st : analysis_frame st st.
Proof. by repeat split. Qed.

Lemma analysis_frame_trans s1 s2 s3 :
  analysis_frame s1 s2 -> analysis_frame s2 s3 -> analysis_frame s1 s3.
Proof.
  unfold analysis_frame. intros H1 H2. destruct_and!.
  split_and!; congruence.
Qed.

Lemma analysis_analysis_frame st st' : analysis st st' -> analysis_frame st st'.
Proof.
  induction 1 as [|s1 s2 s3 H _ IH]; [apply analysis_frame_refl|].
  eapply analysis_frame_trans; [by apply analysis_effect_frame | exact IH].
Qed.

Lemma forget_analysis_shape v v' :
  forget_analysis v' = forget_analysis v -> same_var_shape v v'.
Proof.
  destruct v, v'. unfold forget_analysis, var_with_order_dominator. cbn.
  intros [= -> -> -> _ _ _ ->]. by repeat split.
Qed.

Lemma analysis_frame_var st st' r v :
  analysis_frame st st' -> get_var st r = Some v ->
  exists v', get_var st' r = Some v' /\ forget_analysis v' = forget_analysis v.
Proof.
  intros H Hv. unfold analysis_frame in H. destruct_and!.
  match goal with H : forall r, _ |- _ => specialize (H r) end.
  rewrite Hv in *. destruct (get_var st' r) as [v'|]; [|done].
  exists v'. split; [done|]. cbn in *. congruence.
Qed.

Lemma analysis_frame_stable st st' : analysis_frame st st' -> stable st st'.
Proof.
  intros H. pose proof H as H'. unfold analysis_frame in H. destruct_and!.
  split; try done.
  - by match goal with H : heap _ = heap _ |- _ => rewrite H end.
  - intros c cl Hc. exists cl. split; [|apply same_clause_shape_refl].
    by rewrite (get_clause_frame st st').
  - intros r v Hv.
    destruct (analysis_frame_var _ _ _ _ H' Hv) as (v' & Hv' & Hf).
    exists v'. split; [done|]. by apply forget_analysis_shape.
Qed.

Lemma alloc_stable cl st : stable st (st_with_heap (heap st ++ [cl]) st).
Proof.
  split; st_simpl; try done.
  - rewrite length_app. lia.
  - intros c w Hc. exists w. split; [|apply same_clause_shape_refl].
    destruct c as [|h]; [done|]. cbn in *. by apply lookup_app_l_Some.
  - intros r v Hv. exists v. split; [|apply same_var_shape_refl].
    by destruct r.
Qed.

Lemma sat_build_asserting_clause_stable fuel st c s :
  sat_build_asserting_clause fuel st = Ok (c, s) -> stable st s.
Proof.
  intros H. apply sat_build_asserting_clause_Ok in H
    as (s1 & cl & Ha & -> & -> & _).
  etrans; [apply analysis_frame_stable; by apply analysis_analysis_frame|].
  apply alloc_stable.
Qed.

(** ** Undoing a level *)

Lemma last_snoc' {A} (l : list A) x : last (l ++ [x]) = Some x.
Proof. apply last_snoc. Qed.

Lemma levels_apart_refl s : levels_apart s s.
Proof. by repeat split. Qed.

Lemma levels_apart_trans s1 s2 s3 :
  levels_apart s1 s2 -> levels_apart s2 s3 -> levels_apart s1 s3.
Proof. unfold levels_apart. intros H1 H2. destruct_and!. split_and!; congruence. Qed.

Lemma var_level_set_var st r r' v v' :
  get_var st r = Some v ->
  var_level (set_var r v' st) r' =
    if decide (r = r') then Some (d_level (decision v')) else var_level st r'.
Proof.
  intros Hv. unfold var_level. rewrite (get_set_var _ _ _ _ _ Hv).
  by destruct (decide (r = r')).
Qed.

(** The trail loop of [sat_undo_unit_resolution] pops a segment [new] whose
    variables all sit at the current level, and stops at what is below. *)
Lemma undo_trail_pops new : forall k s below,
  decided_literals s = below ++ new ->
  length new <= k ->
  NoDup (lit_var <$> new) ->
  Forall (fun l => l <> contradiction_neg) new ->
  (forall r, r ∈ lit_var <$> new -> var_level s r = Some (level s)) ->
  level s <> 0%N ->
  (length new = k \/
   match last below with
   | None => True
   | Some l0 =>
       l0 <> contradiction_neg /\
       exists v, get_var s (lit_var l0) = Some v /\
         (lit_var l0 ∈ lit_var <$> new \/ d_level (decision v) <> level s)
   end) ->
  exists s',
    undo_trail k s = Ok (tt, s') /\
    decided_literals s' = below /\
    levels_apart s s' /\
    (forall r, r ∈ lit_var <$> new -> var_level s' r = Some 0%N) /\
    (forall r, r ∉ lit_var <$> new -> var_level s' r = var_level s r).
Proof.
  induction new as [|l new IH] using rev_ind; intros k s below Htr Hk Hnd Hl Hlev HL Hstop.
  - rewrite app_nil_r in Htr. exists s.
    split; [|split; [done|split; [apply levels_apart_refl|split; [|done]]]].
    + destruct k as [|k]; [done|]. cbn [undo_trail].
      unfold bind at 1, gets at 1. rewrite Htr.
      destruct Hstop as [Hk'|Hstop]; [done|].
      destruct (last below) as [l0|]; [|done].
      destruct Hstop as (Hn & v & Hv & [Hin|Hne]).
      { cbn in Hin. set_solver. }
      do 2 mrun. unfold bind at 1, gets at 1.
      by rewrite (proj2 (N.eqb_neq _ _) Hne).
    + intros r Hr. cbn in Hr. set_solver.
  - rewrite fmap_app in *. cbn [fmap list_fmap] in *.
    apply NoDup_app in Hnd as (Hnd & Hdisj & _).
    rewrite Forall_app, Forall_singleton in Hl. destruct Hl as [Hl Hl1].
    rewrite length_app in Hk. cbn in Hk.
    destruct k as [|k]; [lia|].
    assert (var_level s (lit_var l) = Some (level s)) as Hll.
    { apply Hlev. set_solver. }
    unfold var_level in Hll. destruct (get_var s (lit_var l)) as [v|] eqn:Hv; [|done].
    cbn in Hll. injection Hll as Hll.
    set (s1 := set_var (lit_var l) (undecided_var v)
                 (st_with_decided (below ++ new) s)).
    assert (forall r, var_level s1 r =
              if decide (lit_var l = r) then Some 0%N else var_level s r) as Hs1.
    { intros r. subst s1. rewrite (var_level_set_var _ _ _ v); [|by st_simpl].
      destruct (decide (lit_var l = r)); [done|]. unfold var_level. by st_simpl. }
    destruct (IH k s1 below) as (s' & Hrun & Htr' & Hap & Hnew & Hold).
    + done.
    + lia.
    + done.
    + done.
    + intros r Hr. rewrite Hs1.
      destruct (decide (lit_var l = r)) as [<-|Hne].
      * exfalso. eapply Hdisj; [exact Hr|]. set_solver.
      * subst s1. st_simpl. apply Hlev. set_solver.
    + done.
    + destruct Hstop as [Hk'|Hstop]; [left; rewrite length_app in Hk'; cbn in Hk'; lia|].
      right. destruct (last below) as [l0|]; [|done].
      destruct Hstop as (Hn & v0 & Hv0 & Hcase). split; [done|].
      subst s1. rewrite (get_set_var _ _ _ v); [|by st_simpl].
      destruct (decide (lit_var l = lit_var l0)) as [Heq|Hne].
      * eexists. split; [done|]. right. cbn. st_simpl. done.
      * exists v0. st_simpl. split; [done|].
        destruct Hcase as [Hin|Hne']; [|by right].
        apply elem_of_app in Hin as [Hin|Hin]; [by left|].
        apply list_elem_of_singleton in Hin. congruence.
    + exists s'. split_and!.
      * cbn [undo_trail]. unfold bind at 1, gets at 1.
        rewrite Htr, app_assoc, last_snoc.
        do 2 mrun. unfold bind at 1, gets at 1. rewrite Hll, N.eqb_refl.
        unfold bind at 1, modify at 1. rewrite removelast_last.
        unfold unset_Var_Decision.
        erewrite (bind_run _ _ _ tt s1); [exact Hrun|].
        apply update_var_run. by st_simpl.
      * done.
      * eapply levels_apart_trans; [|exact Hap]. subst s1.
        unfold levels_apart. st_simpl. split_and!; try done.
        intros r. rewrite (get_set_var _ _ _ v); [|by st_simpl].
        destruct (decide (lit_var l = r)) as [<-|]; [|by st_simpl].
        by rewrite Hv.
      * intros r Hr. apply elem_of_app in Hr as [Hr|Hr]; [by apply Hnew|].
        apply list_elem_of_singleton in Hr as ->.
        rewrite Hold, Hs1.
        -- by rewrite decide_True.
        -- intros Hin. eapply Hdisj; [exact Hin|]. set_solver.
      * intros r Hr. rewrite Hold, Hs1; [|set_solver].
        rewrite decide_False; [done|]. set_solver.
Qed.
Lemma flags_apart_refl s : flags_apart s s.
Proof. by repeat split. Qed.

Lemma flags_apart_trans s1 s2 s3 :
  flags_apart s1 s2 -> flags_apart s2 s3 -> flags_apart s1 s3.
Proof. unfold flags_apart. intros H1 H2. destruct_and!. split_and!; congruence. Qed.

Lemma clause_flag_set_clause st c c' cl cl' :
  get_clause st c = Some cl ->
  clause_flag (set_clause c cl' st) c' =
    if decide (c = c') then Some (is_subsumed cl') else clause_flag st c'.
Proof.
  intros Hc. unfold clause_flag. rewrite (get_set_clause _ _ _ _ _ Hc).
  by destruct (decide (c = c')).
Qed.

(** The log loop of [sat_undo_unit_resolution] pops the entries above the
    sentinel, and the sentinel. *)
Lemma undo_subsumed_pops news : forall k s log,
  subsumed_clauses s = (Some <$> news) ++ None :: log ->
  length news < k ->
  (forall c, c ∈ news -> is_Some (get_clause s c)) ->
  exists s',
    undo_subsumed k s = Ok (tt, s') /\
    subsumed_clauses s' = log /\
    flags_apart s s' /\
    (forall c, c ∈ news -> clause_flag s' c = Some false) /\
    (forall c, c ∉ news -> clause_flag s' c = clause_flag s c).
Proof.
  induction news as [|c news IH]; intros k s log Hlog Hk Hval.
  - destruct k as [|k]; [lia|]. cbn in Hlog.
    exists (st_with_subsumed log s). split_and!; try done.
    + cbn [undo_subsumed]. unfold bind at 1, gets at 1. rewrite Hlog.
      by unfold bind at 1, modify at 1.
    + intros c Hc. set_solver.
  - destruct k as [|k]; [cbn in Hk; lia|]. cbn in Hlog, Hk.
    destruct (Hval c) as [cl Hcl]; [set_solver|].
    set (s1 := set_clause c (clause_with_subsumed false cl)
                 (st_with_subsumed ((Some <$> news) ++ None :: log) s)).
    assert (forall c', clause_flag s1 c' =
              if decide (c = c') then Some false else clause_flag s c') as Hs1.
    { intros c'. subst s1. rewrite (clause_flag_set_clause _ _ _ cl); [|by st_simpl].
      destruct (decide (c = c')); [done|]. unfold clause_flag. by st_simpl. }
    destruct (IH k s1 log) as (s' & Hrun & Hlog' & Hap & Hnew & Hold).
    + done.
    + lia.
    + intros c' Hc'. destruct (Hval c') as [cl' Hcl']; [set_solver|].
      subst s1. rewrite (get_set_clause _ _ _ cl); [|by st_simpl].
      destruct (decide (c = c')); [done|]. st_simpl. by rewrite Hcl'.
    + exists s'. split_and!.
      * cbn [undo_subsumed]. unfold bind at 1, gets at 1. rewrite Hlog.
        unfold bind at 1, modify at 1.
        erewrite (bind_run _ _ _ tt s1); [exact Hrun|].
        apply update_clause_run. by st_simpl.
      * done.
      * eapply flags_apart_trans; [|exact Hap]. subst s1.
        unfold flags_apart. st_simpl. split_and!; try done.
        intros c'. rewrite (get_set_clause _ _ _ cl); [|by st_simpl].
        destruct (decide (c = c')) as [<-|]; [|by st_simpl].
        by rewrite Hcl.
      * intros c' Hc'. destruct (decide (c' ∈ news)) as [Hin|Hnin].
        -- by apply Hnew.
        -- rewrite Hold, Hs1; [|done]. rewrite decide_True; [done|]. set_solver.
      * intros c' Hc'. rewrite Hold, Hs1; [|set_solver].
        rewrite decide_False; [done|]. set_solver.
Qed.
Lemma var_level_Some st r n :
  var_level st r = Some n <->
  exists v, get_var st r = Some v /\ d_level (decision v) = n.
Proof.
  unfold var_level. destruct (get_var st r) as [v|]; cbn.
  - split; [intros [= <-]; eauto | intros (? & [= <-] & <-); done].
  - split; [done | intros (? & ? & _); done].
Qed.

Lemma clause_flag_Some st c b :
  clause_flag st c = Some b <->
  exists cl, get_clause st c = Some cl /\ is_subsumed cl = b.
Proof.
  unfold clause_flag. destruct (get_clause st c) as [cl|]; cbn.
  - split; [intros [= <-]; eauto | intros (? & [= <-] & <-); done].
  - split; [done | intros (? & ? & _); done].
Qed.

Lemma levels_apart_flag s s' c :
  levels_apart s s' -> clause_flag s' c = clause_flag s c.
Proof.
  unfold levels_apart. intros H. destruct_and!. unfold clause_flag.
  by rewrite (get_clause_frame s s').
Qed.

Lemma flags_apart_level s s' r :
  flags_apart s s' -> var_level s' r = var_level s r.
Proof.
  unfold flags_apart. intros H. destruct_and!. unfold var_level.
  by rewrite (get_var_frame s s').
Qed.

(** [sat_undo_unit_resolution] takes an undoable state back to its base. *)
Lemma undo_undoable base st' new news log0 :
  undoable base st' new news ->
  subsumed_clauses base = None :: log0 ->
  level base <> 0%N ->
  trail_floor base (level base) ->
  exists st'',
    sat_undo_unit_resolution st' = Ok (tt, st'') /\
    level st'' = level base /\
    decided_literals st'' = decided_literals base /\
    subsumed_clauses st'' = log0 /\
    propagate_literals st'' = [] /\
    marks st'' = marks st' /\
    learned_clauses st'' = learned_clauses st' /\
    (forall r, var_level st'' r =
       if decide (r ∈ lit_var <$> new) then Some 0%N else var_level base r) /\
    (forall c, clause_flag st'' c = clause_flag base c).
Proof.
  intros [Hlv Htr Hlog Hnd Hlits Hnew Hold Hfree Hnf Hof Hheap] Hbase HL Hfloor.
  destruct (undo_trail_pops new (length (decided_literals st')) st'
              (decided_literals base))
    as (s1 & Hrun1 & Htr1 & Hap1 & Hnew1 & Hold1).
  - done.
  - rewrite Htr, length_app. lia.
  - done.
  - done.
  - intros r Hr. rewrite Hlv. by apply Hnew.
  - congruence.
  - right. unfold trail_floor in Hfloor.
    destruct (last (decided_literals base)) as [l0|]; [|done].
    destruct Hfloor as (Hn & v & Hv & Hne). split; [done|].
    destruct (decide (lit_var l0 ∈ lit_var <$> new)) as [Hin|Hnin].
    + pose proof (Hnew _ Hin) as Hx. apply var_level_Some in Hx as (v' & Hv' & _).
      eauto.
    + pose proof (Hold _ Hnin) as Hx. unfold var_level in Hx. rewrite Hv in Hx.
      destruct (get_var st' (lit_var l0)) as [v'|]; [|done].
      exists v'. split; [done|]. right. cbn in Hx. rewrite Hlv. congruence.
  - pose proof Hap1 as Hap1'. unfold levels_apart in Hap1'. destruct_and!.
    destruct (undo_subsumed_pops news (length (subsumed_clauses s1)) s1 log0)
      as (s2 & Hrun2 & Hlog2 & Hap2 & Hnew2 & Hold2).
    + congruence.
    + match goal with
      | H : subsumed_clauses s1 = _ |- _ => rewrite H
      end.
      rewrite Hlog, Hbase, length_app, length_fmap. cbn. lia.
    + intros c Hc. destruct (Hnf c Hc) as [Hx _].
      rewrite <- (levels_apart_flag _ _ _ Hap1) in Hx.
      apply clause_flag_Some in Hx as (cl & -> & _). eauto.
    + pose proof Hap2 as Hap2'. unfold flags_apart in Hap2'. destruct_and!.
      exists (st_with_propagate [] s2). split_and!; st_simpl; try congruence.
      * unfold sat_undo_unit_resolution. unfold bind at 1, gets at 1.
        erewrite bind_run; [|exact Hrun1].
        unfold bind at 1, gets at 1.
        erewrite bind_run; [|exact Hrun2]. reflexivity.
      * intros r. unfold var_level. st_simpl. fold (var_level s2 r).
        rewrite (flags_apart_level _ _ _ Hap2).
        destruct (decide (r ∈ lit_var <$> new)) as [Hin|Hnin].
        -- by apply Hnew1.
        -- rewrite Hold1; [|done]. by apply Hold.
      * intros c. unfold clause_flag. st_simpl. fold (clause_flag s2 c).
        destruct (decide (c ∈ news)) as [Hin|Hnin].
        -- rewrite Hnew2; [|done]. symmetry. by apply Hnf.
        -- rewrite Hold2; [|done]. rewrite (levels_apart_flag _ _ _ Hap1).
           by apply Hof.
Qed.
Lemma clauses_real_effect st st' :
  clauses_real st -> effect st st' -> clauses_real st'.
Proof.
  intros Hr He.
  destruct He as [lit v c cl0 Hn Hv Hl _ _|c cl Hc Hs|c cl l Hc Hin _ _
                 |c cl l Hc Hin _ _|l v f Hv|q];
    unfold assigned_state, subsumed_state; intros c' cl'; st_simpl;
    try (by apply Hr).
  all: rewrite (get_set_clause _ _ _ _ _ Hc).
  all: destruct (decide (c = c')) as [<-|]; [|by apply Hr].
  all: intros [= <-]; destruct (Hr _ _ Hc) as (H1 & H2 & H3); cbn.
  all: split_and!; try done.
  all: intros l' [= <-]; by eapply (proj1 (Forall_forall _ _) H1).
Qed.

Lemma undoable_start base : undoable base base [] [].
Proof.
  split; try done; cbn.
  - by rewrite app_nil_r.
  - apply NoDup_nil_2.
  - intros r Hr. set_solver.
  - intros r Hr. set_solver.
  - intros c Hc. set_solver.
Qed.

Lemma undoable_effect base s new news s' :
  undoable base s new news -> Forall real_lit new -> clauses_real s ->
  level base <> 0%N -> effect s s' ->
  exists new' news', undoable base s' new' news' /\ Forall real_lit new'.
Proof.
  intros [Hlv Htr Hlog Hnd Hlits Hnew Hold Hfree Hnf Hof Hheap] Hreal Hcr HL He.
  destruct He as [lit v c cl0 Hn Hv Hl Hc Hw|c cl Hc Hs|c cl l Hc Hin _ _
                 |c cl l Hc Hin _ _|l v f Hv|q].
  - (* a new assignment *)
    assert (real_lit lit) as Hrl.
    { destruct (Hcr _ _ Hc) as (_ & Ha & Hb). destruct Hw as [Hw|Hw]; eauto. }
    assert (lit_var lit ∉ lit_var <$> new) as Hfresh.
    { intros Hin. apply Hnew in Hin. apply var_level_Some in Hin as (v' & Hv' & Hl').
      simplify_eq. congruence. }
    assert (forall r, var_level (assigned_state lit (Some c) v s) r =
              if decide (lit_var lit = r) then Some (level s) else var_level s r)
      as Hs1.
    { intros r. unfold assigned_state, var_level. st_simpl.
      rewrite (get_set_var _ _ _ _ _ Hv). by destruct (decide (lit_var lit = r)). }
    exists (new ++ [lit]), news. split; [split|].
    + done.
    + unfold assigned_state. st_simpl. by rewrite Htr, app_assoc.
    + done.
    + rewrite fmap_app. apply NoDup_app. split_and!; [done| |apply NoDup_singleton].
      intros r Hr Hr'. apply list_elem_of_singleton in Hr' as ->. done.
    + apply Forall_app. split; [done|]. by apply Forall_singleton.
    + intros r Hr. rewrite Hs1. rewrite fmap_app in Hr.
      destruct (decide (lit_var lit = r)); [by rewrite Hlv|].
      apply Hnew. set_solver.
    + intros r Hr. rewrite Hs1. rewrite fmap_app in Hr.
      rewrite decide_False; [|set_solver]. apply Hold. set_solver.
    + intros r Hr Hne. rewrite fmap_app in Hr.
      apply elem_of_app in Hr as [Hr|Hr]; [by apply Hfree|].
      apply list_elem_of_singleton in Hr as ->.
      rewrite <- Hold; [|done]. apply var_level_Some. eauto.
    + intros c' Hc'. unfold assigned_state, clause_flag. st_simpl. by apply Hnf.
    + intros c' Hc'. unfold assigned_state, clause_flag. st_simpl. by apply Hof.
    + done.
    + apply Forall_app. split; [done|]. by apply Forall_singleton.
  - (* a subsumption *)
    assert (c ∉ news) as Hfresh.
    { intros Hin. apply Hnf in Hin as [Hin _].
      apply clause_flag_Some in Hin as (cl' & Hc' & Hs'). simplify_eq. congruence. }
    assert (forall c', clause_flag (subsumed_state c cl s) c' =
              if decide (c = c') then Some true else clause_flag s c') as Hs1.
    { intros c'. unfold subsumed_state, clause_flag. st_simpl.
      rewrite (get_set_clause _ _ _ _ _ Hc). by destruct (decide (c = c')). }
    exists new, (c :: news). split; [split|].
    + done.
    + done.
    + unfold subsumed_state. st_simpl. by rewrite Hlog.
    + done.
    + done.
    + intros r Hr. unfold subsumed_state, var_level. st_simpl. by apply Hnew.
    + intros r Hr. unfold subsumed_state, var_level. st_simpl. by apply Hold.
    + done.
    + intros c' Hc'. rewrite Hs1. apply elem_of_cons in Hc' as [->|Hc'].
      * rewrite decide_True; [|done]. split; [done|].
        rewrite <- Hof; [|done]. apply clause_flag_Some. eauto.
      * destruct (decide (c = c')) as [<-|]; [done|]. by apply Hnf.
    + intros c' Hc'. rewrite Hs1. rewrite decide_False; [|set_solver].
      apply Hof. set_solver.
    + unfold subsumed_state. st_simpl. done.
    + done.
  - exists new, news. split; [split|]; st_simpl; [done..| | |done|done].
    + intros c' Hc'. unfold clause_flag. rewrite (get_set_clause _ _ _ _ _ Hc).
      destruct (decide (c = c')) as [<-|]; [|by apply Hnf]. cbn.
      destruct (Hnf _ Hc') as [Hx Hy]. split; [|done].
      unfold clause_flag in Hx. by rewrite Hc in Hx.
    + intros c' Hc'. unfold clause_flag. rewrite (get_set_clause _ _ _ _ _ Hc).
      destruct (decide (c = c')) as [<-|]; [|by apply Hof]. cbn.
      specialize (Hof c Hc'). unfold clause_flag in Hof. by rewrite Hc in Hof.
  - exists new, news. split; [split|]; st_simpl; [done..| | |done|done].
    + intros c' Hc'. unfold clause_flag. rewrite (get_set_clause _ _ _ _ _ Hc).
      destruct (decide (c = c')) as [<-|]; [|by apply Hnf]. cbn.
      destruct (Hnf _ Hc') as [Hx Hy]. split; [|done].
      unfold clause_flag in Hx. by rewrite Hc in Hx.
    + intros c' Hc'. unfold clause_flag. rewrite (get_set_clause _ _ _ _ _ Hc).
      destruct (decide (c = c')) as [<-|]; [|by apply Hof]. cbn.
      specialize (Hof c Hc'). unfold clause_flag in Hof. by rewrite Hc in Hof.
  - exists new, news. split; [split|]; st_simpl; [done..| | |done|done|done|done|done].
    + intros r Hr. unfold var_level. rewrite (get_set_var _ _ _ _ _ Hv).
      destruct (decide (lit_var l = r)) as [<-|]; [|by apply Hnew]. cbn.
      apply Hnew in Hr. unfold var_level in Hr. rewrite Hv in Hr.
      by destruct (lit_side l).
    + intros r Hr. unfold var_level. rewrite (get_set_var _ _ _ _ _ Hv).
      destruct (decide (lit_var l = r)) as [<-|]; [|by apply Hold]. cbn.
      apply Hold in Hr. unfold var_level in Hr. rewrite Hv in Hr.
      by destruct (lit_side l).
  - exists new, news. split; [split|]; done.
Qed.

Lemma undoable_quiet base s new news s' :
  undoable base s new news -> Forall real_lit new -> clauses_real s ->
  level base <> 0%N -> quiet s s' ->
  exists new' news',
    undoable base s' new' news' /\ Forall real_lit new' /\ clauses_real s'.
Proof.
  intros Hu Hr Hc HL Hq. revert new news Hu Hr Hc.
  induction Hq as [s|s1 s2 s3 He _ IH]; intros new news Hu Hr Hc; [eauto|].
  destruct (undoable_effect _ _ _ _ _ Hu Hr Hc HL He) as (new' & news' & Hu' & Hr').
  eapply IH; [exact Hu'|exact Hr'|]. by eapply clauses_real_effect.
Qed.

Lemma undoable_conflict base s new news implier :
  undoable base s new news -> Forall real_lit new ->
  undoable base (conflict_state implier s) (new ++ [contradiction_pos]) news.
Proof.
  intros [Hlv Htr Hlog Hnd Hlits Hnew Hold Hfree Hnf Hof Hheap] Hreal.
  assert (Contradiction ∉ lit_var <$> new) as Hfresh.
  { intros Hin. apply list_elem_of_fmap in Hin as (l & Hl & Hin).
    eapply (proj1 (Forall_forall _ _) Hreal); [exact Hin|]. done. }
  assert (forall r, var_level (conflict_state implier s) r =
            if decide (Contradiction = r) then Some (level s) else var_level s r)
    as Hs1.
  { intros r. unfold conflict_state, var_level. st_simpl.
    rewrite (get_set_var _ _ _ (contradiction s)); [|done].
    by destruct (decide (Contradiction = r)). }
  split; try done.
  - unfold conflict_state. st_simpl. by rewrite Htr, app_assoc.
  - rewrite fmap_app. apply NoDup_app. split_and!; [done| |apply NoDup_singleton].
    intros r Hr Hr'. apply list_elem_of_singleton in Hr' as ->. done.
  - apply Forall_app. split; [done|]. by apply Forall_singleton.
  - intros r Hr. rewrite Hs1. rewrite fmap_app in Hr.
    destruct (decide (Contradiction = r)); [by rewrite Hlv|].
    apply Hnew. set_solver.
  - intros r Hr. rewrite Hs1. rewrite fmap_app in Hr.
    rewrite decide_False; [|set_solver]. apply Hold. set_solver.
  - intros r Hr Hne. rewrite fmap_app in Hr.
    apply elem_of_app in Hr as [Hr|Hr]; [by apply Hfree|].
    apply list_elem_of_singleton in Hr as ->. done.
Qed.

Lemma undoable_analysis base s new news s' :
  undoable base s new news -> analysis_frame s s' -> undoable base s' new news.
Proof.
  intros [Hlv Htr Hlog Hnd Hlits Hnew Hold Hfree Hnf Hof Hheap] Hf.
  destruct Hf as (? & ? & ? & ? & ? & ? & ? & ? & ? & ? & Hall).
  assert (forall r, var_level s' r = var_level s r) as Hvl.
  { intros r. unfold var_level. specialize (Hall r).
    destruct (get_var s' r) as [v'|], (get_var s r) as [v|]; cbn in *;
      try done. f_equal.
    assert (forget_analysis v' = forget_analysis v) as Hx by congruence.
    apply (f_equal (fun x => d_level (decision x))) in Hx. exact Hx. }
  assert (forall c, clause_flag s' c = clause_flag s c) as Hcf.
  { intros c. unfold clause_flag. by rewrite (get_clause_frame s s'). }
  split.
  - congruence.
  - congruence.
  - congruence.
  - done.
  - done.
  - intros r Hr. rewrite Hvl. by apply Hnew.
  - intros r Hr. rewrite Hvl. by apply Hold.
  - done.
  - intros c Hc. rewrite Hcf. by apply Hnf.
  - intros c Hc. rewrite Hcf. by apply Hof.
  - congruence.
Qed.

Lemma undoable_alloc base s new news cl :
  undoable base s new news ->
  undoable (st_with_heap (heap base ++ [cl]) base)
           (st_with_heap (heap s ++ [cl]) s) new news.
Proof.
  intros [Hlv Htr Hlog Hnd Hlits Hnew Hold Hfree Hnf Hof Hheap].
  assert (forall st c, clause_flag (st_with_heap (heap st ++ [cl]) st) c =
            match c with
            | FalseClause => clause_flag st c
            | ClauseAt h =>
                if decide (h < length (heap st)) then clause_flag st c
                else if decide (h = length (heap st)) then Some (is_subsumed cl)
                else None
            end) as Hflag.
  { intros st [|h]; [done|]. unfold clause_flag. cbn.
    destruct (decide (h < length (heap st))) as [Hlt|Hge].
    - by rewrite lookup_app_l.
    - rewrite lookup_app_r; [|lia].
      destruct (decide (h = length (heap st))) as [->|Hne].
      + by rewrite Nat.sub_diag.
      + destruct (h - length (heap st)) as [|k] eqn:Hk; [lia|done]. }
  split; st_simpl; try done.
  - intros c Hc. rewrite !Hflag. destruct (Hnf c Hc) as [H1 H2].
    destruct c as [|h]; [done|].
    apply clause_flag_Some in H1 as (cl1 & Hc1 & _).
    apply clause_flag_Some in H2 as (cl2 & Hc2 & _). cbn in Hc1, Hc2.
    apply lookup_lt_Some in Hc1, Hc2.
    rewrite !decide_True by done. by apply Hnf.
  - intros c Hc. rewrite !Hflag. destruct c as [|h]; [by apply Hof|].
    rewrite Hheap. repeat case_decide; try done. by apply Hof.
  - rewrite !length_app. cbn. lia.
Qed.
Lemma c2dSize_pred_succ n : (n + 1 < 2 ^ 64)%N -> c2dSize_pred (c2dSize_succ n) = n.
Proof.
  intros H. unfold c2dSize_pred, c2dSize_succ, c2dSize_wrap.
  rewrite (N.mod_small (n + 1)) by done.
  replace (n + 1 + (2 ^ 64 - 1))%N with (n + 1 * 2 ^ 64)%N by lia.
  rewrite N.Div0.mod_add. apply N.mod_small. lia.
Qed.

Lemma c2dSize_succ_pos n : (n + 1 < 2 ^ 64)%N -> c2dSize_succ n = (n + 1)%N.
Proof. intros H. unfold c2dSize_succ, c2dSize_wrap. by apply N.mod_small. Qed.

Lemma decide_propagate_Ok lit st v passed s2 :
  get_var st (lit_var lit) = Some v -> d_level (decision v) = 0%N ->
  decide_propagate lit st = Ok (passed, s2) ->
  let s0 := assigned_state lit None v (next_level st) in
  lit <> contradiction_neg /\
  outcome passed (st_with_propagate (propagate_literals s0 ++ [lit]) s0) s2.
Proof.
  intros Hv Hl H. unfold decide_propagate in H.
  apply bind_Ok in H as (u1 & s & E & H). minv E.
  apply bind_Ok in H as (u2 & s & E & H). minv E.
  apply bind_Ok in H as (ok & s & E & H).
  apply set_Lit_Decision_Ok in E as (v' & Hv' & Hn & E).
  st_simpl. simplify_eq.
  destruct E as [(_ & -> & _ & ->)|[(Hi & _)|(Hi & _)]].
  - apply bind_Ok in H as (u3 & s & E & H). minv E.
    apply sat_unit_resolution_outcome in H. done.
  - apply instantiated_level in Hi. lia.
  - apply instantiated_level in Hi. lia.
Qed.

Lemma clauses_real_frame st st' :
  (forall c, get_clause st' c = get_clause st c) ->
  clauses_real st -> clauses_real st'.
Proof. intros H Hr c cl Hc. rewrite H in Hc. by apply (Hr c cl). Qed.

(** The state [sat_decide_literal] returns is undoable, with respect to the
    state after the level was incremented (and to which the learned clause,
    if any, was added). *)
Lemma sat_decide_literal_undoable fuel lit st r st' :
  decide_ready st lit ->
  sat_decide_literal fuel lit st = Ok (r, st') ->
  exists base new news,
    undoable base st' new news /\
    level base = (level st + 1)%N /\
    decided_literals base = decided_literals st /\
    subsumed_clauses base = None :: subsumed_clauses st /\
    (forall r, var_level base r = var_level st r) /\
    (forall c, is_Some (get_clause st c) -> clause_flag base c = clause_flag st c).
Proof.
  intros (Hlv & Hreal & (v & Hv & Hl) & Hcr & Htr) H.
  unfold sat_decide_literal in H.
  apply bind_Ok in H as (passed & s2 & E & H).
  apply (decide_propagate_Ok _ _ v) in E as [Hn E]; [|done..].
  set (base := next_level st) in *.
  assert (level base = (level st + 1)%N) as Hbl.
  { subst base. cbn. by apply c2dSize_succ_pos. }
  assert (level base <> 0%N) as HL by lia.
  assert (undoable base (assigned_state lit None v base) [lit] []) as Hu0.
  { split; try done.
    - apply NoDup_singleton.
    - by apply Forall_singleton.
    - intros x Hx. cbn in Hx. apply list_elem_of_singleton in Hx as ->.
      unfold assigned_state, var_level. st_simpl.
      rewrite (get_set_var_eq _ _ v); [done|]. by subst base.
    - intros x Hx. cbn in Hx. unfold assigned_state, var_level. st_simpl.
      rewrite get_set_var_ne; [done|]. set_solver.
    - intros x Hx _. cbn in Hx. apply list_elem_of_singleton in Hx as ->.
      apply var_level_Some. exists v. split; [by subst base|done].
    - intros c Hc. set_solver. }
  set (s0 := assigned_state lit None v base) in *.
  assert (undoable base (st_with_propagate (propagate_literals s0 ++ [lit]) s0)
            [lit] []) as Hu1.
  { destruct Hu0. by split. }
  assert (clauses_real (st_with_propagate (propagate_literals s0 ++ [lit]) s0))
    as Hcr1.
  { eapply clauses_real_frame; [|exact Hcr]. intros c. by destruct c. }
  assert (Forall real_lit [lit]) as Hr1 by by apply Forall_singleton.
  assert (exists new news, undoable base s2 new news) as (new & news & Hu2).
  { destruct passed; cbn in E.
    - destruct (undoable_quiet _ _ _ _ _ Hu1 Hr1 Hcr1 HL E)
        as (new & news & Hu & _). eauto.
    - destruct E as (s & c & Hq & ->).
      destruct (undoable_quiet _ _ _ _ _ Hu1 Hr1 Hcr1 HL Hq)
        as (new & news & Hu & Hr & _).
      eexists _, _. by apply undoable_conflict. }
  destruct passed; cbn [negb] in H.
  - minv H. exists base, new, news. split_and!; try done.
  - apply bind_Ok in H as (c & s3 & E3 & H). minv H.
    apply sat_build_asserting_clause_Ok in E3
      as (s4 & cl & Ha & -> & -> & _).
    apply analysis_analysis_frame in Ha.
    pose proof (undoable_analysis _ _ _ _ _ Hu2 Ha) as Hu4.
    exists (st_with_heap (heap base ++ [cl]) base), new, news.
    split_and!; try done.
    + by apply undoable_alloc.
    + intros c [w Hw]. unfold clause_flag. destruct c as [|h]; [done|].
      cbn in *. by rewrite (lookup_app_l_Some _ _ _ _ Hw), Hw.
Qed.

Lemma real_litb_sound l : real_litb l = true -> real_lit l.
Proof. unfold real_litb, real_lit. by destruct (lit_var l). Qed.

Lemma clause_realb_sound cl :
  clause_realb cl = true ->
  Forall real_lit (lits cl) /\
  (forall l, watch_a cl = Some l -> real_lit l) /\
  (forall l, watch_b cl = Some l -> real_lit l).
Proof.
  unfold clause_realb. rewrite !andb_true_iff. intros [[H1 H2] H3].
  split_and!.
  - apply Forall_forall. intros l Hl. apply real_litb_sound.
    rewrite forallb_forall in H1. apply H1. by apply list_elem_of_In.
  - intros l Hl. rewrite Hl in H2. by apply real_litb_sound.
  - intros l Hl. rewrite Hl in H3. by apply real_litb_sound.
Qed.

Lemma clauses_realb_sound st : clauses_realb st = true -> clauses_real st.
Proof.
  unfold clauses_realb. rewrite andb_true_iff. intros [H1 H2] c cl Hc.
  apply clause_realb_sound. destruct c as [|h]; cbn in Hc.
  - by simplify_eq.
  - rewrite forallb_forall in H2. apply H2. apply list_elem_of_In.
    by eapply list_elem_of_lookup_2.
Qed.

Lemma decide_readyb_sound st lit :
  decide_readyb st lit = true -> decide_ready st lit.
Proof.
  unfold decide_readyb, decide_ready. rewrite !andb_true_iff.
  intros [[[[H1 H2] H3] H4] H5]. split_and!.
  - by apply N.ltb_lt.
  - by apply real_litb_sound.
  - destruct (get_var st (lit_var lit)) as [v|]; [|done].
    exists v. split; [done|]. by apply N.eqb_eq.
  - by apply clauses_realb_sound.
  - apply Forall_forall. intros l Hl. rewrite forallb_forall in H5.
    apply list_elem_of_In, H5 in Hl. apply andb_true_iff in Hl as [Hn Hl].
    split.
    + apply negb_true_iff, bool_decide_eq_false in Hn. done.
    + destruct (get_var st (lit_var l)) as [v|]; [|done].
      exists v. split; [done|]. by apply N.leb_le.
Qed.


(** ** Construction *)

Lemma vars_apart_refl st : vars_apart st st.
Proof. by repeat split. Qed.

Lemma vars_apart_trans s1 s2 s3 :
  vars_apart s1 s2 -> vars_apart s2 s3 -> vars_apart s1 s3.
Proof. unfold vars_apart. intros H1 H2. destruct_and!. split_and!; congruence. Qed.

Lemma vars_apart_set_var st r v :
  vars_apart st (set_var r v st).
Proof. unfold vars_apart. st_simpl. by split_and!. Qed.

Lemma read_tokens_apart tokens st rest s :
  read_tokens tokens st = Ok (rest, s) -> vars_apart st s.
Proof.
  revert st. induction tokens as [|val tokens IH]; intros st; cbn [read_tokens];
    intros H; mcases H; try apply vars_apart_refl.
  eapply vars_apart_trans; [|by eapply IH].
  unfold vars_apart. st_simpl. by split_and!.
Qed.

Lemma insert_snoc {A} (l : list A) x y : <[length l := y]> (l ++ [x]) = l ++ [y].
Proof. rewrite insert_app_r_alt by lia. by rewrite Nat.sub_diag. Qed.

Lemma lookup_snoc {A} (l : list A) x : (l ++ [x]) !! length l = Some x.
Proof. rewrite lookup_app_r by lia. by rewrite Nat.sub_diag. Qed.

Ltac heap_simpl :=
  repeat (progress (cbn [get_clause set_clause heap false_clause] in *;
                    st_simpl;
                    rewrite ?lookup_snoc, ?insert_snoc in * )).

(** One round of the first clause loop appends one well-formed clause. *)
Lemma read_clauses_built mem m : forall tokens st u s,
  read_clauses mem m tokens st = Ok (u, s) ->
  Forall built_ok (heap st) ->
  Forall built_ok (heap s) /\
  length (heap s) = length (heap st) + m /\
  level s = level st /\ false_clause s = false_clause st /\
  marks s = marks st /\ propagate_literals s = propagate_literals st /\
  learned_clauses s = learned_clauses st /\
  subsumed_clauses s = subsumed_clauses st /\
  clauses_size s = clauses_size st /\
  length (vars s) = length (vars st).
Proof.
  induction m as [|m IH]; intros tokens st u s H Hb; cbn [read_clauses] in H.
  - minv H. split_and!; try done; lia.
  - apply bind_Ok in H as ([c rest] & s1 & E & H).
    unfold read_clause in E.
    apply bind_Ok in E as (rest' & s0 & E0 & E).
    apply read_tokens_apart in E0.
    destruct E0 as (A1 & A2 & A3 & A4 & A5 & A6 & A7 & A8 & A9).
    minv E. cbn [fst snd] in H.
    apply bind_Ok in H as (cl & s2 & E & H). minv E. heap_simpl.
    injection E as <-.
    apply bind_Ok in H as (first & s2 & E & H). minv E. cbn in E.
    apply bind_Ok in H as (u1 & s2 & E1 & H). minv E1. heap_simpl.
    injection E1 as <-.
    apply bind_Ok in H as (u2 & s2 & E2 & H). minv E2.
    apply bind_Ok in H as (u3 & s3 & E3 & H).
    match type of E3 with
    | (if ?b then _ else _) _ = _ => destruct b eqn:Hlen
    end.
    + (* one literal *)
      minv E3. heap_simpl. injection E3 as <-.
      apply IH in H.
      * heap_simpl. rewrite length_app in H. cbn in H.
        destruct H as (B1 & B2 & B3 & B4 & B5 & B6 & B7 & B8 & B9 & B10).
        split_and!; try congruence. rewrite B2, A3. lia.
      * heap_simpl. rewrite A3. apply Forall_app. split; [done|].
        apply Forall_singleton. apply Nat.eqb_eq in Hlen. cbn in Hlen.
        split_and!; cbn.
        -- by destruct (decided_literals s0).
        -- done.
        -- split; [|done]. intros _. split; [done|].
           by destruct (decided_literals s0).
    + (* several literals *)
      apply bind_Ok in E3 as (second & s4 & E3 & E4). minv E3. cbn in E3.
      apply bind_Ok in E4 as (u4 & s4 & E4 & E5). minv E4. heap_simpl.
      injection E4 as <-. minv E5.
      apply IH in H.
      * heap_simpl. rewrite length_app in H. cbn in H.
        destruct H as (B1 & B2 & B3 & B4 & B5 & B6 & B7 & B8 & B9 & B10).
        split_and!; try congruence. rewrite B2, A3. lia.
      * heap_simpl. rewrite A3. apply Forall_app. split; [done|].
        apply Forall_singleton. apply Nat.eqb_neq in Hlen. cbn in Hlen.
        split_and!; cbn.
        -- by destruct (decided_literals s0).
        -- done.
        -- split; [done|]. done.
Qed.
Lemma seeded_refl st : seeded st st.
Proof. unfold seeded. split_and!; try done. exists []. by rewrite app_nil_r. Qed.

Lemma seeded_trans s1 s2 s3 : seeded s1 s2 -> seeded s2 s3 -> seeded s1 s3.
Proof.
  intros (A1 & A2 & A3 & A4 & A5 & A6 & A7 & e1 & A8)
         (B1 & B2 & B3 & B4 & B5 & B6 & B7 & e2 & B8).
  unfold seeded. split_and!; try congruence.
  exists (e1 ++ e2). by rewrite B8, A8, app_assoc.
Qed.

(** A write that leaves the clauses alone, up to their flag, and appends
    [extra] to the queue. *)
Lemma seeded_frame st s extra :
  level s = level st -> marks s = marks st ->
  learned_clauses s = learned_clauses st -> clauses_size s = clauses_size st ->
  length (vars s) = length (vars st) -> length (heap s) = length (heap st) ->
  (forall c, clause_with_subsumed false <$> get_clause s c =
             clause_with_subsumed false <$> get_clause st c) ->
  propagate_literals s = propagate_literals st ++ extra ->
  seeded st s.
Proof. intros. unfold seeded. split_and!; eauto. Qed.

Lemma seeded_set_var st r v : seeded st (set_var r v st).
Proof.
  apply (seeded_frame _ _ []); st_simpl; try done. by rewrite app_nil_r.
Qed.

Lemma seeded_flag st c cl b :
  get_clause st c = Some cl ->
  seeded st (set_clause c (clause_with_subsumed b cl) st).
Proof.
  intros Hc. apply (seeded_frame _ _ []); st_simpl; try done.
  - intros c'. rewrite (get_set_clause _ _ _ _ _ Hc).
    destruct (decide (c = c')) as [<-|]; [|done]. by rewrite Hc.
  - by rewrite app_nil_r.
Qed.

Lemma seeded_decided st t : seeded st (st_with_decided t st).
Proof.
  apply (seeded_frame _ _ []); st_simpl; try done. by rewrite app_nil_r.
Qed.

Lemma seeded_subsumed st t : seeded st (st_with_subsumed t st).
Proof.
  apply (seeded_frame _ _ []); st_simpl; try done. by rewrite app_nil_r.
Qed.

Lemma seeded_queue st s : seeded st s ->
  propagate_literals s = propagate_literals st \/
  length (propagate_literals st) < length (propagate_literals s).
Proof.
  intros (_ & _ & _ & _ & _ & _ & _ & [|x e] & ->).
  - left. by rewrite app_nil_r.
  - right. rewrite length_app. cbn. lia.
Qed.

Lemma seeded_lits st s c cl :
  seeded st s -> get_clause st c = Some cl ->
  exists cl', get_clause s c = Some cl' /\ lits cl' = lits cl /\
    watch_a cl' = watch_a cl /\ watch_b cl' = watch_b cl /\
    lits_size cl' = lits_size cl /\ assertion_level cl' = assertion_level cl.
Proof.
  intros (_ & _ & _ & _ & _ & _ & H & _) Hc. specialize (H c).
  rewrite Hc in H. destruct (get_clause s c) as [cl'|]; [|done].
  exists cl'. split; [done|]. cbn in H. injection H as H1 H2 H3 H4 H5 H6 H7.
  by split_and!.
Qed.

Lemma push_appears_Ok clause lit st u s :
  push_appears clause lit st = Ok (u, s) ->
  exists v, s = set_var (lit_var lit) v st.
Proof. unfold push_appears. intros H. mcases H. eauto. Qed.

Lemma sat_subsume_clause_seeded clause st u s :
  sat_subsume_clause clause st = Ok (u, s) -> seeded st s /\ propagate_literals s = propagate_literals st.
Proof.
  intros H. apply sat_subsume_clause_Ok in H as (c & cl & -> & Hc & ->).
  destruct (is_subsumed cl); [split; [apply seeded_refl|done]|].
  split; [|done]. unfold subsumed_state.
  eapply seeded_trans; [by apply seeded_flag|apply seeded_subsumed].
Qed.

Lemma set_Lit_Decision_seeded lit implier st b s :
  set_Lit_Decision lit implier st = Ok (b, s) ->
  seeded st s /\ propagate_literals s = propagate_literals st.
Proof.
  intros H. apply set_Lit_Decision_Ok in H as (v & Hv & Hn & H).
  destruct H as [(_ & _ & _ & ->)|[(_ & _ & _ & _ & ->)|(_ & _ & _ & H)]].
  - split; [|done]. unfold assigned_state.
    eapply seeded_trans; [apply seeded_set_var|apply seeded_decided].
  - split; [|done]. unfold conflict_state.
    eapply seeded_trans; [apply seeded_set_var|apply seeded_decided].
  - by apply sat_subsume_clause_seeded in H.
Qed.

Lemma for_each_push_appears clause todo st u s :
  for_each (fun slot => do lit <- lift_opt slot; push_appears clause lit) todo st
    = Ok (u, s) ->
  seeded st s /\ propagate_literals s = propagate_literals st.
Proof.
  revert st. induction todo as [|slot todo IH]; intros st; cbn [for_each];
    intros H.
  - minv H. split; [apply seeded_refl|done].
  - apply bind_Ok in H as (u1 & s1 & E & H).
    apply bind_Ok in E as (lit & s0 & E0 & E). minv E0.
    apply push_appears_Ok in E as (v & ->).
    apply IH in H as [H1 H2]. split; [|by rewrite H2].
    eapply seeded_trans; [apply seeded_set_var|exact H1].
Qed.

(** The second clause loop enqueues a literal exactly when it meets, while
    [passed] holds, a clause that has at most one literal. *)
Lemma seed_units_spec todo : forall passed st r s,
  seed_units todo passed st = Ok (r, s) ->
  seeded st s /\
  (propagate_literals s = propagate_literals st <->
   passed = false \/
   Forall (fun c => exists cl, get_clause st c = Some cl /\ 1 < length (lits cl))
          todo).
Proof.
  induction todo as [|clause todo IH]; intros passed st r s H;
    cbn [seed_units] in H.
  - minv H. split; [apply seeded_refl|]. split; [auto|done].
  - apply bind_Ok in H as (cl & s0 & E & H). minv E.
    assert (forall s1, seeded st s1 ->
              Forall (fun c => exists cl, get_clause s1 c = Some cl /\
                                 1 < length (lits cl)) todo <->
              Forall (fun c => exists cl, get_clause st c = Some cl /\
                                 1 < length (lits cl)) todo) as Hsame.
    { intros s1 Hs1. apply Forall_iff. intros c. split.
      - intros (cl1 & Hc1 & Hlen).
        destruct (get_clause st c) as [cl0|] eqn:Hc0.
        + destruct (seeded_lits _ _ _ _ Hs1 Hc0) as (cl' & Hc' & Hl & _).
          simplify_eq. exists cl0. split; [done|]. by rewrite <- Hl.
        + destruct Hs1 as (_ & _ & _ & _ & _ & _ & Hx & _). specialize (Hx c).
          rewrite Hc1, Hc0 in Hx. done.
      - intros (cl0 & Hc0 & Hlen).
        destruct (seeded_lits _ _ _ _ Hs1 Hc0) as (cl' & Hc' & Hl & _).
        exists cl'. split; [done|]. by rewrite Hl. }
    destruct ((1 <? length (lits cl)) || negb passed) eqn:Hcase.
    + apply bind_Ok in H as (u1 & s1 & E1 & H).
      apply for_each_push_appears in E1 as [Hs1 Hq1].
      apply IH in H as [Hs Hq]. split; [by eapply seeded_trans|].
      rewrite <- Hq1, Hq, (Hsame _ Hs1). rewrite Forall_cons.
      apply orb_true_iff in Hcase as [Hlen|Hp].
      * apply Nat.ltb_lt in Hlen. split; [|tauto].
        intros [?|?]; [by left|right]. split; [eauto|done].
      * apply negb_true_iff in Hp. subst passed. tauto.
    + apply orb_false_iff in Hcase as [Hlen Hp].
      apply Nat.ltb_ge in Hlen. apply negb_false_iff in Hp. subst passed.
      apply bind_Ok in H as (wa & s1 & Ewa & H). minv Ewa.
      apply bind_Ok in H as (u1 & s1 & E1 & H).
      apply push_appears_Ok in E1 as (v & ->).
      apply bind_Ok in H as (passed' & s2 & E2 & H).
      apply set_Lit_Decision_seeded in E2 as [Hs2 Hq2].
      apply bind_Ok in H as (u3 & s3 & E3 & H).
      assert (seeded s2 s3 /\ propagate_literals s3 = propagate_literals s2)
        as [Hs3 Hq3].
      { destruct passed'; cbn [negb] in E3; minv E3.
        - split; [apply seeded_refl|done].
        - split; [|done].
          eapply seeded_trans; [apply seeded_decided|].
          apply seeded_flag. by st_simpl. }
      apply bind_Ok in H as (u4 & s4 & E4 & H). minv E4.
      apply IH in H as [Hs Hq].
      assert (seeded st (st_with_propagate (propagate_literals s3 ++ [wa]) s3))
        as Hs4.
      { eapply seeded_trans; [apply seeded_set_var|].
        eapply seeded_trans; [exact Hs2|]. eapply seeded_trans; [exact Hs3|].
        by apply (seeded_frame _ _ [wa]). }
      split; [by eapply seeded_trans|].
      split.
      * intros Heq. exfalso. apply seeded_queue in Hs as [Hx|Hx]; st_simpl.
        -- rewrite Hx, Hq3, Hq2 in Heq. st_simpl.
           apply (f_equal length) in Heq. rewrite length_app in Heq.
           cbn in Heq. lia.
        -- rewrite Heq, Hq3, Hq2, length_app in Hx. st_simpl. cbn in Hx. lia.
      * intros [?|Hall]; [done|]. apply Forall_cons in Hall as [(cl' & Hc' & Hl') _].
        simplify_eq. lia.
Qed.
Lemma seeded_Forall (P : Clause -> Prop) st s :
  seeded st s ->
  (forall cl cl', clause_with_subsumed false cl = clause_with_subsumed false cl' ->
     P cl -> P cl') ->
  Forall P (heap st) -> Forall P (heap s).
Proof.
  intros (_ & _ & _ & _ & _ & _ & H & _) HP Hall.
  apply Forall_lookup. intros i cl' Hi. specialize (H (ClauseAt i)). cbn in H.
  rewrite Hi in H. destruct (heap st !! i) as [cl|] eqn:Hi0; [|done].
  cbn in H. apply (inj Some) in H. apply (HP cl cl'); [by symmetry|].
  by eapply (proj1 (Forall_lookup _ _) Hall).
Qed.

Lemma same_modulo_flag cl cl' :
  clause_with_subsumed false cl = clause_with_subsumed false cl' ->
  lits cl' = lits cl /\ lits_size cl' = lits_size cl /\
  watch_a cl' = watch_a cl /\ watch_b cl' = watch_b cl /\
  assertion_level cl' = assertion_level cl /\ clause_id cl' = clause_id cl.
Proof. destruct cl, cl'. cbn. intros [= -> -> -> -> -> -> ->]. done. Qed.

Lemma built_ok_modulo_flag cl cl' :
  clause_with_subsumed false cl = clause_with_subsumed false cl' ->
  built_ok cl -> built_ok cl'.
Proof.
  intros H. apply same_modulo_flag in H as (H1 & H2 & H3 & H4 & _).
  unfold built_ok, watch_shape_ok. by rewrite H1, H2, H3, H4.
Qed.

Lemma Forall_handles (P : Clause -> Prop) st :
  Forall (fun c => exists cl, get_clause st c = Some cl /\ P cl)
         (ClauseAt <$> seq 0 (length (heap st))) <->
  Forall P (heap st).
Proof.
  rewrite Forall_fmap, Forall_seq, Forall_lookup. split.
  - intros H i cl Hi. destruct (H i) as (cl' & Hc & HP).
    + apply lookup_lt_Some in Hi. lia.
    + cbn in Hc. by simplify_eq.
  - intros H i Hi. cbn in *.
    destruct (lookup_lt_is_Some_2 (heap st) i) as [cl Hcl]; [lia|]. eauto.
Qed.

(** What [sat_state_new] hands to its caller. *)
Lemma sat_state_new_Ok mem_var mem_clause cnf st :
  sat_state_new mem_var mem_clause cnf = Ok st ->
  level st = 1%N /\
  learned_clauses st = [] /\
  marks st = replicate (S (cnf_vars cnf)) false /\
  clauses_size st = cnf_clauses cnf /\
  length (heap st) = cnf_clauses cnf /\
  length (vars st) = cnf_vars cnf /\
  Forall built_ok (heap st) /\
  same_clause_shape (clause_with_assertion_level 0 (init_Clause mem_clause 0 0))
    (false_clause st) /\
  (propagate_literals st = [] <->
   Forall (fun cl => 1 < length (lits cl)) (heap st)).
Proof.
  unfold sat_state_new.
  destruct (read_sat_cnf _ _ _ _) as [[u s]| |] eqn:H; [|done|done].
  intros [= <-]. unfold read_sat_cnf in H.
  do 6 (apply bind_Ok in H as (? & ? & E & H); minv E).
  apply bind_Ok in H as (u1 & s1 & E1 & H).
  apply read_clauses_built in E1; [|apply Forall_nil_2].
  cbn in E1. destruct E1 as (B1 & B2 & B3 & B4 & B5 & B6 & B7 & B8 & B9 & B10).
  apply bind_Ok in H as (passed & s2 & E2 & H). minv H.
  apply seed_units_spec in E2 as [Hs Hq].
  pose proof Hs as (C1 & C2 & C3 & C4 & C5 & C6 & C7 & _).
  rewrite length_fmap, length_seq in B10.
  assert (same_clause_shape (false_clause s1) (false_clause s2)) as Hfc.
  { specialize (C7 FalseClause). cbn in C7. apply (inj Some) in C7.
    apply same_modulo_flag in C7 as (? & ? & ? & ? & ? & ?).
    by repeat split. }
  rewrite <- B4.
  repeat match goal with |- _ /\ _ => split end; try congruence; try exact Hfc.
  - rewrite C5, B10. done.
  - eapply seeded_Forall; [exact Hs|apply built_ok_modulo_flag|done].
  - rewrite B6, <- B2, (Forall_handles _ s1) in Hq.
    rewrite Hq. split.
    + intros [?|Hall]; [done|]. eapply seeded_Forall; [exact Hs| |exact Hall].
      intros cl cl' Hx. apply same_modulo_flag in Hx as (-> & _). done.
    + intros Hall. right. apply Forall_lookup. intros i cl Hi.
      specialize (C7 (ClauseAt i)). cbn in C7. rewrite Hi in C7.
      destruct (heap s2 !! i) as [cl'|] eqn:Hi'; [|done].
      cbn in C7. apply (inj Some) in C7.
      apply same_modulo_flag in C7 as (Hx & _). rewrite Hx.
      by eapply (proj1 (Forall_lookup _ _) Hall).
Qed.

(** A successful [sat_unit_resolution] leaves the queue empty. *)
Lemma drain_true_empties k : forall i st s,
  drain k i st = Ok (true, s) -> propagate_literals s = [].
Proof.
  induction k as [|k IH]; intros i st s; cbn [drain]; intros H.
  - minv H. destruct (propagate_literals st !! i); minv H. done.
  - minv H. destruct (propagate_literals st !! i).
    + apply bind_Ok in H as (ok & s1 & E & H). destruct ok; [|minv H].
      by eapply IH.
    + minv H. done.
Qed.

Lemma sat_unit_resolution_empties st s :
  sat_unit_resolution st = Ok (true, s) -> propagate_literals s = [].
Proof.
  unfold sat_unit_resolution. intros H. minv H. by eapply drain_true_empties.
Qed.

(** * Clauses across the calls of the interface *)

Lemma rewatch_step_shape cl cl' : rewatch_step cl cl' -> same_clause_shape cl cl'.
Proof. by destruct 1. Qed.

Lemma rewatch_shape cl cl' : rewatch cl cl' -> same_clause_shape cl cl'.
Proof.
  induction 1 as [|x y z H _ IH]; [apply same_clause_shape_refl|].
  eapply same_clause_shape_trans; [by apply rewatch_step_shape|done].
Qed.

Lemma rewatch_step_watch_shape_ok cl cl' :
  rewatch_step cl cl' -> watch_shape_ok cl -> watch_shape_ok cl'.
Proof.
  unfold watch_shape_ok.
  destruct 1 as [b|b|l Hin Ha Hb|l Hin Ha Hb]; cbn; try done;
    intros [H1 H2]; (split; [|by auto]); intros Hlen;
    destruct (H1 Hlen) as [Hwb Hwa];
    destruct (lits cl) as [|x [|? ?]]; try done;
    apply list_elem_of_singleton in Hin as ->; cbn in Hwa; congruence.
Qed.

Lemma rewatch_watch_shape_ok cl cl' :
  rewatch cl cl' -> watch_shape_ok cl -> watch_shape_ok cl'.
Proof. induction 1; eauto using rewatch_step_watch_shape_ok. Qed.

Lemma rewatch_built_ok cl cl' : rewatch cl cl' -> built_ok cl -> built_ok cl'.
Proof.
  intros H (H1 & H2 & H3). destruct (rewatch_shape _ _ H) as (_ & _ & Hs & Hl).
  repeat split; [congruence|congruence|by eapply rewatch_watch_shape_ok..].
Qed.

Lemma rewatch_step_watched_in cl cl' :
  rewatch_step cl cl' -> watched_in cl -> watched_in cl'.
Proof.
  unfold watched_in.
  destruct 1 as [b|b|l Hin Ha Hb|l Hin Ha Hb]; cbn; try done;
    intros [H1 H2]; eauto.
Qed.

Lemma rewatch_watched_in cl cl' : rewatch cl cl' -> watched_in cl -> watched_in cl'.
Proof. induction 1; eauto using rewatch_step_watched_in. Qed.

#[global] Instance clauses_rewatched_preorder : PreOrder clauses_rewatched.
Proof.
  split.
  - intros st. split_and!; [done| |].
    + intros c cl H. exists cl. split; [done|apply rtc_refl].
    + intros h cl H1 H2. congruence.
  - intros s1 s2 s3 (A1 & A2 & A3) (B1 & B2 & B3). split_and!; [congruence| |].
    + intros c cl H. destruct (A2 c cl H) as (cl' & H' & R).
      destruct (B2 c cl' H') as (cl'' & H'' & R'). exists cl''.
      split; [done|by etrans].
    + intros h cl3 H3 H1.
      destruct (get_clause s2 (ClauseAt h)) as [cl2|] eqn:H2; [|by eapply B3].
      destruct (B2 _ _ H2) as (cl3' & H3' & R). simplify_eq.
      apply rewatch_shape in R as (_ & Hal & Hsz & _).
      destruct (A3 h cl2 H2 H1) as [? ?]. split; congruence.
Qed.

Lemma clauses_rewatched_frame st s :
  clauses_size s = clauses_size st ->
  (forall c, get_clause s c = get_clause st c) ->
  clauses_rewatched st s.
Proof.
  intros H1 H2. split_and!; [done| |].
  - intros c cl H. exists cl. rewrite H2. split; [done|apply rtc_refl].
  - intros h cl Hs Hst. rewrite H2 in Hs. congruence.
Qed.

Lemma clauses_rewatched_set_clause st c cl cl' :
  get_clause st c = Some cl -> rewatch cl cl' ->
  clauses_rewatched st (set_clause c cl' st).
Proof.
  intros Hc R. split_and!; [by st_simpl| |].
  - intros c' w H. rewrite (get_set_clause _ _ _ _ _ Hc).
    destruct (decide (c = c')) as [<-|Hne].
    + simplify_eq. eauto.
    + exists w. split; [done|apply rtc_refl].
  - intros h w. rewrite (get_set_clause _ _ _ _ _ Hc).
    destruct (decide (c = ClauseAt h)) as [<-|Hne]; congruence.
Qed.

Lemma clauses_rewatched_alloc cl st :
  learned_shape cl ->
  clauses_rewatched st (st_with_heap (heap st ++ [cl]) st).
Proof.
  intros Hcl. split_and!; [done| |].
  - intros c w Hc. exists w. split; [|apply rtc_refl].
    destruct c as [|h]; [done|]. cbn in *. by apply lookup_app_l_Some.
  - intros h w. cbn. intros Hs Hst.
    apply lookup_ge_None in Hst. rewrite lookup_app_r in Hs by done.
    apply list_lookup_singleton_Some in Hs as [_ <-]. done.
Qed.

Ltac rewatched_frame :=
  apply clauses_rewatched_frame; [by st_simpl|intros; by st_simpl].

Lemma effect_rewatched st st' : effect st st' -> clauses_rewatched st st'.
Proof.
  destruct 1 as [lit v c cl0 Hn Hv Hl _ _|c cl Hc Hs|c cl l Hc Hin Ha Hb
                 |c cl l Hc Hin Ha Hb|l v f Hv|q].
  - unfold assigned_state. rewatched_frame.
  - unfold subsumed_state.
    etrans; [apply (clauses_rewatched_set_clause st c cl
                      (clause_with_subsumed true cl) Hc)|].
    + apply rtc_once. constructor.
    + rewatched_frame.
  - apply (clauses_rewatched_set_clause st c cl _ Hc).
    apply rtc_once. by constructor.
  - apply (clauses_rewatched_set_clause st c cl _ Hc).
    apply rtc_once. by constructor.
  - rewatched_frame.
  - rewatched_frame.
Qed.

Lemma quiet_rewatched st st' : quiet st st' -> clauses_rewatched st st'.
Proof.
  induction 1 as [|x y z H _ IH]; [done|].
  etrans; [by apply effect_rewatched|done].
Qed.

Lemma conflict_state_rewatched implier st :
  clauses_rewatched st (conflict_state implier st).
Proof. unfold conflict_state. rewatched_frame. Qed.

Lemma outcome_rewatched b st st' : outcome b st st' -> clauses_rewatched st st'.
Proof.
  destruct b; cbn.
  - apply quiet_rewatched.
  - intros (s & c & Hq & ->).
    etrans; [by apply quiet_rewatched|apply conflict_state_rewatched].
Qed.

Lemma analysis_frame_rewatched st st' :
  analysis_frame st st' -> clauses_rewatched st st'.
Proof.
  intros (_ & Hf & Hh & _ & _ & _ & _ & Hn & _).
  apply clauses_rewatched_frame; [done|]. intros c. by apply get_clause_frame.
Qed.

Lemma sat_build_asserting_clause_rewatched fuel st c s :
  sat_build_asserting_clause fuel st = Ok (c, s) -> clauses_rewatched st s.
Proof.
  intros H. apply sat_build_asserting_clause_Ok in H
    as (s1 & cl & Ha & -> & -> & Hal & Hsz & _).
  etrans; [apply analysis_frame_rewatched; by apply analysis_analysis_frame|].
  apply clauses_rewatched_alloc. by split.
Qed.

Lemma set_Lit_Decision_rewatched lit implier st b s :
  set_Lit_Decision lit implier st = Ok (b, s) -> clauses_rewatched st s.
Proof.
  intros H. apply set_Lit_Decision_Ok in H as (v & Hv & Hn & H).
  destruct H as [(Hl & -> & _ & ->)|[(Hi & Him & -> & _ & ->)|(Hi & Him & -> & H)]].
  - unfold assigned_state. rewatched_frame.
  - apply conflict_state_rewatched.
  - apply quiet_rewatched. by eapply sat_subsume_clause_quiet.
Qed.

Lemma decide_propagate_rewatched lit st b s :
  decide_propagate lit st = Ok (b, s) -> clauses_rewatched st s.
Proof.
  unfold decide_propagate. intros H.
  apply bind_Ok in H as (u1 & s1 & E & H). minv E.
  apply bind_Ok in H as (u2 & s2 & E & H). minv E.
  apply bind_Ok in H as (ok & s3 & E & H).
  apply set_Lit_Decision_rewatched in E.
  etrans; [|etrans; [exact E|]]; [rewatched_frame|].
  destruct ok; [|by minv H].
  apply bind_Ok in H as (u3 & s4 & E' & H). minv E'.
  apply sat_unit_resolution_outcome, outcome_rewatched in H.
  etrans; [|exact H]. rewatched_frame.
Qed.

Lemma sat_decide_literal_rewatched fuel lit st r s :
  sat_decide_literal fuel lit st = Ok (r, s) -> clauses_rewatched st s.
Proof.
  unfold sat_decide_literal. intros H.
  apply bind_Ok in H as (b & s1 & E & H).
  apply decide_propagate_rewatched in E. etrans; [exact E|].
  destruct b; cbn [negb] in H; [by minv H|].
  apply bind_Ok in H as (c & s2 & E' & H). minv H.
  by eapply sat_build_asserting_clause_rewatched.
Qed.

Lemma undo_trail_rewatched k : forall st u s,
  undo_trail k st = Ok (u, s) -> clauses_rewatched st s.
Proof.
  induction k as [|k IH]; intros st u s H; cbn [undo_trail] in H.
  - by minv H.
  - apply bind_Ok in H as (tr & s0 & E & H). minv E.
    match type of H with context [last ?t] => destruct (last t) as [lit|] end;
      [|by minv H].
    apply bind_Ok in H as (owner & s1 & E3 & H). minv E3.
    apply bind_Ok in H as (v & s1 & E4 & H). minv E4.
    apply bind_Ok in H as (lvl & s1 & E5 & H). minv E5.
    match type of H with context [(?a =? ?b)%N] => destruct (a =? b)%N end;
      [|by minv H].
    apply bind_Ok in H as (u1 & s2 & E1 & H). minv E1.
    apply bind_Ok in H as (u2 & s3 & E2 & H). minv E2.
    apply IH in H. etrans; [|exact H]. rewatched_frame.
Qed.

Lemma undo_subsumed_rewatched k : forall st u s,
  undo_subsumed k st = Ok (u, s) -> clauses_rewatched st s.
Proof.
  induction k as [|k IH]; intros st u s H; cbn [undo_subsumed] in H.
  - by minv H.
  - apply bind_Ok in H as (log & s0 & E & H). minv E.
    match type of H with context [match ?t with [] => _ | _ => _ end] =>
      destruct t as [|node log'] end; [by minv H|].
    apply bind_Ok in H as (u1 & s1 & E1 & H). minv E1.
    destruct node as [c|]; [|minv H; rewatched_frame].
    apply bind_Ok in H as (u2 & s2 & E2 & H).
    apply update_clause_Ok in E2 as (cl & Hc & ->).
    apply IH in H. etrans; [|exact H].
    etrans; [|eapply clauses_rewatched_set_clause;
               [exact Hc|apply rtc_once; constructor]].
    rewatched_frame.
Qed.

Lemma sat_undo_unit_resolution_rewatched st u s :
  sat_undo_unit_resolution st = Ok (u, s) -> clauses_rewatched st s.
Proof.
  unfold sat_undo_unit_resolution. intros H.
  apply bind_Ok in H as (tr & s0 & E & H). minv E.
  apply bind_Ok in H as (u1 & s1 & E1 & H). apply undo_trail_rewatched in E1.
  apply bind_Ok in H as (log & s2 & E & H). minv E.
  apply bind_Ok in H as (u2 & s3 & E2 & H). apply undo_subsumed_rewatched in E2.
  minv H. etrans; [exact E1|]. etrans; [exact E2|]. rewatched_frame.
Qed.

Lemma sat_undo_decide_literal_rewatched st u s :
  sat_undo_decide_literal st = Ok (u, s) -> clauses_rewatched st s.
Proof.
  unfold sat_undo_decide_literal. intros H.
  apply bind_Ok in H as (u1 & s1 & E1 & H).
  apply sat_undo_unit_resolution_rewatched in E1. minv H.
  etrans; [exact E1|]. rewatched_frame.
Qed.
Lemma slots_lookup_Some {A} (size : nat) (l : list A) i x :
  slots size l !! i = Some (Some x) -> l !! i = Some x /\ i < size.
Proof.
  unfold slots. intros H. apply lookup_take_Some in H as [H Hi].
  split; [|done]. destruct (decide (i < length l)) as [Hlt|Hge].
  - rewrite lookup_app_l in H by by rewrite length_fmap.
    rewrite list_lookup_fmap in H. destruct (l !! i); by simplify_eq/=.
  - rewrite lookup_app_r in H by (rewrite length_fmap; lia).
    apply lookup_replicate in H as [H _]. done.
Qed.

Lemma mjoin_Some {A} (o : option (option A)) x :
  mjoin o = Some x -> o = Some (Some x).
Proof. destruct o as [[?|]|]; cbn; congruence. Qed.

(** [sat_assert_clause] up to the call of [set_Lit_Decision]: the clause has
    its two watches, and nothing else has changed in the clauses. *)
Lemma assert_watch_Ok c st w sa :
  assert_watch c st = Ok (w, sa) ->
  exists cl,
    get_clause st c = Some cl /\
    lits cl !! 0 = Some (fst w) /\
    lits cl !! (lits_size cl - 1) = Some (snd w) /\
    0 < lits_size cl /\
    clauses_size sa = clauses_size st /\
    level sa = level st /\
    get_clause sa c =
      Some (clause_with_watch_b (Some (snd w))
              (clause_with_watch_a (Some (fst w)) cl)) /\
    (forall c', c' <> c -> get_clause sa c' = get_clause st c').
Proof.
  unfold assert_watch. intros H.
  apply bind_Ok in H as (u1 & s1 & E1 & H). minv E1.
  apply bind_Ok in H as (cl & s2 & E2 & H). minv E2.
  apply bind_Ok in H as (u3 & s3 & E3 & H).
  assert (clauses_size s3 = clauses_size st /\ level s3 = level st /\
          forall c', get_clause s3 c' = get_clause st c') as (R1 & R2 & R3).
  { clear H.
    change (get_clause st) with
      (get_clause (st_with_learned (c :: learned_clauses st) st)).
    change (clauses_size st) with
      (clauses_size (st_with_learned (c :: learned_clauses st) st)).
    change (level st) with
      (level (st_with_learned (c :: learned_clauses st) st)).
    revert E3. generalize (slots (lits_size cl) (lits cl)).
    generalize (st_with_learned (c :: learned_clauses st) st).
    intros s0 l. revert s0. induction l as [|x l IH]; intros s0 H; cbn in H.
    - by minv H.
    - apply bind_Ok in H as (u & s' & E & H).
      apply bind_Ok in E as (lit & s'' & E0 & E). minv E0.
      apply update_lit_Ok in E as (v & Hv & ->).
      apply IH in H as (H1 & H2 & H3). split_and!.
      + by rewrite H1; st_simpl.
      + by rewrite H2; st_simpl.
      + intros c'. by rewrite H3; st_simpl. }
  apply bind_Ok in H as (first & s4 & E4 & H).
  apply lift_opt_Ok in E4 as [E4 ->]. apply mjoin_Some, slots_lookup_Some in E4 as [E4 Hpos].
  apply bind_Ok in H as (final & s5 & E5 & H).
  destruct (lits_size cl) as [|n] eqn:Hsz; [lia|].
  apply lift_opt_Ok in E5 as [E5 ->]. apply mjoin_Some, slots_lookup_Some in E5 as [E5 _].
  apply bind_Ok in H as (u6 & s6 & E6 & H).
  apply update_clause_Ok in E6 as (cl' & Hc' & ->). minv H.
  rewrite R3 in Hc'. cbn in Hc'. 
  assert (cl' = cl) as -> by congruence.
  exists cl. cbn [fst snd]. rewrite ?Hsz. replace (S n - 1) with n by lia.
  split_and!; try done.
  all: st_simpl; try done.
  - apply get_set_clause_eq with (cl := cl). by rewrite R3.
  - intros c' Hne. rewrite get_set_clause_ne by done. apply R3.
Qed.

Lemma assert_propagate_Ok c st b s :
  assert_propagate c st = Ok (b, s) ->
  exists w sa,
    assert_watch c st = Ok (w, sa) /\ clauses_rewatched sa s /\ level s = level sa.
Proof.
  unfold assert_propagate. intros H.
  apply bind_Ok in H as (w & sa & E & H). exists w, sa. split; [done|].
  apply bind_Ok in H as (ok & s1 & E1 & H).
  pose proof (set_Lit_Decision_rewatched _ _ _ _ _ E1) as R1.
  assert (level s1 = level sa) as L1.
  { apply set_Lit_Decision_Ok in E1 as (v & Hv & Hn & E1).
    destruct E1 as [(Hl & -> & _ & ->)|[(Hi & Him & -> & _ & ->)|(Hi & Him & -> & E1)]].
    - done.
    - done.
    - apply sat_subsume_clause_quiet, quiet_kept in E1. apply E1. }
  destruct ok; [|minv H; done].
  apply bind_Ok in H as (u2 & s2 & E2 & H). minv E2.
  apply bind_Ok in H as (u3 & s3 & E3 & H).
  apply update_lit_Ok in E3 as (v3 & Hv3 & ->).
  apply bind_Ok in H as (u4 & s4 & E4 & H).
  apply update_lit_Ok in E4 as (v4 & Hv4 & ->).
  apply sat_unit_resolution_outcome in H.
  pose proof (outcome_kept _ _ _ H) as (K & _).
  apply outcome_rewatched in H. split.
  - etrans; [exact R1|]. etrans; [|exact H]. rewatched_frame.
  - rewrite K. by st_simpl.
Qed.
Lemma clauses_rewatched_kept st s : clauses_rewatched st s -> clauses_kept st s.
Proof.
  intros (H1 & H2 & H3). split_and!; [done| |done].
  intros c cl Hc. destruct (H2 c cl Hc) as (cl' & Hc' & R).
  exists cl'. split_and!; [done|by apply rewatch_shape|done].
Qed.

#[global] Instance clauses_kept_preorder : PreOrder clauses_kept.
Proof.
  split.
  - intros st. by apply clauses_rewatched_kept.
  - intros s1 s2 s3 (A1 & A2 & A3) (B1 & B2 & B3). split_and!; [congruence| |].
    + intros c cl H. destruct (A2 c cl H) as (cl' & H' & S1 & R).
      destruct (B2 c cl' H') as (cl'' & H'' & S2 & R'). exists cl''.
      split_and!; [done|by eapply same_clause_shape_trans|].
      intros Ho. etrans; [by apply R|]. apply R'. by rewrite A1.
    + intros h cl3 H3 H1.
      destruct (get_clause s2 (ClauseAt h)) as [cl2|] eqn:H2; [|by eapply B3].
      destruct (B2 _ _ H2) as (cl3' & H3' & (_ & Hal & Hsz & _) & _). simplify_eq.
      destruct (A3 h cl2 H2 H1) as [? ?]. split; congruence.
Qed.

(** After [sat_assert_clause] both watches of the asserted clause are
    literals of the clause, and the clause has kept its literals. *)
Lemma sat_assert_clause_watched fuel c st r s :
  sat_assert_clause fuel c st = Ok (r, s) ->
  exists cl cl', get_clause st c = Some cl /\ get_clause s c = Some cl' /\
    same_clause_shape cl cl' /\ watched_in cl'.
Proof.
  unfold sat_assert_clause. intros H.
  apply bind_Ok in H as (b & s1 & E & H).
  apply assert_propagate_Ok in E as (w & sa & Ew & R & _).
  apply assert_watch_Ok in Ew as (cl & Hc & Hf & Hl & _ & _ & _ & Hca & _).
  assert (clauses_rewatched sa s) as R'.
  { destruct b; cbn [negb] in H; [by minv H|].
    apply bind_Ok in H as (lvl & s2 & E2 & H). minv E2.
    match type of H with context [(1 <? ?l)%N] => destruct (1 <? l)%N end;
      [|by minv H].
    apply bind_Ok in H as (c' & s3 & E3 & H). minv H.
    etrans; [exact R|]. by eapply sat_build_asserting_clause_rewatched. }
  destruct R' as (_ & R' & _). destruct (R' _ _ Hca) as (cl' & Hc' & Hr).
  exists cl, cl'. split_and!; [done|done| |].
  - eapply same_clause_shape_trans; [|by apply rewatch_shape]. by repeat split.
  - eapply rewatch_watched_in; [exact Hr|]. split; eexists; (split; [done|]); cbn.
    + by eapply list_elem_of_lookup_2.
    + by eapply list_elem_of_lookup_2.
Qed.

Lemma sat_assert_clause_kept fuel h st r s :
  clauses_size st <= h ->
  sat_assert_clause fuel (ClauseAt h) st = Ok (r, s) -> clauses_kept st s.
Proof.
  unfold sat_assert_clause. intros Hh H.
  apply bind_Ok in H as (b & s1 & E & H).
  apply assert_propagate_Ok in E as (w & sa & Ew & R & _).
  apply assert_watch_Ok in Ew as (cl & Hc & Hf & Hl & _ & Hn & _ & Hca & Hoth).
  assert (clauses_rewatched sa s) as R'.
  { destruct b; cbn [negb] in H; [by minv H|].
    apply bind_Ok in H as (lvl & s2 & E2 & H). minv E2.
    match type of H with context [(1 <? ?l)%N] => destruct (1 <? l)%N end;
      [|by minv H].
    apply bind_Ok in H as (c' & s3 & E3 & H). minv H.
    etrans; [exact R|]. by eapply sat_build_asserting_clause_rewatched. }
  etrans; [|by apply clauses_rewatched_kept]. split_and!; [done| |].
  - intros c w0 Hw0. destruct (decide (c = ClauseAt h)) as [->|Hne].
    + simplify_eq. eexists. split_and!; [exact Hca|by repeat split|].
      cbn. lia.
    + exists w0. rewrite Hoth by done.
      split_and!; [done|apply same_clause_shape_refl|intros; apply rtc_refl].
  - intros j w0 Hs Hst. destruct (decide (ClauseAt j = ClauseAt h)) as [Heq|Hne].
    + congruence.
    + rewrite Hoth in Hs by done. congruence.
Qed.

Lemma api_step_kept st s : api_step st s -> clauses_kept st s.
Proof.
  destruct 1 as [fuel lit r s H|s H|b s H|s H|c s H|fuel c s H|fuel h r s Hh H
                 |var b s H|c b s H].
  - apply clauses_rewatched_kept. by eapply sat_decide_literal_rewatched.
  - apply clauses_rewatched_kept. by eapply sat_undo_decide_literal_rewatched.
  - apply clauses_rewatched_kept, (outcome_rewatched b).
    by apply sat_unit_resolution_outcome.
  - apply clauses_rewatched_kept. by eapply sat_undo_unit_resolution_rewatched.
  - apply clauses_rewatched_kept, quiet_rewatched.
    by eapply sat_subsume_clause_quiet.
  - apply clauses_rewatched_kept. by eapply sat_build_asserting_clause_rewatched.
  - by eapply sat_assert_clause_kept.
  - apply clauses_rewatched_kept.
    destruct b; apply update_var_Ok in H as (v & Hv & ->); rewatched_frame.
  - apply clauses_rewatched_kept.
    destruct b; apply update_clause_Ok in H as (cl & Hc & ->);
      (eapply clauses_rewatched_set_clause; [exact Hc|apply rtc_once; constructor]).
Qed.

Lemma api_steps_kept st s : rtc api_step st s -> clauses_kept st s.
Proof.
  induction 1 as [|x y z H _ IH]; [done|].
  etrans; [by apply api_step_kept|done].
Qed.

Lemma clauses_kept_inv st s : clauses_kept st s -> api_inv st -> api_inv s.
Proof.
  intros (K1 & K2 & K3) [[I1 I1'] I2 I3]. split.
  - destruct (K2 FalseClause (false_clause st) eq_refl)
      as (cl' & Hc' & (_ & Hal & Hsz & _) & _).
    cbn in Hc'. simplify_eq. split; congruence.
  - intros h Hh. rewrite K1 in Hh. destruct (I2 h Hh) as (cl & Hc & Hb).
    destruct (K2 _ _ Hc) as (cl' & Hc' & _ & R). exists cl'. split; [done|].
    eapply rewatch_built_ok; [|exact Hb]. by apply R.
  - intros h cl' Hh Hc'. rewrite K1 in Hh.
    destruct (get_clause st (ClauseAt h)) as [cl|] eqn:Hc; [|by eapply K3].
    destruct (K2 _ _ Hc) as (cl'' & Hc'' & (_ & Hal & Hsz & _) & _). simplify_eq.
    destruct (I3 h cl Hh Hc) as [? ?]. split; congruence.
Qed.

Lemma sat_state_new_inv mem_var mem_clause cnf st :
  sat_state_new mem_var mem_clause cnf = Ok st -> api_inv st.
Proof.
  intros H. apply sat_state_new_Ok in H
    as (_ & _ & _ & Hn & Hlen & _ & Hb & (_ & Hal & Hsz & _) & _).
  split.
  - done.
  - intros h Hh. destruct (lookup_lt_is_Some_2 (heap st) h) as [cl Hcl]; [lia|].
    exists cl. split; [done|]. by eapply (proj1 (Forall_lookup _ _) Hb).
  - intros h cl Hh Hc. cbn in Hc. apply lookup_lt_Some in Hc. lia.
Qed.

Lemma reachable_inv mem_var mem_clause cnf st :
  reachable mem_var mem_clause cnf st -> api_inv st.
Proof.
  intros (st0 & H0 & Hs). eapply clauses_kept_inv; [by apply api_steps_kept|].
  by eapply sat_state_new_inv.
Qed.

(** * The watch loop, forward *)

Lemma slots_full {A} (l : list A) : slots (length l) l = Some <$> l.
Proof.
  unfold slots. rewrite Nat.sub_diag. cbn. rewrite app_nil_r.
  apply firstn_all2. by rewrite length_fmap.
Qed.

Lemma unwatched_scan_skips c cl st pre rest :
  get_clause st c = Some cl ->
  Forall (scan_skips st cl) pre ->
  unwatched_scan c ((Some <$> pre) ++ rest) st = unwatched_scan c rest st.
Proof.
  intros Hc. induction 1 as [|l pre Hl _ IH]; [done|].
  cbn [fmap list_fmap app unwatched_scan].
  destruct Hl as [(Hn & v & Hv & Hi & Him)|[(Hn & v & Hv & Hi) Hw]].
  - do 3 mrun. rewrite Hi. mrun. rewrite Him. exact IH.
  - do 3 mrun. rewrite Hi. mrun.
    assert (bool_decide (Some l = watch_a cl) || bool_decide (Some l = watch_b cl)
            = true) as ->; [|exact IH].
    destruct Hw as [Hw|Hw]; rewrite (bool_decide_eq_true_2 _ Hw);
      [done|apply orb_true_r].
Qed.

Lemma replace_watch_run clit c cl i m st v mv0 :
  get_clause st c = Some cl ->
  get_var st (lit_var clit) = Some v ->
  get_var st (lit_var m) = Some mv0 ->
  exists s mv,
    replace_watch clit c i m st = Ok (tt, s) /\
    get_clause s c = Some (rewatch_to clit m cl) /\
    get_var s (lit_var m) = Some mv /\
    head (watch_list (var_lit (lit_side m) mv)) = Some c.
Proof.
  intros Hc Hv Hm. unfold replace_watch.
  pose (s1 := set_clause c (rewatch_to clit m cl) st).
  assert ((if bool_decide (Some clit = watch_a cl)
           then update_clause c (clause_with_watch_a (Some m))
           else update_clause c (clause_with_watch_b (Some m))) st
          = Ok (tt, s1)) as E1.
  { unfold s1, rewatch_to. destruct (bool_decide (Some clit = watch_a cl));
      by apply update_clause_run. }
  assert (get_var s1 (lit_var clit) = Some v) as Hv1 by by (unfold s1; st_simpl).
  pose (s2 := set_var (lit_var clit)
                (var_with_lit (lit_side clit)
                   (lit_with_watch_list
                      (delete i (watch_list (var_lit (lit_side clit) v)))
                      (var_lit (lit_side clit) v)) v) s1).
  assert (exists mv1, get_var s2 (lit_var m) = Some mv1) as [mv1 Hm2].
  { unfold s2. rewrite (get_set_var _ _ _ _ _ Hv1).
    destruct (decide (lit_var clit = lit_var m)); [eauto|].
    unfold s1. st_simpl. eauto. }
  eexists _, _. split_and!.
  - mrun. erewrite (bind_run _ _ _ tt) by exact E1.
    erewrite (bind_run _ _ _ tt) by (apply update_lit_Ok; eauto).
    apply update_lit_Ok. eexists. split; [exact Hm2|reflexivity].
  - st_simpl. unfold s1. by eapply get_set_clause_eq.
  - by eapply get_set_var_eq.
  - by destruct (lit_side m).
Qed.
Lemma propagate_unit_conflict clit c cl st :
  get_clause st c = Some cl ->
  length (decided_literals st) < S (length (vars st)) ->
  match other_watch clit cl with
  | None => True
  | Some other => lit_falsified st other
  end ->
  propagate_unit clit c st = Ok (false, conflict_state (Some c) st).
Proof.
  intros Hc Hcap Ho. unfold propagate_unit. mrun. fold (other_watch clit cl).
  destruct (other_watch clit cl) as [other|].
  - destruct Ho as (Hn & ov & Hov & Hi & Him).
    do 2 mrun. rewrite Hi. mrun. rewrite Him. by apply sat_contradiction_run.
  - by apply sat_contradiction_run.
Qed.

Lemma propagate_unit_subsume clit c cl st other :
  get_clause st c = Some cl -> is_subsumed cl = false ->
  other_watch clit cl = Some other -> lit_implied st other ->
  propagate_unit clit c st = Ok (true, subsumed_state c cl st).
Proof.
  intros Hc Hs Ho (Hn & ov & Hov & Hi & Him).
  unfold propagate_unit. mrun. fold (other_watch clit cl). rewrite Ho.
  do 2 mrun. rewrite Hi. mrun. rewrite Him. mrun. by rewrite Hs.
Qed.

Lemma propagate_unit_imply clit c cl st other ov :
  get_clause st c = Some cl ->
  other_watch clit cl = Some other ->
  other <> contradiction_neg ->
  get_var st (lit_var other) = Some ov ->
  sat_instantiated_var ov = false ->
  length (decided_literals st) < S (length (vars st)) ->
  length (propagate_literals st) < length (vars st) ->
  propagate_unit clit c st = Ok (true, implied_state other c ov st).
Proof.
  intros Hc Ho Hn Hov Hi Hcap Hq.
  unfold propagate_unit. mrun. fold (other_watch clit cl). rewrite Ho.
  do 2 mrun. rewrite Hi.
  erewrite bind_run;
    [|apply set_Lit_Decision_free; [done|done| |done];
      by apply not_instantiated_level].
  cbn [negb]. erewrite (bind_run _ _ _ tt); [reflexivity|].
  apply push_propagate_run. unfold assigned_state. by st_simpl.
Qed.


(** * The decision records across an undo *)

#[global] Instance stale_kept_preorder : PreOrder stale_kept.
Proof.
  split.
  - intros st r v Hv. exists v. by split_and!.
  - intros s1 s2 s3 A B r v Hv.
    destruct (A r v Hv) as (v2 & Hv2 & A1 & A2 & A3 & A4).
    destruct (B r v2 Hv2) as (v3 & Hv3 & B1 & B2 & B3 & B4).
    exists v3. split_and!; congruence.
Qed.

Lemma stale_kept_frame st s :
  contradiction s = contradiction st -> vars s = vars st -> stale_kept st s.
Proof.
  intros H1 H2 r v Hv. exists v. rewrite (get_var_frame st s) by done.
  by split_and!.
Qed.

Lemma stale_kept_unset st r v :
  get_var st r = Some v -> stale_kept st (set_var r (undecided_var v) st).
Proof.
  intros Hv r' w Hw. rewrite (get_set_var _ _ _ _ _ Hv).
  destruct (decide (r = r')) as [<-|Hne]; [|exists w; by split_and!].
  assert (w = v) as -> by congruence. eexists. by split_and!.
Qed.

Lemma undo_trail_stale k : forall st u s,
  undo_trail k st = Ok (u, s) -> stale_kept st s.
Proof.
  induction k as [|k IH]; intros st u s H; cbn [undo_trail] in H.
  - by minv H.
  - apply bind_Ok in H as (tr & s0 & E & H). minv E.
    destruct (last (decided_literals _)) as [lit|]; [|by minv H].
    apply bind_Ok in H as (owner & s1 & E3 & H). minv E3.
    apply bind_Ok in H as (v & s1 & E4 & H). minv E4.
    apply bind_Ok in H as (lvl & s1 & E5 & H). minv E5.
    match type of H with context [(?a =? ?b)%N] => destruct (a =? b)%N end;
      [|by minv H].
    apply bind_Ok in H as (u1 & s2 & E1 & H). minv E1.
    apply bind_Ok in H as (u2 & s3 & E2 & H).
    apply update_var_Ok in E2 as (v2 & Hv2 & ->).
    apply IH in H. etrans; [|exact H].
    etrans; [|by apply stale_kept_unset]. by apply stale_kept_frame.
Qed.

Lemma undo_subsumed_stale k : forall st u s,
  undo_subsumed k st = Ok (u, s) -> stale_kept st s.
Proof.
  induction k as [|k IH]; intros st u s H; cbn [undo_subsumed] in H.
  - by minv H.
  - apply bind_Ok in H as (log & s0 & E & H). minv E.
    destruct (subsumed_clauses _) as [|node log']; [by minv H|].
    apply bind_Ok in H as (u1 & s1 & E1 & H). minv E1.
    destruct node as [c|]; [|minv H; by apply stale_kept_frame].
    apply bind_Ok in H as (u2 & s2 & E2 & H).
    apply update_clause_Ok in E2 as (cl & Hc & ->).
    apply IH in H. etrans; [|exact H]. apply stale_kept_frame; by st_simpl.
Qed.

Lemma sat_undo_unit_resolution_stale st u s :
  sat_undo_unit_resolution st = Ok (u, s) -> stale_kept st s.
Proof.
  unfold sat_undo_unit_resolution. intros H.
  apply bind_Ok in H as (tr & s0 & E & H). minv E.
  apply bind_Ok in H as (u1 & s1 & E1 & H). apply undo_trail_stale in E1.
  apply bind_Ok in H as (log & s2 & E & H). minv E.
  apply bind_Ok in H as (u2 & s3 & E2 & H). apply undo_subsumed_stale in E2.
  minv H. etrans; [exact E1|]. etrans; [exact E2|]. by apply stale_kept_frame.
Qed.

Lemma sat_undo_decide_literal_stale st u s :
  sat_undo_decide_literal st = Ok (u, s) -> stale_kept st s.
Proof.
  unfold sat_undo_decide_literal. intros H.
  apply bind_Ok in H as (u1 & s1 & E1 & H).
  apply sat_undo_unit_resolution_stale in E1. minv H.
  etrans; [exact E1|]. by apply stale_kept_frame.
Qed.
(** * The watch loop, turn by turn *)

Lemma unwatched_scan_cases c cl st :
  get_clause st c = Some cl -> is_subsumed cl = false ->
  forall todo r s,
  unwatched_scan c todo st = Ok (r, s) ->
  (exists pre m post,
     todo = (Some <$> pre) ++ Some m :: post /\
     Forall (scan_skips st cl) pre /\ replacement st cl m /\
     r = Some m /\ s = st) \/
  (exists pre m post,
     todo = (Some <$> pre) ++ Some m :: post /\
     Forall (scan_skips st cl) pre /\ lit_implied st m /\
     r = None /\ s = subsumed_state c cl st) \/
  (exists ls, todo = Some <$> ls /\ Forall (scan_skips st cl) ls /\
     r = None /\ s = st).
Proof.
  intros Hc Hs. induction todo as [|slot todo IH]; intros r s H;
    cbn [unwatched_scan] in H.
  - minv H. right. right. exists []. by split_and!.
  - apply bind_Ok in H as (l & s0 & E & H).
    apply lift_opt_Ok in E as [-> ->].
    apply bind_Ok in H as (owner & s0 & E & H).
    apply lit_owner_Ok in E as (-> & -> & Hn).
    apply bind_Ok in H as (v & s0 & E & H).
    apply read_var_Ok in E as [Hv ->].
    assert (forall r s, unwatched_scan c todo st = Ok (r, s) ->
              scan_skips st cl l ->
              (exists pre m post,
                 Some l :: todo = (Some <$> pre) ++ Some m :: post /\
                 Forall (scan_skips st cl) pre /\ replacement st cl m /\
                 r = Some m /\ s = st) \/
              (exists pre m post,
                 Some l :: todo = (Some <$> pre) ++ Some m :: post /\
                 Forall (scan_skips st cl) pre /\ lit_implied st m /\
                 r = None /\ s = subsumed_state c cl st) \/
              (exists ls, Some l :: todo = Some <$> ls /\
                 Forall (scan_skips st cl) ls /\ r = None /\ s = st)) as Hgo.
    { intros r' s' H' Hsk.
      destruct (IH _ _ H') as [(pre & m & post & -> & Hp & Hm & -> & ->)|
                               [(pre & m & post & -> & Hp & Hm & -> & ->)|
                                (ls & -> & Hp & -> & ->)]].
      - left. exists (l :: pre), m, post. split_and!; try done.
        by constructor.
      - right. left. exists (l :: pre), m, post. split_and!; try done.
        by constructor.
      - right. right. exists (l :: ls). split_and!; try done.
        by constructor. }
    destruct (sat_instantiated_var v) eqn:Hi.
    + apply bind_Ok in H as (implied & s0 & E & H).
      apply sat_implied_literal_Ok in E as (v' & Hv' & _ & -> & ->).
      simplify_eq. destruct (implied_in (lit_side l) v) eqn:Him.
      * apply bind_Ok in H as (u & s1 & E & H). apply ret_Ok in H.
        injection H as -> ->.
        apply sat_subsume_clause_Ok in E as (c' & cl' & [= <-] & Hc' & ->).
        simplify_eq. rewrite Hs.
        right. left. exists [], l, todo. split_and!; try done.
        split; [done|]. eauto.
      * apply Hgo; [done|]. left. split; [done|]. eauto.
    + apply bind_Ok in H as (cl' & s0 & E & H).
      apply read_clause_at_Ok in E as [Hc' ->]. simplify_eq.
      destruct (bool_decide (Some l = watch_a cl) ||
                bool_decide (Some l = watch_b cl)) eqn:Hw.
      * apply Hgo; [done|]. right. split; [split; [done|eauto]|].
        apply orb_true_iff in Hw as [Hw|Hw]; apply bool_decide_eq_true in Hw;
          [by left|by right].
      * apply ret_Ok in H. injection H as -> ->.
        left. exists [], l, todo. split_and!; try done.
        split; [split; [done|eauto]|].
        apply orb_false_iff in Hw as [Ha Hb].
        apply bool_decide_eq_false in Ha, Hb. by intros [?|?].
Qed.

Lemma replace_watch_Ok clit c cl i m st u s :
  get_clause st c = Some cl ->
  replace_watch clit c i m st = Ok (u, s) ->
  is_Some (get_var st (lit_var clit)) /\
  s = rewatched_state clit c cl i m st.
Proof.
  intros Hc H. unfold replace_watch in H.
  apply bind_Ok in H as (cl' & s0 & E & H).
  apply read_clause_at_Ok in E as [Hc' ->]. simplify_eq.
  apply bind_Ok in H as (u1 & s1 & E1 & H).
  assert (s1 = set_clause c (rewatch_to clit m cl) st) as ->.
  { unfold rewatch_to. destruct (bool_decide (Some clit = watch_a cl));
      apply update_clause_Ok in E1 as (cl' & Hc' & ->); by simplify_eq. }
  apply bind_Ok in H as (u2 & s2 & E2 & H).
  apply update_lit_Ok in E2 as (v2 & Hv2 & ->).
  apply update_lit_Ok in H as (v3 & Hv3 & ->).
  split.
  - rewrite get_var_set_clause in Hv2. eauto.
  - unfold rewatched_state, var_of, with_watch_list. cbn zeta.
    rewrite Hv2. cbn [from_option id]. rewrite Hv3. reflexivity.
Qed.

Lemma replace_watch_rewatched clit c cl i m st :
  get_clause st c = Some cl ->
  is_Some (get_var st (lit_var clit)) ->
  is_Some (get_var st (lit_var m)) ->
  replace_watch clit c i m st = Ok (tt, rewatched_state clit c cl i m st).
Proof.
  intros Hc [v Hv] [mv Hmv].
  destruct (replace_watch_run clit c cl i m st v mv Hc Hv Hmv)
    as (s & mv' & E & _).
  rewrite E. by apply (replace_watch_Ok _ _ cl) in E as [_ <-].
Qed.

Lemma propagate_unit_cases clit c cl st b s :
  get_clause st c = Some cl -> is_subsumed cl = false ->
  propagate_unit clit c st = Ok (b, s) ->
  (b = false /\ s = conflict_state (Some c) st /\
   length (decided_literals st) < S (length (vars st)) /\
   match other_watch clit cl with
   | None => True
   | Some other => lit_falsified st other
   end) \/
  (exists other, b = true /\ s = subsumed_state c cl st /\
     other_watch clit cl = Some other /\ lit_implied st other) \/
  (exists other ov, b = true /\ s = implied_state other c ov st /\
     other_watch clit cl = Some other /\ other <> contradiction_neg /\
     get_var st (lit_var other) = Some ov /\
     sat_instantiated_var ov = false /\
     length (decided_literals st) < S (length (vars st)) /\
     length (propagate_literals st) < length (vars st)).
Proof.
  intros Hc Hs H. unfold propagate_unit in H.
  apply bind_Ok in H as (cl' & s0 & E & H).
  apply read_clause_at_Ok in E as [Hc' ->]. simplify_eq.
  fold (other_watch clit cl) in H.
  destruct (other_watch clit cl) as [other|] eqn:Ho.
  - apply bind_Ok in H as (owner & s0 & E & H).
    apply lit_owner_Ok in E as (-> & -> & Hn).
    apply bind_Ok in H as (ov & s0 & E & H).
    apply read_var_Ok in E as [Hov ->].
    destruct (sat_instantiated_var ov) eqn:Hi.
    + apply bind_Ok in H as (implied & s0 & E & H).
      apply sat_implied_literal_Ok in E as (v' & Hv' & _ & -> & ->).
      simplify_eq. destruct (implied_in (lit_side other) ov) eqn:Him.
      * apply bind_Ok in H as (u & s1 & E & H). apply ret_Ok in H.
        injection H as -> ->.
        apply sat_subsume_clause_Ok in E as (c' & cl' & [= <-] & Hc' & ->).
        simplify_eq. rewrite Hs.
        right. left. exists other. split_and!; try done. split; [done|eauto].
      * apply sat_contradiction_Ok in H as (-> & Hcap & ->).
        left. split_and!; try done. split; [done|eauto].
    + apply bind_Ok in H as (ok & s1 & E & H).
      apply set_Lit_Decision_Ok in E
        as (v & Hv & _ & [(Hl & -> & Hcap & ->)|[(Hi' & _)|(Hi' & _)]]);
        simplify_eq; [|congruence|congruence].
      cbn [negb] in H.
      apply bind_Ok in H as (u & s2 & E & H). apply ret_Ok in H.
      injection H as -> ->.
      apply push_propagate_Ok in E as (Hq & ->).
      right. right. exists other, ov. split_and!; try done.
      unfold assigned_state in Hq. by st_simpl.
  - apply sat_contradiction_Ok in H as (-> & Hcap & ->).
    left. by split_and!.
Qed.

Lemma watch_loop_turns clit todo : forall i st b s,
  watch_loop clit todo i st = Ok (b, s) -> watch_turns clit todo i st b s.
Proof.
  induction todo as [|c todo IH]; intros i st b s H; cbn [watch_loop] in H.
  - apply ret_Ok in H. injection H as -> ->. constructor.
  - apply bind_Ok in H as (sub & s0 & E & H).
    apply sat_subsumed_clause_Ok in E as (cl & Hc & -> & ->).
    destruct (is_subsumed cl) eqn:Hs.
    { eapply turns_skip; eauto. }
    apply bind_Ok in H as (l & s1 & E & H).
    unfold sat_unwatched_literal in E.
    apply bind_Ok in E as (cl' & s0 & E0 & E).
    apply read_clause_at_Ok in E0 as [Hc' ->]. simplify_eq.
    apply bind_Ok in H as (sub' & s2 & E2 & H).
    apply sat_subsumed_clause_Ok in E2 as (cl1 & Hc1 & -> & ->).
    destruct (unwatched_scan_cases _ _ _ Hc Hs _ _ _ E)
      as [(pre & m & post & Hsl & Hp & Hm & -> & ->)|
          [(pre & m & post & Hsl & Hp & Hm & -> & ->)|
           (ls & Hsl & Hp & -> & ->)]].
    + simplify_eq. rewrite Hs in H.
      apply bind_Ok in H as (u & s3 & E3 & H).
      apply (replace_watch_Ok _ _ cl) in E3 as [Hcv ->]; [|done].
      eapply turns_replace; eauto.
    + assert (is_subsumed cl1 = true) as Hs1.
      { unfold subsumed_state in Hc1. st_simpl.
        rewrite (get_set_clause_eq _ _ _ _ Hc) in Hc1. by simplify_eq. }
      rewrite Hs1 in H. eapply turns_implied; eauto.
    + simplify_eq. rewrite Hs in H.
      apply bind_Ok in H as (go & s3 & E3 & H).
      destruct (propagate_unit_cases _ _ _ _ _ _ Hc Hs E3)
        as [(-> & -> & Hcap & Ho)|
            [(other & -> & -> & Ho & Hi)|
             (other & ov & -> & -> & Ho & Hn & Hov & Hi & Hcap & Hq)]].
      * apply ret_Ok in H. injection H as -> ->.
        eapply turns_conflict; eauto.
      * eapply turns_subsume; eauto.
      * eapply turns_imply; eauto.
Qed.

Lemma unwatched_scan_replace c cl st pre m post :
  get_clause st c = Some cl ->
  Forall (scan_skips st cl) pre -> replacement st cl m ->
  unwatched_scan c ((Some <$> pre) ++ Some m :: post) st = Ok (Some m, st).
Proof.
  intros Hc Hpre [(Hn & v & Hv & Hi) Hw].
  rewrite (unwatched_scan_skips c cl) by done.
  cbn [unwatched_scan]. do 3 mrun. rewrite Hi. mrun.
  rewrite !bool_decide_eq_false_2; [done| |]; intros ?; apply Hw;
    unfold watched; auto.
Qed.

Lemma unwatched_scan_implied c cl st pre m post :
  get_clause st c = Some cl -> is_subsumed cl = false ->
  Forall (scan_skips st cl) pre -> lit_implied st m ->
  unwatched_scan c ((Some <$> pre) ++ Some m :: post) st
    = Ok (None, subsumed_state c cl st).
Proof.
  intros Hc Hs Hpre (Hn & v & Hv & Hi & Him).
  rewrite (unwatched_scan_skips c cl) by done.
  cbn [unwatched_scan]. do 3 mrun. rewrite Hi. mrun.
  rewrite Him. mrun. by rewrite Hs.
Qed.

Lemma unwatched_scan_none c cl st ls :
  get_clause st c = Some cl ->
  Forall (scan_skips st cl) ls ->
  unwatched_scan c (Some <$> ls) st = Ok (None, st).
Proof.
  intros Hc Hall. rewrite <- (app_nil_r (Some <$> ls)).
  by rewrite (unwatched_scan_skips c cl).
Qed.

Lemma turns_watch_loop clit todo i st b s :
  watch_turns clit todo i st b s -> watch_loop clit todo i st = Ok (b, s).
Proof.
  induction 1 as [i st
                 |c cl todo i st b s Hc Hs _ IH
                 |c cl todo i st pre m post b s Hc Hs Hsl Hp Hm Hcv _ IH
                 |c cl todo i st pre m post b s Hc Hs Hsl Hp Hm _ IH
                 |c cl todo i st ls Hc Hs Hsl Hp Ho Hcap
                 |c cl todo i st ls other b s Hc Hs Hsl Hp Ho Hi _ IH
                 |c cl todo i st ls other ov b s Hc Hs Hsl Hp Ho Hn Hov Hi
                    Hcap Hq _ IH];
    cbn [watch_loop]; [done|..].
  - mrun. by rewrite Hs.
  - mrun. rewrite Hs. unfold sat_unwatched_literal.
    erewrite bind_run;
      [|erewrite bind_run by (by apply read_clause_at_run);
        rewrite Hsl; by apply (unwatched_scan_replace _ cl)].
    mrun. rewrite Hs.
    erewrite (bind_run _ _ _ tt); [exact IH|].
    apply replace_watch_rewatched; [done|done|].
    destruct Hm as [(_ & v & Hv & _) _]. eauto.
  - mrun. rewrite Hs. unfold sat_unwatched_literal.
    erewrite bind_run;
      [|erewrite bind_run by (by apply read_clause_at_run);
        rewrite Hsl; by apply (unwatched_scan_implied _ cl)].
    erewrite bind_run;
      [|apply (sat_subsumed_clause_run _ _ (clause_with_subsumed true cl));
        unfold subsumed_state; st_simpl; by eapply get_set_clause_eq].
    exact IH.
  - mrun. rewrite Hs. unfold sat_unwatched_literal.
    erewrite bind_run;
      [|erewrite bind_run by (by apply read_clause_at_run);
        rewrite Hsl; by apply (unwatched_scan_none _ cl)].
    mrun. rewrite Hs.
    by erewrite bind_run; [|by eapply propagate_unit_conflict].
  - mrun. rewrite Hs. unfold sat_unwatched_literal.
    erewrite bind_run;
      [|erewrite bind_run by (by apply read_clause_at_run);
        rewrite Hsl; by apply (unwatched_scan_none _ cl)].
    mrun. rewrite Hs.
    by erewrite bind_run; [|by eapply propagate_unit_subsume].
  - mrun. rewrite Hs. unfold sat_unwatched_literal.
    erewrite bind_run;
      [|erewrite bind_run by (by apply read_clause_at_run);
        rewrite Hsl; by apply (unwatched_scan_none _ cl)].
    mrun. rewrite Hs.
    by erewrite bind_run; [|by eapply propagate_unit_imply].
Qed.
Lemma for_each_subsumes cs : forall st u s,
  for_each (fun c => sat_subsume_clause (Some c)) cs st = Ok (u, s) <->
  subsumes cs st s.
Proof.
  induction cs as [|c cs IH]; intros st u s; cbn [for_each].
  - rewrite ret_Ok. split.
    + intros [= -> ->]. constructor.
    + inversion 1. by destruct u.
  - rewrite bind_Ok. split.
    + intros (u1 & s1 & E & H). apply IH in H.
      apply sat_subsume_clause_Ok in E as (c' & cl & [= <-] & Hc & ->).
      destruct (is_subsumed cl) eqn:Hs.
      * by eapply subsumes_old.
      * by eapply subsumes_new.
    + inversion 1 as [|c0 cl cs0 st0 s0 Hc Hs Hrest|c0 cl cs0 st0 s0 Hc Hs Hrest];
        subst.
      * exists tt, st. split; [|by apply IH].
        erewrite sat_subsume_clause_run by done. by rewrite Hs.
      * exists tt, (subsumed_state c cl st). split; [|by apply IH].
        erewrite sat_subsume_clause_run by done. by rewrite Hs.
Qed.

Lemma for_each_slots_subsumes sl : forall st u s,
  for_each (fun slot => do c <- lift_opt slot; sat_subsume_clause (Some c))
    sl st = Ok (u, s) <->
  exists cs, sl = Some <$> cs /\ subsumes cs st s.
Proof.
  induction sl as [|slot sl IH]; intros st u s; cbn [for_each].
  - rewrite ret_Ok. split.
    + intros [= -> ->]. exists []. split; [done|constructor].
    + intros (cs & Hcs & H). destruct cs; [|done]. inversion H. by destruct u.
  - rewrite bind_Ok. split.
    + intros (u1 & s1 & E & H). apply IH in H as (cs & -> & H).
      apply bind_Ok in E as (c & s0 & E0 & E).
      apply lift_opt_Ok in E0 as [-> ->].
      apply sat_subsume_clause_Ok in E as (c' & cl & [= <-] & Hc & ->).
      exists (c :: cs). split; [done|].
      destruct (is_subsumed cl) eqn:Hs.
      * by eapply subsumes_old.
      * by eapply subsumes_new.
    + intros (cs & Hcs & H). destruct cs as [|c cs]; [done|].
      injection Hcs as -> ->.
      inversion H as [|c0 cl cs0 st0 s0 Hc Hs Hrest|c0 cl cs0 st0 s0 Hc Hs Hrest];
        subst.
      * exists tt, st. split; [|apply IH; eauto].
        unfold bind at 1, lift_opt at 1, ret at 1.
        erewrite sat_subsume_clause_run by done. by rewrite Hs.
      * exists tt, (subsumed_state c cl st). split; [|apply IH; eauto].
        unfold bind at 1, lift_opt at 1, ret at 1.
        erewrite sat_subsume_clause_run by done. by rewrite Hs.
Qed.

(** * The watches of an asserted clause *)

Lemma settled_watching c wa wb st : settled c wa wb st -> watching c wa wb st.
Proof. intros (cl & ? & ? & ? & ?). by exists cl. Qed.

Lemma settled_frame c wa wb st s :
  get_clause s c = get_clause st c -> settled c wa wb st -> settled c wa wb s.
Proof. intros E (cl & ? & ?). exists cl. by rewrite E. Qed.

Lemma watching_frame c wa wb st s :
  get_clause s c = get_clause st c -> watching c wa wb st -> watching c wa wb s.
Proof. intros E (cl & ? & ?). exists cl. by rewrite E. Qed.

Lemma get_clause_subsumed_state st x xl c :
  get_clause st x = Some xl ->
  get_clause (subsumed_state x xl st) c =
    if decide (x = c) then Some (clause_with_subsumed true xl)
    else get_clause st c.
Proof.
  intros Hx. unfold subsumed_state. st_simpl.
  by rewrite (get_set_clause _ _ _ _ _ Hx).
Qed.

Lemma settled_subsumed_state c wa wb st x xl :
  get_clause st x = Some xl ->
  settled c wa wb st -> settled c wa wb (subsumed_state x xl st).
Proof.
  intros Hx (cl & Hc & Hs & Ha & Hb). unfold settled.
  rewrite (get_clause_subsumed_state _ _ _ _ Hx).
  destruct (decide (x = c)) as [->|]; [|by exists cl].
  simplify_eq. by eexists.
Qed.

Lemma watching_subsumed_state c wa wb st x xl :
  get_clause st x = Some xl ->
  watching c wa wb st -> watching c wa wb (subsumed_state x xl st).
Proof.
  intros Hx (cl & Hc & Ha & Hb). unfold watching.
  rewrite (get_clause_subsumed_state _ _ _ _ Hx).
  destruct (decide (x = c)) as [->|]; [|by exists cl].
  simplify_eq. by eexists.
Qed.

Lemma watching_settled c wa wb st cl :
  get_clause st c = Some cl ->
  watching c wa wb st -> settled c wa wb (subsumed_state c cl st).
Proof.
  intros Hc (cl' & Hc' & Ha & Hb). simplify_eq. unfold settled.
  rewrite (get_clause_subsumed_state _ _ _ _ Hc), decide_True by done.
  by eexists.
Qed.

Lemma subsumes_settled c wa wb cs st s :
  subsumes cs st s -> settled c wa wb st -> settled c wa wb s.
Proof.
  induction 1 as [|x xl cs st s Hx Hs _ IH|x xl cs st s Hx Hs _ IH];
    intros H; [done|by apply IH|].
  apply IH. by apply settled_subsumed_state.
Qed.

Lemma subsumes_watching c wa wb cs st s :
  subsumes cs st s -> watching c wa wb st -> watching c wa wb s.
Proof.
  induction 1 as [|x xl cs st s Hx Hs _ IH|x xl cs st s Hx Hs _ IH];
    intros H; [done|by apply IH|].
  apply IH. by apply watching_subsumed_state.
Qed.

Lemma subsumes_settles c wa wb cs st s :
  subsumes cs st s -> c ∈ cs -> watching c wa wb st -> settled c wa wb s.
Proof.
  induction 1 as [|x xl cs st s Hx Hs Hrest IH|x xl cs st s Hx Hs Hrest IH];
    intros Hin H.
  - by apply elem_of_nil in Hin.
  - apply elem_of_cons in Hin as [->|Hin]; [|by apply IH].
    eapply subsumes_settled; [exact Hrest|].
    destruct H as (cl & Hc & Ha & Hb). simplify_eq. by exists xl.
  - apply elem_of_cons in Hin as [->|Hin].
    + eapply subsumes_settled; [exact Hrest|]. by apply watching_settled.
    + apply IH; [done|]. by apply watching_subsumed_state.
Qed.

Lemma get_clause_rewatched_state clit x xl i m st c :
  x <> c ->
  get_clause (rewatched_state clit x xl i m st) c = get_clause st c.
Proof.
  intros Hne. unfold rewatched_state. cbn zeta. st_simpl.
  by apply get_set_clause_ne.
Qed.

Lemma watch_turns_settled c wa wb clit todo i st b s :
  watch_turns clit todo i st b s -> settled c wa wb st -> settled c wa wb s.
Proof.
  induction 1 as [i st
                 |x xl todo i st b s Hx Hs _ IH
                 |x xl todo i st pre m post b s Hx Hs Hsl Hp Hm Hcv _ IH
                 |x xl todo i st pre m post b s Hx Hs Hsl Hp Hm _ IH
                 |x xl todo i st ls Hx Hs Hsl Hp Ho Hcap
                 |x xl todo i st ls other b s Hx Hs Hsl Hp Ho Hi _ IH
                 |x xl todo i st ls other ov b s Hx Hs Hsl Hp Ho Hn Hov Hi
                    Hcap Hq _ IH];
    intros H; [done|by apply IH|..].
  - apply IH. eapply settled_frame; [|exact H].
    apply get_clause_rewatched_state. intros ->.
    destruct H as (cl & Hc & Hsub & _). simplify_eq. congruence.
  - apply IH. by apply settled_subsumed_state.
  - eapply settled_frame; [|exact H]. unfold conflict_state. by st_simpl.
  - apply IH. by apply settled_subsumed_state.
  - apply IH. eapply settled_frame; [|exact H].
    unfold implied_state, assigned_state. by st_simpl.
Qed.

Lemma propagate_lit_decision_settled c wa wb lit st b s :
  propagate_lit_decision lit st = Ok (b, s) ->
  settled c wa wb st \/ (watching c wa wb st /\ learned_at c lit st) ->
  settled c wa wb s.
Proof.
  unfold propagate_lit_decision. intros H Hpre.
  apply bind_Ok in H as (r & s0 & E & H).
  apply lit_owner_Ok in E as (-> & -> & Hn).
  apply bind_Ok in H as (l & s0 & E & H).
  apply read_lit_Ok in E as (v & Hv & -> & ->).
  apply bind_Ok in H as (u1 & s1 & E1 & H).
  apply for_each_slots_subsumes in E1 as (cs & Hcs & E1).
  apply bind_Ok in H as (u2 & s2 & E2 & H).
  apply for_each_subsumes in E2.
  apply bind_Ok in H as (cl & s3 & E3 & H).
  apply read_lit_Ok in E3 as (v2 & Hv2 & -> & ->).
  apply watch_loop_turns in H.
  eapply watch_turns_settled; [exact H|].
  destruct Hpre as [Hset|[Hw (v' & Hv' & Hin)]].
  - eapply subsumes_settled; [exact E2|]. by eapply subsumes_settled.
  - simplify_eq. eapply subsumes_settles; [exact E2|done|].
    by eapply subsumes_watching.
Qed.

Lemma drain_settled c wa wb k : forall i st b s,
  drain k i st = Ok (b, s) ->
  settled c wa wb st \/
    (watching c wa wb st /\
     exists lit, propagate_literals st !! i = Some lit /\ learned_at c lit st) ->
  settled c wa wb s.
Proof.
  induction k as [|k IH]; intros i st b s H Hpre; cbn [drain] in H.
  - apply bind_Ok in H as (q & s0 & E & H). apply gets_Ok in E.
    injection E as -> ->.
    destruct (propagate_literals st !! i) as [unit|] eqn:Hq.
    + by apply fault_Ok in H.
    + apply bind_Ok in H as (u & s1 & E & H). apply modify_Ok in E.
      injection E as -> ->. apply ret_Ok in H. injection H as -> ->.
      destruct Hpre as [Hset|[_ (lit & Hl & _)]]; [|done].
      eapply settled_frame; [|exact Hset]. by st_simpl.
  - apply bind_Ok in H as (q & s0 & E & H). apply gets_Ok in E.
    injection E as -> ->.
    destruct (propagate_literals st !! i) as [unit|] eqn:Hq.
    + apply bind_Ok in H as (ok & s1 & E & H).
      assert (settled c wa wb s1) as Hs1.
      { eapply propagate_lit_decision_settled; [exact E|].
        destruct Hpre as [Hset|[Hw (lit & Hl & Hin)]]; [by left|].
        right. by simplify_eq. }
      destruct ok.
      * eapply IH; [exact H|by left].
      * apply ret_Ok in H. by injection H as -> ->.
    + apply bind_Ok in H as (u & s1 & E & H). apply modify_Ok in E.
      injection E as -> ->. apply ret_Ok in H. injection H as -> ->.
      destruct Hpre as [Hset|[_ (lit & Hl & _)]]; [|done].
      eapply settled_frame; [|exact Hset]. by st_simpl.
Qed.
Lemma learned_at_frame c l st s :
  (forall v, get_var st (lit_var l) = Some v ->
     exists v', get_var s (lit_var l) = Some v' /\
       learned_list (var_lit (lit_side l) v')
       = learned_list (var_lit (lit_side l) v)) ->
  learned_at c l st -> learned_at c l s.
Proof.
  intros Hf (v & Hv & Hin). destruct (Hf v Hv) as (v' & Hv' & E).
  exists v'. by rewrite E.
Qed.

Lemma learned_at_same_vars c l st s :
  (forall r, get_var s r = get_var st r) ->
  learned_at c l st -> learned_at c l s.
Proof.
  intros Hf. apply learned_at_frame. intros v Hv. exists v. by rewrite Hf.
Qed.

Lemma learned_at_update_lit c l l' f st v' :
  get_var st (lit_var l') = Some v' ->
  (forall x, c ∈ learned_list x -> c ∈ learned_list (f x)) ->
  learned_at c l st ->
  learned_at c l
    (set_var (lit_var l')
       (var_with_lit (lit_side l') (f (var_lit (lit_side l') v')) v') st).
Proof.
  intros Hv' Hf (v & Hv & Hin). unfold learned_at.
  rewrite (get_set_var _ _ _ _ _ Hv').
  destruct (decide (lit_var l' = lit_var l)) as [E|]; [|by exists v].
  rewrite E in Hv'. simplify_eq. eexists. split; [done|].
  destruct (lit_side l') eqn:S1, (lit_side l) eqn:S2; cbn; try done;
    by apply Hf.
Qed.

Lemma learned_at_update_var c l r g st v' :
  get_var st r = Some v' ->
  (forall side, var_lit side (g v') = var_lit side v') ->
  learned_at c l st -> learned_at c l (set_var r (g v') st).
Proof.
  intros Hv' Hg (v & Hv & Hin). unfold learned_at.
  rewrite (get_set_var _ _ _ _ _ Hv').
  destruct (decide (r = lit_var l)) as [->|]; [|by exists v].
  simplify_eq. eexists. split; [done|]. by rewrite Hg.
Qed.

Lemma learned_for_each c sl : forall st u s,
  for_each
    (fun slot =>
       do lit <- lift_opt slot;
       update_lit lit (fun x => lit_with_learned_list (c :: learned_list x) x))
    sl st = Ok (u, s) ->
  propagate_literals s = propagate_literals st /\
  (forall l, learned_at c l st -> learned_at c l s) /\
  (forall l, Some l ∈ sl -> learned_at c l s).
Proof.
  induction sl as [|slot sl IH]; intros st u s H; cbn [for_each] in H.
  - apply ret_Ok in H. injection H as -> ->. split_and!; [done|done|].
    intros l Hl. by apply elem_of_nil in Hl.
  - apply bind_Ok in H as (u1 & s1 & E & H).
    apply bind_Ok in E as (lit & s0 & E0 & E).
    apply lift_opt_Ok in E0 as [-> ->].
    apply update_lit_Ok in E as (v & Hv & ->).
    apply IH in H as (Hq & Hkeep & Hnew). split_and!.
    + rewrite Hq. by st_simpl.
    + intros l Hl. apply Hkeep.
      apply (learned_at_update_lit c l lit
               (fun x => lit_with_learned_list (c :: learned_list x) x) st v);
        [done| |done].
      intros x Hx. cbn. apply elem_of_cons. by right.
    + intros l Hl. apply elem_of_cons in Hl as [[= ->]|Hl]; [|by apply Hnew].
      apply Hkeep. exists (var_with_lit (lit_side lit)
        (lit_with_learned_list (c :: learned_list (var_lit (lit_side lit) v))
           (var_lit (lit_side lit) v)) v).
      split; [by apply (get_set_var_eq _ _ v)|].
      destruct (lit_side lit); cbn; apply list_elem_of_here.
Qed.

Lemma assert_watch_learned c st w sa :
  assert_watch c st = Ok (w, sa) ->
  propagate_literals sa = propagate_literals st /\ learned_at c (fst w) sa.
Proof.
  unfold assert_watch. intros H.
  apply bind_Ok in H as (u1 & s1 & E1 & H). apply modify_Ok in E1.
  injection E1 as -> ->.
  apply bind_Ok in H as (cl & s2 & E2 & H).
  apply read_clause_at_Ok in E2 as [Hc ->].
  apply bind_Ok in H as (u3 & s3 & E3 & H).
  apply learned_for_each in E3 as (Hq & _ & Hnew).
  apply bind_Ok in H as (first & s4 & E4 & H).
  apply lift_opt_Ok in E4 as [E4 ->]. apply mjoin_Some in E4.
  apply bind_Ok in H as (final & s5 & E5 & H).
  assert (s5 = s3) as ->.
  { destruct (lits_size cl); [by apply fault_Ok in E5|].
    by apply lift_opt_Ok in E5 as [_ ->]. }
  apply bind_Ok in H as (u6 & s6 & E6 & H).
  apply update_clause_Ok in E6 as (cl' & Hc' & ->).
  apply ret_Ok in H. injection H as -> ->. cbn [fst]. split.
  - by st_simpl.
  - eapply learned_at_same_vars; [|apply Hnew].
    + intros r. by st_simpl.
    + by eapply list_elem_of_lookup_2.
Qed.
Lemma assert_propagate_watches c st b s :
  propagate_literals st = [] ->
  assert_propagate c st = Ok (b, s) ->
  exists cl first final,
    get_clause st c = Some cl /\
    lits cl !! 0 = Some first /\
    lits cl !! (lits_size cl - 1) = Some final /\
    watching c (Some first) (Some final) s.
Proof.
  intros Hq0 H. unfold assert_propagate in H.
  apply bind_Ok in H as (w & sa & Ew & H).
  pose proof (assert_watch_learned _ _ _ _ Ew) as (Hq & Hlearn).
  apply assert_watch_Ok in Ew as (cl & Hc & H0 & Hlast & _ & _ & _ & Hca & _).
  exists cl, (fst w), (snd w). split_and!; try done.
  assert (watching c (Some (fst w)) (Some (snd w)) sa) as Hw
    by by eexists.
  rewrite Hq0 in Hq. clear Hc H0 Hlast Hca Hq0.
  apply bind_Ok in H as (ok & s1 & E1 & H).
  assert (forall s1,
            watching c (Some (fst w)) (Some (snd w)) s1 ->
            learned_at c (fst w) s1 -> propagate_literals s1 = [] ->
            (run push_propagate (fst w);
             run update_lit (fst w)
                   (fun x => lit_with_watch_list (c :: watch_list x) x);
             run update_lit (snd w)
                   (fun x => lit_with_watch_list (c :: watch_list x) x);
             sat_unit_resolution) s1 = Ok (b, s) ->
            watching c (Some (fst w)) (Some (snd w)) s) as Hgo.
  { clear. intros s1 Hw Hl Hq H.
    apply bind_Ok in H as (u2 & s2 & E2 & H).
    apply push_propagate_Ok in E2 as (_ & ->).
    apply bind_Ok in H as (u3 & s3 & E3 & H).
    apply update_lit_Ok in E3 as (v3 & Hv3 & ->).
    apply bind_Ok in H as (u4 & s4 & E4 & H).
    apply update_lit_Ok in E4 as (v4 & Hv4 & ->).
    unfold sat_unit_resolution in H.
    apply bind_Ok in H as (vs & s5 & E5 & H). apply gets_Ok in E5.
    injection E5 as -> ->.
    apply settled_watching.
    eapply drain_settled; [exact H|]. right. split.
    - eapply watching_frame; [|exact Hw]. by st_simpl.
    - exists (fst w). split; [st_simpl; by rewrite Hq|].
      apply (learned_at_update_lit c (fst w) (snd w)
               (fun x => lit_with_watch_list (c :: watch_list x) x));
        [done|done|].
      apply (learned_at_update_lit c (fst w) (fst w)
               (fun x => lit_with_watch_list (c :: watch_list x) x));
        [done|done|].
      eapply learned_at_same_vars; [|exact Hl]. intros r. by st_simpl. }
  apply set_Lit_Decision_Ok in E1
    as (v & Hv & Hn & [(Hl & -> & Hcap & ->)|
                       [(Hi & Him & -> & Hcap & ->)|(Hi & Him & -> & E1)]]).
  - cbn [negb] in H. apply (Hgo _ ) in H; [done| | |].
    + eapply watching_frame; [|exact Hw]. unfold assigned_state. by st_simpl.
    + unfold assigned_state.
      eapply learned_at_same_vars;
        [|apply (learned_at_update_var c (fst w) (lit_var (fst w))
                   (decided_var (level sa)
                      (lit_sign (lit_side (fst w)) v) (Some c)) sa v);
          [done| |done]].
      * intros r. by st_simpl.
      * by intros [].
    + unfold assigned_state. by st_simpl.
  - apply ret_Ok in H. injection H as -> ->.
    eapply watching_frame; [|exact Hw]. unfold conflict_state. by st_simpl.
  - apply sat_subsume_clause_Ok in E1 as (c' & cl' & [= <-] & Hc' & ->).
    apply (Hgo _) in H; [done| | |].
    + destruct (is_subsumed cl'); [done|]. by apply watching_subsumed_state.
    + destruct (is_subsumed cl'); [done|].
      eapply learned_at_same_vars; [|exact Hlearn].
      intros r. unfold subsumed_state. by st_simpl.
    + destruct (is_subsumed cl'); [done|]. unfold subsumed_state. by st_simpl.
Qed.

Lemma sat_assert_clause_watches fuel c st r s :
  propagate_literals st = [] ->
  sat_assert_clause fuel c st = Ok (r, s) ->
  exists cl first final,
    get_clause st c = Some cl /\
    lits cl !! 0 = Some first /\
    lits cl !! (lits_size cl - 1) = Some final /\
    watching c (Some first) (Some final) s.
Proof.
  intros Hq H. unfold sat_assert_clause in H.
  apply bind_Ok in H as (passed & s1 & E & H).
  destruct (assert_propagate_watches _ _ _ _ Hq E)
    as (cl & first & final & Hc & H0 & Hl & Hw).
  exists cl, first, final. split_and!; try done.
  destruct passed; cbn [negb] in H.
  { apply ret_Ok in H. by injection H as -> ->. }
  apply bind_Ok in H as (lvl & s2 & E2 & H). apply gets_Ok in E2.
  injection E2 as -> ->.
  destruct (1 <? level s1)%N.
  - apply bind_Ok in H as (c' & s2 & E2 & H). apply ret_Ok in H.
    injection H as -> ->.
    apply sat_build_asserting_clause_Ok in E2 as (s3 & cl3 & Ha & -> & -> & _).
    apply analysis_analysis_frame in Ha as (_ & Hfc & Hheap & _).
    destruct Hw as (cl1 & Hc1 & Hw). exists cl1. split; [|done].
    destruct c as [|h]; cbn in *.
    + by rewrite Hfc.
    + rewrite Hheap. by apply lookup_app_l_Some.
  - apply ret_Ok in H. by injection H as -> ->.
Qed.
(** * Conflict analysis on a trail *)

Lemma uip_reset_unfold n :
  uip_reset n =
  (do tr <- gets decided_literals;
   do lit <- lift_opt (tr !! n);
   do owner <- lit_owner lit;
   do v <- read_var owner;
   match d_implied_by (decision v) with
   | None => ret n
   | Some _ =>
       run set_order_dominator owner n None;
       match n with
       | O => fault
       | S below => uip_reset below
       end
   end).
Proof. by destruct n. Qed.

Lemma backward_sweep_unfold fuel uip n size :
  backward_sweep fuel uip n size =
  (do tr <- gets decided_literals;
   do dlit <- lift_opt (tr !! n);
   do owner <- lit_owner dlit;
   if bool_decide (Some owner = uip) then ret size
   else
     do dv <- read_var owner;
     do d <- dominator fuel uip (d_dominator (decision dv));
     do clause_size' <-
       (if bool_decide (d = uip) then
          do implier <- lift_opt (d_implied_by (decision dv));
          do cl <- read_clause_at implier;
          mark_reasons (slots (lits_size cl) (lits cl)) size
        else ret size);
     match n with
     | O => fault
     | S below => backward_sweep fuel uip below clause_size'
     end).
Proof. by destruct n. Qed.

(** ** The dominators computed by [sat_compute_UIP] *)

Lemma climb_in S fuel fixed moving st r s :
  domset st S -> in_set S moving ->
  climb fuel fixed moving st = Ok (r, s) -> in_set S r.
Proof.
  intros Hd. revert moving.
  induction fuel as [|fuel IH]; intros moving Hm; cbn [climb]; intros H.
  - by minv H.
  - apply bind_Ok in H as (o1 & s1 & E1 & H). minv E1.
    apply bind_Ok in H as (o2 & s2 & E2 & H).
    destruct Hm as (m & -> & Hm).
    apply read_order_Ok in E2 as (r2 & v2 & Heq & Hv2 & -> & ->).
    injection Heq as <-.
    destruct (_ <? _).
    + apply bind_Ok in H as (up & s3 & E3 & H).
      apply read_dominator_Ok in E3 as (r3 & v3 & Heq & Hv3 & -> & ->).
      injection Heq as <-.
      assert (v3 = v2) as -> by congruence. destruct (Hd _ _ Hm Hv2) as [Hn|(d & Hdd & Hin)].
      * rewrite Hn in H. destruct fuel; cbn [climb] in H; [by minv H|].
        apply bind_Ok in H as (? & ? & _ & H).
        apply bind_Ok in H as (? & ? & E & _).
        apply read_order_Ok in E as (? & ? & ? & _). done.
      * rewrite Hdd in H. eapply IH; [|exact H]. by exists d.
    + minv H. by exists m.
Qed.

Lemma dominator_in S fuel v1 v2 st r s :
  domset st S -> in_set S v1 -> in_set S v2 ->
  dominator fuel v1 v2 st = Ok (r, s) -> in_set S r.
Proof.
  intros Hd. revert v1 v2.
  induction fuel as [|fuel IH]; intros v1 v2 H1 H2; cbn [dominator]; intros H.
  - by minv H.
  - destruct (bool_decide (v1 = v2)); [by minv H|].
    apply bind_Ok in H as (v2' & s1 & E1 & H).
    pose proof (climb_Ok _ _ _ _ _ _ E1) as ->.
    apply (climb_in S) in E1; [|done..].
    apply bind_Ok in H as (v1' & s2 & E2 & H).
    pose proof (climb_Ok _ _ _ _ _ _ E2) as ->.
    apply (climb_in S) in E2; [|done..].
    by apply (IH v1' v2').
Qed.

Lemma domset_set_dominator S st r v order d :
  domset st S -> get_var st r = Some v -> in_set S d \/ d = None ->
  domset (set_var r (var_with_order_dominator order d v) st) S.
Proof.
  intros Hd Hv Hin r' v' Hr'. rewrite (get_set_var _ _ _ _ _ Hv).
  destruct (decide (r = r')) as [<-|Hne].
  - intros [= <-]. cbn. destruct Hin as [(m & -> & Hm)| ->]; eauto.
  - by apply Hd.
Qed.

(** [analysis_frame] keeps what [conflict_trail] talks about. *)
Lemma analysis_frame_decision st s r v :
  analysis_frame st s -> get_var st r = Some v ->
  exists v', get_var s r = Some v' /\
    d_level (decision v') = d_level (decision v) /\
    d_value (decision v') = d_value (decision v) /\
    d_implied_by (decision v') = d_implied_by (decision v) /\
    var_id v' = var_id v.
Proof.
  intros (_ & _ & _ & _ & _ & _ & _ & _ & _ & _ & H) Hv.
  specialize (H r). rewrite Hv in H.
  destruct (get_var s r) as [v'|]; [|done]. exists v'. split; [done|].
  apply (inj Some) in H. destruct v as [? ? ? [] ?], v' as [? ? ? [] ?].
  unfold forget_analysis, var_with_order_dominator, var_with_decision in H.
  cbn in *. by simplify_eq.
Qed.

Lemma analysis_frame_sym st s : analysis_frame st s -> analysis_frame s st.
Proof.
  intros (?&?&?&?&?&?&?&?&?&?&?). by repeat split.
Qed.

Lemma conflict_trail_frame st s low dec high :
  analysis_frame st s -> conflict_trail st low dec high ->
  conflict_trail s low dec high.
Proof.
  intros Hf [H1 H2 H3 H4 H5 H6].
  pose proof Hf as (Hlvl & _ & _ & Htr & _).
  split.
  - congruence.
  - done.
  - eapply Forall_impl; [exact H3|]. intros l (Hn & v & Hv & Hl).
    destruct (analysis_frame_decision _ _ _ _ Hf Hv) as (v' & Hv' & E1 & _).
    split; [done|]. exists v'. rewrite E1, Hlvl. done.
  - destruct H4 as (Hn & v & Hv & Hl & Hi).
    destruct (analysis_frame_decision _ _ _ _ Hf Hv) as (v' & Hv' & E1 & _ & E3 & _).
    split; [done|]. exists v'. rewrite E1, E3, Hlvl. done.
  - eapply Forall_impl; [exact H5|]. intros l (Hn & v & Hv & Hl & Hi).
    destruct (analysis_frame_decision _ _ _ _ Hf Hv) as (v' & Hv' & E1 & _ & E3 & _).
    split; [done|]. exists v'. rewrite E1, E3, Hlvl. done.
  - intros r v' Hv' Hl.
    destruct (analysis_frame_decision _ _ _ _ (analysis_frame_sym _ _ Hf) Hv')
      as (v & Hv & E1 & _).
    apply (H6 r v Hv). congruence.
Qed.

Lemma analysis_effect_order st r v order dom :
  get_var st r = Some v ->
  analysis_frame st (set_var r (var_with_order_dominator order dom v) st).
Proof. intros Hv. apply analysis_effect_frame. by apply ae_order. Qed.

Lemma trail_lookup_high (low : list LitRef) dec hA e hB :
  (low ++ dec :: (hA ++ [e]) ++ hB) !! (length low + S (length hA)) = Some e.
Proof.
  replace (low ++ dec :: (hA ++ [e]) ++ hB) with ((low ++ dec :: hA) ++ e :: hB)
    by (by rewrite <- !app_assoc).
  apply list_lookup_middle. rewrite length_app. cbn. lia.
Qed.

Lemma trail_lookup_dec (low : list LitRef) dec high :
  (low ++ dec :: high) !! length low = Some dec.
Proof. by apply list_lookup_middle. Qed.

(** The first loop of [sat_compute_UIP] stops at [dec] and leaves no
    dominator in the variables of the entries above it. *)
Lemma uip_reset_spec low dec hA : forall hB st r s,
  conflict_trail st low dec (hA ++ hB) ->
  (forall l v, l ∈ hB -> get_var st (lit_var l) = Some v ->
     d_dominator (decision v) = None) ->
  uip_reset (length low + length hA) st = Ok (r, s) ->
  r = length low /\ analysis_frame st s /\
  (forall l v, l ∈ hA ++ hB -> get_var s (lit_var l) = Some v ->
     d_dominator (decision v) = None).
Proof.
  induction hA as [|e hA IH] using rev_ind; intros hB st r s Hct HB H.
  - rewrite Nat.add_0_r in H.
    destruct (length low) as [|n] eqn:Hlen; cbn [uip_reset] in H.
    all: apply bind_Ok in H as (tr & s0 & E0 & H); minv E0.
    all: rewrite (ct_trail _ _ _ _ Hct), <- ?Hlen, trail_lookup_dec in H.
    all: apply bind_Ok in H as (lit & s1 & E1 & H); minv E1.
    all: destruct (ct_dec _ _ _ _ Hct) as (Hn & v & Hv & Hl & Hi).
    all: apply bind_Ok in H as (o & s2 & E2 & H); minv E2.
    all: apply bind_Ok in H as (v' & s3 & E3 & H); minv E3.
    all: assert (v' = v) as -> by congruence.
    all: rewrite Hi in H; minv H.
    all: split_and!; [done|apply analysis_frame_refl|exact HB].
  - rewrite length_app in H. cbn [length] in H.
    replace (length low + (length hA + 1)) with (S (length low + length hA)) in H
      by lia.
    cbn [uip_reset] in H.
    apply bind_Ok in H as (tr & s0 & E0 & H). minv E0.
    rewrite (ct_trail _ _ _ _ Hct) in H.
    replace (S (length low + length hA)) with (length low + S (length hA)) in H
      by lia.
    rewrite trail_lookup_high in H.
    apply bind_Ok in H as (lit & s1 & E1 & H). minv E1.
    pose proof (ct_high _ _ _ _ Hct) as Hhigh.
    rewrite Forall_forall in Hhigh.
    destruct (Hhigh e) as (Hn & v & Hv & Hl & Hi); [set_solver|].
    apply bind_Ok in H as (o & s2 & E2 & H). minv E2.
    apply bind_Ok in H as (v' & s3 & E3 & H). minv E3.
    assert (v' = v) as -> by congruence.
    destruct (d_implied_by (decision v)) as [c|] eqn:Himp; [|done].
    apply bind_Ok in H as (u & s4 & E4 & H).
    apply update_var_Ok in E4 as (v4 & Hv4 & ->).
    assert (v4 = v) as -> by congruence.
    pose proof (analysis_effect_order st (lit_var e) v
                  (length low + S (length hA)) None Hv) as Hf.
    replace (length low + S (length hA)) with (S (length low + length hA)) in *
      by lia.
    apply (IH (e :: hB)) in H.
    + destruct H as (-> & Hf' & Hnone). split_and!; [done| |].
      * eapply analysis_frame_trans; [exact Hf|exact Hf'].
      * intros l w Hin. apply Hnone. rewrite <- app_assoc in Hin. exact Hin.
    + eapply conflict_trail_frame; [exact Hf|]. by rewrite <- app_assoc in Hct.
    + intros l w Hin. rewrite (get_set_var _ _ _ _ _ Hv).
      destruct (decide (lit_var e = lit_var l)) as [Heq|Hne].
      * by intros [= <-].
      * intros Hw. apply elem_of_cons in Hin as [->|Hin]; [done|].
        by eapply HB.
Qed.

Lemma uip_preds_domset fuel lit low dec high todo : forall st u s,
  let S := current_vars dec high in
  conflict_trail st low dec high -> domset st S -> lit_var lit ∈ S ->
  uip_preds fuel lit todo st = Ok (u, s) ->
  analysis_frame st s /\ domset s S.
Proof.
  induction todo as [|slot todo IH]; intros st u s S Hct Hd Hlit H;
    cbn [uip_preds] in H.
  - minv H. split; [apply analysis_frame_refl|done].
  - apply bind_Ok in H as (pred & s1 & E1 & H). minv E1.
    apply bind_Ok in H as (powner & s2 & E2 & H). minv E2.
    apply bind_Ok in H as (pv & s3 & E3 & H). minv E3.
    apply bind_Ok in H as (lvl & s4 & E4 & H). minv E4.
    match type of H with
    | context [(?a =? ?b)%N] =>
        destruct (negb (a =? b)%N || bool_decide (pred = lit)) eqn:Hskip
    end.
    + by eapply IH.
    + apply orb_false_elim in Hskip as [Hlvl _].
      apply negb_false_iff, N.eqb_eq in Hlvl.
      apply bind_Ok in H as (owner & s5 & E5 & H). minv E5.
      apply bind_Ok in H as (v & s6 & E6 & H). minv E6.
      apply bind_Ok in H as (u1 & s7 & E7 & H).
      assert (in_set S (Some (lit_var pred))) as Hp.
      { exists (lit_var pred). split; [done|]. by eapply ct_current. }
      assert (exists d', in_set S d' /\
                s7 = set_var (lit_var lit)
                       (var_with_order_dominator (d_order (decision v)) d' v) st)
        as (d' & Hd' & ->).
      { destruct (d_dominator (decision v)) as [d|] eqn:Hdom.
        - apply bind_Ok in E7 as (d' & s8 & E8 & E7).
          pose proof (dominator_Ok _ _ _ _ _ _ E8) as ->.
          apply (dominator_in S) in E8; [|done|done|].
          + apply update_var_Ok in E7 as (v' & Hv' & ->).
            assert (v' = v) as -> by congruence. eauto.
          + destruct (Hd _ _ Hlit E6) as [?|(d0 & ? & ?)]; [congruence|].
            exists d0. split; [congruence|done].
        - apply update_var_Ok in E7 as (v' & Hv' & ->).
          assert (v' = v) as -> by congruence. eauto. }
      pose proof (analysis_effect_order st (lit_var lit) v
                    (d_order (decision v)) d' E6) as Hf.
      apply IH in H; [| | |done].
      * destruct H as [Hf' Hd'']. split; [|done].
        eapply analysis_frame_trans; [exact Hf|exact Hf'].
      * by eapply conflict_trail_frame.
      * apply domset_set_dominator; [done|done|by left].
Qed.

Lemma uip_forward_domset fuel low dec high todo : forall st u s,
  let S := current_vars dec high in
  conflict_trail st low dec high -> domset st S -> todo ⊆ high ->
  uip_forward fuel todo st = Ok (u, s) ->
  analysis_frame st s /\ domset s S.
Proof.
  induction todo as [|lit todo IH]; intros st u s S Hct Hd Hsub H;
    cbn [uip_forward] in H.
  - minv H. split; [apply analysis_frame_refl|done].
  - apply bind_Ok in H as (owner & s1 & E1 & H). minv E1.
    apply bind_Ok in H as (v & s2 & E2 & H). minv E2.
    apply bind_Ok in H as (implier & s3 & E3 & H). minv E3.
    apply bind_Ok in H as (cl & s4 & E4 & H). minv E4.
    apply bind_Ok in H as (u1 & s5 & E5 & H).
    eapply uip_preds_domset in E5 as [Hf Hd']; [|done|done|].
    + apply IH in H; [| |done|].
      * destruct H as [Hf' Hd'']. split; [|done].
        eapply analysis_frame_trans; [exact Hf|exact Hf'].
      * by eapply conflict_trail_frame.
      * set_solver.
    + apply list_elem_of_fmap. exists lit. split; [done|].
      apply elem_of_cons. right. apply Hsub. set_solver.
Qed.

(** The variable [sat_compute_UIP] returns, if any, is the variable of an
    entry of the trail of the current level. *)
Lemma sat_compute_UIP_in fuel st low dec high uip s :
  conflict_trail st low dec high ->
  sat_compute_UIP fuel st = Ok (uip, s) ->
  analysis_frame st s /\
  (uip = None \/ in_set (current_vars dec high) uip).
Proof.
  intros Hct H. unfold sat_compute_UIP in H.
  apply bind_Ok in H as (tr & s0 & E0 & H). minv E0.
  apply bind_Ok in H as (ld & s1 & E1 & H).
  rewrite (ct_trail _ _ _ _ Hct) in E1, H.
  rewrite length_app in E1. cbn [length] in E1.
  replace (length low + S (length high) - 1) with (length low + length high)
    in E1 by lia.
  apply (uip_reset_spec low dec high [] st) in E1;
    [|by rewrite app_nil_r|set_solver].
  destruct E1 as (-> & Hf1 & Hnone). rewrite app_nil_r in Hnone.
  rewrite trail_lookup_dec in H.
  apply bind_Ok in H as (lit & s2 & E2 & H). minv E2.
  apply bind_Ok in H as (owner & s3 & E3 & H). minv E3.
  apply bind_Ok in H as (u1 & s4 & E4 & H).
  apply update_var_Ok in E4 as (dv & Hdv & ->).
  pose proof (analysis_effect_order _ (lit_var dec) dv (length low)
                (Some (lit_var dec)) Hdv) as Hf2.
  apply bind_Ok in H as (u2 & s5 & E5 & H).
  assert (drop (S (length low)) (low ++ dec :: high) = high) as Hdrop.
  { rewrite (cons_middle dec), app_assoc.
    apply drop_app_length'. rewrite length_app. cbn. lia. }
  rewrite Hdrop in E5.
  set (S := current_vars dec high).
  match type of E5 with
  | uip_forward _ _ ?sx = _ =>
      assert (conflict_trail sx low dec high) as Hct1
        by (eapply conflict_trail_frame; [|exact Hct];
            eapply analysis_frame_trans; [exact Hf1|exact Hf2])
  end.
  eapply uip_forward_domset in E5 as [Hf3 Hd]; [|exact Hct1| |done].
  - apply bind_Ok in H as (cv & s6 & E6 & H). minv E6. minv H.
    split.
    + eapply analysis_frame_trans; [exact Hf1|].
      eapply analysis_frame_trans; [exact Hf2|exact Hf3].
    + assert (Contradiction ∈ S) as Hc.
      { unfold S, current_vars. apply list_elem_of_fmap. exists contradiction_pos.
        split; [done|]. apply last_Some_elem_of. apply (ct_top _ _ _ _ Hct). }
      match goal with
      | Hx : get_var _ Contradiction = Some _ |- _ =>
          destruct (Hd _ _ Hc Hx) as [?|(d & ? & ?)]; [by left|right]
      end.
      exists d. done.
  - intros r v Hr. rewrite (get_set_var _ _ _ _ _ Hdv).
    destruct (decide (lit_var dec = r)) as [<-|Hne].
    + intros [= <-]. right. exists (lit_var dec). split; [done|].
      unfold S, current_vars. set_solver.
    + intros Hv. left. unfold S, current_vars in Hr. rewrite fmap_cons in Hr.
      apply elem_of_cons in Hr as [->|Hr]; [done|].
      apply list_elem_of_fmap in Hr as (l & -> & Hl). by eapply Hnone.
Qed.
(** * The sweeps of conflict analysis *)

Lemma count_true_cons b ms :
  count_true (b :: ms) = (if b then 1 else 0) + count_true ms.
Proof. unfold count_true. rewrite filter_cons. by destruct b. Qed.

Lemma count_true_insert ms : forall (i : nat) (b b' : bool),
  ms !! i = Some b ->
  count_true (<[i := b']> ms) + (if b then 1 else 0)
    = count_true ms + (if b' then 1 else 0).
Proof.
  induction ms as [|x ms IH]; intros [|i] b b' H; try done; cbn in H.
  - injection H as <-. change (<[0:=b']> (x :: ms)) with (b' :: ms).
    rewrite !count_true_cons. destruct x, b'; lia.
  - change (<[S i:=b']> (x :: ms)) with (x :: <[i:=b']> ms).
    rewrite !count_true_cons. specialize (IH i b b' H). lia.
Qed.

Lemma count_true_zero ms :
  count_true ms = 0 <-> forall i, ms !! i <> Some true.
Proof.
  induction ms as [|x ms IH].
  - split; [by intros _ i|done].
  - rewrite count_true_cons. split.
    + intros H [|i]; cbn; [destruct x; [cbn in H; lia|done]|].
      apply IH. destruct x; cbn in H; lia.
    + intros H. destruct x; [by specialize (H 0)|]. cbn.
      apply IH. intros i. apply (H (S i)).
Qed.

Lemma clear_marks_length st low : forall ms,
  length (clear_marks st low ms) = length ms.
Proof.
  unfold clear_marks. induction low as [|l low IH]; intros ms; cbn; [done|].
  by rewrite IH, length_insert.
Qed.

Lemma clear_marks_true st low : forall ms i,
  clear_marks st low ms !! i = Some true ->
  ms !! i = Some true /\
  Forall (fun l => N.to_nat (var_id (var_of st (lit_var l))) <> i) low.
Proof.
  unfold clear_marks. induction low as [|l low IH]; intros ms i H; cbn in *.
  - done.
  - apply IH in H as [H Hall].
    destruct (decide (N.to_nat (var_id (var_of st (lit_var l))) = i)) as [<-|Hne].
    + apply list_lookup_insert_Some in H as [(_ & ? & _)|[? _]]; done.
    + rewrite list_lookup_insert_ne in H by done. split; [done|].
      by constructor.
Qed.

Lemma foldr_max_acc a x ls :
  foldr N.max (N.max a x) ls = N.max x (foldr N.max a ls).
Proof. induction ls as [|y ls IH]; cbn; [lia|]. rewrite IH. lia. Qed.

Lemma forward_sweep_spec st0 dec high : forall low ms cl r s,
  Forall (fun l =>
      l <> contradiction_neg /\
      exists v, get_var st0 (lit_var l) = Some v /\
        (0 < d_level (decision v) < level st0)%N) low ->
  dec <> contradiction_neg ->
  (exists v, get_var st0 (lit_var dec) = Some v /\
     d_level (decision v) = level st0) ->
  forward_sweep (low ++ dec :: high) cl (st_with_marks ms st0) = Ok (r, s) ->
  exists added,
    s = st_with_marks (clear_marks st0 low ms) st0 /\
    r = clause_with_assertion_level
          (foldr N.max (assertion_level cl) (levels_of st0 added))
          (clause_with_lits (lits cl ++ added) cl) /\
    Forall (lower_literal st0 low) added /\
    length added + count_true (clear_marks st0 low ms) = count_true ms.
Proof.
  induction low as [|l low IH]; intros ms cl r s Hlow Hdec (dv & Hdv & Hdl) H;
    cbn [app forward_sweep] in H.
  - apply bind_Ok in H as (owner & s0 & E & H).
    apply lit_owner_Ok in E as (-> & -> & _).
    apply bind_Ok in H as (v & s0 & E & H).
    apply read_var_Ok in E as [E ->]. rewrite get_var_with_marks in E.
    assert (v = dv) as -> by congruence.
    apply bind_Ok in H as (lvl & s0 & E' & H). minv E'.
    rewrite Hdl, N.ltb_irrefl in H. minv H.
    exists []. cbn. rewrite app_nil_r. split_and!; try done.
    by destruct cl.
  - apply Forall_cons in Hlow as [(Hl & v & Hv & Hlv) Hlow].
    apply bind_Ok in H as (owner & s0 & E & H).
    apply lit_owner_Ok in E as (-> & -> & _).
    apply bind_Ok in H as (v' & s0 & E & H).
    apply read_var_Ok in E as [E ->]. rewrite get_var_with_marks in E.
    assert (v' = v) as -> by congruence.
    apply bind_Ok in H as (lvl & s0 & E' & H). minv E'.
    destruct (N.ltb_spec (d_level (decision v)) (level st0)); [|lia].
    apply bind_Ok in H as (m & s0 & Em & H).
    apply read_mark_Ok in Em as [Em ->]. cbn [marks st_with_marks] in Em.
    assert (var_of st0 (lit_var l) = v) as Hvo by (unfold var_of; by rewrite Hv).
    destruct m.
    + apply bind_Ok in H as (u1 & s1 & E1 & H).
      apply write_mark_Ok in E1 as [Hlt ->].
      apply bind_Ok in H as (cl' & s2 & E2 & H).
      apply push_lit_Ok in E2 as (Hsz & -> & ->).
      match type of H with
      | forward_sweep _ ?c ?sx = _ =>
          replace sx with
            (st_with_marks (<[N.to_nat (var_id v) := false]> ms) st0) in H
            by (by destruct st0)
      end.
      apply IH in H as (added & -> & -> & Hadd & Hcnt); [|done|done|by eauto].
      exists (mkLitRef (lit_var l) (negb (d_value (decision v))) :: added).
      split_and!.
      * unfold clear_marks. cbn. by rewrite Hvo.
      * cbn [lits clause_with_lits clause_with_assertion_level assertion_level
             levels_of fmap list_fmap foldr lit_var].
        rewrite Hvo, <- app_assoc. cbn [app].
        replace (if (assertion_level cl <? d_level (decision v))%N
                 then d_level (decision v) else assertion_level cl)
          with (N.max (assertion_level cl) (d_level (decision v)))
          by (destruct (N.ltb_spec (assertion_level cl) (d_level (decision v)));
              lia).
        fold (levels_of st0 added). rewrite foldr_max_acc. by destruct cl.
      * constructor.
        -- exists l, v. cbn [lit_var lit_side].
           split_and!; [left|done|done|done|lia|lia].
        -- eapply Forall_impl; [exact Hadd|].
           intros x (e & ev & He & Hx). exists e, ev. split; [by right|done].
      * cbn [length]. unfold clear_marks in *. cbn [foldl]. rewrite Hvo.
        pose proof (count_true_insert ms _ true false Em) as Hins.
        cbv beta iota in Hins. lia.
    + apply IH in H as (added & -> & -> & Hadd & Hcnt); [|done|done|by eauto].
      exists added. split_and!.
      * unfold clear_marks. cbn [foldl]. rewrite Hvo.
        by rewrite (list_insert_id ms _ false).
      * done.
      * eapply Forall_impl; [exact Hadd|].
        intros x (e & ev & He & Hx). exists e, ev. split; [by right|done].
      * unfold clear_marks in *. cbn [foldl]. rewrite Hvo.
        by rewrite (list_insert_id ms _ false).
Qed.

Lemma st_with_marks_eta st : st_with_marks (marks st) st = st.
Proof. by destruct st. Qed.

Lemma current_vars_level st low dec high u :
  conflict_trail st low dec high -> u ∈ current_vars dec high ->
  exists e v, e ∈ dec :: high /\ lit_var e = u /\ e <> contradiction_neg /\
    get_var st u = Some v /\ d_level (decision v) = level st.
Proof.
  intros Hct Hu. unfold current_vars in Hu.
  apply list_elem_of_fmap in Hu as (e & -> & He). exists e.
  apply elem_of_cons in He as [->|He].
  - destruct (ct_dec _ _ _ _ Hct) as (Hn & v & Hv & Hl & _).
    exists v. split_and!; try done. left.
  - pose proof (ct_high _ _ _ _ Hct) as Hh.
    rewrite Forall_forall in Hh. destruct (Hh e He) as (Hn & v & Hv & Hl & _).
    exists v. split_and!; try done. by right.
Qed.

Lemma lower_literal_frame st s low l :
  level s = level st -> contradiction s = contradiction st ->
  vars s = vars st ->
  lower_literal st low l -> lower_literal s low l.
Proof.
  intros H1 H2 H3 (e & v & He & Hx & Hv & Hs & Hl). exists e, v.
  rewrite H1, (get_var_frame st s) by done. done.
Qed.

Lemma levels_of_frame st s ls :
  contradiction s = contradiction st -> vars s = vars st ->
  levels_of s ls = levels_of st ls.
Proof.
  intros H1 H2. unfold levels_of, var_of. apply list_fmap_ext. intros i l _.
  by rewrite (get_var_frame st s).
Qed.

(** What [sat_build_asserting_clause] does on a conflict trail: [s2] is the
    state the forward sweep starts from, [n] the size the backward sweep
    has counted. *)
Lemma sat_build_asserting_clause_trail fuel st low dec high c s :
  conflict_trail st low dec high ->
  sat_build_asserting_clause fuel st = Ok (c, s) ->
  exists s2 n u uv others cl,
    analysis_frame st s2 /\
    backward_sweep_result fuel st s2 n u /\
    u ∈ current_vars dec high /\ get_var s2 u = Some uv /\
    d_level (decision uv) = level s2 /\
    c = ClauseAt (length (heap s2)) /\
    lits cl = mkLitRef u (negb (d_value (decision uv))) :: others /\
    lits_size cl = n /\
    assertion_level cl = foldr N.max 1%N (levels_of s2 others) /\
    Forall (lower_literal s2 low) others /\
    (if 1 <? n then
       s = st_with_heap (heap s2 ++ [cl])
             (st_with_marks (clear_marks s2 low (marks s2)) s2) /\
       length others + count_true (clear_marks s2 low (marks s2))
         = count_true (marks s2)
     else s = st_with_heap (heap s2 ++ [cl]) s2 /\ others = []).
Proof.
  intros Hct H. unfold sat_build_asserting_clause in H.
  apply bind_Ok in H as (uip & s1 & E1 & H).
  pose proof E1 as E1'.
  apply (sat_compute_UIP_in _ _ low dec high) in E1 as [Hf1 Huip]; [|done].
  apply bind_Ok in H as (tr & s2 & E2 & H). minv E2.
  apply bind_Ok in H as (n & s2 & E2 & H).
  pose proof E2 as E2'.
  apply backward_sweep_analysis, analysis_analysis_frame in E2.
  pose proof (analysis_frame_trans _ _ _ Hf1 E2) as Hf.
  pose proof (conflict_trail_frame _ _ _ _ _ Hf Hct) as Hct2.
  apply bind_Ok in H as (learned & s3 & E3 & H). minv E3.
  apply bind_Ok in H as (last_id & s3 & E3 & H).
  assert (s3 = s2) as ->.
  { destruct (learned_clauses s2); by minv E3. }
  clear E3.
  apply bind_Ok in H as (ux & s4 & E4 & H).
  destruct uip as [u|]; [|by minv E4].
  cbn [lift_opt] in E4. apply ret_Ok in E4. injection E4 as Hx Hy.
  subst ux s4.
  destruct Huip as [|(u0 & Hu0 & Hu)]; [done|].
  injection Hu0 as <-.
  apply bind_Ok in H as (uv & s4 & E5 & H). apply read_var_Ok in E5 as [Huv ->].
  destruct (current_vars_level _ _ _ _ _ Hct2 Hu)
    as (e & v & He & Hev & Hen & Hv & Hl).
  assert (v = uv) as -> by congruence.
  apply bind_Ok in H as (cl1 & s4 & E6 & H).
  apply push_lit_Ok in E6 as (Hsz1 & -> & ->).
  apply bind_Ok in H as (cl2 & s5 & E7 & H).
  apply alloc_clause_Ok in H as [-> ->].
  assert (decided_literals s1 = low ++ dec :: high) as Htr.
  { destruct Hf1 as (_ & _ & _ & -> & _). apply (ct_trail _ _ _ _ Hct). }
  exists s2, n, u, uv.
  destruct (1 <? n) eqn:Hn.
  - rewrite Htr in E7. rewrite <- (st_with_marks_eta s2) in E7 at 1.
    apply forward_sweep_spec in E7 as (added & -> & -> & Hadd & Hcnt).
    + exists added. eexists.
      split_and!; try done; try reflexivity; try (by exists s1);
        try (by st_simpl).
    + apply (ct_low _ _ _ _ Hct2).
    + apply (ct_dec _ _ _ _ Hct2).
    + destruct (ct_dec _ _ _ _ Hct2) as (_ & dv & Hdv & Hdl & _). eauto.
  - minv E7. exists []. eexists.
    split_and!; try done; try reflexivity; try (by exists s1).
Qed.


Lemma uip_reset_marks i st r s :
  uip_reset i st = Ok (r, s) -> marks s = marks st.
Proof.
  revert st. induction i as [|i IH]; intros st; cbn [uip_reset]; intros H;
    mcases H; try done.
  apply IH in H. by rewrite H.
Qed.

Lemma uip_preds_marks fuel lit todo st u s :
  uip_preds fuel lit todo st = Ok (u, s) -> marks s = marks st.
Proof.
  revert st. induction todo as [|slot todo IH]; intros st; cbn [uip_preds];
    intros H; mcases H; try done; eauto.
  apply IH in H. rewrite H.
  repeat match goal with
         | E : match ?x with _ => _ end _ = Ok _ |- _ => destruct x; minv E
         end; done.
Qed.

Lemma uip_forward_marks fuel todo st u s :
  uip_forward fuel todo st = Ok (u, s) -> marks s = marks st.
Proof.
  revert st. induction todo as [|lit todo IH]; intros st; cbn [uip_forward];
    intros H; mcases H; try done.
  apply IH in H. rewrite H. by eapply uip_preds_marks.
Qed.

Lemma sat_compute_UIP_marks fuel st r s :
  sat_compute_UIP fuel st = Ok (r, s) -> marks s = marks st.
Proof.
  unfold sat_compute_UIP. intros H. mcases H.
  match goal with
  | E : uip_forward _ _ _ = Ok _ |- _ => apply uip_forward_marks in E; rewrite E
  end.
  match goal with
  | E : uip_reset _ _ = Ok _ |- _ => apply uip_reset_marks in E
  end.
  by st_simpl.
Qed.

Lemma mark_reasons_spec st0 (P : nat -> Prop) todo : forall n ms n' s,
  (forall p pv, Some p ∈ todo -> get_var st0 (lit_var p) = Some pv ->
     (d_level (decision pv) < level st0)%N -> P (N.to_nat (var_id pv))) ->
  mark_reasons todo n (st_with_marks ms st0) = Ok (n', s) ->
  exists ms',
    s = st_with_marks ms' st0 /\ length ms' = length ms /\
    n' + count_true ms = n + count_true ms' /\
    (forall i, ms' !! i = Some true -> ms !! i = Some true \/ P i).
Proof.
  induction todo as [|slot todo IH]; intros n ms n' s HP H;
    cbn [mark_reasons] in H.
  - minv H. exists ms. split_and!; try done. by left.
  - apply bind_Ok in H as (lit & s0 & E & H). destruct slot as [x|]; [|by minv E].
    cbn [lift_opt] in E. apply ret_Ok in E. injection E as Hx Hy. subst lit s0.
    apply bind_Ok in H as (owner & s0 & E & H).
    apply lit_owner_Ok in E as (-> & -> & _).
    apply bind_Ok in H as (v & s0 & E & H).
    apply read_var_Ok in E as [Hv ->]. rewrite get_var_with_marks in Hv.
    apply bind_Ok in H as (lvl & s0 & E' & H). minv E'.
    assert (forall p pv, Some p ∈ todo -> get_var st0 (lit_var p) = Some pv ->
              (d_level (decision pv) < level st0)%N ->
              P (N.to_nat (var_id pv))) as HP'.
    { intros p pv Hp. apply HP. by right. }
    destruct (N.ltb_spec (d_level (decision v)) (level st0)) as [Hlt|Hge].
    + apply bind_Ok in H as (m & s0 & Em & H).
      apply read_mark_Ok in Em as [Em ->]. cbn [marks st_with_marks] in Em.
      destruct m; [by apply IH|].
      apply bind_Ok in H as (u1 & s1 & E1 & H).
      apply write_mark_Ok in E1 as [Hr ->].
      match type of H with
      | mark_reasons _ _ ?sx = _ =>
          replace sx with
            (st_with_marks (<[N.to_nat (var_id v) := true]> ms) st0) in H
            by (by destruct st0)
      end.
      apply IH in H as (ms' & -> & Hlen & Hcnt & Htrue); [|done].
      exists ms'. split_and!; [done|by rewrite Hlen, length_insert| |].
      * pose proof (count_true_insert ms _ false true Em) as Hins.
        cbv beta iota in Hins. lia.
      * intros i Hi. destruct (Htrue i Hi) as [Hm|?]; [|by right].
        destruct (decide (N.to_nat (var_id v) = i)) as [<-|Hne].
        -- right. apply (HP x v); [left|done|done].
        -- left. by rewrite list_lookup_insert_ne in Hm.
    + by apply IH.
Qed.

Lemma trail_lookup_in_high (low : list LitRef) dec high p e :
  length low < p -> (low ++ dec :: high) !! p = Some e -> e ∈ high.
Proof.
  intros Hp H. rewrite lookup_app_r in H by lia.
  destruct (p - length low) as [|k] eqn:Hk; [lia|]. cbn in H.
  by eapply list_elem_of_lookup_2.
Qed.

Lemma backward_sweep_spec fuel st0 low dec high u : forall p n ms n' s,
  decided_literals st0 = low ++ dec :: high ->
  (exists j0 e0, length low <= j0 <= p /\
     (low ++ dec :: high) !! j0 = Some e0 /\ lit_var e0 = u) ->
  backward_sweep fuel (Some u) p n (st_with_marks ms st0) = Ok (n', s) ->
  exists ms',
    s = st_with_marks ms' st0 /\ length ms' = length ms /\
    n' + count_true ms = n + count_true ms' /\
    (forall i, ms' !! i = Some true ->
       ms !! i = Some true \/ reason_id st0 high i).
Proof.
  induction p as [|p IH]; intros n ms n' s Htr (j0 & e0 & Hj & He0 & Hu) H;
    rewrite backward_sweep_unfold in H.
  all: apply bind_Ok in H as (tr & s0 & E & H); apply gets_Ok in E;
    injection E as -> ->;
    cbn [decided_literals st_with_marks] in H; rewrite Htr in H;
    apply bind_Ok in H as (dl & s0 & E & H);
    apply lift_opt_Ok in E as [Hdl ->];
    apply bind_Ok in H as (owner & s0 & E & H);
    apply lit_owner_Ok in E as (-> & -> & _);
    destruct (bool_decide (Some (lit_var dl) = Some u)) eqn:Hsame;
    [minv H; exists ms; split_and!; try done; by left|].
  all: apply bool_decide_eq_false in Hsame.
  - assert (j0 = 0) as -> by lia. simplify_eq.
  - assert (j0 <= p) as Hj0.
    { destruct (decide (j0 = S p)) as [->|]; [simplify_eq|lia]. }
    assert (dl ∈ high) as Hhigh
      by (eapply (trail_lookup_in_high low dec); [|exact Hdl]; lia).
    apply bind_Ok in H as (dv & s0 & E & H).
    apply read_var_Ok in E as [Hdv ->]. rewrite get_var_with_marks in Hdv.
    apply bind_Ok in H as (d & s0 & E & H).
    pose proof (dominator_Ok _ _ _ _ _ _ E) as ->. clear E.
    apply bind_Ok in H as (n1 & s1 & E & H).
    assert (exists ms1,
              s1 = st_with_marks ms1 st0 /\ length ms1 = length ms /\
              n1 + count_true ms = n + count_true ms1 /\
              (forall i, ms1 !! i = Some true ->
                 ms !! i = Some true \/ reason_id st0 high i))
      as (ms1 & -> & Hlen1 & Hcnt1 & Ht1).
    { destruct (bool_decide (d = Some u)).
      - apply bind_Ok in E as (implier & s2 & E1 & E).
        destruct (d_implied_by (decision dv)) as [c|] eqn:Himp; [|by minv E1].
        cbn [lift_opt] in E1. apply ret_Ok in E1. injection E1 as Hx Hy.
        subst implier s2.
        apply bind_Ok in E as (cl & s2 & E1 & E).
        apply read_clause_at_Ok in E1 as [Hcl ->].
        rewrite get_clause_with_marks in Hcl.
        apply (mark_reasons_spec st0 (reason_id st0 high)) in E; [done|].
        intros q qv Hq Hqv Hql.
        exists dl, dv, c, cl, q, qv. split_and!; try done.
        by apply elem_of_slots in Hq.
      - minv E. exists ms. split_and!; try done. by left. }
    apply IH in H as (ms' & -> & Hlen & Hcnt & Ht);
      [|done|exists j0, e0; split; [lia|done]].
    exists ms'. split_and!; [done|congruence|lia|].
    intros i Hi. destruct (Ht i Hi) as [Hm|?]; [|by right]. by apply Ht1.
Qed.

Lemma reasons_traced_frame st s low high :
  analysis_frame st s -> reasons_traced st low high -> reasons_traced s low high.
Proof.
  intros Hf Hr l v c cl p pv Hl Hv Hi Hc Hp Hpv Hlv.
  pose proof (analysis_frame_sym _ _ Hf) as Hb.
  destruct (analysis_frame_decision _ _ _ _ Hb Hv) as (v0 & Hv0 & _ & _ & Hi0 & _).
  destruct (analysis_frame_decision _ _ _ _ Hb Hpv)
    as (pv0 & Hpv0 & Hl0 & _ & _ & Hid0).
  destruct Hf as (Hlvl & Hfc & Hheap & _).
  rewrite (get_clause_frame st s) in Hc by done.
  destruct (Hr l v0 c cl p pv0) as (e & ev & He & Hev & Hid); try done;
    try congruence.
  destruct (analysis_frame_decision st s _ _ ltac:(by apply analysis_frame_sym) Hev)
    as (ev' & Hev' & _ & _ & _ & Hid').
  exists e, ev'. split_and!; [done|done|congruence].
Qed.

Lemma all_false_no_true (ms : list bool) :
  Forall (eq false) ms <-> forall i, ms !! i <> Some true.
Proof.
  rewrite Forall_lookup. split.
  - intros H i Hi. by specialize (H i true Hi).
  - intros H i b Hi. destruct b; [by destruct (H i)|done].
Qed.

Lemma all_false_eq (ms ms' : list bool) :
  length ms' = length ms -> Forall (eq false) ms -> Forall (eq false) ms' ->
  ms' = ms.
Proof.
  intros Hlen H H'. apply list_eq_same_length with (length ms); try done.
  intros i x y _ Hx Hy.
  rewrite Forall_lookup in H, H'. specialize (H _ _ Hy). specialize (H' _ _ Hx).
  congruence.
Qed.

(** * Conflict analysis runs to its end *)

Lemma read_order_run r st v :
  get_var st r = Some v ->
  read_order (Some r) st = Ok (d_order (decision v), st).
Proof. intros H. apply read_order_Ok. eauto 10. Qed.

Lemma read_dominator_run r st v :
  get_var st r = Some v ->
  read_dominator (Some r) st = Ok (d_dominator (decision v), st).
Proof. intros H. apply read_dominator_Ok. eauto 10. Qed.

Lemma climb_total st k cv m :
  dominated st k cv m ->
  forall fuel a b ra rb,
    a <= m -> b <= m -> cv !! a = Some ra -> cv !! b = Some rb -> b < fuel ->
    exists c rc,
      climb fuel (Some ra) (Some rb) st = Ok (Some rc, st) /\
      cv !! c = Some rc /\ c <= a /\ c <= b /\ (b <= a -> c = b).
Proof.
  intros Hd. induction fuel as [|fuel IH]; intros a b ra rb Ha Hb Hra Hrb Hf;
    [lia|].
  destruct (Hd a ra Ha Hra) as (va & ja & da & Hva & Hoa & _).
  destruct (Hd b rb Hb Hrb) as (vb & jb & db & Hvb & Hob & Hdb & Hjb & Hle & Hlt).
  cbn [climb].
  erewrite bind_run by (by apply read_order_run).
  erewrite bind_run by (by apply read_order_run).
  rewrite Hoa, Hob.
  destruct (Nat.ltb_spec (k + a) (k + b)) as [Hab|Hab].
  - erewrite bind_run by (by apply read_dominator_run). rewrite Hdb.
    destruct (IH a jb ra db) as (c & rc & E & Hc & H1 & H2 & _);
      [lia|lia|done|done|lia|].
    exists c, rc. split_and!; [done|done|lia|lia|lia].
  - exists b, rb. split_and!; [done|done|lia|lia|done].
Qed.

Lemma dominator_total st k cv m :
  NoDup cv -> dominated st k cv m ->
  forall fuel a b ra rb,
    a <= m -> b <= m -> cv !! a = Some ra -> cv !! b = Some rb ->
    a + b + m + 2 <= fuel ->
    exists c rc,
      dominator fuel (Some ra) (Some rb) st = Ok (Some rc, st) /\
      cv !! c = Some rc /\ c <= a /\ c <= b.
Proof.
  intros Hnd Hd. induction fuel as [|fuel IH];
    intros a b ra rb Ha Hb Hra Hrb Hf; [lia|].
  cbn [dominator]. destruct (decide (ra = rb)) as [->|Hne].
  - rewrite bool_decide_eq_true_2 by done.
    assert (a = b) as -> by by eapply NoDup_lookup.
    exists b, rb. by split_and!.
  - rewrite bool_decide_eq_false_2 by congruence.
    assert (a <> b) as Hab by (intros ->; congruence).
    destruct (climb_total _ _ _ _ Hd fuel a b ra rb)
      as (b' & rb' & E1 & Hb' & B1 & B2 & B3); [done|done|done|done|lia|].
    erewrite bind_run by exact E1.
    destruct (climb_total _ _ _ _ Hd fuel b' a rb' ra)
      as (a' & ra' & E2 & Ha' & A1 & A2 & A3); [lia|done|done|done|lia|].
    erewrite bind_run by exact E2.
    destruct (IH a' b' ra' rb') as (c & rc & E & Hc & C1 & C2);
      [lia|lia|done|done| |].
    + destruct (decide (a < b)); [lia|].
      assert (b' = b) by (apply B3; lia). lia.
    + exists c, rc. split_and!; [done|done|lia|lia].
Qed.
Lemma var_of_Some st r v : get_var st r = Some v -> var_of st r = v.
Proof. unfold var_of. by intros ->. Qed.

Lemma known_get st l :
  known st l -> get_var st (lit_var l) = Some (var_of st (lit_var l)).
Proof. intros [_ [v Hv]]. by rewrite (var_of_Some _ _ _ Hv). Qed.

Lemma var_of_set_order st r v o d r' :
  get_var st r = Some v ->
  var_of (set_var r (var_with_order_dominator o d v) st) r' =
    if decide (r = r') then var_with_order_dominator o d v else var_of st r'.
Proof.
  intros Hv. unfold var_of. rewrite (get_set_var _ _ _ _ _ Hv).
  by destruct (decide (r = r')).
Qed.

Lemma trail_lookup_cur (low : list LitRef) cur i :
  (low ++ cur) !! (length low + i) = cur !! i.
Proof. rewrite lookup_app_r by lia. f_equal. lia. Qed.

Lemma uip_reset_total low dec : forall hA hB st,
  decided_literals st = low ++ dec :: hA ++ hB ->
  known st dec ->
  d_implied_by (decision (var_of st (lit_var dec))) = None ->
  Forall (fun l => known st l /\
            d_implied_by (decision (var_of st (lit_var l))) <> None) hA ->
  NoDup (lit_var <$> dec :: hA ++ hB) ->
  undominated st (length low) (lit_var <$> dec :: hA ++ hB) (length hA) ->
  exists s,
    uip_reset (length low + length hA) st = Ok (length low, s) /\
    analysis st s /\ marks s = marks st /\
    undominated s (length low) (lit_var <$> dec :: hA ++ hB) 0.
Proof.
  induction hA as [|l hA IH] using rev_ind;
    intros hB st Htr Hdec Hnone HA Hnd Hun; rewrite uip_reset_unfold.
  - cbn [length] in *. rewrite Nat.add_0_r.
    unfold bind at 1, gets at 1. rewrite Htr.
    assert ((low ++ dec :: [] ++ hB) !! length low = Some dec) as ->
      by (rewrite lookup_app_r by lia; by rewrite Nat.sub_diag).
    unfold bind at 1, lift_opt at 1, ret at 1.
    erewrite bind_run by (apply lit_owner_run; apply Hdec).
    erewrite bind_run by (apply read_var_run; by apply known_get).
    rewrite Hnone. exists st.
    split_and!; [done|apply rtc_refl|done|done].
  - rewrite <- app_assoc in Htr, Hnd, Hun. cbn [app] in Htr, Hnd, Hun.
    apply Forall_app in HA as [HA Hl]. apply Forall_singleton in Hl as [Hk Hi].
    rewrite length_app in *. cbn [length] in *.
    assert ((dec :: hA ++ l :: hB) !! (length hA + 1) = Some l) as Hlook.
    { rewrite Nat.add_1_r. change ((hA ++ l :: hB) !! length hA = Some l).
      rewrite lookup_app_r by lia. by rewrite Nat.sub_diag. }
    unfold bind at 1, gets at 1. rewrite Htr.
    rewrite (trail_lookup_cur low (dec :: hA ++ l :: hB)), Hlook.
    unfold bind at 1, lift_opt at 1, ret at 1.
    erewrite bind_run by (apply lit_owner_run; apply Hk).
    erewrite bind_run by (apply read_var_run; by apply known_get).
    destruct (d_implied_by (decision (var_of st (lit_var l)))) as [c|] eqn:Hc;
      [|done].
    set (v := var_of st (lit_var l)) in *.
    pose proof (known_get _ _ Hk) as Hv. fold v in Hv.
    set (s1 := set_var (lit_var l)
                 (var_with_order_dominator (length low + (length hA + 1)) None v)
                 st).
    erewrite (bind_run _ _ _ tt s1)
      by (unfold set_order_dominator; by apply update_var_run).
    replace (length low + (length hA + 1)) with (S (length low + length hA))
      by lia.
    assert (forall r, d_implied_by (decision (var_of s1 r))
                      = d_implied_by (decision (var_of st r))) as Himp.
    { intros r. unfold s1. rewrite (var_of_set_order _ _ _ _ _ _ Hv).
      destruct (decide (lit_var l = r)) as [<-|]; [|done]. done. }
    assert (forall x, known st x -> known s1 x) as Hkn.
    { intros x [? [w Hw]]. split; [done|]. unfold s1.
      rewrite (get_set_var _ _ _ _ _ Hv). destruct (decide _); eauto. }
    destruct (IH (l :: hB) s1) as (s & E & Ha & Hm & Hun').
    + by unfold s1; st_simpl.
    + by apply Hkn.
    + by rewrite Himp.
    + eapply Forall_impl; [exact HA|]. intros x [? ?]. split; [by apply Hkn|].
      by rewrite Himp.
    + done.
    + intros i r Hi' Hr.
      destruct (decide (i = length hA + 1)) as [->|Hne].
      * assert (r = lit_var l) as ->.
        { change (lit_var <$> dec :: hA ++ l :: hB)
            with (lit_var <$> (dec :: hA ++ l :: hB)) in Hr.
          rewrite list_lookup_fmap, Hlook in Hr. by injection Hr. }
        exists (var_with_order_dominator (length low + (length hA + 1)) None v).
        split_and!; [|done|done]. unfold s1. by apply (get_set_var_eq _ _ v).
      * destruct (Hun i r ltac:(lia) Hr) as (w & Hw & Ho & Hd).
        exists w. split_and!; [|done|done].
        unfold s1. rewrite get_set_var_ne; [done|].
        intros Heq. apply Hne.
        eapply NoDup_lookup; [exact Hnd|exact Hr|].
        change (lit_var <$> dec :: hA ++ l :: hB)
          with (lit_var <$> (dec :: hA ++ l :: hB)).
        by rewrite list_lookup_fmap, Hlook, <- Heq.
    + exists s. rewrite <- app_assoc. cbn [app].
      split_and!; [done| |by rewrite Hm|done].
      eapply rtc_l; [|exact Ha]. by apply ae_order.
Qed.
Lemma level_of_set_order st r v o d l :
  get_var st r = Some v ->
  level_of (set_var r (var_with_order_dominator o d v) st) l = level_of st l.
Proof.
  intros Hv. unfold level_of. rewrite (var_of_set_order _ _ _ _ _ _ Hv).
  destruct (decide (r = lit_var l)) as [->|]; [|done].
  by rewrite (var_of_Some _ _ _ Hv).
Qed.

Lemma known_set_var st r v w l :
  get_var st r = Some v -> known st l -> known (set_var r w st) l.
Proof.
  intros Hv [? [x Hx]]. split; [done|].
  rewrite (get_set_var _ _ _ _ _ Hv). destruct (decide _); eauto.
Qed.

Lemma dominated_set_var st k cv m r w :
  (forall i, i <= m -> cv !! i <> Some r) ->
  dominated st k cv m -> dominated (set_var r w st) k cv m.
Proof.
  intros Hr Hd i x Hi Hx. destruct (Hd i x Hi Hx) as (v & j & d & Hv & ?).
  exists v, j, d. split; [|done]. rewrite get_set_var_ne; [done|].
  intros ->. by eapply Hr.
Qed.

Lemma uip_preds_total k cv m l fuel :
  NoDup cv -> cv !! S m = Some (lit_var l) -> l <> contradiction_neg ->
  3 * m + 2 <= fuel ->
  forall ps st v,
    dominated st k cv m ->
    get_var st (lit_var l) = Some v ->
    d_order (decision v) = k + S m ->
    (d_dominator (decision v) = None \/
     exists j d, d_dominator (decision v) = Some d /\ cv !! j = Some d /\ j <= m) ->
    Forall (fun p => known st p /\
              (level_of st p = level st -> p <> l ->
               exists a, a <= m /\ cv !! a = Some (lit_var p))) ps ->
    exists s v',
      uip_preds fuel l (Some <$> ps) st = Ok (tt, s) /\
      analysis st s /\ marks s = marks st /\
      (forall r, r <> lit_var l -> get_var s r = get_var st r) /\
      get_var s (lit_var l) = Some v' /\
      d_order (decision v') = k + S m /\
      (d_dominator (decision v) <> None \/
       Exists (fun p => level_of st p = level st /\ p <> l) ps ->
       exists j d, d_dominator (decision v') = Some d /\ cv !! j = Some d /\
         j <= m).
Proof.
  intros Hnd Hl Hn Hfuel.
  assert (forall i, i <= m -> cv !! i <> Some (lit_var l)) as Hfresh.
  { intros i Hi Hx. assert (i = S m) by by eapply NoDup_lookup. lia. }
  induction ps as [|p ps IH]; intros st v Hd Hv Ho Hdom Hps;
    cbn [fmap list_fmap uip_preds].
  - exists st, v. split_and!; [done|apply rtc_refl|done|done|done|done|].
    intros [Hne|Hex]; [|by apply Exists_nil in Hex].
    by destruct Hdom as [?|?].
  - apply Forall_cons in Hps as [[Hk Hp] Hps].
    unfold bind at 1, lift_opt at 1, ret at 1.
    erewrite bind_run by (apply lit_owner_run; apply Hk).
    erewrite bind_run by (apply read_var_run; by apply known_get).
    unfold bind at 1, gets at 1.
    fold (level_of st p).
    destruct (decide (level_of st p = level st /\ p <> l)) as [[Hlv Hne]|Hskip].
    + rewrite Hlv, N.eqb_refl, bool_decide_eq_false_2 by done. cbn [negb orb].
      erewrite bind_run by (by apply lit_owner_run).
      erewrite bind_run by (by apply read_var_run).
      destruct (Hp Hlv Hne) as (a & Ha & Hpa).
      assert (exists j d,
                (match d_dominator (decision v) with
                 | Some d => do d' <- dominator fuel (Some (lit_var p)) (Some d);
                             set_dominator (lit_var l) d'
                 | None => set_dominator (lit_var l) (Some (lit_var p))
                 end) st
                = Ok (tt, set_var (lit_var l)
                            (var_with_order_dominator (d_order (decision v))
                               (Some d) v) st) /\
                cv !! j = Some d /\ j <= m) as (j & d & E & Hj & Hjm).
      { destruct Hdom as [Hnone|(j0 & d0 & Hsome & Hj0 & Hjm0)].
        - rewrite Hnone. exists a, (lit_var p). split_and!; [|done|done].
          unfold set_dominator. apply update_var_Ok; by exists v.
        - rewrite Hsome.
          destruct (dominator_total _ _ _ _ Hnd Hd fuel a j0 (lit_var p) d0)
            as (c & rc & E & Hc & C1 & C2); [done|done|done|done|lia|].
          exists c, rc. split_and!; [|done|lia].
          erewrite bind_run by exact E. unfold set_dominator.
          apply update_var_Ok; by exists v. }
      erewrite (bind_run _ _ _ tt) by exact E.
      set (s1 := set_var (lit_var l)
                   (var_with_order_dominator (d_order (decision v)) (Some d) v)
                   st) in *.
      destruct (IH s1 (var_with_order_dominator (d_order (decision v)) (Some d) v))
        as (s & v' & E' & Ha' & Hm' & Hfr & Hv' & Ho' & Hdom').
      * by apply dominated_set_var.
      * by apply (get_set_var_eq _ _ v).
      * done.
      * right. exists j, d. done.
      * eapply Forall_impl; [exact Hps|]. intros x [Hkx Hx]. split.
        { by eapply known_set_var. }
        unfold s1. rewrite (level_of_set_order _ _ _ _ _ _ Hv), level_set_var.
        exact Hx.
      * exists s, v'. split_and!; [done| | | |done|done|].
        { eapply rtc_l; [|exact Ha']. by apply ae_order. }
        { rewrite Hm'. unfold s1. by st_simpl. }
        { intros r Hr. rewrite Hfr by done. unfold s1.
          by rewrite get_set_var_ne. }
        intros _. apply Hdom'. by left.
    + assert (negb (level_of st p =? level st)%N || bool_decide (p = l) = true)
        as ->.
      { destruct (N.eqb_spec (level_of st p) (level st)) as [Heq|]; [|done].
        cbn. apply bool_decide_eq_true. destruct (decide (p = l)); [done|].
        by destruct Hskip. }
      destruct (IH st v Hd Hv Ho Hdom Hps)
        as (s & v' & E' & Ha' & Hm' & Hfr & Hv' & Ho' & Hdom').
      exists s, v'. split_and!; try done.
      intros [Hne|Hex]; apply Hdom'; [by left|].
      apply Exists_cons in Hex as [Hex|Hex]; [done|by right].
Qed.
(** What [analysis_frame] keeps of the conditions of the analysis. *)
Lemma analysis_frame_var_of st s r :
  analysis_frame st s ->
  d_level (decision (var_of s r)) = d_level (decision (var_of st r)) /\
  d_value (decision (var_of s r)) = d_value (decision (var_of st r)) /\
  d_implied_by (decision (var_of s r)) = d_implied_by (decision (var_of st r)) /\
  var_id (var_of s r) = var_id (var_of st r).
Proof.
  intros Hf. unfold var_of.
  destruct (get_var st r) as [v|] eqn:Hv.
  - destruct (analysis_frame_decision _ _ _ _ Hf Hv) as (v' & -> & ?). done.
  - destruct Hf as (_ & _ & _ & _ & _ & _ & _ & _ & _ & _ & H).
    specialize (H r). rewrite Hv in H. by destruct (get_var s r).
Qed.

Lemma analysis_frame_is_Some st s r :
  analysis_frame st s -> is_Some (get_var st r) -> is_Some (get_var s r).
Proof.
  intros Hf [v Hv].
  destruct (analysis_frame_decision _ _ _ _ Hf Hv) as (v' & -> & _). eauto.
Qed.

Lemma known_frame st s l : analysis_frame st s -> known st l -> known s l.
Proof. intros Hf [? ?]. split; [done|]. by eapply analysis_frame_is_Some. Qed.

Lemma level_of_frame st s l :
  analysis_frame st s -> level_of s l = level_of st l.
Proof. intros Hf. unfold level_of. apply (analysis_frame_var_of _ _ _ Hf). Qed.

Lemma mark_index_frame st s l :
  analysis_frame st s -> mark_index s l = mark_index st l.
Proof.
  intros Hf. unfold mark_index.
  by rewrite (proj2 (proj2 (proj2 (analysis_frame_var_of _ _ (lit_var l) Hf)))).
Qed.

Lemma reason_of_frame st s l :
  analysis_frame st s -> reason_of s l = reason_of st l.
Proof.
  intros Hf. unfold reason_of.
  rewrite (proj1 (proj2 (proj2 (analysis_frame_var_of _ _ (lit_var l) Hf)))).
  destruct (d_implied_by _); [|done].
  destruct Hf as (_ & ? & ? & _). by apply get_clause_frame.
Qed.

Lemma reason_literal_frame st s low seen l p :
  analysis_frame st s ->
  reason_literal st low seen l p -> reason_literal s low seen l p.
Proof.
  intros Hf (Hk & Hcur & Hlow).
  pose proof Hf as (Hlvl & _ & _ & _ & _ & _ & _ & _ & Hlen & _).
  unfold reason_literal.
  rewrite (level_of_frame _ _ _ Hf), Hlvl, Hlen, (mark_index_frame _ _ _ Hf).
  split_and!; [by eapply known_frame|done|].
  intros Hlt. destruct (Hlow Hlt) as [? Hex]. split; [done|].
  eapply Exists_impl; [exact Hex|]. intros e He. cbn in *.
  by rewrite (mark_index_frame _ _ _ Hf).
Qed.

Lemma reasons_ordered_frame st s low todo : forall seen,
  analysis_frame st s ->
  reasons_ordered st low seen todo -> reasons_ordered s low seen todo.
Proof.
  induction todo as [|l todo IH]; intros seen Hf; cbn [reasons_ordered];
    [done|].
  rewrite (reason_of_frame _ _ _ Hf). intros [H Hrest]. split; [|by apply IH].
  destruct (reason_of st l) as [cl|]; [|done].
  destruct H as (Hsz & Hall & Hex). split_and!; [done| |].
  - eapply Forall_impl; [exact Hall|]. intros p. by apply reason_literal_frame.
  - eapply Exists_impl; [exact Hex|]. intros p. cbn.
    rewrite (level_of_frame _ _ _ Hf).
    by destruct Hf as (-> & _).
Qed.

Lemma reason_of_Some st l cl :
  reason_of st l = Some cl ->
  exists c, d_implied_by (decision (var_of st (lit_var l))) = Some c /\
    get_clause st c = Some cl.
Proof. unfold reason_of. destruct (d_implied_by _) as [c|]; [eauto|done]. Qed.

Lemma uip_forward_total k cv fuel low :
  NoDup cv -> 3 * length cv <= fuel ->
  forall todo m st,
    lit_var <$> todo = drop (S m) cv ->
    dominated st k cv m -> undominated st k cv m ->
    Forall (known st) todo ->
    reasons_ordered st low (take (S m) cv) todo ->
    exists s,
      uip_forward fuel todo st = Ok (tt, s) /\
      analysis st s /\ marks s = marks st /\
      dominated s k cv (m + length todo).
Proof.
  intros Hnd Hfuel.
  induction todo as [|l todo IH]; intros m st Hcv Hd Hu Hk Hr;
    cbn [uip_forward].
  - exists st. split_and!; [done|apply rtc_refl|done|].
    cbn. by rewrite Nat.add_0_r.
  - apply Forall_cons in Hk as [Hkl Hk]. cbn [reasons_ordered] in Hr.
    destruct Hr as [Hr Hrest].
    destruct (reason_of st l) as [cl|] eqn:Hcl; [|done].
    destruct Hr as (Hsz & Hall & Hex).
    apply reason_of_Some in Hcl as (c & Hc & Hcl).
    assert (cv !! S m = Some (lit_var l)) as Hl.
    { rewrite <- (Nat.add_0_r (S m)), <- lookup_drop, <- Hcv. done. }
    assert (S m < length cv) as Hlen by by eapply lookup_lt_Some.
    destruct (Hu (S m) (lit_var l) ltac:(lia) Hl) as (v & Hv & Ho & Hnone).
    pose proof (var_of_Some _ _ _ Hv) as Hvo.
    erewrite bind_run by (apply lit_owner_run; apply Hkl).
    erewrite bind_run by (by apply read_var_run).
    rewrite <- Hvo, Hc.
    unfold bind at 1, lift_opt at 1, ret at 1.
    erewrite bind_run by (by apply read_clause_at_run).
    rewrite Hsz, slots_full.
    destruct (uip_preds_total k cv m l fuel Hnd Hl (proj1 Hkl) ltac:(lia)
                (lits cl) st v Hd Hv Ho (or_introl Hnone))
      as (s1 & v' & E1 & Ha1 & Hm1 & Hfr1 & Hv' & Ho' & Hdom').
    { eapply Forall_impl; [exact Hall|]. intros p (Hkp & Hcur & _).
      split; [done|]. intros Hlv Hne.
      pose proof (Hcur Hlv Hne) as Hin.
      apply elem_of_take in Hin as (a & Ha & Hlt).
      exists a. split; [lia|done]. }
    erewrite (bind_run _ _ _ tt) by exact E1.
    destruct Hdom' as (j & d & Hdv' & Hj & Hjm); [by right|].
    pose proof (analysis_analysis_frame _ _ Ha1) as Hf1.
    destruct (IH (S m) s1) as (s & E & Ha & Hm & Hd').
    + replace (S (S m)) with (S m + 1) by lia.
      by rewrite <- drop_drop, <- Hcv.
    + intros i r Hi Hr. destruct (decide (i = S m)) as [->|Hne].
      * assert (r = lit_var l) as -> by congruence.
        exists v', j, d. split_and!; [done|done|done|done|lia|lia].
      * destruct (Hd i r ltac:(lia) Hr) as (w & jw & dw & Hw & Hrest').
        exists w, jw, dw. split; [|done]. rewrite Hfr1; [done|].
        intros ->. apply Hne. by eapply NoDup_lookup.
    + intros i r Hi Hr. destruct (Hu i r ltac:(lia) Hr) as (w & Hw & Hrest').
      exists w. split; [|done]. rewrite Hfr1; [done|].
      intros ->. assert (i = S m) by by eapply NoDup_lookup. lia.
    + eapply Forall_impl; [exact Hk|]. intros x. by apply known_frame.
    + apply (reasons_ordered_frame st); [done|].
      by rewrite (take_S_r _ _ _ Hl).
    + exists s. split_and!; [done| |congruence|].
      * by etrans.
      * cbn [length]. by rewrite Nat.add_succ_r.
Qed.
Lemma reasons_ordered_implied st low todo : forall seen,
  reasons_ordered st low seen todo ->
  Forall (fun l => d_implied_by (decision (var_of st (lit_var l))) <> None) todo.
Proof.
  induction todo as [|l todo IH]; intros seen; cbn [reasons_ordered];
    [constructor|].
  intros [H Hrest]. constructor; [|by eapply IH].
  unfold reason_of in H. by destruct (d_implied_by _).
Qed.

Lemma analysis_ready_top st low dec high :
  analysis_ready st low dec high ->
  (lit_var <$> dec :: high) !! length high = Some Contradiction.
Proof.
  intros H. pose proof (ar_top _ _ _ _ H) as Ht.
  rewrite last_lookup in Ht. cbn [length Nat.pred] in Ht.
  change (lit_var <$> dec :: high) with (lit_var <$> (dec :: high)).
  by rewrite list_lookup_fmap, Ht.
Qed.

Lemma sat_compute_UIP_total fuel st low dec high :
  analysis_ready st low dec high -> analysis_fuel st <= fuel ->
  exists s u j,
    sat_compute_UIP fuel st = Ok (Some u, s) /\
    analysis st s /\ marks s = marks st /\
    dominated s (length low) (lit_var <$> dec :: high) (length high) /\
    (lit_var <$> dec :: high) !! j = Some u /\ j <= length high.
Proof.
  intros Hr Hfuel. pose proof Hr as [Htr Htop Hlow Hdec Hhigh Hnd _ Hre _ _].
  destruct Hdec as (Hkd & Hld & Hnone).
  unfold analysis_fuel in Hfuel. rewrite Htr, length_app in Hfuel.
  cbn [length] in Hfuel.
  set (k := length low) in *. set (cv := lit_var <$> dec :: high) in *.
  destruct (uip_reset_total low dec high [] st) as (s0 & E0 & Ha0 & Hm0 & Hu0).
  { by rewrite app_nil_r. }
  { done. }
  { done. }
  { apply Forall_and. split; [|by eapply reasons_ordered_implied].
    eapply Forall_impl; [exact Hhigh|]. by intros l [? _]. }
  { by rewrite app_nil_r. }
  { rewrite app_nil_r. intros i r Hi Hx. apply lookup_lt_Some in Hx.
    rewrite length_fmap in Hx. cbn [length] in Hx. lia. }
  rewrite app_nil_r in Hu0. fold cv k in Hu0, E0.
  pose proof (analysis_analysis_frame _ _ Ha0) as Hf0.
  unfold sat_compute_UIP. unfold bind at 1, gets at 1.
  replace (length (decided_literals st) - 1) with (k + length high)
    by (rewrite Htr, length_app; cbn [length]; unfold k; lia).
  erewrite bind_run by exact E0.
  assert (decided_literals st !! k = Some dec) as ->.
  { rewrite Htr. unfold k. rewrite lookup_app_r by lia.
    by rewrite Nat.sub_diag. }
  unfold bind at 1, lift_opt at 1, ret at 1.
  erewrite bind_run by (apply lit_owner_run; apply Hkd).
  pose proof (known_get _ _ (known_frame _ _ _ Hf0 Hkd)) as Hvd.
  set (vd := var_of s0 (lit_var dec)) in *.
  set (s1 := set_var (lit_var dec)
               (var_with_order_dominator k (Some (lit_var dec)) vd) s0).
  erewrite (bind_run _ _ _ tt s1)
    by (unfold set_order_dominator; by apply update_var_run).
  assert (analysis s0 s1) as Ha1 by (apply rtc_once; by apply ae_order).
  assert (analysis st s1) as Ha01 by by etrans.
  pose proof (analysis_analysis_frame _ _ Ha01) as Hf1.
  assert (drop (S k) (decided_literals st) = high) as ->.
  { rewrite Htr. unfold k.
    change (low ++ dec :: high) with (low ++ [dec] ++ high).
    rewrite app_assoc.
    replace (S (length low)) with (length (low ++ [dec]))
      by (rewrite length_app; cbn; lia).
    by rewrite drop_app_length. }
  destruct (uip_forward_total k cv fuel low Hnd) with (todo := high) (m := 0)
    (st := s1) as (s2 & E2 & Ha2 & Hm2 & Hd2).
  { unfold cv. rewrite length_fmap. cbn [length]. lia. }
  { done. }
  { intros i r Hi Hx. assert (i = 0) as -> by lia.
    assert (r = lit_var dec) as -> by (cbn in Hx; congruence).
    exists (var_with_order_dominator k (Some (lit_var dec)) vd), 0, (lit_var dec).
    split_and!; [|cbn; lia|done|done|lia|lia].
    unfold s1. by apply (get_set_var_eq _ _ vd). }
  { intros i r Hi Hx. destruct (Hu0 i r Hi Hx) as (w & Hw & ?).
    exists w. split; [|done]. unfold s1. rewrite get_set_var_ne; [done|].
    intros <-. assert (i = 0) by (eapply NoDup_lookup; [exact Hnd|exact Hx|done]).
    lia. }
  { eapply Forall_impl; [exact Hhigh|]. intros l [? _]. by eapply known_frame. }
  { by apply (reasons_ordered_frame st). }
  erewrite (bind_run _ _ _ tt) by exact E2.
  cbn [Nat.add] in Hd2.
  destruct (Hd2 (length high) Contradiction ltac:(lia)
              (analysis_ready_top _ _ _ _ Hr))
    as (vc & j & d & Hvc & _ & Hdc & Hj & Hle & _).
  erewrite bind_run by (by apply read_var_run). rewrite Hdc.
  exists s2, d, j. split_and!; try done.
  - by etrans.
  - rewrite Hm2. unfold s1. st_simpl. done.
Qed.

Lemma dominated_with_marks st ms k cv m :
  dominated st k cv m -> dominated (st_with_marks ms st) k cv m.
Proof.
  intros Hd i r Hi Hr. destruct (Hd i r Hi Hr) as (v & j & d & Hv & ?).
  exists v, j, d. by rewrite get_var_with_marks.
Qed.

Lemma read_mark_run id st b :
  marks st !! N.to_nat id = Some b -> read_mark id st = Ok (b, st).
Proof. unfold read_mark. by intros ->. Qed.

Lemma write_mark_run id b st :
  N.to_nat id < length (marks st) ->
  write_mark id b st
    = Ok (tt, st_with_marks (<[N.to_nat id := b]> (marks st)) st).
Proof.
  intros H. unfold write_mark. by rewrite (proj2 (Nat.ltb_lt _ _) H).
Qed.

Lemma mark_reasons_total st ps : forall n ms,
  Forall (fun p => known st p /\
            ((level_of st p < level st)%N -> mark_index st p < length ms)) ps ->
  exists n' ms',
    mark_reasons (Some <$> ps) n (st_with_marks ms st)
      = Ok (n', st_with_marks ms' st) /\
    length ms' = length ms.
Proof.
  induction ps as [|p ps IH]; intros n ms Hps; cbn [fmap list_fmap mark_reasons].
  - by exists n, ms.
  - apply Forall_cons in Hps as [[Hk Hp] Hps].
    unfold bind at 1, lift_opt at 1, ret at 1.
    erewrite bind_run by (apply lit_owner_run; apply Hk).
    erewrite bind_run
      by (apply read_var_run; rewrite get_var_with_marks; by apply known_get).
    unfold bind at 1, gets at 1. cbn [level st_with_marks].
    fold (level_of st p).
    destruct (N.ltb_spec (level_of st p) (level st)) as [Hlt|Hge];
      [|by apply IH].
    specialize (Hp Hlt). unfold mark_index in Hp.
    destruct (lookup_lt_is_Some_2 ms _ Hp) as [b Hb].
    erewrite bind_run by (by apply read_mark_run).
    destruct b; [by apply IH|].
    erewrite (bind_run _ _ _ tt) by (by apply write_mark_run).
    cbn [marks st_with_marks].
    destruct (IH (S n) (<[N.to_nat (var_id (var_of st (lit_var p))):=true]> ms))
      as (n' & ms' & E & Hlen).
    { eapply Forall_impl; [exact Hps|]. intros x [? Hx]. split; [done|].
      by rewrite length_insert. }
    exists n', ms'. split; [exact E|]. by rewrite Hlen, length_insert.
Qed.

Lemma backward_sweep_total fuel st low dec high u j :
  decided_literals st = low ++ dec :: high ->
  NoDup (lit_var <$> dec :: high) ->
  dominated st (length low) (lit_var <$> dec :: high) (length high) ->
  (lit_var <$> dec :: high) !! j = Some u ->
  Forall (known st) (dec :: high) ->
  Forall (fun l => exists cl, reason_of st l = Some cl /\
            lits_size cl = length (lits cl) /\
            Forall (fun p => known st p /\
                      ((level_of st p < level st)%N ->
                       mark_index st p < length (marks st))) (lits cl)) high ->
  3 * length high + 2 <= fuel ->
  forall q n ms,
    j <= q <= length high -> length ms = length (marks st) ->
    exists n' ms',
      backward_sweep fuel (Some u) (length low + q) n (st_with_marks ms st)
        = Ok (n', st_with_marks ms' st) /\
      length ms' = length ms.
Proof.
  intros Htr Hnd Hd Hu Hkn Hre Hfuel.
  set (cv := lit_var <$> dec :: high) in *.
  induction q as [|q IH]; intros n ms Hq Hlen; rewrite backward_sweep_unfold.
  all: unfold bind at 1, gets at 1; cbn [decided_literals st_with_marks];
    rewrite Htr, trail_lookup_cur.
  - assert (j = 0) as -> by lia. cbn [lookup list_lookup].
    unfold bind at 1, lift_opt at 1, ret at 1.
    apply Forall_cons in Hkn as [Hkd _].
    erewrite bind_run by (apply lit_owner_run; apply Hkd).
    assert (u = lit_var dec) as -> by (cbn in Hu; congruence).
    rewrite bool_decide_eq_true_2 by done. by exists n, ms.
  - destruct ((dec :: high) !! S q) as [e|] eqn:He.
    2: { apply lookup_ge_None in He. cbn [length] in He. lia. }
    assert (cv !! S q = Some (lit_var e)) as Hcv.
    { unfold cv. change (lit_var <$> dec :: high) with (lit_var <$> (dec :: high)).
      by rewrite list_lookup_fmap, He. }
    assert (known st e) as Hke.
    { rewrite Forall_forall in Hkn. apply Hkn. by eapply list_elem_of_lookup_2. }
    unfold bind at 1, lift_opt at 1, ret at 1.
    erewrite bind_run by (apply lit_owner_run; apply Hke).
    destruct (decide (lit_var e = u)) as [<-|Hne].
    { rewrite bool_decide_eq_true_2 by done. by exists n, ms. }
    rewrite bool_decide_eq_false_2 by congruence.
    assert (j <> S q) as Hjq by (intros ->; congruence).
    destruct (Hd (S q) (lit_var e) ltac:(lia) Hcv)
      as (v & j' & d & Hv & _ & Hdv & Hj' & _ & Hlt).
    erewrite bind_run
      by (apply read_var_run; rewrite get_var_with_marks; exact Hv).
    rewrite Hdv.
    destruct (dominator_total _ _ _ _ Hnd (dominated_with_marks _ ms _ _ _ Hd)
                fuel j j' u d)
      as (c & rc & E & Hc & C1 & C2); [lia|lia|done|done|lia|].
    erewrite bind_run by exact E.
    assert (exists n1 ms1,
              (if bool_decide (Some rc = Some u)
               then do implier <- lift_opt (d_implied_by (decision v));
                    do cl <- read_clause_at implier;
                    mark_reasons (slots (lits_size cl) (lits cl)) n
               else ret n) (st_with_marks ms st)
              = Ok (n1, st_with_marks ms1 st) /\ length ms1 = length ms)
      as (n1 & ms1 & E1 & Hlen1).
    { destruct (bool_decide (Some rc = Some u)); [|by exists n, ms].
      assert (e ∈ high) as Hin.
      { cbn in He. by eapply list_elem_of_lookup_2. }
      rewrite Forall_forall in Hre.
      destruct (Hre e Hin) as (cl & Hcl & Hsz & Hall).
      apply reason_of_Some in Hcl as (c0 & Hc0 & Hcl).
      rewrite (var_of_Some _ _ _ Hv) in Hc0. rewrite Hc0.
      unfold bind at 1, lift_opt at 1, ret at 1.
      erewrite bind_run
        by (apply read_clause_at_run; rewrite get_clause_with_marks; exact Hcl).
      rewrite Hsz, slots_full.
      apply mark_reasons_total.
      eapply Forall_impl; [exact Hall|]. intros p [? Hp]. split; [done|].
      by rewrite Hlen. }
    erewrite bind_run by exact E1.
    replace (length low + S q) with (S (length low + q)) by lia.
    destruct (IH n1 ms1) as (n' & ms' & E' & Hlen'); [lia|congruence|].
    exists n', ms'. split; [exact E'|congruence].
Qed.

Lemma forward_sweep_total st dec high : forall low ms cl,
  Forall (fun l => known st l /\ (level_of st l < level st)%N /\
            mark_index st l < length ms) low ->
  known st dec -> level_of st dec = level st ->
  length (lits cl) + count_true ms <= lits_size cl ->
  exists r s,
    forward_sweep (low ++ dec :: high) cl (st_with_marks ms st) = Ok (r, s).
Proof.
  induction low as [|l low IH]; intros ms cl Hlow Hkd Hld Hcap;
    cbn [app forward_sweep].
  - erewrite bind_run by (apply lit_owner_run; apply Hkd).
    erewrite bind_run
      by (apply read_var_run; rewrite get_var_with_marks; by apply known_get).
    unfold bind at 1, gets at 1. cbn [level st_with_marks].
    fold (level_of st dec). rewrite Hld, N.ltb_irrefl. eauto.
  - apply Forall_cons in Hlow as [(Hk & Hlt & Hidx) Hlow].
    erewrite bind_run by (apply lit_owner_run; apply Hk).
    erewrite bind_run
      by (apply read_var_run; rewrite get_var_with_marks; by apply known_get).
    unfold bind at 1, gets at 1. cbn [level st_with_marks].
    fold (level_of st l). rewrite (proj2 (N.ltb_lt _ _) Hlt).
    unfold mark_index in Hidx.
    destruct (lookup_lt_is_Some_2 ms _ Hidx) as [b Hb].
    erewrite bind_run by (by apply read_mark_run).
    destruct b; [|by apply IH].
    erewrite (bind_run _ _ _ tt) by (by apply write_mark_run).
    cbn [marks st_with_marks].
    pose proof (count_true_insert ms _ true false Hb) as Hcnt.
    cbv beta iota in Hcnt.
    unfold push_lit.
    destruct (Nat.ltb_spec (length (lits cl)) (lits_size cl)) as [Hl|Hl]; [|lia].
    unfold bind at 1, ret at 1.
    apply IH; [|done|done|].
    + eapply Forall_impl; [exact Hlow|]. intros x (? & ? & ?).
      split_and!; [done|done|]. by rewrite length_insert.
    + destruct (_ <? _)%N; cbn; rewrite length_app; cbn; lia.
Qed.
Lemma analysis_ready_frame st s low dec high :
  analysis_frame st s -> marks s = marks st ->
  analysis_ready st low dec high -> analysis_ready s low dec high.
Proof.
  intros Hf Hm [H1 H2 H3 H4 H5 H6 H7 H8 H9 H10].
  pose proof Hf as (Hlvl & Hfc & Hheap & Htr & _ & Hlc & _ & _ & _ & Hlen & _).
  split.
  - congruence.
  - done.
  - eapply Forall_impl; [exact H3|]. intros l (? & ? & ?).
    rewrite (level_of_frame _ _ _ Hf), (mark_index_frame _ _ _ Hf), Hlvl, Hm.
    split; [by eapply known_frame|done].
  - destruct H4 as (? & ? & ?).
    rewrite (level_of_frame _ _ _ Hf), Hlvl.
    rewrite (proj1 (proj2 (proj2 (analysis_frame_var_of _ _ (lit_var dec) Hf)))).
    split_and!; [by eapply known_frame|done|done].
  - eapply Forall_impl; [exact H5|]. intros l (? & ?).
    rewrite (level_of_frame _ _ _ Hf), Hlvl.
    split; [by eapply known_frame|done].
  - done.
  - rewrite Hlen, Hlvl. eapply Forall_impl; [exact H7|]. intros r Hr.
    by rewrite (proj1 (analysis_frame_var_of _ _ r Hf)).
  - by apply (reasons_ordered_frame st).
  - by rewrite Hm.
  - rewrite Hlc. destruct (learned_clauses st) as [|c ?]; [done|].
    by rewrite (get_clause_frame st s).
Qed.

Lemma reasons_ordered_marks st low todo : forall seen,
  reasons_ordered st low seen todo ->
  Forall (fun l => exists cl, reason_of st l = Some cl /\
            lits_size cl = length (lits cl) /\
            Forall (fun p => known st p /\
                      ((level_of st p < level st)%N ->
                       mark_index st p < length (marks st))) (lits cl)) todo.
Proof.
  induction todo as [|l todo IH]; intros seen; cbn [reasons_ordered];
    [constructor|].
  intros [H Hrest]. constructor; [|by eapply IH].
  destruct (reason_of st l) as [cl|]; [|done].
  destruct H as (Hsz & Hall & _). exists cl. split_and!; [done|done|].
  eapply Forall_impl; [exact Hall|]. intros p (? & _ & Hlow).
  split; [done|]. intros Hlt. by destruct (Hlow Hlt).
Qed.

Lemma all_false_count ms : Forall (eq false) ms -> count_true ms = 0.
Proof.
  induction 1 as [|b ms <- _ IH]; [done|]. by rewrite count_true_cons, IH.
Qed.

(** On a conflict that can be analysed, with enough fuel,
    [sat_build_asserting_clause] returns. *)
Lemma sat_build_asserting_clause_total fuel st low dec high :
  analysis_ready st low dec high -> analysis_fuel st <= fuel ->
  exists c s, sat_build_asserting_clause fuel st = Ok (c, s).
Proof.
  intros Hr Hfuel.
  destruct (sat_compute_UIP_total _ _ _ _ _ Hr Hfuel)
    as (s1 & u & j & E1 & Ha1 & Hm1 & Hd1 & Hu & Hj).
  pose proof (analysis_analysis_frame _ _ Ha1) as Hf1.
  pose proof (analysis_ready_frame _ _ _ _ _ Hf1 Hm1 Hr)
    as [Htr _ Hlow Hdec Hhigh Hnd _ Hre Hms Hlc].
  destruct Hdec as (Hkd & Hld & _).
  unfold analysis_fuel in Hfuel.
  replace (length (decided_literals st)) with (length (decided_literals s1))
    in Hfuel by (by destruct Hf1 as (_ & _ & _ & -> & _)).
  rewrite Htr, length_app in Hfuel. cbn [length] in Hfuel.
  unfold sat_build_asserting_clause.
  erewrite bind_run by exact E1.
  unfold bind at 1, gets at 1.
  replace (length (decided_literals s1) - 1) with (length low + length high)
    by (rewrite Htr, length_app; cbn [length]; lia).
  destruct (backward_sweep_total fuel s1 low dec high u j Htr Hnd Hd1 Hu)
    with (q := length high) (n := 1) (ms := marks s1)
    as (n & ms2 & E2 & Hlen2).
  { constructor; [done|]. eapply Forall_impl; [exact Hhigh|]. by intros l [? _]. }
  { by eapply reasons_ordered_marks. }
  { lia. }
  { lia. }
  { done. }
  rewrite st_with_marks_eta in E2.
  erewrite bind_run by exact E2.
  pose proof (backward_sweep_ge _ _ _ _ _ _ _ E2) as Hn.
  rewrite <- (st_with_marks_eta s1) in E2.
  apply (backward_sweep_spec _ _ low dec high) in E2
    as (ms2' & Hs2 & _ & Hcnt & _); [|done|].
  2: { destruct ((dec :: high) !! j) as [e|] eqn:He.
       - exists (length low + j), e. split; [lia|]. split.
         + by rewrite trail_lookup_cur.
         + change (lit_var <$> dec :: high) with (lit_var <$> (dec :: high)) in Hu.
           rewrite list_lookup_fmap, He in Hu. by injection Hu.
       - change (lit_var <$> dec :: high) with (lit_var <$> (dec :: high)) in Hu.
         by rewrite list_lookup_fmap, He in Hu. }
  assert (ms2' = ms2) as ->.
  { apply (f_equal marks) in Hs2. by cbn in Hs2. }
  clear Hs2. rewrite (all_false_count _ Hms) in Hcnt.
  set (s2 := st_with_marks ms2 s1).
  unfold bind at 1, gets at 1. cbn [learned_clauses st_with_marks].
  assert (exists last_id,
            (match learned_clauses s1 with
             | [] => do n0 <- gets clauses_size; ret (N.of_nat n0)
             | c :: _ => do cl <- read_clause_at c; ret (clause_id cl)
             end) s2 = Ok (last_id, s2)) as (last_id & E3).
  { destruct (learned_clauses s1) as [|c ?]; [by eexists|].
    destruct Hlc as [cl Hcl]. exists (clause_id cl).
    erewrite bind_run; [reflexivity|].
    apply read_clause_at_run. unfold s2. by rewrite get_clause_with_marks. }
  erewrite bind_run by exact E3.
  unfold bind at 1, lift_opt at 1, ret at 1.
  destruct (Hd1 j u Hj Hu) as (uv & _ & _ & Huv & _).
  erewrite bind_run
    by (apply read_var_run; unfold s2; rewrite get_var_with_marks; exact Huv).
  unfold push_lit at 1. cbn [lits lits_size init_Clause clause_with_assertion_level
                              length].
  rewrite (proj2 (Nat.ltb_lt 0 n)) by lia.
  unfold bind at 1, ret at 1.
  match goal with
  | |- exists c s, bind ?m _ _ = _ =>
      assert (exists r s, m s2 = Ok (r, s)) as (r & s3 & E4)
  end.
  { destruct (1 <? n); [|by eexists _, _].
    rewrite Htr. apply forward_sweep_total; [|done|done|].
    - eapply Forall_impl; [exact Hlow|]. intros l (? & ? & ?).
      split; [done|]. split; [lia|congruence].
    - cbn. lia. }
  erewrite bind_run by exact E4. unfold alloc_clause. eauto.
Qed.
(** The shape of the clause that is built, and the marks after the forward
    sweep. *)
Lemma asserting_clause_levels fuel (st : SatState) low dec high c s :
  conflict_trail st low dec high ->
  sat_build_asserting_clause fuel st = Ok (c, s) ->
  exists cl u uv others,
    get_clause s c = Some cl /\
    u ∈ current_vars dec high /\
    get_var s u = Some uv /\ d_level (decision uv) = level s /\
    lits cl = mkLitRef u (negb (d_value (decision uv))) :: others /\
    Forall (lower_literal s low) others /\
    assertion_level cl = foldr N.max 1%N (levels_of s others).
Proof.
  intros Hct H.
  destruct (sat_build_asserting_clause_trail _ _ _ _ _ _ _ Hct H)
    as (s2 & n & u & uv & others & cl & Hf & _ & Hu & Huv & Hl & -> & Hlits &
        _ & Hal & Hlow & Hs).
  assert (level s = level s2 /\ contradiction s = contradiction s2 /\
          vars s = vars s2 /\ heap s = heap s2 ++ [cl]) as (E1 & E2 & E3 & E4).
  { destruct (1 <? n); destruct Hs as [-> _]; by st_simpl. }
  exists cl, u, uv, others. split_and!.
  - cbn. rewrite E4. apply lookup_snoc.
  - done.
  - by rewrite (get_var_frame s2 s).
  - congruence.
  - done.
  - eapply Forall_impl; [exact Hlow|]. intros l. by apply lower_literal_frame.
  - by rewrite (levels_of_frame s2 s).
Qed.


Lemma analysis_marks_restored fuel (st : SatState) low dec high c s :
  conflict_trail st low dec high ->
  reasons_traced st low high ->
  Forall (eq false) (marks st) ->
  sat_build_asserting_clause fuel st = Ok (c, s) ->
  marks s = marks st /\
  exists cl, get_clause s c = Some cl /\ lits_size cl = length (lits cl).
Proof.
  intros Hct Hrt Hms H.
  destruct (sat_build_asserting_clause_trail _ _ _ _ _ _ _ Hct H)
    as (s2 & n & u & uv & others & cl & Hf & (s1 & Huip & Hback) & Hu & Huv &
        Hl & -> & Hlits & Hsz & Hal & Hlow & Hs).
  pose proof (sat_compute_UIP_marks _ _ _ _ Huip) as Hm1.
  apply sat_compute_UIP_analysis, analysis_analysis_frame in Huip.
  pose proof (conflict_trail_frame _ _ _ _ _ Huip Hct) as Hct1.
  pose proof (reasons_traced_frame _ _ _ _ Huip Hrt) as Hrt1.
  pose proof (ct_trail _ _ _ _ Hct1) as Htr.
  rewrite <- (st_with_marks_eta s1) in Hback.
  cbn [decided_literals st_with_marks] in Hback.
  apply (backward_sweep_spec _ _ low dec high) in Hback
    as (ms2 & -> & Hlen2 & Hcnt2 & Ht2); [|done|].
  2: { unfold current_vars in Hu.
       apply list_elem_of_fmap in Hu as (e & -> & He).
       apply list_elem_of_lookup_1 in He as [k Hk].
       exists (length low + k), e. split_and!; [lia| |by rewrite lookup_app_r,
         Nat.add_comm, Nat.add_sub by lia|done].
       apply lookup_lt_Some in Hk. rewrite Htr, length_app. lia. }
  rewrite Hm1 in Hcnt2, Ht2, Hlen2.
  assert (count_true (marks st) = 0) as Hz
    by by apply count_true_zero, all_false_no_true.
  set (sb := st_with_marks ms2 s1) in *.
  assert (Forall (eq false) (clear_marks sb low ms2)) as Hclear.
  { apply all_false_no_true. intros i Hi.
    apply clear_marks_true in Hi as [Hi Hall].
    destruct (Ht2 i Hi) as [Hold|Hreason].
    - by apply (all_false_no_true (marks st)) in Hold.
    - destruct Hreason as (l & v & c0 & cl0 & p & pv & Hl0 & Hv & Hi0 & Hc0 &
                           Hp & Hpv & Hlv & ->).
      destruct (Hrt1 l v c0 cl0 p pv) as (e & ev & He & Hev & Hid); try done.
      rewrite Forall_forall in Hall. apply (Hall e He).
      unfold var_of, sb. rewrite get_var_with_marks, Hev. cbn. congruence. }
  assert (length (clear_marks sb low ms2) = length (marks st)) as Hlenc
    by by rewrite clear_marks_length.
  destruct (Nat.ltb_spec 1 n) as [Hn|Hn].
  - destruct Hs as [-> Hcnt]. cbn [marks st_with_marks sb] in Hcnt.
    fold sb in Hcnt.
    assert (count_true (clear_marks sb low ms2) = 0) as Hz'
      by by apply count_true_zero, all_false_no_true.
    split.
    + st_simpl. by apply all_false_eq.
    + exists cl. split; [cbn; st_simpl; apply lookup_snoc|].
      rewrite Hlits, Hsz. cbn. lia.
  - destruct Hs as [-> ->]. split.
    + st_simpl. cbn. apply all_false_eq; [done|done|].
      apply all_false_no_true, count_true_zero.
      lia.
    + exists cl. split; [cbn; st_simpl; apply lookup_snoc|].
      rewrite Hlits, Hsz. cbn.
      lia.
Qed.


Lemma analysis_ready_conflict_trail st low dec high :
  analysis_ready st low dec high -> conflict_trail st low dec high.
Proof.
  intros [H1 H2 H3 H4 H5 H6 H7 H8 H9 H10]. split.
  - done.
  - done.
  - eapply Forall_impl; [exact H3|]. intros l (Hk & Hl & _).
    split; [apply Hk|]. exists (var_of st (lit_var l)).
    split; [by apply known_get|done].
  - destruct H4 as (Hk & Hl & Hn). split; [apply Hk|].
    exists (var_of st (lit_var dec)). split; [by apply known_get|done].
  - pose proof (reasons_ordered_implied _ _ _ _ H8) as Hi.
    pose proof (conj H5 Hi) as Hboth. apply Forall_and in Hboth.
    eapply Forall_impl; [exact Hboth|]. intros l [[Hk Hl] Hn]. cbn in *.
    split; [apply Hk|]. exists (var_of st (lit_var l)).
    split; [by apply known_get|done].
  - intros r v Hv Hl. rewrite Forall_forall in H7. apply H7.
    + destruct r as [|i]; [apply list_elem_of_here|].
      apply list_elem_of_further, list_elem_of_fmap. exists i. split; [done|].
      apply elem_of_seq. cbn in Hv. apply lookup_lt_Some in Hv. lia.
    + by rewrite (var_of_Some _ _ _ Hv).
Qed.

Lemma reasons_ordered_literals st low todo : forall seen l,
  reasons_ordered st low seen todo -> l ∈ todo ->
  exists cl seen', reason_of st l = Some cl /\
    Forall (reason_literal st low seen' l) (lits cl).
Proof.
  induction todo as [|x todo IH]; intros seen l; cbn [reasons_ordered].
  - intros _ Hin. by apply elem_of_nil in Hin.
  - intros [H Hrest] Hin. apply elem_of_cons in Hin as [->|Hin];
      [|by eapply IH].
    destruct (reason_of st x) as [cl|]; [|done].
    destruct H as (_ & Hall & _). eauto.
Qed.

Lemma analysis_ready_reasons_traced st low dec high :
  analysis_ready st low dec high -> reasons_traced st low high.
Proof.
  intros Hr l v c cl p pv Hl Hv Hc Hcl Hp Hpv Hlt.
  destruct (reasons_ordered_literals _ _ _ _ _ (ar_reasons _ _ _ _ Hr) Hl)
    as (cl' & seen' & Hre & Hall).
  unfold reason_of in Hre. rewrite (var_of_Some _ _ _ Hv), Hc, Hcl in Hre.
  injection Hre as <-.
  rewrite Forall_forall in Hall. destruct (Hall p Hp) as (_ & _ & Hlow).
  unfold level_of, mark_index in Hlow. rewrite (var_of_Some _ _ _ Hpv) in Hlow.
  destruct (Hlow Hlt) as [_ Hex].
  apply Exists_exists in Hex as (e & He & Hid).
  pose proof (ar_low _ _ _ _ Hr) as Hlows. rewrite Forall_forall in Hlows.
  destruct (Hlows e He) as (Hk & _).
  exists e, (var_of st (lit_var e)). split_and!; [done|by apply known_get|].
  unfold mark_index in Hid. by apply N2Nat.inj.
Qed.

(** On a conflict that can be analysed, with enough fuel,
    [sat_build_asserting_clause] returns an asserting clause and leaves the
    marks as they were. *)
Lemma sat_build_asserting_clause_ready fuel st low dec high :
  analysis_ready st low dec high -> analysis_fuel st <= fuel ->
  exists c s cl u uv others,
    sat_build_asserting_clause fuel st = Ok (c, s) /\
    get_clause st c = None /\ get_clause s c = Some cl /\
    (exists s1, sat_compute_UIP fuel st = Ok (Some u, s1)) /\
    u ∈ current_vars dec high /\
    get_var s u = Some uv /\ d_level (decision uv) = level s /\
    lits cl = mkLitRef u (negb (d_value (decision uv))) :: others /\
    lits_size cl = length (lits cl) /\
    Forall (lower_literal s low) others /\
    assertion_level cl = foldr N.max 1%N (levels_of s others) /\
    marks s = marks st.
Proof.
  intros Hr Hfuel.
  destruct (sat_build_asserting_clause_total _ _ _ _ _ Hr Hfuel)
    as (c & s & E).
  pose proof (analysis_ready_conflict_trail _ _ _ _ Hr) as Hct.
  pose proof (analysis_ready_reasons_traced _ _ _ _ Hr) as Hrt.
  destruct (asserting_clause_levels _ _ _ _ _ _ _ Hct E)
    as (cl & u & uv & others & Hc & Hu & Huv & Hlv & Hlits & Hlow & Hal).
  destruct (analysis_marks_restored _ _ _ _ _ _ _ Hct Hrt (ar_marks _ _ _ _ Hr) E)
    as (Hm & cl' & Hc' & Hsz).
  assert (cl' = cl) as -> by congruence.
  destruct (sat_build_asserting_clause_trail _ _ _ _ _ _ _ Hct E)
    as (s2 & n & u' & uv' & others' & cl2 & Hf & (s1 & Huip & _) & _ & _ &
        _ & Hceq & Hl2 & _ & _ & _ & Hs).
  assert (get_clause s c = Some cl2 /\ get_clause st c = None) as [Hc2 Hnew].
  { pose proof Hf as (_ & _ & Hheap & _). rewrite Hceq. split.
    - destruct (1 <? n); destruct Hs as [-> _]; cbn; st_simpl;
        apply lookup_snoc.
    - cbn. rewrite <- Hheap. by apply lookup_ge_None. }
  assert (cl2 = cl) as -> by congruence.
  assert (u' = u) as -> by congruence.
  exists c, s, cl, u, uv, others.
  split_and!; eauto.
Qed.

Lemma sat_build_asserting_clause_asserting fuel st low dec high :
  analysis_ready st low dec high -> analysis_fuel st <= fuel ->
  exists h s cl u,
    sat_build_asserting_clause fuel st = Ok (ClauseAt h, s) /\
    get_clause st (ClauseAt h) = None /\
    get_clause s (ClauseAt h) = Some cl /\
    (exists s1, sat_compute_UIP fuel st = Ok (Some u, s1)) /\
    asserting_clause s low dec high u cl /\
    marks s = marks st.
Proof.
  intros Hr Hfuel.
  destruct (sat_build_asserting_clause_ready _ _ _ _ _ Hr Hfuel)
    as (c & s & cl & u & uv & others & E & Hnew & Hc & Huip & Hu & Huv & Hlv &
        Hlits & Hsz & Hlow & Hal & Hm).
  destruct c as [|h]; [done|].
  exists h, s, cl, u. split_and!; try done.
  exists uv, others. by split_and!.
Qed.

(** [analysis_check] proves [analysis_ready] on a given state by
    evaluation. *)
Ltac analysis_check :=
  split;
  [ vm_compute; reflexivity
  | vm_compute; reflexivity
  | apply (bool_decide_unpack _); vm_compute; exact I
  | apply (bool_decide_unpack _); vm_compute; exact I
  | apply (bool_decide_unpack _); vm_compute; exact I
  | apply (bool_decide_unpack _); vm_compute; exact I
  | apply (bool_decide_unpack _); vm_compute; exact I
  | apply (bool_decide_unpack _); vm_compute; exact I
  | apply (bool_decide_unpack _); vm_compute; exact I
  | vm_compute; first [exact I | eexists; reflexivity] ].

(** The conflict met by the assertion of [-2 -1] in [st_V_undone] can be
    analysed. *)
Lemma analysis_ready_V :
  analysis_ready st_V_failed [] (pos_lit 1)
    [neg_lit 2; neg_lit 4; contradiction_pos].
Proof. analysis_check. Qed.
(** * The marks array and the other operations *)

Lemma undo_trail_marks k : forall st u s,
  undo_trail k st = Ok (u, s) -> marks s = marks st.
Proof.
  induction k as [|k IH]; intros st u s H; cbn [undo_trail] in H.
  - by minv H.
  - apply bind_Ok in H as (tr & s0 & E & H). minv E.
    destruct (last (decided_literals _)) as [lit|]; [|by minv H].
    apply bind_Ok in H as (owner & s1 & E3 & H). minv E3.
    apply bind_Ok in H as (v & s1 & E4 & H). minv E4.
    apply bind_Ok in H as (lvl & s1 & E5 & H). minv E5.
    match type of H with context [(?a =? ?b)%N] => destruct (a =? b)%N end;
      [|by minv H].
    apply bind_Ok in H as (u1 & s2 & E1 & H). minv E1.
    apply bind_Ok in H as (u2 & s3 & E2 & H).
    apply update_var_Ok in E2 as (v2 & Hv2 & ->).
    apply IH in H. rewrite H. by st_simpl.
Qed.

Lemma undo_subsumed_marks k : forall st u s,
  undo_subsumed k st = Ok (u, s) -> marks s = marks st.
Proof.
  induction k as [|k IH]; intros st u s H; cbn [undo_subsumed] in H.
  - by minv H.
  - apply bind_Ok in H as (log & s0 & E & H). minv E.
    destruct (subsumed_clauses _) as [|node log']; [by minv H|].
    apply bind_Ok in H as (u1 & s1 & E1 & H). minv E1.
    destruct node as [c|]; [|by minv H].
    apply bind_Ok in H as (u2 & s2 & E2 & H).
    apply update_clause_Ok in E2 as (cl & Hc & ->).
    apply IH in H. rewrite H. by st_simpl.
Qed.

Lemma sat_undo_unit_resolution_marks st u s :
  sat_undo_unit_resolution st = Ok (u, s) -> marks s = marks st.
Proof.
  unfold sat_undo_unit_resolution. intros H.
  apply bind_Ok in H as (tr & s0 & E & H). minv E.
  apply bind_Ok in H as (u1 & s1 & E1 & H). apply undo_trail_marks in E1.
  apply bind_Ok in H as (log & s2 & E & H). minv E.
  apply bind_Ok in H as (u2 & s3 & E2 & H). apply undo_subsumed_marks in E2.
  minv H. congruence.
Qed.

Lemma sat_undo_decide_literal_marks st u s :
  sat_undo_decide_literal st = Ok (u, s) -> marks s = marks st.
Proof.
  unfold sat_undo_decide_literal. intros H.
  apply bind_Ok in H as (u1 & s1 & E1 & H).
  apply sat_undo_unit_resolution_marks in E1. by minv H.
Qed.

Lemma set_Lit_Decision_marks lit implier st b s :
  set_Lit_Decision lit implier st = Ok (b, s) -> marks s = marks st.
Proof.
  intros H. apply set_Lit_Decision_Ok in H
    as (v & Hv & Hn & [(_ & _ & _ & ->)|[(_ & _ & _ & _ & ->)|(_ & _ & _ & E)]]).
  - unfold assigned_state. by st_simpl.
  - unfold conflict_state. by st_simpl.
  - apply sat_subsume_clause_quiet, quiet_kept in E. apply E.
Qed.

Lemma decide_propagate_marks lit st b s :
  decide_propagate lit st = Ok (b, s) -> marks s = marks st.
Proof.
  unfold decide_propagate. intros H.
  apply bind_Ok in H as (u1 & s1 & E1 & H). minv E1.
  apply bind_Ok in H as (u2 & s2 & E2 & H). minv E2.
  apply bind_Ok in H as (passed & s3 & E3 & H).
  apply set_Lit_Decision_marks in E3. st_simpl.
  destruct passed; [|by minv H].
  apply bind_Ok in H as (u4 & s4 & E4 & H). minv E4.
  apply sat_unit_resolution_outcome, outcome_kept in H.
  destruct H as (_ & H & _). st_simpl. congruence.
Qed.

Lemma assert_watch_marks c st w sa :
  assert_watch c st = Ok (w, sa) -> marks sa = marks st.
Proof.
  unfold assert_watch. intros H.
  apply bind_Ok in H as (u1 & s1 & E1 & H). minv E1.
  apply bind_Ok in H as (cl & s2 & E2 & H). minv E2.
  apply bind_Ok in H as (u3 & s3 & E3 & H).
  assert (marks s3 = marks st) as Hm.
  { clear H.
    change (marks st) with (marks (st_with_learned (c :: learned_clauses st) st)).
    revert E3. generalize (slots (lits_size cl) (lits cl)).
    generalize (st_with_learned (c :: learned_clauses st) st).
    intros s0 l. revert s0. induction l as [|x l IH]; intros s0 H; cbn in H.
    - by minv H.
    - apply bind_Ok in H as (u & s' & E & H).
      apply bind_Ok in E as (lit & s'' & E0 & E). minv E0.
      apply update_lit_Ok in E as (v & Hv & ->).
      apply IH in H. rewrite H. by st_simpl. }
  apply bind_Ok in H as (first & s4 & E4 & H).
  apply lift_opt_Ok in E4 as [_ ->].
  apply bind_Ok in H as (final & s5 & E5 & H).
  assert (s5 = s3) as ->.
  { destruct (lits_size cl); [by apply fault_Ok in E5|].
    by apply lift_opt_Ok in E5 as [_ ->]. }
  apply bind_Ok in H as (u6 & s6 & E6 & H).
  apply update_clause_Ok in E6 as (cl' & Hc' & ->). minv H. by st_simpl.
Qed.

Lemma assert_propagate_marks c st b s :
  assert_propagate c st = Ok (b, s) -> marks s = marks st.
Proof.
  unfold assert_propagate. intros H.
  apply bind_Ok in H as (w & sa & Ew & H). apply assert_watch_marks in Ew.
  apply bind_Ok in H as (passed & s1 & E1 & H).
  apply set_Lit_Decision_marks in E1.
  destruct passed; [|minv H; congruence].
  apply bind_Ok in H as (u2 & s2 & E2 & H). minv E2.
  apply bind_Ok in H as (u3 & s3 & E3 & H).
  apply update_lit_Ok in E3 as (v3 & Hv3 & ->).
  apply bind_Ok in H as (u4 & s4 & E4 & H).
  apply update_lit_Ok in E4 as (v4 & Hv4 & ->).
  apply sat_unit_resolution_outcome, outcome_kept in H.
  destruct H as (_ & H & _). st_simpl. congruence.
Qed.

Lemma core_step_marks st s : core_step st s -> marks s = marks st.
Proof.
  destruct 1 as [lit b s H|c b s H|s H|b s H|s H|c s H|var b s H|c b s H].
  - by eapply decide_propagate_marks.
  - by eapply assert_propagate_marks.
  - by eapply sat_undo_decide_literal_marks.
  - apply sat_unit_resolution_outcome, outcome_kept in H. apply H.
  - by eapply sat_undo_unit_resolution_marks.
  - apply sat_subsume_clause_quiet, quiet_kept in H. apply H.
  - destruct b; apply update_var_Ok in H as (v & Hv & ->); by st_simpl.
  - destruct b; apply update_clause_Ok in H as (cl & Hc & ->); by st_simpl.
Qed.

(** * The claims *)

(** ** The irrelevance test (C10) *)

(** C10: a variable both of whose appearance arrays are empty is irrelevant
    in every state: [sat_irrelevant_var] answers 1 without looking at any
    clause. *)
Theorem irrelevant_when_unmentioned (st : SatState) (var : VarRef) (v : Var) :
  get_var st var = Some v ->
  appears_size (var_pos v) = 0 ->
  appears_size (var_neg v) = 0 ->
  sat_irrelevant_var var st = Ok (true, st).
Proof.
  intros Hv Hp Hn. unfold sat_irrelevant_var, bind, read_var.
  rewrite Hv, Hp, Hn. reflexivity.
Qed.

Lemma irrelevant_when_unmentioned_witness :
  sat_irrelevant_var (VarAt 1) st_one_of_two = Ok (true, st_one_of_two).
Proof.
  apply (irrelevant_when_unmentioned st_one_of_two (VarAt 1)
           (var_of st_one_of_two (VarAt 1))); vm_compute; reflexivity.
Defined.

(** ** The assign routine (C5) *)

(** C5 (amended): with a non-null implier, assigning an implied literal
    subsumes the implier, answers OK and leaves the trail as it is; assigning
    a falsified literal stores the implier in the contradiction variable,
    appends the contradiction's positive literal to the trail and answers
    CONFLICT. *)
Theorem assign_instantiated_literal (st : SatState) (lit : LitRef) (v : Var) :
  get_var st (lit_var lit) = Some v ->
  lit <> contradiction_neg ->
  sat_instantiated_var v = true ->
  assign_on_instantiated st lit v.
Proof.
  intros Hv Hn Hi. split.
  - intros Himp c cl Hc. cbn zeta. split_and!.
    + by eapply set_Lit_Decision_implied.
    + by destruct (is_subsumed cl).
    + destruct (is_subsumed cl) eqn:Hs; [eauto|].
      unfold subsumed_state. st_simpl.
      rewrite (get_set_clause_eq _ _ _ _ Hc). eauto.
  - intros Himp implier Hcap. cbn zeta. split_and!; try done.
    by eapply set_Lit_Decision_falsified.
Qed.

Lemma assign_instantiated_literal_witness :
  assign_on_instantiated st_S1 (pos_lit 1) (var_of st_S1 (VarAt 0)).
Proof.
  apply assign_instantiated_literal;
    [vm_compute; reflexivity | discriminate | vm_compute; reflexivity].
Defined.

(** C5 as stated fails for a null implier: after construction on
    [p cnf 1 1 / 1 0] the literal 1 is implied, and assigning it again with
    no implier makes [set_Lit_Decision] hand the null pointer to
    [sat_subsume_clause], which dereferences it. *)
Lemma assign_implied_null_implier :
  implied_in true (var_of st_S1 (VarAt 0)) = true /\
  set_Lit_Decision (pos_lit 1) None st_S1 = Fault.
Proof. split; vm_compute; reflexivity. Qed.

(** ** Construction on an empty clause (C8) *)

(** C8: when the first clause of the file is empty, [read_sat_cnf] reads
    [clause->lits.item[0]] of an array of length 0: construction faults, it
    does not report unsatisfiability. *)
Theorem empty_first_clause_faults mem_var mem_clause n m rest :
  sat_state_new mem_var mem_clause (mkCnf n (S m) (0%Z :: rest)) = Fault.
Proof. reflexivity. Qed.

(** ** Undoing a decision (C4) *)

(** C4 (amended): after [decide(l); undo_decide()] the level, the trail, the
    subsumption log, the decision level of every variable of the CNF (hence
    which variables are instantiated) and the [is_subsumed] flag of every
    clause are those of the state before the decision, and the propagate
    queue is empty, whether or not the decision met a conflict.  The other
    fields of the decision records are not restored: in every variable the
    [value], [implied_by], [order] and [dominator] are those the decision
    and its propagation (and, on a conflict, its analysis) left. *)
Theorem decide_undo_round_trip fuel (st : SatState) (lit : LitRef) r st' :
  decide_ready st lit ->
  sat_decide_literal fuel lit st = Ok (r, st') ->
  exists st'',
    sat_undo_decide_literal st' = Ok (tt, st'') /\
    restored st st'' /\ stale_kept st' st''.
Proof.
  intros Hready H.
  cut (exists st'', sat_undo_decide_literal st' = Ok (tt, st'') /\
                    restored st st'').
  { intros (st'' & Hrun & Hres). exists st''. split_and!; [done|done|].
    by eapply sat_undo_decide_literal_stale. }
  pose proof Hready as (Hlv & Hreal & _ & _ & Htr).
  destruct (sat_decide_literal_undoable _ _ _ _ _ Hready H)
    as (base & new & news & Hu & Hbl & Hbt & Hblog & Hbv & Hbf).
  destruct (undo_undoable base st' new news (subsumed_clauses st) Hu)
    as (s & Hrun & Hl & Ht & Hlog & Hq & _ & _ & Hvl & Hfl).
  - done.
  - lia.
  - unfold trail_floor. rewrite Hbt.
    destruct (last (decided_literals st)) as [l0|] eqn:Hlast; [|done].
    apply last_Some in Hlast as (tr' & Hlast).
    rewrite Hlast in Htr. apply Forall_app in Htr as [_ Htr].
    apply Forall_singleton in Htr as (Hn & v & Hv & Hle). split; [done|].
    specialize (Hbv (lit_var l0)). unfold var_level in Hbv. rewrite Hv in Hbv.
    destruct (get_var base (lit_var l0)) as [v'|]; [|done].
    exists v'. split; [done|]. cbn in Hbv. injection Hbv as Hbv. lia.
  - exists (st_with_level (c2dSize_pred (level s)) s). split; [|split_and!].
    + unfold sat_undo_decide_literal. erewrite bind_run; [|exact Hrun]. done.
    + cbn. rewrite Hl, Hbl, <- (c2dSize_succ_pos _ Hlv).
      by apply c2dSize_pred_succ.
    + cbn. congruence.
    + done.
    + done.
    + intros i.
      change (var_level (st_with_level (c2dSize_pred (level s)) s) (VarAt i))
        with (var_level s (VarAt i)).
      rewrite Hvl. destruct (decide (VarAt i ∈ lit_var <$> new)) as [Hin|Hnin].
      * rewrite <- Hbv. symmetry. eapply ud_was_free; [exact Hu|exact Hin|done].
      * apply Hbv.
    + intros c Hc.
      assert (clause_flag (st_with_level (c2dSize_pred (level s)) s) c =
              clause_flag s c) as -> by by destruct c.
      rewrite Hfl. by apply Hbf.
Qed.
Lemma decide_undo_round_trip_witness :
  exists st'',
    sat_undo_decide_literal st_S4_conflict = Ok (tt, st'') /\
    restored st_S4 st'' /\ stale_kept st_S4_conflict st''.
Proof.
  apply (decide_undo_round_trip 8 st_S4 (neg_lit 3) (Some (ClauseAt 3))).
  - apply decide_readyb_sound. vm_compute. reflexivity.
  - vm_compute. reflexivity.
Defined.

(** C4 as stated fails on the decision records: undoing resets
    [decision.level] only.  Variable 1 of [p cnf 3 2 / -1 2 0 / -2 3 0] holds
    the value true after [decide(1); undo_decide()] and the value false after
    a further [decide(-1); undo_decide()]. *)
Lemma undo_keeps_stale_decision_fields :
  decide_readyb st_S3_undone (neg_lit 1) = true /\
  propagate_literals st_S3_undone = [] /\
  sat_undo_decide_literal (exec (sat_decide_literal 8 (neg_lit 1)) st_S3_undone)
    = Ok (tt, st_S3_undone_twice) /\
  d_value (decision (var_of st_S3_undone (VarAt 0))) = true /\
  d_value (decision (var_of st_S3_undone_twice (VarAt 0))) = false.
Proof. split_and!; vm_compute; reflexivity. Qed.

(** ** Construction and the propagate queue (C2) *)

(** C2 (amended): [sat_state_new] seeds the propagate queue and does not run
    unit resolution.  When it returns, the level is 1, no clause has been
    learned, and the queue is empty exactly when no original clause has
    exactly one literal; a [sat_unit_resolution] that succeeds leaves the
    queue empty.  On [p cnf 1 1 / 1 0] variable 1 is instantiated at level 1
    with value true and implier clause 1, the learned-clause count is 0,
    clause 1 is not subsumed and the queue holds the literal 1, until the
    first [sat_unit_resolution] subsumes clause 1 and empties the queue. *)
Theorem state_new_seeds_queue mem_var mem_clause (cnf : Cnf) (st : SatState) :
  sat_state_new mem_var mem_clause cnf = Ok st ->
  level st = 1%N /\
  sat_learned_clause_count st = Ok (0%N, st) /\
  (propagate_literals st = [] <->
   Forall (fun cl => length (lits cl) <> 1) (heap st)) /\
  (forall st', sat_unit_resolution st = Ok (true, st') ->
     propagate_literals st' = []) /\
  (cnf = cnf_S1 -> S1_constructed st).
Proof.
  intros H. split_and!.
  - by apply sat_state_new_Ok in H as (H1 & _).
  - apply sat_state_new_Ok in H as (_ & H2 & _).
    unfold sat_learned_clause_count. cbv [bind gets ret]. by rewrite H2.
  - apply sat_state_new_Ok in H as (_ & _ & _ & _ & _ & _ & H7 & _ & H9).
    rewrite H9, !Forall_forall. split; intros Hall cl Hcl.
    + specialize (Hall cl Hcl). lia.
    + specialize (Hall cl Hcl).
      destruct (proj1 (Forall_forall _ _) H7 cl Hcl) as (Hne & _).
      destruct (lits cl); [done|]. cbn in *. lia.
  - apply sat_unit_resolution_empties.
  - intros ->. vm_compute in H. injection H as <-.
    unfold S1_constructed. split_and!; try (vm_compute; reflexivity).
    eexists. split_and!; vm_compute; reflexivity.
Qed.

Lemma state_new_seeds_queue_witness :
  level st_S1 = 1%N /\
  sat_learned_clause_count st_S1 = Ok (0%N, st_S1) /\
  (propagate_literals st_S1 = [] <->
   Forall (fun cl => length (lits cl) <> 1) (heap st_S1)) /\
  (forall st', sat_unit_resolution st_S1 = Ok (true, st') ->
     propagate_literals st' = []) /\
  (cnf_S1 = cnf_S1 -> S1_constructed st_S1).
Proof.
  apply (state_new_seeds_queue mem_var0 mem_clause0 cnf_S1 st_S1).
  vm_compute. reflexivity.
Defined.

(** C2 as stated fails on [p cnf 1 1 / 1 0]: when [sat_state_new] returns,
    the literal 1 is still on the propagate queue and clause 1 is not
    subsumed. *)
Lemma state_new_leaves_unit_queued :
  sat_state_new mem_var0 mem_clause0 cnf_S1 = Ok st_S1 /\
  propagate_literals st_S1 <> [] /\
  sat_subsumed_clause (ClauseAt 0) st_S1 = Ok (false, st_S1).
Proof. split_and!; [vm_compute; reflexivity|discriminate|vm_compute; reflexivity]. Qed.

(** ** The second watch (C7) *)

(** C7 (amended): in every state a client can reach, the second watch of a
    clause of the CNF is null exactly when the clause has one literal.
    [sat_assert_clause] writes the first literal of the clause it asserts
    in [watch_a] and the last one, [lits.item[lits.size - 1]], in
    [watch_b].  When it returns, both watches are literals of the clause,
    and on a learned clause of size 1 the second watch is the only literal,
    like the first one; when the propagate queue was empty at the call, the
    watches are still the first and the last literal. *)
Theorem second_watch_of_clauses mem_var mem_clause cnf (st : SatState) :
  reachable mem_var mem_clause cnf st ->
  (forall h, h < clauses_size st ->
     exists cl, get_clause st (ClauseAt h) = Some cl /\
       (watch_b cl = None <-> length (lits cl) = 1)) /\
  (forall fuel c r st',
     sat_assert_clause fuel c st = Ok (r, st') ->
     exists cl first final sa cl',
       get_clause st c = Some cl /\
       lits cl !! 0 = Some first /\
       lits cl !! (lits_size cl - 1) = Some final /\
       assert_watch c st = Ok ((first, final), sa) /\
       get_clause sa c =
         Some (clause_with_watch_b (Some final)
                 (clause_with_watch_a (Some first) cl)) /\
       get_clause st' c = Some cl' /\
       lits cl' = lits cl /\ lits_size cl' = lits_size cl /\
       watched_in cl' /\
       (forall l, lits cl' = [l] ->
          watch_a cl' = Some l /\ watch_b cl' = Some l) /\
       (propagate_literals st = [] ->
          watch_a cl' = Some first /\ watch_b cl' = Some final)).
Proof.
  intros Hr. split.
  - intros h Hh. apply reachable_inv in Hr.
    destruct (inv_originals _ Hr h Hh) as (cl & Hc & _ & _ & Hw1 & Hw2).
    exists cl. split; [done|]. split.
    + intros Hb. destruct (decide (length (lits cl) = 1)) as [|Hne]; [done|].
      by destruct (Hw2 Hne).
    + intros Hlen. by destruct (Hw1 Hlen).
  - intros fuel c r st' H.
    pose proof H as H'.
    apply sat_assert_clause_watched in H'
      as (cl & cl' & Hc & Hc' & (_ & _ & Hsz & Hlits) & Hw).
    pose proof H as Hrun. unfold sat_assert_clause in Hrun.
    apply bind_Ok in Hrun as (passed & s1 & Ep & _).
    unfold assert_propagate in Ep.
    apply bind_Ok in Ep as ([first final] & sa & Ew & _).
    pose proof (assert_watch_Ok _ _ _ _ Ew)
      as (cl0 & Hc0 & H0 & Hlast & _ & _ & _ & Hca & _).
    cbn [fst snd] in *. simplify_eq.
    exists cl, first, final, sa, cl'. split_and!; try done.
    + intros l Hl. destruct Hw as [(a & Ha & Hina) (b & Hb & Hinb)].
      rewrite Hl in Hina, Hinb.
      apply list_elem_of_singleton in Hina as ->.
      apply list_elem_of_singleton in Hinb as ->. done.
    + intros Hq.
      destruct (sat_assert_clause_watches _ _ _ _ _ Hq H)
        as (cl1 & f1 & l1 & Hc1 & Hf1 & Hl1 & cl2 & Hc2 & Ha2 & Hb2).
      simplify_eq. by rewrite Ha2, Hb2.
Qed.

Lemma second_watch_of_clauses_witness :
  ((forall h, h < clauses_size st_S4_undone ->
      exists cl, get_clause st_S4_undone (ClauseAt h) = Some cl /\
        (watch_b cl = None <-> length (lits cl) = 1)) /\
   (forall fuel c r st',
      sat_assert_clause fuel c st_S4_undone = Ok (r, st') ->
      exists cl first final sa cl',
        get_clause st_S4_undone c = Some cl /\
        lits cl !! 0 = Some first /\
        lits cl !! (lits_size cl - 1) = Some final /\
        assert_watch c st_S4_undone = Ok ((first, final), sa) /\
        get_clause sa c =
          Some (clause_with_watch_b (Some final)
                  (clause_with_watch_a (Some first) cl)) /\
        get_clause st' c = Some cl' /\
        lits cl' = lits cl /\ lits_size cl' = lits_size cl /\
        watched_in cl' /\
        (forall l, lits cl' = [l] ->
           watch_a cl' = Some l /\ watch_b cl' = Some l) /\
        (propagate_literals st_S4_undone = [] ->
           watch_a cl' = Some first /\ watch_b cl' = Some final))) /\
  (exists cl first final cl',
     get_clause st_S4_undone (ClauseAt 3) = Some cl /\
     lits cl !! 0 = Some first /\
     lits cl !! (lits_size cl - 1) = Some final /\
     get_clause st_S4_asserted (ClauseAt 3) = Some cl' /\
     watch_a cl' = Some first /\ watch_b cl' = Some final).
Proof.
  pose proof (second_watch_of_clauses mem_var0 mem_clause0 cnf_S4 st_S4_undone)
    as H.
  assert (reachable mem_var0 mem_clause0 cnf_S4 st_S4_undone) as Hr.
  { eexists. split; [vm_compute; reflexivity|].
    eapply rtc_l; [apply (api_unit _ true); vm_compute; reflexivity|].
    eapply rtc_l; [apply (api_decide _ 8 (neg_lit 3) (Some (ClauseAt 3)));
                   vm_compute; reflexivity|].
    eapply rtc_l; [apply api_undo_decide; vm_compute; reflexivity|].
    vm_compute. apply rtc_refl. }
  specialize (H Hr). split; [exact H|].
  destruct H as [_ H].
  destruct (H 8 (ClauseAt 3) None st_S4_asserted)
    as (cl & first & final & sa & cl' & Hc & H0 & Hl & _ & _ & Hc' & _ & _ & _ &
        _ & Hq).
  { vm_compute. reflexivity. }
  exists cl, first, final, cl'.
  split; [exact Hc|]. split; [exact H0|]. split; [exact Hl|].
  split; [exact Hc'|]. apply Hq. vm_compute. reflexivity.
Defined.

(** C7 as stated fails on a learned clause of size 1.  On
    [p cnf 3 3 / 1 2 0 / -1 2 0 / -2 3 0], [decide(-3)] learns the clause
    [2]; after [undo_decide()], [sat_assert_clause] leaves the second
    watch of that clause on its only literal. *)
Lemma assert_unit_learned_clause_watch :
  sat_decide_literal 8 (neg_lit 3) st_S4 = Ok (Some (ClauseAt 3), st_S4_conflict) /\
  sat_assert_clause 8 (ClauseAt 3) st_S4_undone = Ok (None, st_S4_asserted) /\
  lits (clause_of st_S4_asserted (ClauseAt 3)) = [pos_lit 2] /\
  watch_b (clause_of st_S4_asserted (ClauseAt 3)) = Some (pos_lit 2).
Proof. split_and!; vm_compute; reflexivity. Qed.

(** On [p cnf 4 4 / -1 -2 3 0 / -1 -2 -3 0 / -1 2 4 0 / -1 2 -4 0] the
    clause [-2 -1] learned by [decide(1); decide(2)] has no watch as long as
    it is not asserted.  Asserted at level 2 with an empty queue, it has its
    first literal as first watch and its last literal as second watch when
    [sat_assert_clause] returns. *)
Example assert_learned_clause_watches :
  lits (clause_of st_V_undone (ClauseAt 4)) = [neg_lit 2; neg_lit 1] /\
  watch_a (clause_of st_V_undone (ClauseAt 4)) = None /\
  watch_b (clause_of st_V_undone (ClauseAt 4)) = None /\
  propagate_literals st_V_undone = [] /\
  (exists r s, sat_assert_clause 8 (ClauseAt 4) st_V_undone = Ok (r, s) /\
     watch_a (clause_of s (ClauseAt 4)) = Some (neg_lit 2) /\
     watch_b (clause_of s (ClauseAt 4)) = Some (neg_lit 1)).
Proof.
  do 4 (split; [vm_compute; reflexivity|]).
  eexists _, _. split_and!; vm_compute; reflexivity.
Qed.

(** ** Conflicts met by [sat_assert_clause] (C6) *)

(** The state [st_V_stale] is reached by calls of the interface, and the
    clause [-2 -1] learned on the way is at its assertion level there. *)
Lemma st_V_stale_reachable :
  reachable mem_var0 mem_clause0 cnf_V st_V_stale /\
  sat_decide_literal 8 (pos_lit 2) (exec (sat_decide_literal 8 (pos_lit 1)) st_V)
    = Ok (Some (ClauseAt 4), st_V_learned) /\
  lits (clause_of st_V_stale (ClauseAt 4)) = [neg_lit 2; neg_lit 1] /\
  sat_at_assertion_level (ClauseAt 4) st_V_stale = Ok (true, st_V_stale) /\
  level st_V_stale = 2%N /\ propagate_literals st_V_stale = [].
Proof.
  split; [|split_and!; vm_compute; reflexivity].
  eexists. split; [vm_compute; reflexivity|].
  eapply rtc_l; [apply (api_unit _ true); vm_compute; reflexivity|].
  eapply rtc_l; [apply (api_decide _ 8 (pos_lit 1) None);
                 vm_compute; reflexivity|].
  eapply rtc_l; [apply (api_decide _ 8 (pos_lit 2) (Some (ClauseAt 4)));
                 vm_compute; reflexivity|].
  eapply rtc_l; [apply api_undo_decide; vm_compute; reflexivity|].
  eapply rtc_l; [apply api_undo_decide; vm_compute; reflexivity|].
  eapply rtc_l; [apply (api_decide _ 8 (pos_lit 2) None);
                 vm_compute; reflexivity|].
  vm_compute. apply rtc_refl.
Qed.



(** The two cases on concrete inputs: at level 1 the sentinel is returned;
    at level 2, where the conflict can be analysed, a clause that was not
    there, here the clause [-1]. *)
Example assert_conflict_at_both_levels :
  level st_U_undone = 1%N /\
  sat_assert_clause 8 (ClauseAt 4) st_U_undone = Ok (Some FalseClause, st_U_failed) /\
  level st_V_undone = 2%N /\
  assert_propagate (ClauseAt 4) st_V_undone = Ok (false, st_V_failed) /\
  analysis_ready st_V_failed [] (pos_lit 1)
    [neg_lit 2; neg_lit 4; contradiction_pos] /\
  analysis_fuel st_V_failed = 15 /\
  get_clause st_V_failed (ClauseAt 5) = None /\
  (exists s, sat_assert_clause 15 (ClauseAt 4) st_V_undone = Ok (Some (ClauseAt 5), s) /\
     lits (clause_of s (ClauseAt 5)) = [neg_lit 1] /\
     lits_size (clause_of s (ClauseAt 5)) = 1 /\
     assertion_level (clause_of s (ClauseAt 5)) = 1%N).
Proof.
  do 4 (split; [vm_compute; reflexivity|]).
  split; [exact analysis_ready_V|].
  do 2 (split; [vm_compute; reflexivity|]).
  eexists. split_and!; vm_compute; reflexivity.
Qed.


(** ** The clause that is learned (C1) *)



(** On [p cnf 4 4 / -1 2 0 / -1 3 0 / -2 -3 4 0 / -4 0], [decide(1)] at
    level 2 implies 2 and 3 and meets a conflict on [-2 -3 4]: the clause
    that is learned is [-1 4], with assertion level 1. *)
Example asserting_clause_S5 :
  decide_propagate (pos_lit 1) st_S5 = Ok (false, st_S5_failed) /\
  (exists s, sat_decide_literal 18 (pos_lit 1) st_S5 = Ok (Some (ClauseAt 4), s) /\
     lits (clause_of s (ClauseAt 4)) = [neg_lit 1; pos_lit 4] /\
     lits_size (clause_of s (ClauseAt 4)) = 2 /\
     assertion_level (clause_of s (ClauseAt 4)) = 1%N /\
     level s = 2%N /\
     d_level (decision (var_of s (VarAt 0))) = 2%N /\
     d_level (decision (var_of s (VarAt 3))) = 1%N).
Proof.
  split; [vm_compute; reflexivity|].
  eexists. split_and!; vm_compute; reflexivity.
Qed.


(** ** The marks of conflict analysis (C9) *)




(** ** The watch loop (C3) *)

(** C3: [propagate_lit_decision] on a literal [l] returns [b] in the state
    [s] exactly when [propagation l st b s] holds: after the clauses in
    which [l] appears are subsumed, the clauses of the watch list of the
    complement of [l] are visited in turn, and each turn is one of the rules
    of [watch_turns].  A subsumed clause is passed over.  On a clause that
    is not subsumed, the scan passes over falsified literals and over free
    literals that are watched; the first free literal that is not watched
    becomes the watch in place of the complement of [l]; an implied literal
    met before that subsumes the clause.  When the scan finds nothing, a
    missing or falsified other watch records a conflict with the clause as
    implier and ends the propagation with the answer [false], an implied
    one subsumes the clause, and a free one is assigned with the clause as
    [implied_by] and appended to the propagate queue. *)
Theorem propagation_turn_by_turn (lit : LitRef) (st : SatState) (b : bool)
    (s : SatState) :
  propagate_lit_decision lit st = Ok (b, s) <-> propagation lit st b s.
Proof.
  unfold propagate_lit_decision, propagation. split.
  - intros H.
    apply bind_Ok in H as (r & s0 & E & H).
    apply lit_owner_Ok in E as (-> & -> & Hn).
    apply bind_Ok in H as (l & s0 & E & H).
    apply read_lit_Ok in E as (v & Hv & -> & ->).
    apply bind_Ok in H as (u1 & s1 & E1 & H).
    apply for_each_slots_subsumes in E1 as (cs & Hcs & E1).
    apply bind_Ok in H as (u2 & s2 & E2 & H).
    apply for_each_subsumes in E2.
    apply bind_Ok in H as (cl & s3 & E3 & H).
    apply read_lit_Ok in E3 as (v2 & Hv2 & -> & ->).
    apply watch_loop_turns in H.
    split; [done|]. exists v, cs, s1, s2, v2. by split_and!.
  - intros (Hn & v & cs & s1 & s2 & v2 & Hv & Hcs & E1 & E2 & Hv2 & H).
    cbn zeta in H. apply turns_watch_loop in H.
    erewrite bind_run by (by apply lit_owner_run).
    erewrite bind_run by (by apply read_lit_run).
    erewrite (bind_run _ _ _ tt) by (apply for_each_slots_subsumes; eauto).
    erewrite (bind_run _ _ _ tt) by (by apply for_each_subsumes).
    erewrite bind_run; [exact H|].
    by apply (read_lit_run (mkLitRef _ _)).
Qed.

(** On [p cnf 4 4 / -1 -2 3 0 / -1 -2 -3 0 / -1 2 4 0 / -1 2 -4 0], once 1
    is true at level 2, the propagation of 1 visits the four clauses of the
    watch list of [-1]. *)
Lemma propagation_turn_by_turn_witness :
  propagation (pos_lit 1) st_V_assigned true st_V_propagated.
Proof.
  apply (proj1 (propagation_turn_by_turn _ _ _ _)).
  vm_compute. reflexivity.
Defined.

(** In that propagation the watch list of [-1] holds the clauses 4, 3, 2
    and 1 of the file.  In each of them [-1] is falsified, the second
    literal is free and watched, and the third literal replaces [-1]: in
    the end no clause watches [-1], and the clause [-1 -2 3] watches [3] and
    [-2]. *)
Example propagation_replaces_watches :
  watch_list (var_neg (var_of st_V_assigned (VarAt 0)))
    = [ClauseAt 3; ClauseAt 2; ClauseAt 1; ClauseAt 0] /\
  lits (clause_of st_V_assigned (ClauseAt 0)) = [neg_lit 1; neg_lit 2; pos_lit 3] /\
  watch_a (clause_of st_V_assigned (ClauseAt 0)) = Some (neg_lit 1) /\
  watch_b (clause_of st_V_assigned (ClauseAt 0)) = Some (neg_lit 2) /\
  sat_unwatched_literal (ClauseAt 0) st_V_assigned = Ok (Some (pos_lit 3), st_V_assigned) /\
  propagate_lit_decision (pos_lit 1) st_V_assigned = Ok (true, st_V_propagated) /\
  watch_list (var_neg (var_of st_V_propagated (VarAt 0))) = [] /\
  watch_a (clause_of st_V_propagated (ClauseAt 0)) = Some (pos_lit 3) /\
  watch_b (clause_of st_V_propagated (ClauseAt 0)) = Some (neg_lit 2) /\
  head (watch_list (var_pos (var_of st_V_propagated (VarAt 2)))) = Some (ClauseAt 0).
Proof. split_and!; vm_compute; reflexivity. Qed.

(** With 1 and 2 true, the propagation of 2 visits the watch list of [-2].
    It finds no replacement in [-1 -2 -3], whose other watch [-3] is free:
    [-3] is assigned with that clause as [implied_by] and enqueued.  It then
    finds no replacement in [-1 -2 3], whose other watch [3] is now
    falsified: the contradiction variable gets that clause as [implied_by]
    and the propagation answers [false]. *)
Example propagation_implies_then_conflicts :
  watch_list (var_neg (var_of st_V_second (VarAt 1))) = [ClauseAt 1; ClauseAt 0] /\
  propagate_lit_decision (pos_lit 2) st_V_second = Ok (false, st_V_implied) /\
  d_implied_by (decision (var_of st_V_implied (VarAt 2))) = Some (ClauseAt 1) /\
  d_value (decision (var_of st_V_implied (VarAt 2))) = false /\
  d_level (decision (var_of st_V_implied (VarAt 2))) = 3%N /\
  propagate_literals st_V_implied = [pos_lit 2; neg_lit 3] /\
  d_implied_by (decision (contradiction st_V_implied)) = Some (ClauseAt 0) /\
  last (decided_literals st_V_implied) = Some contradiction_pos.
Proof. split_and!; vm_compute; reflexivity. Qed.
